(** * PacmanEvolution: the decision-making core, embedded and verified

    A shallow embedding of the grid/vector primitives ([pacman/util.py],
    [pacman/array.py]), the world state machine ([pacman/gamestate.py]), the
    search representations and algorithms ([pacman/search.py], [ass2.py]) and
    the adversarial agents ([ass4.py]); and, for the last part, the layouts
    ([pacman/layouts.py]), the agents of [pacman/agents.py] and the game
    loop ([pacman/game.py]).

    Python values are modelled as follows.
    - [int] is [Z]; a list is a [list]; [None] in a slot is [option].
    - An exception is a value of [exn]; fallible code returns [result].
    - Methods that mutate [self] are functions in the state-and-exception
      monad [M]: the state that was reached when an exception is raised is
      kept, as it is in Python.
    - A [set] is a [gset].
    - Where a property is about objects that are shared (what a method
      writes and what it leaves alone), the methods are modelled over a
      store of objects, in the module [Store]. *)

From Stdlib Require Import Ascii.
From stdpp Require Import gmap list sets sorting.

Local Open Scope Z_scope.

(** ** Python exceptions and fallible results *)

Inductive exn : Type :=
| IndexError
| TypeError
| ValueError
| RuntimeError_wall (agent_id : nat) (x y : Z).

Inductive result (A : Type) : Type :=
| Ok (a : A)
| Raise (e : exn).
Arguments Ok {A} a.
Arguments Raise {A} e.

#[global] Instance exn_eq_dec : EqDecision exn.
Proof. solve_decision. Defined.
#[global] Instance result_eq_dec {A} `{EqDecision A} : EqDecision (result A).
Proof. solve_decision. Defined.

#[global] Instance result_ret : MRet result := fun _ a => Ok a.
#[global] Instance result_bind : MBind result := fun _ _ f r =>
  match r with Ok a => f a | Raise e => Raise e end.
#[global] Instance result_fmap : FMap result := fun _ _ f r =>
  match r with Ok a => Ok (f a) | Raise e => Raise e end.

(** [len(l)] *)
Definition len {A} (l : list A) : Z := Z.of_nat (length l).

(** [l[i]] for a Python list: a negative index counts from the end, an index
    out of range raises [IndexError]. *)
Definition py_pos {A} (l : list A) (i : Z) : result nat :=
  let j := if i <? 0 then i + len l else i in
  if (0 <=? j) && (j <? len l) then Ok (Z.to_nat j) else Raise IndexError.

Definition py_get {A} (l : list A) (i : Z) : result A :=
  n ← py_pos l i;
  match l !! n with Some a => Ok a | None => Raise IndexError end.

(** [l[i] = v] *)
Definition py_set {A} (l : list A) (i : Z) (v : A) : result (list A) :=
  n ← py_pos l i; Ok (<[n := v]> l).

(** Indexing by an index that is known not to be negative. *)
Definition nat_get {A} (l : list A) (i : nat) : result A :=
  match l !! i with Some a => Ok a | None => Raise IndexError end.

Definition nat_set {A} (l : list A) (i : nat) (v : A) : result (list A) :=
  if decide (i < length l)%nat then Ok (<[i := v]> l) else Raise IndexError.

(** ** pacman/util.py *)

(** [Vector]: a named tuple of two integers. *)
Record Vector : Type := mkVector { vx : Z; vy : Z }.

#[global] Instance Vector_eq_dec : EqDecision Vector.
Proof. solve_decision. Defined.

#[global] Instance Vector_countable : Countable Vector.
Proof.
  refine (inj_countable' (fun v => (vx v, vy v)) (fun p => mkVector p.1 p.2) _).
  by intros [].
Defined.

Module Vector.
(** [Vector.zero] *)
Definition zero : Vector := mkVector 0 0.
(** [Vector.__add__] with a [Vector] operand *)
Definition add (a b : Vector) : Vector := mkVector (vx a + vx b) (vy a + vy b).
(** [Vector.__sub__] with a [Vector] operand *)
Definition sub (a b : Vector) : Vector := mkVector (vx a - vx b) (vy a - vy b).
(** [Vector.__abs__] *)
Definition abs (a : Vector) : Vector := mkVector (Z.abs (vx a)) (Z.abs (vy a)).

End Vector.

Module Move.
(** [class Move(enum.Enum)]; the declaration order is the order of [list(Move)]. *)
Inductive t : Type := up | down | right | left | stop.

#[global] Instance eq_dec : EqDecision t.
Proof. solve_decision. Defined.

(** [list(Move)] *)
Definition all : list t := [up; down; right; left; stop].

(** [Move.vector] *)
Definition vector (m : t) : Vector :=
  match m with
  | up => mkVector 0 1
  | down => mkVector 0 (-1)
  | right => mkVector 1 0
  | left => mkVector (-1) 0
  | stop => mkVector 0 0
  end.

(** [Move.index]: [list(Move).index(self)] *)
Definition index (m : t) : Z :=
  match m with up => 0 | down => 1 | right => 2 | left => 3 | stop => 4 end.

(** [Move.by_index]: [list(cls)[i]] *)
Definition by_index (i : Z) : result t := py_get all i.

(** [Move.opposite] *)
Definition opposite (m : t) : result t :=
  if decide (m = stop) then Ok stop
  else by_index (index m + 1 - 2 * (index m `mod` 2)).

(** [Move.no_stop] *)
Definition no_stop : list t := filter (fun m => m ≠ stop) all.

#[global] Instance countable : Countable t.
Proof.
  refine (inj_countable' (fun m => Z.to_nat (index m))
            (fun n => match n with
                      | O => up | 1%nat => down | 2%nat => right
                      | 3%nat => left | _ => stop end) _).
  by intros [].
Defined.
End Move.

(** [manhattan]: [sum(abs(vector1 - vector2))], the sum of the two components *)
Definition manhattan (vector1 vector2 : Vector) : Z :=
  let d := Vector.abs (Vector.sub vector1 vector2) in 0 + vx d + vy d.

(** ** pacman/layouts.py *)

Module LayoutObject.
Inductive t : Type := empty | wall | pacman | ghost | ghost_scared | dot | pellet.

#[global] Instance eq_dec : EqDecision t.
Proof. solve_decision. Defined.
(** [LayoutObject.from_symbol]; a symbol is a character of a layout file.
    The keys of the switch are the values of the enumeration and the digits
    1 to 3, which stand for the ghosts of the three types; any other symbol
    is a [ValueError]. *)
Definition from_symbol (symbol : ascii) : result t :=
  match symbol with
  | " "%char => Ok empty
  | "%"%char => Ok wall
  | "P"%char => Ok pacman
  | "G"%char => Ok ghost
  | "S"%char => Ok ghost_scared
  | "."%char => Ok dot
  | "o"%char => Ok pellet
  | "1"%char | "2"%char | "3"%char => Ok ghost
  | _ => Raise ValueError
  end.

End LayoutObject.

(** ** pacman/array.py *)

Module Array.
Section Array.
Context {A : Type} `{EqDecision A}.

(** The field [_array]: a list of columns. The caches [_cache_indicate] and
    [_cache_list] are cleared by every [__setitem__], the only mutation, so
    that a cached value is always the value computed afresh; the value model
    computes afresh. *)
Abbreviation Array := (list (list A)).

(** [Array.contains]; [and] is evaluated left to right and short-circuits,
    so [self._array[0]] is read only when the array has a column. *)
Definition contains (a : Array) (x y : Z) : result bool :=
  if (0 <=? x) && (x <? len a) then
    c0 ← py_get a 0; Ok ((0 <=? y) && (y <? len c0))
  else Ok false.

(** [Array.shape] *)
Definition shape (a : Array) : result Vector :=
  match a with
  | [] => Ok Vector.zero
  | _ :: _ => c0 ← py_get a 0; Ok (mkVector (len a) (len c0))
  end.

(** [Array.__getitem__] at a 2-tuple *)
Definition getitem (a : Array) (x y : Z) : result (option A) :=
  b ← contains a x y;
  if b : bool then
    c ← py_get a x; v ← py_get c y; Ok (Some v)
  else Ok None.

(** [Array.__setitem__] at a 2-tuple: [self._array[x][y] = value] *)
Definition setitem (a : Array) (x y : Z) (v : A) : result Array :=
  c ← py_get a x; c' ← py_set c y v; py_set a x c'.

(** [zip] applied to the unpacked columns: the i-th tuple holds the i-th
    element of every column; it stops at the shortest column, and yields
    nothing when there is no column. *)
Fixpoint zip_star_from (c0 : list A) (rest : Array) : Array :=
  match c0 with
  | [] => []
  | h :: t =>
      match mapM head rest with
      | Some hs => (h :: hs) :: zip_star_from t (tail <$> rest)
      | None => []
      end
  end.

Definition zip_star (cols : Array) : Array :=
  match cols with
  | [] => []
  | c0 :: rest => zip_star_from c0 rest
  end.

(** [Array.transpose] *)
Definition transpose (a : Array) : Array := zip_star a.

(** [Array.mirror_hor] *)
Definition mirror_hor (a : Array) : Array := reverse a.

(** [Array.mirror_ver] *)
Definition mirror_ver (a : Array) : Array := transpose (mirror_hor (transpose a)).

(** [Array.copy] *)
Definition copy (a : Array) : Array := (fun column => column) <$> a.

(** [Array.__eq__] between two arrays of the same class *)
Definition eq (a b : Array) : bool := bool_decide (a = b).

(** [itertools.product(range(n), range(m))] *)
Definition product_range (n m : Z) : list (Z * Z) :=
  x ← seqZ 0 n; y ← seqZ 0 m; [(x, y)].

(** [Array.list]: the coordinates, column by column, at which the array holds
    [value]. *)
Definition list_ (a : Array) (value : A) : result (list Vector) :=
  s ← shape a;
  foldl (fun acc xy =>
           r ← acc;
           c ← py_get a xy.1; v ← py_get c xy.2;
           Ok (if decide (v = value) then r ++ [mkVector xy.1 xy.2] else r))
        (Ok []) (product_range (vx s) (vy s)).

(** [Array.coords]: a [Vector] for every pair of the product of the two
    ranges that [shape] gives *)
Definition coords (a : Array) : result (list Vector) :=
  s ← shape a;
  Ok ((fun t : Z * Z => mkVector t.1 t.2) <$> product_range (vx s) (vy s)).

(** [Array.__len__] *)
Definition len_ (a : Array) : Z := len a.

(** A grid is rectangular when all its columns have the same height. *)
Definition rectangular (a : Array) : Prop :=
  Forall (fun c => length c = length (default [] (head a))) a.

End Array.

(** [IndicatorArray]: [_lst] is the list it was built from, [_value] the
    value it indicates, and its own [_array] holds [_full_indicators()]. *)
Record IndicatorArray (A : Type) : Type := mkIndicator {
  _lst : list (list A);
  _value : A;
  _array : list (list bool);
}.
Arguments mkIndicator {A}.
Arguments _lst {A}.
Arguments _value {A}.
Arguments _array {A}.

(** [map_2d(lambda v: v == value, lst)] *)
Definition full_indicators {A} `{EqDecision A} (lst : list (list A)) (value : A)
  : list (list bool) :=
  (fun r : list A => (fun e : A => bool_decide (e = value)) <$> r) <$> lst.

(** [Array.indicate] *)
Definition indicate {A} `{EqDecision A} (a : list (list A)) (value : A)
  : IndicatorArray A :=
  mkIndicator a value (full_indicators a value).

(** [IndicatorArray.__getitem__] *)
Definition ind_getitem {A} (i : IndicatorArray A) (x y : Z) : result (option bool) :=
  getitem (_array i) x y.

(** [IndicatorArray.list()] *)
Definition ind_list {A} (i : IndicatorArray A) : result (list Vector) :=
  list_ (_array i) true.

(** [IndicatorArray.transpose]: the indicator of the transposed [_lst] *)
Definition ind_transpose {A} `{EqDecision A} (i : IndicatorArray A)
  : IndicatorArray A :=
  indicate (zip_star (_lst i)) (_value i).

(** [IndicatorArray.mirror_hor] *)
Definition ind_mirror_hor {A} `{EqDecision A} (i : IndicatorArray A)
  : IndicatorArray A :=
  indicate (reverse (_lst i)) (_value i).

(** [IndicatorArray.mirror_ver]: [self.transpose.mirror_hor.transpose] *)
Definition ind_mirror_ver {A} `{EqDecision A} (i : IndicatorArray A)
  : IndicatorArray A :=
  ind_transpose (ind_mirror_hor (ind_transpose i)).

(** [IndicatorArray.copy] *)
Definition ind_copy {A} `{EqDecision A} (i : IndicatorArray A)
  : IndicatorArray A :=
  indicate ((fun column => column) <$> _lst i) (_value i).

(** [IndicatorArray.__len__]: [len(self.list())] *)
Definition ind_len {A} (i : IndicatorArray A) : result Z :=
  l ← ind_list i; Ok (len l).

(** [IndicatorArray.__bool__]: [bool(self.list())] *)
Definition ind_bool {A} (i : IndicatorArray A) : result bool :=
  l ← ind_list i; Ok (bool_decide (l ≠ [])).

(** [IndicatorArray.__eq__] between two indicator arrays *)
Definition ind_eq {A} `{EqDecision A} (i j : IndicatorArray A) : bool :=
  bool_decide (_value i = _value j) && bool_decide (_lst i = _lst j).

(** [IndicatorArray.__setitem__] *)
Definition ind_setitem {A} (i : IndicatorArray A) (x y : Z) (v : bool)
  : result (IndicatorArray A) :=
  Raise ValueError.

(** Truth value of what an indicator lookup returns: [None] is falsy. *)
Definition truthy (o : option bool) : bool := default false o.

End Array.

(** ** pacman/layouts.py: loading a layout *)

Module GhostType.
(** [class GhostType(enum.Enum)] *)
Inductive t : Type := no_ghost | track_ghost | random_ghost | chasing_ghost.

#[global] Instance eq_dec : EqDecision t.
Proof. solve_decision. Defined.

(** [GhostType.from_symbol] *)
Definition from_symbol (symbol : ascii) : t :=
  if decide (symbol = "1"%char) then track_ghost
  else if decide (symbol = "2"%char ∨ symbol = "G"%char) then random_ghost
  else if decide (symbol = "3"%char) then chasing_ghost
  else no_ghost.
End GhostType.

Module Layouts.

(** [a <= b] on vectors, which Python compares as tuples *)
Definition vector_leb (a b : Vector) : bool :=
  (vx a <? vx b) || ((vx a =? vx b) && (vy a <=? vy b)).

(** [sorted(l, key=key)] with vectors for keys. The sort is stable: an
    element goes before the elements behind it whose key is not less. *)
Fixpoint sorted_insert {A} (key : A → Vector) (x : A) (l : list A) : list A :=
  match l with
  | [] => [x]
  | y :: l' =>
      if vector_leb (key x) (key y) then x :: l else y :: sorted_insert key x l'
  end.

Definition sorted {A} (key : A → Vector) (l : list A) : list A :=
  foldr (sorted_insert key) [] l.

(** [load_layout], from the lines of the file once they are read and
    stripped: [symbols] holds the characters of each line. *)
Definition load_layout (symbols : list (list ascii))
  : result (list (list LayoutObject.t) * list (GhostType.t * Vector)) :=
  objects ← mapM (M := result) (mapM (M := result) LayoutObject.from_symbol) symbols;
  let ghost_types : list (list GhostType.t) :=
    (fun r : list ascii => GhostType.from_symbol <$> r) <$> symbols in
  row0 ← py_get ghost_types 0;
  let shape := (len ghost_types, len row0) in
  ghosts ← foldl (fun acc xy =>
                    ghosts ← acc;
                    row ← py_get ghost_types xy.1; ghost_type ← py_get row xy.2;
                    Ok (if decide (ghost_type ≠ GhostType.no_ghost)
                        then ghosts ++ [(ghost_type,
                                         mkVector xy.2 (shape.1 - xy.1 - 1))]
                        else ghosts))
                 (Ok []) (Array.product_range shape.1 shape.2);
  Ok (Array.mirror_ver (Array.transpose (Array.copy objects)),
      sorted snd ghosts).

End Layouts.

(** ** pacman/gamestate.py *)

Module Gamestate.

(** The fields of a [Gamestate] object. *)
Record t : Type := mk {
  _statics : list (list LayoutObject.t);
  agents : list (option Vector);
  starts : list (option Vector);
  facings : list Move.t;
  _timers : list Z;
  score : Z;
  _tick : Z;
}.

Definition PACMAN_ID : nat := 0.
Definition SCARED_TIME : Z := 40.
Definition SCORE_GET_DOT : Z := 10.
Definition SCORE_GET_ALL_DOTS : Z := 500.
Definition SCORE_GET_PELLET : Z := 5.
Definition SCORE_GET_GHOST : Z := 200.
Definition SCORE_TICK_PENALTY : Z := -1.
Definition SCORE_DIE_PENALTY : Z := -500.
Definition MAX_TICKS : Z := 100.

(** *** The monad of methods that mutate [self] *)

Definition M (A : Type) : Type := t → result A * t.

#[global] Instance M_ret : MRet M := fun _ a g => (Ok a, g).
#[global] Instance M_bind : MBind M := fun _ _ f m g =>
  match m g with
  | (Ok a, g') => f a g'
  | (Raise e, g') => (Raise e, g')
  end.

Definition raise {A} (e : exn) : M A := fun g => (Raise e, g).
Definition get : M t := fun g => (Ok g, g).
Definition put (g' : t) : M unit := fun _ => (Ok tt, g').
(** A computation that reads [self] and may raise, without writing. *)
Definition read {A} (f : t → result A) : M A := fun g => (f g, g).
Definition lift {A} (r : result A) : M A := fun g => (r, g).
Definition skip : M unit := mret tt.

Definition with_statics (a : list (list LayoutObject.t)) (g : t) : t :=
  mk a (agents g) (starts g) (facings g) (_timers g) (score g) (_tick g).
Definition with_agents (l : list (option Vector)) (g : t) : t :=
  mk (_statics g) l (starts g) (facings g) (_timers g) (score g) (_tick g).
Definition with_facings (l : list Move.t) (g : t) : t :=
  mk (_statics g) (agents g) (starts g) l (_timers g) (score g) (_tick g).
Definition with_timers (l : list Z) (g : t) : t :=
  mk (_statics g) (agents g) (starts g) (facings g) l (score g) (_tick g).
Definition with_score (s : Z) (g : t) : t :=
  mk (_statics g) (agents g) (starts g) (facings g) (_timers g) s (_tick g).
Definition with_tick (n : Z) (g : t) : t :=
  mk (_statics g) (agents g) (starts g) (facings g) (_timers g) (score g) n.

(** [self.agents[i]] and [self.agents[i] = v] *)
Definition get_agent (i : nat) : M (option Vector) :=
  read (fun g => nat_get (agents g) i).
Definition set_agent (i : nat) (v : option Vector) : M unit :=
  g ← get; l ← lift (nat_set (agents g) i v); put (with_agents l g).
(** [self.facings[i] = move] *)
Definition set_facing (i : nat) (move : Move.t) : M unit :=
  g ← get; l ← lift (nat_set (facings g) i move); put (with_facings l g).
(** [self._timers[i]] and [self._timers[i] = n] *)
Definition get_timer (i : nat) : M Z :=
  read (fun g => nat_get (_timers g) i).
Definition set_timer (i : nat) (n : Z) : M unit :=
  g ← get; l ← lift (nat_set (_timers g) i n); put (with_timers l g).
(** [self.score += n] *)
Definition add_score (n : Z) : M unit :=
  g ← get; put (with_score (score g + n) g).
(** [self._statics[v] = o] *)
Definition set_static (v : Vector) (o : LayoutObject.t) : M unit :=
  g ← get; a ← lift (Array.setitem (_statics g) (vx v) (vy v) o);
  put (with_statics a g).

(** *** Properties *)

(** [Gamestate.pacman] *)
Definition pacman (g : t) : result (option Vector) := nat_get (agents g) PACMAN_ID.
(** [Gamestate.ghosts] *)
Definition ghosts (g : t) : list (option Vector) := drop (S PACMAN_ID) (agents g).
(** [Gamestate.timers] *)
Definition timers (g : t) : list Z := drop 1 (_timers g).
(** [Gamestate.walls], [Gamestate.dots], [Gamestate.pellets] *)
Definition walls (g : t) := Array.indicate (_statics g) LayoutObject.wall.
Definition dots (g : t) := Array.indicate (_statics g) LayoutObject.dot.
Definition pellets (g : t) := Array.indicate (_statics g) LayoutObject.pellet.

(** [indicator[vector]] *)
Definition at_ (i : Array.IndicatorArray LayoutObject.t) (v : Vector)
  : result (option bool) :=
  Array.ind_getitem i (vx v) (vy v).

(** [Gamestate.copy] *)
Definition copy (g : t) : t :=
  mk (Array.copy (_statics g)) (agents g) (starts g) (facings g) (_timers g)
     (score g) (_tick g).

(** [Gamestate.loss] *)
Definition loss (g : t) : result bool :=
  p ← pacman g; Ok (bool_decide (p = None)).

(** [Gamestate.win]: [not self.loss and not self.dots.list()] *)
Definition win (g : t) : result bool :=
  l ← loss g;
  if l : bool then Ok false
  else ds ← Array.ind_list (dots g); Ok (bool_decide (ds = [])).

(** [Gamestate.gameover]: [self.win or self.loss] *)
Definition gameover (g : t) : result bool :=
  w ← win g; if w : bool then Ok true else loss g.

(** *** Methods *)

(** [Gamestate.kill] *)
Definition kill (agent_id : nat) : M unit :=
  if decide (agent_id = PACMAN_ID) then set_agent agent_id None
  else
    g ← get; s ← lift (nat_get (starts g) agent_id);
    set_agent agent_id s;;
    set_timer agent_id 0.

(** [Gamestate.destroy] *)
Definition destroy (agent_id : nat) : M unit :=
  set_agent agent_id None;;
  if decide (agent_id = 0%nat) then add_score SCORE_DIE_PENALTY else skip.

(** [Gamestate._resolve_encounter] *)
Definition _resolve_encounter (ghost_id : nat) : M unit :=
  timer ← get_timer ghost_id;
  if decide (timer ≠ 0) then
    kill ghost_id;;
    add_score SCORE_GET_GHOST
  else
    kill PACMAN_ID;;
    add_score SCORE_DIE_PENALTY.

(** [self.ghosts.index(new_vector) + 1] when [new_vector in self.ghosts] *)
Definition ghost_at (g : t) (new_vector : Vector) : option nat :=
  (fun p => S p.1) <$> list_find (fun a => a = Some new_vector) (ghosts g).

(** [self._timers[1:] = [self.SCARED_TIME] * len(self._timers[1:])] *)
Definition scare_all : M unit :=
  g ← get;
  put (with_timers (take 1 (_timers g)
                      ++ replicate (length (drop 1 (_timers g))) SCARED_TIME) g).

(** [Gamestate.apply_move]; [move] is [None] when the agent made no move. *)
Definition apply_move (agent_id : nat) (move : option Move.t) : M unit :=
  a ← get_agent agent_id;
  match a with
  | None => skip
  | Some vector =>
      let move := default Move.stop move in
      set_facing agent_id move;;
      let new_vector := Vector.add vector (Move.vector move) in
      set_agent agent_id (Some new_vector);;
      timer ← get_timer agent_id;
      (if decide (timer ≠ 0) then set_timer agent_id (timer - 1) else skip);;
      (if decide (agent_id = PACMAN_ID) then add_score SCORE_TICK_PENALTY
       else skip);;
      w ← read (fun g => at_ (walls g) new_vector);
      if Array.truthy w then
        (if decide (agent_id = PACMAN_ID) then add_score SCORE_DIE_PENALTY
         else skip);;
        raise (RuntimeError_wall agent_id (vx new_vector) (vy new_vector))
      else if decide (agent_id = PACMAN_ID) then
        g ← get;
        (match ghost_at g new_vector with
         | Some ghost_id => _resolve_encounter ghost_id
         | None => skip
         end);;
        d ← read (fun g => at_ (dots g) new_vector);
        (if Array.truthy d then
           set_static new_vector LayoutObject.empty;;
           add_score SCORE_GET_DOT;;
           l ← read (fun g => Array.ind_list (dots g));
           if decide (l = []) then add_score SCORE_GET_ALL_DOTS else skip
         else skip);;
        p ← read (fun g => at_ (pellets g) new_vector);
        (if Array.truthy p then
           set_static new_vector LayoutObject.empty;;
           add_score SCORE_GET_PELLET;;
           scare_all
         else skip)
      else
        pac ← read pacman;
        if decide (pac = Some new_vector) then _resolve_encounter agent_id
        else skip
  end.

(** [Gamestate.legal_moves_vector]; the argument is [None] when it is the
    position of a dead agent, and then [vector + move.vector] is a type
    error. *)
Definition legal_moves_vector (g : t) (vector : option Vector)
  : result (gset Move.t) :=
  foldl (fun acc move =>
           moves ← acc;
           v ← match vector with Some v => Ok v | None => Raise TypeError end;
           w ← at_ (walls g) (Vector.add v (Move.vector move));
           Ok (if Array.truthy w then moves else moves ∪ {[move]}))
        (Ok ∅) Move.all.

(** [Gamestate.legal_moves_id] *)
Definition legal_moves_id (g : t) (agent_id : nat) : result (gset Move.t) :=
  a ← nat_get (agents g) agent_id; legal_moves_vector g a.

(** [Gamestate.successor]: the copy after the move; an exception of
    [apply_move] propagates and the copy is lost. *)
Definition successor (g : t) (agent_id : nat) (move : option Move.t) : result t :=
  match apply_move agent_id move (copy g) with
  | (Ok _, g') => Ok g'
  | (Raise e, _) => Raise e
  end.

(** [Gamestate.successors]; the list follows the iteration order of the set
    of legal moves. *)
Definition successors (g : t) (agent_id : nat) : result (list t) :=
  a ← nat_get (agents g) agent_id;
  ms ← legal_moves_vector g a;
  mapM (fun move => successor g agent_id (Some move)) (elements ms).

(** [Gamestate.active_agents]: the agents that are there; a position is
    truthy, also [Vector(0, 0)], and [None] is not. *)
Definition active_agents (g : t) : list Vector := omap id (agents g).

(** [Gamestate.shape] *)
Definition shape (g : t) : result Vector := Array.shape (_statics g).

(** [Gamestate.__init__]; [agents] is [None] when the argument is left out,
    and an empty list counts as left out. The floor is cleared beneath the
    agents one by one. *)
Definition init (arr : list (list LayoutObject.t))
    (agents : option (list (option Vector))) : result t :=
  let _statics := Array.copy arr in
  agents ← match agents with
           | Some (a :: l) => Ok (a :: l)
           | _ =>
               ps ← Array.list_ arr LayoutObject.pacman;
               gs ← Array.list_ arr LayoutObject.ghost;
               Ok (Some <$> ps ++ gs)
           end;
  _statics ← foldl (fun acc v =>
                      a ← acc; Array.setitem a (vx v) (vy v) LayoutObject.empty)
                   (Ok _statics) (omap id agents);
  Ok (mk _statics agents agents (replicate (length agents) Move.stop)
         (replicate (length agents) 0) 0 0).

(** [Gamestate.can_move], as a truth value: [and] and [or] are evaluated
    left to right and short-circuit. *)
Definition can_move (g : t) (agent_id : nat) : result bool :=
  a ← nat_get (agents g) agent_id;
  match a with
  | None => Ok false
  | Some _ =>
      timer ← nat_get (_timers g) agent_id;
      if (timer =? 0) || (_tick g `mod` 2 =? 0) then
        over ← gameover g; Ok (negb over)
      else Ok false
  end.

(** [Gamestate.tick] (the warning it prints is not modelled) *)
Definition tick : M unit :=
  g ← get; put (with_tick (_tick g + 1) g);;
  g ← get;
  if decide (_tick g = MAX_TICKS) then destroy PACMAN_ID else skip.

End Gamestate.

(** ** pacman/agents.py *)

Module Agents.

(** [random.choice(seq)]: an element of the sequence, the one that the
    draw of the generator picks; an empty sequence is an [IndexError]. *)
Definition choice {A} (draw : nat) (seq : list A) : result A :=
  match seq with
  | [] => Raise IndexError
  | _ => nat_get seq (draw `mod` length seq)%nat
  end.

(** [max(values)] for integers; an empty argument is a [ValueError]. *)
Definition py_max (values : list Z) : result Z :=
  match values with
  | [] => Raise ValueError
  | v :: rest => Ok (foldl Z.max v rest)
  end.

(** [GoLeftAgent.move]; the id of a Pacman agent is 0. *)
Definition GoLeftAgent_move (gstate : Gamestate.t) : result Move.t :=
  vector ← nat_get (Gamestate.agents gstate) 0;
  moves ← Gamestate.legal_moves_vector gstate vector;
  Ok (if decide (Move.left ∈ moves) then Move.left else Move.stop).

(** [GoRightAgent.move] *)
Definition GoRightAgent_move (gstate : Gamestate.t) : result Move.t :=
  vector ← nat_get (Gamestate.agents gstate) 0;
  moves ← Gamestate.legal_moves_vector gstate vector;
  Ok (if decide (Move.right ∈ moves) then Move.right else Move.stop).

(** [SearchAgent.move]: the next of the actions that [prepare] found, which
    is taken off the list; [actions] is [None] when the search failed. *)
Definition SearchAgent_move (actions : option (list Move.t))
  : Move.t * option (list Move.t) :=
  match actions with
  | Some (action :: rest) => (action, Some rest)
  | _ => (Move.stop, actions)
  end.

(** [ReflexAgent.move] for an agent with the method [evaluate]; the dict
    [scores] is kept as the list of its items, in the order of the set of
    moves. *)
Definition ReflexAgent_move (evaluate : Gamestate.t → Move.t → result Z)
    (draw : nat) (gstate : Gamestate.t) : result Move.t :=
  vector ← nat_get (Gamestate.agents gstate) 0;
  moves ← Gamestate.legal_moves_vector gstate vector;
  scores ← mapM (fun move =>
                   s ← evaluate (Gamestate.copy gstate) move; Ok (move, s))
                (elements moves);
  max_score ← py_max (scores.*2);
  let max_moves :=
    filter (fun move => (list_to_map scores : gmap Move.t Z) !! move = Some max_score)
      (elements moves) in
  choice draw max_moves.

(** [ScoreReflexAgent.evaluate] *)
Definition ScoreReflexAgent_evaluate (gstate : Gamestate.t) (move : Move.t)
  : result Z :=
  successor ← Gamestate.successor gstate 0 (Some move);
  Ok (Gamestate.score successor).

(** [score_evaluate] *)
Definition score_evaluate (gstate : Gamestate.t) : Z := Gamestate.score gstate.

(** [GhostAgent.valid_moves] of the ghost with the id [self_id] *)
Definition valid_moves (self_id : nat) (gstate : Gamestate.t)
  : result (gset Move.t) :=
  vector ← nat_get (Gamestate.agents gstate) self_id;
  facing ← nat_get (Gamestate.facings gstate) self_id;
  legal ← Gamestate.legal_moves_vector gstate vector;
  let legal_moves := legal ∖ {[Move.stop]} in
  if decide (size legal_moves = 1%nat) then Ok legal_moves
  else opposite ← Move.opposite facing; Ok (legal_moves ∖ {[opposite]}).

(** [RandomGhostAgent.distribution]: the valid moves, each with weight 1 *)
Definition RandomGhostAgent_distribution (self_id : nat) (gstate : Gamestate.t)
  : result (list Move.t * list Z) :=
  options ← valid_moves self_id gstate;
  Ok (elements options, replicate (length (elements options)) 1).

(** [GhostAgent.move] of a [RandomGhostAgent]: with weights that are all 1,
    [random.choices] picks any of the options. *)
Definition RandomGhostAgent_move (self_id : nat) (draw : nat)
    (gstate : Gamestate.t) : result Move.t :=
  d ← RandomGhostAgent_distribution self_id gstate;
  if decide (d.1 = []) then Ok Move.stop else choice draw d.1.

End Agents.

(** ** pacman/game.py *)

Module Game.

(** What [run_game] raises: an exception of the game, or the
    [UnboundLocalError] of a local variable that is read before it is
    assigned. *)
Inductive error : Type :=
| Exn (e : exn)
| UnboundLocalError.

(** [GameStats]; the times it sums up are read off the clock and are not
    part of the model. *)
Record GameStats : Type := mkStats {
  num_games : Z;
  num_moves : Z;
  sum_score : Z;
  num_wins : Z;
  timeouts : Z;
}.

(** [GameStats.register_move] *)
Definition register_move (s : GameStats) : GameStats :=
  mkStats (num_games s) (num_moves s + 1) (sum_score s) (num_wins s) (timeouts s).

(** [GameStats.register_game]; a boolean counts as 0 or 1. *)
Definition register_game (s : GameStats) (score : Z) (win timeout : bool)
  : GameStats :=
  mkStats (num_games s + 1) (num_moves s) (sum_score s + score)
    (num_wins s + if win then 1 else 0) (timeouts s + if timeout then 1 else 0).

(** [GameStats.__add__] with a [GameStats] *)
Definition stats_add (s other : GameStats) : GameStats :=
  mkStats (num_games s + num_games other) (num_moves s + num_moves other)
    (sum_score s + sum_score other) (num_wins s + num_wins other)
    (timeouts s + timeouts other).

Section Game.
(** The agents are objects with a state of their own; [St] is the state of
    them all. *)
Context {St : Type}.

(** An agent: its [id], and its methods [prepare] and [move], which get a
    copy of the game state and return or raise. [prepare] is told whether it
    is called with the genome and the configuration, as [run_game] calls it
    for the first agent. [move] returns [None] when the agent makes no
    move. *)
Record Agent : Type := mkAgent {
  id : nat;
  prepare : bool → Gamestate.t → St → result unit * St;
  move : Gamestate.t → St → result (option Move.t) * St;
}.

(** The loop in which the agents prepare, from the agent with index
    [index] on *)
Fixpoint prepare_all (index : nat) (all_agents : list Agent)
    (gstate : Gamestate.t) (st : St) : result unit * St :=
  match all_agents with
  | [] => (Ok tt, st)
  | agent :: all_agents =>
      match prepare agent (bool_decide (index = 0%nat)) (Gamestate.copy gstate) st with
      | (Raise e, st) => (Raise e, st)
      | (Ok _, st) => prepare_all (S index) all_agents gstate st
      end
  end.

(** The [for] loop of a round: every agent that can move is asked for its
    move, and the move is applied; the loop breaks when the game is over.
    [timed] tells whether [movetime] has been assigned. *)
Fixpoint round (all_agents : list Agent) (gstate : Gamestate.t) (timed : bool)
    (st : St) : result (Gamestate.t * bool) * St :=
  match all_agents with
  | [] => (Ok (gstate, timed), st)
  | agent :: all_agents =>
      match Gamestate.gameover gstate with
      | Raise e => (Raise e, st)
      | Ok true => (Ok (gstate, timed), st)
      | Ok false =>
          match Gamestate.can_move gstate (id agent) with
          | Raise e => (Raise e, st)
          | Ok false => round all_agents gstate timed st
          | Ok true =>
              match move agent (Gamestate.copy gstate) st with
              | (Raise e, st) => (Raise e, st)
              | (Ok m, st) =>
                  match Gamestate.apply_move (id agent) m gstate with
                  | (Raise e, _) => (Raise e, st)
                  | (Ok _, gstate) => round all_agents gstate true st
                  end
              end
          end
      end
  end.

(** The main game loop; [fuel] bounds the number of rounds, and [None]
    means that it ran out. *)
Fixpoint game_loop (fuel : nat) (all_agents : list Agent) (gstate : Gamestate.t)
    (timed : bool) (stats : GameStats) (st : St)
  : option (Datatypes.sum error (Gamestate.t * GameStats) * St) :=
  match fuel with
  | O => None
  | S fuel =>
      match Gamestate.gameover gstate with
      | Raise e => Some (inl (Exn e), st)
      | Ok true => Some (inr (gstate, stats), st)
      | Ok false =>
          match round all_agents gstate timed st with
          | (Raise e, st) => Some (inl (Exn e), st)
          | (Ok (gstate, timed), st) =>
              if timed then
                let stats := register_move stats in
                match Gamestate.tick gstate with
                | (Raise e, _) => Some (inl (Exn e), st)
                | (Ok _, gstate) => game_loop fuel all_agents gstate timed stats st
                end
              else Some (inl UnboundLocalError, st)
          end
      end
  end.

(** [run_game] without timeouts. The display, the clock and the pause
    between two rounds are not part of the model; the genome and the
    configuration are known to the agent they are passed to. *)
Definition run_game (fuel : nat) (layout : list (list LayoutObject.t))
    (all_agents : list Agent) (st : St)
  : option (Datatypes.sum error (Gamestate.t * GameStats) * St) :=
  match Gamestate.init layout None with
  | Raise e => Some (inl (Exn e), st)
  | Ok gstate =>
      match prepare_all 0 all_agents gstate st with
      | (Raise e, st) => Some (inl (Exn e), st)
      | (Ok _, st) =>
          match all_agents with
          | [] => Some (inl (Exn IndexError), st)
          | pacman :: _ =>
              match game_loop fuel all_agents gstate false (mkStats 0 0 0 0 0) st with
              | None => None
              | Some (inl e, st) => Some (inl e, st)
              | Some (inr (gstate, stats), st) =>
                  match Gamestate.win gstate with
                  | Raise e => Some (inl (Exn e), st)
                  | Ok win =>
                      Some (inr (Gamestate.copy gstate,
                                 register_game stats (Gamestate.score gstate)
                                   win false), st)
                  end
              end
          end
      end
  end.

End Game.
Arguments Agent St : clear implicits.
End Game.

(** ** pacman/search.py *)

Module Search.

(** A path cost: a number, or [float('inf')]. *)
Inductive cost : Type := Finite (c : Z) | Infinite.

(** [Successor]: the successor state, the moves that lead to it and their
    cost. *)
Definition Successor (S : Type) : Type := S * list Move.t * Z.

(** [SearchRepresentation]: the capability set of a search problem. A
    representation object of type [R] carries mutable bookkeeping, so every
    method takes the object and returns it; a method may raise. *)
Class SearchRepresentation (R S : Type) : Type := {
  start : R → S;
  is_goal : S → R → result bool * R;
  successors : S → R → result (list (Successor S)) * R;
  pathcost : list Move.t → R → result cost * R;
}.

(** [standard_pathcost]; [start] is [None] for a dead Pacman, and then
    [vector += direction.vector] is a type error. *)
Fixpoint standard_pathcost_from (path : list Move.t) (vector : option Vector)
    (cost : Z) (walls : Array.IndicatorArray LayoutObject.t)
    (cost_fn : Vector → Z) : result Search.cost :=
  match path with
  | [] => Ok (Finite cost)
  | direction :: path =>
      v ← match vector with Some v => Ok v | None => Raise TypeError end;
      let vector := Vector.add v (Move.vector direction) in
      w ← Gamestate.at_ walls vector;
      if Array.truthy w then Ok Infinite
      else standard_pathcost_from path (Some vector)
             (cost + cost_fn (Move.vector direction)) walls cost_fn
  end.

Definition standard_pathcost (path : list Move.t) (start : option Vector)
    (walls : Array.IndicatorArray LayoutObject.t) (cost_fn : Vector → Z)
  : result cost :=
  standard_pathcost_from path start 0 walls cost_fn.

(** [PositionSearchRepresentation]; its states are positions, [None] being
    the position of a dead Pacman. *)
Module Position.
Record t : Type := mk {
  expansion_count : Z;
  expansion_order : list (list (option Z));
  start_state : option Vector;
  goal : Vector;
  cost_fn : Vector → Z;
  walls : Array.IndicatorArray LayoutObject.t;
}.

(** [SearchRepresentation.__init__] and [PositionSearchRepresentation.__init__] *)
Definition init (gstate : Gamestate.t) (goal : Vector) (cost_fn : Vector → Z)
  : result t :=
  shape ← Array.shape (Gamestate._statics gstate);
  pac ← Gamestate.pacman gstate;
  Ok (mk 0 (replicate (Z.to_nat (vx shape)) (replicate (Z.to_nat (vy shape)) None))
         pac goal cost_fn (Gamestate.walls gstate)).

(** [SearchRepresentation.is_goal]: the bookkeeping of the expansion order.
    Indexing an [Array] by something that is not a 2-tuple is a
    [ValueError]. *)
Definition super_is_goal (state : option Vector) (r : t) : result bool * t :=
  match state with
  | None => (Raise ValueError, r)
  | Some v =>
      match Array.setitem (expansion_order r) (vx v) (vy v)
              (Some (expansion_count r)) with
      | Raise e => (Raise e, r)
      | Ok order =>
          (Ok false,
           mk (expansion_count r + 1) order (start_state r) (goal r)
              (cost_fn r) (walls r))
      end
  end.

(** [PositionSearchRepresentation.is_goal] *)
Definition is_goal (state : option Vector) (r : t) : result bool * t :=
  match super_is_goal state r with
  | (Raise e, r) => (Raise e, r)
  | (Ok _, r) => (Ok (bool_decide (state = Some (goal r))), r)
  end.

(** [PositionSearchRepresentation.successors] *)
Definition successors (state : option Vector) (r : t)
  : result (list (Successor (option Vector))) :=
  foldl (fun acc move =>
           successors ← acc;
           v ← match state with Some v => Ok v | None => Raise TypeError end;
           let new_vector := Vector.add v (Move.vector move) in
           w ← Gamestate.at_ (walls r) new_vector;
           Ok (if Array.truthy w then successors
               else successors ++ [(Some new_vector, [move], cost_fn r new_vector)]))
        (Ok []) Move.no_stop.

(** [PositionSearchRepresentation.pathcost] *)
Definition pathcost (path : list Move.t) (r : t) : result cost :=
  standard_pathcost path (start_state r) (walls r) (cost_fn r).

#[global] Instance representation : SearchRepresentation t (option Vector) := {|
  Search.start := start_state;
  Search.is_goal := is_goal;
  Search.successors := fun state r => (successors state r, r);
  Search.pathcost := fun path r => (pathcost path r, r);
|}.
End Position.

(** [manhattan], the heuristic: the Manhattan distance from a position to
    the goal of the representation *)
Definition manhattan (vector : Vector) (representation : Position.t) : Z :=
  manhattan vector (Position.goal representation).

(** [null]: the trivial heuristic *)
Definition null {R S} (state : S) (representation : R) : Z := 0.

End Search.

(** ** ass2.py: the search algorithms *)

Module Ass2.
Import Search.

Section Algorithms.
Context {R S : Type} `{Countable S} `{!SearchRepresentation R S}.

(** A search node: the state, the actions so far and the path cost so far.
    A frontier holds entries: a node with the priority it was put with. *)
Definition Node : Type := S * list Move.t * Z.
Definition Entry : Type := Z * Node.

(** The four algorithms run one loop and differ in the frontier. Every
    frontier is kept as the list of its entries in the order they were put;
    [get] is the discipline that takes one entry out, and [priority] is what
    [put] computes for a node. The argument [fuel] bounds the number of
    iterations of the [while] loop; [None] means that it ran out. *)
Section Loop.
Variable get : list Entry → option (Entry * list Entry).
Variable priority : Node → R → Z.

(** The [for] loop over the successors *)
Definition put_successors (frontier : list Entry) (explored : gset S)
    (path : list Move.t) (cost : Z) (succs : list (Successor S)) (r : R)
  : list Entry :=
  foldl (fun frontier '(successorState, actions, actionCost) =>
           if decide (successorState ∈ explored) then frontier
           else
             let node := (successorState, path ++ actions, cost + actionCost) in
             frontier ++ [(priority node r, node)])
        frontier succs.

Fixpoint search_loop (fuel : nat) (frontier : list Entry) (explored : gset S)
    (r : R) : option (result (option (list Move.t)) * R) :=
  match fuel with
  | O => None
  | Datatypes.S fuel =>
      match get frontier with
      | None => Some (Ok None, r)
      | Some ((_, (state, path, cost)), frontier) =>
          if decide (state ∈ explored) then search_loop fuel frontier explored r
          else
            let explored := explored ∪ {[state]} in
            match is_goal state r with
            | (Raise e, r) => Some (Raise e, r)
            | (Ok true, r) => Some (Ok (Some path), r)
            | (Ok false, r) =>
                match successors state r with
                | (Raise e, r) => Some (Raise e, r)
                | (Ok succs, r) =>
                    search_loop fuel
                      (put_successors frontier explored path cost succs r)
                      explored r
                end
            end
      end
  end.

Definition search (fuel : nat) (r : R)
  : option (result (option (list Move.t)) * R) :=
  let node := (start r, [], 0) in
  search_loop fuel [(priority node r, node)] ∅ r.
End Loop.

(** [queue.LifoQueue.get]: the entry put last *)
Definition lifo_get {E} (l : list E) : option (E * list E) :=
  match reverse l with
  | [] => None
  | e :: rest => Some (e, reverse rest)
  end.

(** [queue.Queue.get]: the entry put first *)
Definition fifo_get {E} (l : list E) : option (E * list E) :=
  match l with
  | [] => None
  | e :: rest => Some (e, rest)
  end.

(** [queue.PriorityQueue.get]: a least entry; among entries that compare
    equal, the one put first. *)
Fixpoint priority_get {E} (leb : E → E → bool) (l : list E) : option (E * list E) :=
  match l with
  | [] => None
  | e :: l' =>
      match priority_get leb l' with
      | None => Some (e, [])
      | Some (m, rest) => if leb e m then Some (e, l') else Some (m, e :: rest)
      end
  end.

(** [depthfirst] *)
Definition depthfirst (fuel : nat) (representation : R) :=
  search lifo_get (fun _ _ => 0) fuel representation.

(** [breadthfirst] *)
Definition breadthfirst (fuel : nat) (representation : R) :=
  search fifo_get (fun _ _ => 0) fuel representation.

(** [uniformcost]: the frontier holds tuples [(cost, node)], which Python
    orders by the cost first and by the node next. [node_leb] is that order on
    nodes: Python's order on states is not part of this development. *)
Definition uniformcost (node_leb : Node → Node → bool) (fuel : nat)
    (representation : R) :=
  search
    (priority_get (fun e1 e2 : Entry =>
       (e1.1 <? e2.1) || ((e1.1 =? e2.1) && node_leb e1.2 e2.2)))
    (fun node _ => node.2) fuel representation.

(** [astar]: a [PriorityFunctionQueue] holds pairs of the priority and a
    running number, so that of two entries of one priority the earlier is
    taken. [explored.add(state)] comes after the goal test there, which makes
    no difference: [explored] is dropped when the goal test succeeds. *)
Definition astar (heuristic : S → R → Z) (fuel : nat) (representation : R) :=
  search
    (priority_get (fun e1 e2 : Entry => e1.1 <=? e2.1))
    (fun node r => heuristic node.1.1 r + node.2) fuel representation.

End Algorithms.
End Ass2.

(** ** ass4.py: the adversarial agents *)

Module Ass4.

(** A score: an integer, [float('-inf')] or [float('inf')]. *)
Inductive score : Type := NegInf | Num (z : Z) | PosInf.

#[global] Instance score_eq_dec : EqDecision score.
Proof. solve_decision. Defined.

(** [a <= b] and [a < b] on scores *)
Definition leb (a b : score) : bool :=
  match a, b with
  | NegInf, _ => true
  | _, PosInf => true
  | Num x, Num y => x <=? y
  | _, _ => false
  end.
Definition ltb (a b : score) : bool := negb (leb b a).

(** [max(a, b)] and [min(a, b)]: the first argument unless the second is
    strictly better *)
Definition max2 (a b : score) : score := if ltb a b then b else a.
Definition min2 (a b : score) : score := if ltb b a then b else a.

(** [max(scores)] and [min(scores)]; an empty list is a [ValueError]. *)
Definition py_max (scores : list score) : result score :=
  match scores with
  | [] => Raise ValueError
  | s :: rest => Ok (foldl max2 s rest)
  end.
Definition py_min (scores : list score) : result score :=
  match scores with
  | [] => Raise ValueError
  | s :: rest => Ok (foldl min2 s rest)
  end.

Section Agents.
(** [self.evaluate], the evaluation function the agent was built with, and
    [random.choice], which is any function here: what is proved is about
    the score, and the score does not depend on the move chosen. *)
Variable evaluate : Gamestate.t → score.
Variable random_choice : list nat → nat.

(** [depth is 0 or gstate.loss or gstate.win] for a depth that is not 0 *)
Definition loss_or_win (gstate : Gamestate.t) : result bool :=
  l ← Gamestate.loss gstate;
  if l : bool then Ok true else Gamestate.win gstate.

(** The indexes of the best scores: [scores[x] is best_score] holds at least
    at the first best score and at most at every equal score; the model
    takes every equal score. *)
Definition best_actions (scores : list score) (best_score : score) : list nat :=
  filter (fun x => scores !! x = Some best_score) (seq 0 (length scores)).

(** *** MinimaxAgent.minimax

    The two branches of the method are the two node functions; each takes
    the recursive call it makes as [recurse]. *)
Definition minimax_node (agent_id : nat)
    (best : list score → result score)
    (recurse : Gamestate.t → result (score * Move.t))
    (gstate : Gamestate.t) : result (score * Move.t) :=
  t ← loss_or_win gstate;
  if t : bool then Ok (evaluate gstate, Move.stop)
  else
    legal_actions ← elements <$> Gamestate.legal_moves_id gstate agent_id;
    scores ← mapM (fun x =>
                     g' ← Gamestate.successor gstate agent_id (Some x);
                     r ← recurse g'; Ok r.1) legal_actions;
    best_score ← best scores;
    a ← nat_get legal_actions (random_choice (best_actions scores best_score));
    Ok (best_score, a).

(** [minimax(gstate, depth, maximizer)]: a maximizer calls
    [minimax(successor, depth, False)], a minimizer calls
    [minimax(successor, depth - 1, True)]. *)
Fixpoint minimax (gstate : Gamestate.t) (depth : nat) (maximizer : bool)
  {struct depth} : result (score * Move.t) :=
  match depth with
  | O => Ok (evaluate gstate, Move.stop)
  | Datatypes.S depth' =>
      let minimizer := minimax_node 1 py_min (fun g => minimax g depth' true) in
      if maximizer then minimax_node 0 py_max minimizer gstate
      else minimizer gstate
  end.

(** *** AlphabetaAgent.alpha_beta *)

(** The [for] loop of the maximizer *)
Fixpoint max_loop (recurse : Gamestate.t → score → score → result (score * Move.t))
    (gstate : Gamestate.t) (legal_actions : list Move.t)
    (best_score : score) (best_action : Move.t) (alpha beta : score)
  : result (score * Move.t) :=
  match legal_actions with
  | [] => Ok (best_score, best_action)
  | move :: legal_actions =>
      g' ← Gamestate.successor gstate 0 (Some move);
      r ← recurse g' alpha beta;
      let score := r.1 in
      let '(best_score, best_action) :=
        if ltb best_score score then (score, move) else (best_score, best_action) in
      let alpha := max2 best_score alpha in
      if leb beta alpha then Ok (best_score, best_action)
      else max_loop recurse gstate legal_actions best_score best_action alpha beta
  end.

(** The [for] loop of the minimizer *)
Fixpoint min_loop (recurse : Gamestate.t → score → score → result (score * Move.t))
    (gstate : Gamestate.t) (legal_actions : list Move.t)
    (best_score : score) (best_action : Move.t) (alpha beta : score)
  : result (score * Move.t) :=
  match legal_actions with
  | [] => Ok (best_score, best_action)
  | move :: legal_actions =>
      g' ← Gamestate.successor gstate 1 (Some move);
      r ← recurse g' alpha beta;
      let score := r.1 in
      let '(best_score, best_action) :=
        if ltb score best_score then (score, move) else (best_score, best_action) in
      let beta := min2 best_score beta in
      if leb beta alpha then Ok (best_score, best_action)
      else min_loop recurse gstate legal_actions best_score best_action alpha beta
  end.

Definition max_node (recurse : Gamestate.t → score → score → result (score * Move.t))
    (gstate : Gamestate.t) (alpha beta : score) : result (score * Move.t) :=
  t ← loss_or_win gstate;
  if t : bool then Ok (evaluate gstate, Move.stop)
  else
    legal_actions ← elements <$> Gamestate.legal_moves_id gstate 0;
    max_loop recurse gstate legal_actions NegInf Move.stop alpha beta.

Definition min_node (recurse : Gamestate.t → score → score → result (score * Move.t))
    (gstate : Gamestate.t) (alpha beta : score) : result (score * Move.t) :=
  t ← loss_or_win gstate;
  if t : bool then Ok (evaluate gstate, Move.stop)
  else
    legal_actions ← elements <$> Gamestate.legal_moves_id gstate 1;
    min_loop recurse gstate legal_actions PosInf Move.stop alpha beta.

(** [alpha_beta(gstate, depth, maximizer, alpha, beta)] *)
Fixpoint alpha_beta (gstate : Gamestate.t) (depth : nat) (maximizer : bool)
    (alpha beta : score) {struct depth} : result (score * Move.t) :=
  match depth with
  | O => Ok (evaluate gstate, Move.stop)
  | Datatypes.S depth' =>
      let minimizer := min_node (fun g a b => alpha_beta g depth' true a b) in
      if maximizer then max_node minimizer gstate alpha beta
      else minimizer gstate alpha beta
  end.

End Agents.

(** [MinimaxAgent.move]: the move that [minimax] returns at the root *)
Definition MinimaxAgent_move (evaluate : Gamestate.t → score)
    (random_choice : list nat → nat) (depth : nat) (gstate : Gamestate.t)
  : result Move.t :=
  r ← minimax evaluate random_choice gstate depth true; Ok r.2.

(** [AlphabetaAgent.move] *)
Definition AlphabetaAgent_move (evaluate : Gamestate.t → score) (depth : nat)
    (gstate : Gamestate.t) : result Move.t :=
  r ← alpha_beta evaluate gstate depth true NegInf PosInf; Ok r.2.

(** [score_evaluate]: the current score *)
Definition score_evaluate (gstate : Gamestate.t) : score := Num (Gamestate.score gstate).

End Ass4.

(** ** Objects and references

    The model above gives every method its own value of the data. Whether a
    method leaves its receiver alone is a question about objects that are
    shared, so the methods that copy, move and enumerate successors are
    modelled a second time over a store: a list, a dict, an [Array], a
    [Gamestate] and a search representation are objects at a location, a
    field or a list slot holds an immediate value or a reference, and an
    assignment to a slot is seen through every reference, as in Python.

    A list that a method builds and drops (a slice, the list of legal
    actions) is a plain value. Code that is ill-typed for the annotations of
    the source (a method called on a value that has no such method) raises
    [TypeError]. *)

(** The modules of the first model, under the names that the store uses
    for them *)
Module Value.
Module Array := Array.
Module Gamestate := Gamestate.
Module Search := Search.
End Value.

Module Store.

Definition loc : Type := nat.

(** What a slot holds *)
Inductive val : Type :=
| VNone
| VInt (z : Z)
| VBool (b : bool)
| VVector (v : Vector)
| VMove (m : Move.t)
| VLayout (o : LayoutObject.t)
| VRef (l : loc).

#[global] Instance val_eq_dec : EqDecision val.
Proof. solve_decision. Defined.

(** The objects, with the fields the classes give them *)
Inductive obj : Type :=
| OList (items : list val)
| ODict (entries : list (val * val))
| OArray (_array _cache_indicate _cache_list : loc)
| OIndicatorArray (_array _cache_indicate _cache_list _lst : loc) (_value : val)
| OGamestate (_statics agents starts facings _timers : loc) (score _tick : Z)
| OPosition (expansion_count : Z) (expansion_order : loc) (start_state : val)
    (goal : Vector) (cost_fn : Vector → Z) (walls : loc)
| OAllDot (expansion_count : Z) (expansion_order : loc) (start_vector : val)
    (start_dots : gset Vector) (walls : loc).

Abbreviation heap := (gmap loc obj).

(** *** The monad of code that runs on the store *)

Definition H (A : Type) : Type := heap → result A * heap.

#[global] Instance H_ret : MRet H := fun _ a h => (Ok a, h).
#[global] Instance H_bind : MBind H := fun _ _ f m h =>
  match m h with
  | (Ok a, h') => f a h'
  | (Raise e, h') => (Raise e, h')
  end.

Definition raise {A} (e : exn) : H A := fun h => (Raise e, h).
Definition lift {A} (r : result A) : H A := fun h => (r, h).
(** A new object gets a location that is not in use. *)
Definition alloc (o : obj) : H loc := fun h =>
  let l := fresh (dom h) in (Ok l, <[l := o]> h).
Definition load (l : loc) : H obj := fun h =>
  match h !! l with
  | Some o => (Ok o, h)
  | None => (Raise TypeError, h)
  end.
Definition store (l : loc) (o : obj) : H unit := fun h => (Ok tt, <[l := o]> h).

(** A [for] loop that carries [b] through its body *)
Fixpoint for_ {A B} (l : list A) (b : B) (body : B → A → H B) : H B :=
  match l with
  | [] => mret b
  | x :: l => b' ← body b x; for_ l b' body
  end.

(** The object that a value refers to *)
Definition deref (v : val) : H loc :=
  match v with
  | VRef l => mret l
  | _ => raise TypeError
  end.

(** Truth value of an immediate value: [None], [0] and [False] are falsy; a
    [Vector] is a tuple of two components and truthy; members of an [Enum]
    are truthy. *)
Definition truthy (v : val) : H bool :=
  match v with
  | VNone => mret false
  | VInt z => mret (bool_decide (z ≠ 0))
  | VBool b => mret b
  | VVector _ | VMove _ | VLayout _ => mret true
  | VRef _ => raise TypeError
  end.

(** *** Lists and dicts *)

Definition load_list (l : loc) : H (list val) :=
  o ← load l;
  match o with
  | OList items => mret items
  | _ => raise TypeError
  end.

(** [lst.copy()] *)
Definition list_copy (l : loc) : H loc :=
  items ← load_list l; alloc (OList items).

(** [lst[i]] and [lst[i] = v] *)
Definition list_get (l : loc) (i : Z) : H val :=
  items ← load_list l; lift (py_get items i).
Definition list_set (l : loc) (i : Z) (v : val) : H unit :=
  items ← load_list l; items' ← lift (py_set items i v); store l (OList items').

(** The same for an index that is an agent id *)
Definition list_get_id (l : loc) (i : nat) : H val :=
  items ← load_list l; lift (nat_get items i).
Definition list_set_id (l : loc) (i : nat) (v : val) : H unit :=
  items ← load_list l; items' ← lift (nat_set items i v); store l (OList items').

Definition load_dict (d : loc) : H (list (val * val)) :=
  o ← load d;
  match o with
  | ODict entries => mret entries
  | _ => raise TypeError
  end.

(** A dict is the list of its entries; a key has at most one entry. *)
Fixpoint lookup_entry (k : val) (entries : list (val * val)) : option val :=
  match entries with
  | [] => None
  | (k', v) :: entries => if decide (k' = k) then Some v else lookup_entry k entries
  end.

Fixpoint put_entry (k v : val) (entries : list (val * val)) : list (val * val) :=
  match entries with
  | [] => [(k, v)]
  | (k', v') :: entries =>
      if decide (k' = k) then (k, v) :: entries
      else (k', v') :: put_entry k v entries
  end.

(** [d.get(k)], [d[k] = v] and [d.clear()] *)
Definition dict_get (d : loc) (k : val) : H (option val) :=
  entries ← load_dict d; mret (lookup_entry k entries).
Definition dict_put (d : loc) (k v : val) : H unit :=
  entries ← load_dict d; store d (ODict (put_entry k v entries)).
Definition dict_clear (d : loc) : H unit :=
  _ ← load_dict d; store d (ODict []).

(** *** pacman/array.py on the store *)

Module Array.

(** The fields [_array], [_cache_indicate] and [_cache_list], which an
    [IndicatorArray] inherits *)
Definition fields (self : loc) : H (loc * loc * loc) :=
  o ← load self;
  match o with
  | OArray a ci cl | OIndicatorArray a ci cl _ _ => mret (a, ci, cl)
  | _ => raise TypeError
  end.

(** [[column.copy() for column in lst]] *)
Definition copy_columns (lst : loc) : H loc :=
  columns ← load_list lst;
  copies ← mapM (fun column => c ← deref column; c' ← list_copy c; mret (VRef c'))
             columns;
  alloc (OList copies).

(** [Array.__init__]; the result is the new object. *)
Definition init (lst : loc) : H loc :=
  a ← copy_columns lst;
  ci ← alloc (ODict []);
  cl ← alloc (ODict []);
  alloc (OArray a ci cl).

(** [Array.copy] *)
Definition copy (self : loc) : H loc :=
  '(a, _, _) ← fields self;
  columns ← copy_columns a;
  init columns.

(** [self._array[x]] *)
Definition column (a : loc) (x : Z) : H loc :=
  c ← list_get a x; deref c.

(** [Array.contains] *)
Definition contains (self : loc) (x y : Z) : H bool :=
  '(a, _, _) ← fields self;
  columns ← load_list a;
  if (0 <=? x) && (x <? len columns) then
    c0 ← column a 0; cells ← load_list c0;
    mret ((0 <=? y) && (y <? len cells))
  else mret false.

(** [Array.shape] *)
Definition shape (self : loc) : H Vector :=
  '(a, _, _) ← fields self;
  columns ← load_list a;
  match columns with
  | [] => mret Vector.zero
  | _ :: _ =>
      c0 ← column a 0; cells ← load_list c0;
      mret (mkVector (len columns) (len cells))
  end.

(** [Array.__getitem__] at a 2-tuple *)
Definition getitem (self : loc) (x y : Z) : H val :=
  b ← contains self x y;
  if b : bool then
    '(a, _, _) ← fields self;
    c ← column a x; list_get c y
  else mret VNone.

(** [Array.__setitem__] at a 2-tuple; an [IndicatorArray] is read-only. *)
Definition setitem (self : loc) (x y : Z) (value : val) : H unit :=
  o ← load self;
  match o with
  | OArray a ci cl =>
      dict_clear ci;;
      dict_clear cl;;
      c ← column a x; list_set c y value
  | OIndicatorArray _ _ _ _ _ => raise ValueError
  | _ => raise TypeError
  end.

(** [Array.list]: the list is built once for a value and kept in
    [_cache_list]; the result is the list object. *)
Definition list_ (self : loc) (value : val) : H loc :=
  '(a, _, cl) ← fields self;
  cached ← dict_get cl value;
  match cached with
  | Some r => deref r
  | None =>
      s ← shape self;
      result ← for_ (Value.Array.product_range (vx s) (vy s)) []
                 (fun result xy =>
                    c ← column a xy.1; v ← list_get c xy.2;
                    mret (if decide (v = value)
                          then result ++ [VVector (mkVector xy.1 xy.2)]
                          else result));
      r ← alloc (OList result);
      dict_put cl value (VRef r);;
      mret r
  end.

(** [IndicatorArray.__init__]: [_full_indicators()] builds a list of lists
    from [_lst], and [Array.__init__] copies its columns. *)
Definition indicator_init (lst : loc) (value : val) : H loc :=
  rows ← load_list lst;
  full ← mapM (fun r =>
                 r ← deref r; es ← load_list r;
                 r' ← alloc (OList ((fun e => VBool (bool_decide (e = value))) <$> es));
                 mret (VRef r')) rows;
  full ← alloc (OList full);
  a ← copy_columns full;
  ci ← alloc (ODict []);
  cl ← alloc (ODict []);
  alloc (OIndicatorArray a ci cl lst value).

(** [Array.indicate]: the indicator is built once for a value and kept in
    [_cache_indicate]. *)
Definition indicate (self : loc) (value : val) : H loc :=
  '(a, ci, _) ← fields self;
  cached ← dict_get ci value;
  match cached with
  | Some i => deref i
  | None =>
      i ← indicator_init a value;
      dict_put ci value (VRef i);;
      mret i
  end.

(** [IndicatorArray.list()] *)
Definition indicator_list (self : loc) : H loc := list_ self (VBool true).

End Array.

(** *** pacman/gamestate.py on the store *)

Module Gamestate.

Record fields : Type := mk {
  _statics : loc;
  agents : loc;
  starts : loc;
  facings : loc;
  _timers : loc;
  score : Z;
  _tick : Z;
}.

Definition object (f : fields) : obj :=
  OGamestate (_statics f) (agents f) (starts f) (facings f) (_timers f)
    (score f) (_tick f).

Definition get (self : loc) : H fields :=
  o ← load self;
  match o with
  | OGamestate s a st f t sc tk => mret (mk s a st f t sc tk)
  | _ => raise TypeError
  end.

(** [self.score += n] *)
Definition add_score (self : loc) (n : Z) : H unit :=
  f ← get self;
  store self (object (mk (_statics f) (agents f) (starts f) (facings f)
                        (_timers f) (score f + n) (_tick f))).

(** A vector where the source takes one; [None + vector] is a type error. *)
Definition vector_of (v : val) : H Vector :=
  match v with
  | VVector v => mret v
  | _ => raise TypeError
  end.

(** [Gamestate.__init__] without [agents] *)
Definition init (arr : loc) : H loc :=
  statics ← Array.copy arr;
  pacmans ← Array.list_ arr (VLayout LayoutObject.pacman);
  ghosts ← Array.list_ arr (VLayout LayoutObject.ghost);
  pacmans ← load_list pacmans;
  ghosts ← load_list ghosts;
  agents ← alloc (OList (pacmans ++ ghosts));
  items ← load_list agents;
  for_ items tt (fun _ agent =>
                   b ← truthy agent;
                   if b : bool then
                     v ← vector_of agent;
                     Array.setitem statics (vx v) (vy v) (VLayout LayoutObject.empty)
                   else mret tt);;
  starts ← list_copy agents;
  items ← load_list agents;
  facings ← alloc (OList (replicate (length items) (VMove Move.stop)));
  timers ← alloc (OList (replicate (length items) (VInt 0)));
  alloc (OGamestate statics agents starts facings timers 0 0).

(** [Gamestate.walls], [Gamestate.dots], [Gamestate.pellets] *)
Definition walls (self : loc) : H loc :=
  f ← get self; Array.indicate (_statics f) (VLayout LayoutObject.wall).
Definition dots (self : loc) : H loc :=
  f ← get self; Array.indicate (_statics f) (VLayout LayoutObject.dot).
Definition pellets (self : loc) : H loc :=
  f ← get self; Array.indicate (_statics f) (VLayout LayoutObject.pellet).

(** [Gamestate.pacman] *)
Definition pacman (self : loc) : H val :=
  f ← get self; list_get_id (agents f) Value.Gamestate.PACMAN_ID.

(** [Gamestate.copy]: a gamestate of an empty layout, whose fields are then
    assigned one by one. *)
Definition copy (self : loc) : H loc :=
  empty ← alloc (OList []);
  arr ← Array.init empty;
  copy ← init arr;
  f ← get self;
  s ← Array.copy (_statics f);
  c ← get copy;
  store copy (object (mk s (agents c) (starts c) (facings c) (_timers c)
                        (score c) (_tick c)));;
  l ← list_copy (agents f);
  c ← get copy;
  store copy (object (mk (_statics c) l (starts c) (facings c) (_timers c)
                        (score c) (_tick c)));;
  l ← list_copy (starts f);
  c ← get copy;
  store copy (object (mk (_statics c) (agents c) l (facings c) (_timers c)
                        (score c) (_tick c)));;
  l ← list_copy (facings f);
  c ← get copy;
  store copy (object (mk (_statics c) (agents c) (starts c) l (_timers c)
                        (score c) (_tick c)));;
  l ← list_copy (_timers f);
  c ← get copy;
  store copy (object (mk (_statics c) (agents c) (starts c) (facings c) l
                        (score c) (_tick c)));;
  c ← get copy;
  store copy (object (mk (_statics c) (agents c) (starts c) (facings c)
                        (_timers c) (score f) (_tick c)));;
  c ← get copy;
  store copy (object (mk (_statics c) (agents c) (starts c) (facings c)
                        (_timers c) (score c) (_tick f)));;
  mret copy.

(** [Gamestate.kill] *)
Definition kill (self : loc) (agent_id : nat) : H unit :=
  f ← get self;
  if decide (agent_id = Value.Gamestate.PACMAN_ID) then
    list_set_id (agents f) agent_id VNone
  else
    s ← list_get_id (starts f) agent_id;
    list_set_id (agents f) agent_id s;;
    list_set_id (_timers f) agent_id (VInt 0).

(** [Gamestate._resolve_encounter] *)
Definition _resolve_encounter (self : loc) (ghost_id : nat) : H unit :=
  f ← get self;
  timer ← list_get_id (_timers f) ghost_id;
  scared ← truthy timer;
  if scared : bool then
    kill self ghost_id;;
    add_score self Value.Gamestate.SCORE_GET_GHOST
  else
    kill self Value.Gamestate.PACMAN_ID;;
    add_score self Value.Gamestate.SCORE_DIE_PENALTY.

(** [self.ghosts.index(new_vector) + 1] when [new_vector in self.ghosts] *)
Definition ghost_at (agents : list val) (new_vector : Vector) : option nat :=
  (fun p => S p.1) <$> list_find (fun a => a = VVector new_vector) (drop 1 agents).

(** [indicator[vector]] *)
Definition at_ (indicator : loc) (v : Vector) : H val :=
  Array.getitem indicator (vx v) (vy v).

(** [Gamestate.apply_move] *)
Definition apply_move (self : loc) (agent_id : nat) (move : option Move.t)
  : H unit :=
  f ← get self;
  a ← list_get_id (agents f) agent_id;
  alive ← truthy a;
  if negb alive then mret tt
  else
    let move := default Move.stop move in
    list_set_id (facings f) agent_id (VMove move);;
    vector ← list_get_id (agents f) agent_id;
    vector ← vector_of vector;
    let new_vector := Vector.add vector (Move.vector move) in
    list_set_id (agents f) agent_id (VVector new_vector);;
    timer ← list_get_id (_timers f) agent_id;
    scared ← truthy timer;
    (if scared : bool then
       match timer with
       | VInt t => list_set_id (_timers f) agent_id (VInt (t - 1))
       | _ => raise TypeError
       end
     else mret tt);;
    (if decide (agent_id = Value.Gamestate.PACMAN_ID)
     then add_score self Value.Gamestate.SCORE_TICK_PENALTY
     else mret tt);;
    w ← walls self; w ← at_ w new_vector; w ← truthy w;
    if w : bool then
      (if decide (agent_id = Value.Gamestate.PACMAN_ID)
       then add_score self Value.Gamestate.SCORE_DIE_PENALTY
       else mret tt);;
      raise (RuntimeError_wall agent_id (vx new_vector) (vy new_vector))
    else if decide (agent_id = Value.Gamestate.PACMAN_ID) then
      items ← load_list (agents f);
      (match ghost_at items new_vector with
       | Some ghost_id => _resolve_encounter self ghost_id
       | None => mret tt
       end);;
      d ← dots self; d ← at_ d new_vector; d ← truthy d;
      (if d : bool then
         Array.setitem (_statics f) (vx new_vector) (vy new_vector)
           (VLayout LayoutObject.empty);;
         add_score self Value.Gamestate.SCORE_GET_DOT;;
         d ← dots self; l ← Array.indicator_list d; l ← load_list l;
         match l with
         | [] => add_score self Value.Gamestate.SCORE_GET_ALL_DOTS
         | _ :: _ => mret tt
         end
       else mret tt);;
      p ← pellets self; p ← at_ p new_vector; p ← truthy p;
      (if p : bool then
         Array.setitem (_statics f) (vx new_vector) (vy new_vector)
           (VLayout LayoutObject.empty);;
         add_score self Value.Gamestate.SCORE_GET_PELLET;;
         timers ← load_list (_timers f);
         store (_timers f)
           (OList (take 1 timers
                     ++ replicate (length (drop 1 timers))
                          (VInt Value.Gamestate.SCARED_TIME)))
       else mret tt)
    else
      pac ← pacman self;
      if decide (pac = VVector new_vector) then _resolve_encounter self agent_id
      else mret tt.

(** [Gamestate.legal_moves_vector] *)
Definition legal_moves_vector (self : loc) (vector : val) : H (gset Move.t) :=
  for_ Move.all ∅
    (fun moves move =>
       v ← vector_of vector;
       w ← walls self; w ← at_ w (Vector.add v (Move.vector move)); w ← truthy w;
       mret (if w : bool then moves else moves ∪ {[move]})).

(** [Gamestate.successor] *)
Definition successor (self : loc) (agent_id : nat) (move : option Move.t)
  : H loc :=
  successor ← copy self;
  apply_move successor agent_id move;;
  mret successor.

(** [Gamestate.successors] *)
Definition successors (self : loc) (agent_id : nat) : H (list loc) :=
  f ← get self;
  a ← list_get_id (agents f) agent_id;
  moves ← legal_moves_vector self a;
  mapM (fun move => successor self agent_id (Some move)) (elements moves).

End Gamestate.

(** *** pacman/search.py on the store *)

Module Search.

(** [standard_pathcost] *)
Fixpoint standard_pathcost_from (path : list Move.t) (vector : val) (cost : Z)
    (walls : loc) (cost_fn : Vector → Z) : H Value.Search.cost :=
  match path with
  | [] => mret (Value.Search.Finite cost)
  | direction :: path =>
      v ← Gamestate.vector_of vector;
      let vector := Vector.add v (Move.vector direction) in
      w ← Gamestate.at_ walls vector; w ← truthy w;
      if w : bool then mret Value.Search.Infinite
      else standard_pathcost_from path (VVector vector)
             (cost + cost_fn (Move.vector direction)) walls cost_fn
  end.

Definition standard_pathcost (path : list Move.t) (start : val) (walls : loc)
    (cost_fn : Vector → Z) : H Value.Search.cost :=
  standard_pathcost_from path start 0 walls cost_fn.

(** [SearchRepresentation.__init__]: the array of the expansion order *)
Definition expansion_order_init (gstate : loc) : H loc :=
  f ← Gamestate.get gstate;
  shape ← Array.shape (Gamestate._statics f);
  columns ← mapM (fun _ : nat =>
                    c ← alloc (OList (replicate (Z.to_nat (vy shape)) VNone));
                    mret (VRef c)) (seq 0 (Z.to_nat (vx shape)));
  lst ← alloc (OList columns);
  Array.init lst.

Module Position.

Definition get (self : loc) : H (val * (Vector → Z) * loc) :=
  o ← load self;
  match o with
  | OPosition _ _ start_state _ cost_fn walls => mret (start_state, cost_fn, walls)
  | _ => raise TypeError
  end.

(** [PositionSearchRepresentation.__init__] *)
Definition init (gstate : loc) (goal : Vector) (cost_fn : Vector → Z) : H loc :=
  order ← expansion_order_init gstate;
  pac ← Gamestate.pacman gstate;
  walls ← Gamestate.walls gstate;
  alloc (OPosition 0 order pac goal cost_fn walls).

(** [PositionSearchRepresentation.successors] *)
Definition successors (self : loc) (state : val)
  : H (list (Vector * list Move.t * Z)) :=
  '(_, cost_fn, walls) ← get self;
  for_ Move.no_stop []
    (fun successors move =>
       v ← Gamestate.vector_of state;
       let new_vector := Vector.add v (Move.vector move) in
       w ← Gamestate.at_ walls new_vector; w ← truthy w;
       mret (if w : bool then successors
             else successors ++ [(new_vector, [move], cost_fn new_vector)])).

(** [PositionSearchRepresentation.pathcost] *)
Definition pathcost (self : loc) (path : list Move.t) : H Value.Search.cost :=
  '(start_state, cost_fn, walls) ← get self;
  standard_pathcost path start_state walls cost_fn.

End Position.

Module AllDot.

Definition get (self : loc) : H (val * loc) :=
  o ← load self;
  match o with
  | OAllDot _ _ start_vector _ walls => mret (start_vector, walls)
  | _ => raise TypeError
  end.

(** [AllDotSearchRepresentation.__init__] *)
Definition init (gstate : loc) : H loc :=
  order ← expansion_order_init gstate;
  pac ← Gamestate.pacman gstate;
  dots ← Gamestate.dots gstate;
  dots ← Array.indicator_list dots;
  dots ← load_list dots;
  dots ← mapM Gamestate.vector_of dots;
  walls ← Gamestate.walls gstate;
  alloc (OAllDot 0 order pac (list_to_set dots) walls).

(** [AllDotSearchRepresentation.successors]; a state is the position and
    the set of the dots that are left. *)
Definition successors (self : loc) (state : val * gset Vector)
  : H (list ((Vector * gset Vector) * list Move.t * Z)) :=
  '(_, walls) ← get self;
  for_ Move.no_stop []
    (fun successors move =>
       v ← Gamestate.vector_of state.1;
       let new_vector := Vector.add v (Move.vector move) in
       w ← Gamestate.at_ walls new_vector; w ← truthy w;
       mret (if w : bool then successors
             else
               let new_dots := state.2 ∖ {[new_vector]} in
               successors ++ [((new_vector, new_dots), [move], 1)])).

(** [AllDotSearchRepresentation.pathcost] *)
Definition pathcost (self : loc) (path : list Move.t) : H Value.Search.cost :=
  '(start_vector, walls) ← get self;
  standard_pathcost path start_vector walls (fun _ => 1).

End AllDot.
End Search.

(** *** Layouts as objects, and the world that a gamestate object holds *)

(** [array.Array(lst)] for a list of columns of layout objects that is built
    on the spot *)
Definition layout (columns : list (list LayoutObject.t)) : H loc :=
  columns ← mapM (fun c => c ← alloc (OList (VLayout <$> c)); mret (VRef c)) columns;
  lst ← alloc (OList columns);
  Array.init lst.

(** The items of the list object at [l], read by [f] *)
Definition read_list {A} (f : val → option A) (h : heap) (l : loc)
  : option (list A) :=
  match h !! l with
  | Some (OList items) => mapM f items
  | _ => None
  end.

Definition read_layout (v : val) : option LayoutObject.t :=
  match v with VLayout o => Some o | _ => None end.
Definition read_agent (v : val) : option (option Vector) :=
  match v with VNone => Some None | VVector p => Some (Some p) | _ => None end.
Definition read_move (v : val) : option Move.t :=
  match v with VMove m => Some m | _ => None end.
Definition read_int (v : val) : option Z :=
  match v with VInt z => Some z | _ => None end.
Definition read_column (h : heap) (v : val) : option (list LayoutObject.t) :=
  match v with VRef c => read_list read_layout h c | _ => None end.

(** The grid of the [Array] object at [l] *)
Definition read_array (h : heap) (l : loc) : option (list (list LayoutObject.t)) :=
  match h !! l with
  | Some (OArray a _ _) => read_list (read_column h) h a
  | _ => None
  end.

(** The world state of the gamestate object at [self]: the value that the
    first model works on. It is defined for an object that is built as the
    class builds it. *)
Definition world (h : heap) (self : loc) : option Value.Gamestate.t :=
  match h !! self with
  | Some (OGamestate s a st f t sc tk) =>
      statics ← read_array h s;
      agents ← read_list read_agent h a;
      starts ← read_list read_agent h st;
      facings ← read_list read_move h f;
      timers ← read_list read_int h t;
      Some (Value.Gamestate.mk statics agents starts facings timers sc tk)
  | _ => None
  end.

(** The objects that an object refers to *)
Definition val_refs (v : val) : list loc :=
  match v with
  | VRef l => [l]
  | _ => []
  end.

Definition refs (o : obj) : list loc :=
  match o with
  | OList items => items ≫= val_refs
  | ODict entries => entries ≫= fun e => val_refs e.1 ++ val_refs e.2
  | OArray a ci cl => [a; ci; cl]
  | OIndicatorArray a ci cl lst value => [a; ci; cl; lst] ++ val_refs value
  | OGamestate s a st f t _ _ => [s; a; st; f; t]
  | OPosition _ order start _ _ walls | OAllDot _ order start _ walls =>
      [order; walls] ++ val_refs start
  end.

(** Every object of [h] is still in [h'], as it was. *)
Definition unchanged (h h' : heap) : Prop :=
  ∀ l o, h !! l = Some o → h' !! l = Some o.

(** The same, but for the memo caches: a dict is still a dict. *)
Definition unchanged_but_caches (h h' : heap) : Prop :=
  ∀ l o, h !! l = Some o →
    match o with
    | ODict _ => ∃ entries, h' !! l = Some (ODict entries)
    | _ => h' !! l = Some o
    end.

(** The objects made since [h] stand apart from the objects of [h]: an
    object of [h'] at a location that [h] did not use refers to such
    objects only. *)
Definition independent (h h' : heap) : Prop :=
  ∀ l o, h !! l = None → h' !! l = Some o →
    ∀ l', l' ∈ refs o → h !! l' = None.

End Store.

(** * Verified properties *)

(** ** Python lists *)


Lemma py_pos_ok {A} (l : list A) (i : Z) :
  0 ≤ i < len l → py_pos l i = Ok (Z.to_nat i).
Proof.
  intros Hi. unfold py_pos.
  destruct (Z.ltb_spec i 0); [lia|].
  destruct (Z.leb_spec 0 i); [|lia].
  destruct (Z.ltb_spec i (len l)); [done|lia].
Qed.

Lemma py_get_ok {A} (l : list A) (i : Z) (a : A) :
  0 ≤ i → l !! Z.to_nat i = Some a → py_get l i = Ok a.
Proof.
  intros Hi Hl. unfold py_get. rewrite py_pos_ok.
  - simpl. by rewrite Hl.
  - apply lookup_lt_Some in Hl. unfold len. lia.
Qed.

Lemma opposite_involutive (m : Move.t) : Move.opposite m ≫= Move.opposite = Ok m.
Proof. by destruct m. Qed.

Section ArrayFacts.
Context {A : Type} `{EqDecision A}.
Implicit Types a b : list (list A).

(** The cell in column [i] at height [j] *)
Definition cell a (i j : nat) : option A := a !! i ≫= (.!! j).

(** A grid of [w] columns of height [h] *)
Definition grid a (w h : nat) : Prop :=
  length a = w ∧ Forall (fun c => length c = h) a.

Lemma rectangular_grid a :
  Array.rectangular a ↔ ∃ h, grid a (length a) h.
Proof.
  unfold Array.rectangular, grid. split.
  - intros Hr. by exists (length (default [] (head a))).
  - intros (h & _ & Hall). apply Forall_forall. intros c Hc.
    rewrite Forall_forall in Hall. rewrite (Hall c Hc).
    destruct a as [|c0 a']; [by apply elem_of_nil in Hc|].
    simpl. symmetry. apply Hall. left.
Qed.

Lemma grid_ext a b w h :
  grid a w h → grid b w h → (∀ i j, cell a i j = cell b i j) → a = b.
Proof.
  intros [Hwa Hha] [Hwb Hhb] Hcell. apply list_eq. intros i.
  destruct (a !! i) as [c|] eqn:Hc.
  - destruct (b !! i) as [d|] eqn:Hd.
    + f_equal. apply list_eq. intros j.
      specialize (Hcell i j). unfold cell in Hcell. by rewrite Hc, Hd in Hcell.
    + apply lookup_lt_Some in Hc. apply lookup_ge_None in Hd. lia.
  - destruct (b !! i) as [d|] eqn:Hd; [|done].
    apply lookup_ge_None in Hc. apply lookup_lt_Some in Hd. lia.
Qed.

Lemma mapM_head_tail (rest : list (list A)) (j : nat) :
  mapM (.!! S j) rest = mapM (.!! j) (tail <$> rest).
Proof.
  induction rest as [|c rest IH]; [done|].
  cbn. rewrite IH. by destruct c.
Qed.

Lemma mapM_head_lookup (rest : list (list A)) :
  mapM head rest = mapM (.!! 0%nat) rest.
Proof.
  induction rest as [|c rest IH]; [done|].
  cbn. rewrite IH. by destruct c.
Qed.

Lemma zip_star_from_lookup (c0 : list A) rest (j : nat) :
  Forall (fun c => length c = length c0) rest →
  Array.zip_star_from c0 rest !! j = mapM (.!! j) (c0 :: rest).
Proof.
  revert rest j. induction c0 as [|x c0 IH]; intros rest j Hall.
  - done.
  - assert (Htl : Forall (fun c => length c = length c0) (tail <$> rest)).
    { apply Forall_fmap. eapply Forall_impl; [exact Hall|].
      intros [|??] ?; simpl in *; lia. }
    simpl Array.zip_star_from.
    destruct (mapM head rest) as [hs|] eqn:Hhs.
    + destruct j as [|j].
      * cbn. rewrite <- mapM_head_lookup, Hhs. done.
      * cbn [lookup list_lookup]. rewrite IH by done.
        cbn. rewrite mapM_head_tail. done.
    + exfalso. apply mapM_None in Hhs. rewrite Exists_exists in Hhs.
      destruct Hhs as (c & Hc & Hnone). rewrite Forall_forall in Hall.
      specialize (Hall c Hc). destruct c; simpl in *; [lia|done].
Qed.

Lemma transpose_lookup a w h (j : nat) :
  grid a w h → (0 < w)%nat →
  Array.transpose a !! j = mapM (.!! j) a.
Proof.
  intros [Hw Hh] Hpos. destruct a as [|c0 rest]; [simpl in *; lia|].
  unfold Array.transpose, Array.zip_star. apply zip_star_from_lookup.
  inversion Hh; subst. done.
Qed.

Lemma mapM_lookup_grid a w h (j : nat) :
  grid a w h → (j < h)%nat → ∃ r, mapM (.!! j) a = Some r ∧ length r = w ∧
     ∀ i, r !! i = cell a i j.
Proof.
  intros [Hw Hh] Hj.
  destruct (mapM (.!! j) a) as [r|] eqn:Hr.
  - exists r. apply mapM_Some in Hr. split; [done|]. split.
    + apply Forall2_length in Hr. lia.
    + intros i. unfold cell. destruct (a !! i) as [c|] eqn:Hc; simpl.
      * destruct (Forall2_lookup_l _ _ _ _ _ Hr Hc) as (y & Hy & Hcy). by rewrite Hy.
      * apply lookup_ge_None. apply Forall2_length in Hr. apply lookup_ge_None in Hc. lia.
  - exfalso. apply mapM_None in Hr. rewrite Exists_exists in Hr.
    destruct Hr as (c & Hc & Hnone). rewrite Forall_forall in Hh.
    specialize (Hh c Hc). apply lookup_ge_None in Hnone. lia.
Qed.

Lemma transpose_grid a w h :
  grid a w h → (0 < w)%nat →
  grid (Array.transpose a) h w ∧ ∀ i j, cell (Array.transpose a) j i = cell a i j.
Proof.
  intros Hg Hpos.
  assert (Hlen : length (Array.transpose a) = h).
  { apply Nat.le_antisymm.
    - apply Nat.nlt_ge. intros Hlt.
      destruct (lookup_lt_is_Some_2 (Array.transpose a) h Hlt) as [r Hr].
      rewrite (transpose_lookup a w h) in Hr by done.
      apply mapM_Some in Hr. destruct Hg as [Hw Hh].
      destruct a as [|c0 rest]; [simpl in *; lia|].
      inversion Hr as [|? ? ? ? Hc0]; subst. inversion Hh; subst.
      apply lookup_lt_Some in Hc0. lia.
    - apply Nat.nlt_ge. intros Hlt. 
      destruct h as [|h']; [lia|].
      destruct (mapM_lookup_grid a w (S h') (length (Array.transpose a)) Hg) as (r & Hr & _); [lia|].
      rewrite <- (transpose_lookup a w (S h')) in Hr by done.
      apply lookup_lt_Some in Hr. lia. }
  split; [split; [done|]|].
  - apply Forall_forall. intros r Hr. apply list_elem_of_lookup in Hr as [j Hj].
    rewrite (transpose_lookup a w h) in Hj by done.
    apply mapM_Some in Hj. apply Forall2_length in Hj. destruct Hg. lia.
  - intros i j. unfold cell at 1. rewrite (transpose_lookup a w h) by done.
    destruct (decide (j < h)%nat) as [Hj|Hj].
    + destruct (mapM_lookup_grid a w h j Hg Hj) as (r & -> & _ & Hcell). simpl. apply Hcell.
    + destruct (mapM (.!! j) a) as [r|] eqn:Hr; simpl.
      * exfalso. assert (Hl: Array.transpose a !! j = Some r) by (by rewrite (transpose_lookup a w h)).
        apply lookup_lt_Some in Hl. lia.
      * unfold cell. destruct (a !! i) as [c|] eqn:Hc; simpl; [|done].
        symmetry. apply lookup_ge_None. destruct Hg as [_ Hh]. rewrite Forall_forall in Hh.
        rewrite (Hh c); [lia|]. by eapply list_elem_of_lookup_2.
Qed.

Lemma transpose_transpose a w h :
  grid a w h → (0 < w)%nat → (0 < h)%nat →
  Array.transpose (Array.transpose a) = a.
Proof.
  intros Hg Hw Hh.
  destruct (transpose_grid a w h Hg Hw) as [Hg1 Hc1].
  destruct (transpose_grid _ h w Hg1 Hh) as [Hg2 Hc2].
  apply (grid_ext _ _ w h); [done..|].
  intros i j. by rewrite Hc2, Hc1.
Qed.

Lemma mirror_hor_grid a w h : grid a w h → grid (Array.mirror_hor a) w h.
Proof.
  intros [Hw Hh]. split.
  - unfold Array.mirror_hor. by rewrite length_reverse.
  - unfold Array.mirror_hor. by apply Forall_reverse.
Qed.

Lemma mirror_ver_mirror_ver a w h :
  grid a w h → (0 < w)%nat → (0 < h)%nat →
  Array.mirror_ver (Array.mirror_ver a) = a.
Proof.
  intros Hg Hw Hh. unfold Array.mirror_ver.
  destruct (transpose_grid a w h Hg Hw) as [Hg1 _].
  pose proof (mirror_hor_grid _ _ _ Hg1) as Hg2.
  rewrite (transpose_transpose _ h w Hg2 Hh Hw).
  unfold Array.mirror_hor. rewrite reverse_involutive.
  by apply (transpose_transpose a w h).
Qed.

Lemma grid_of_rectangular a :
  Array.rectangular a → [] ∉ a → a ≠ [] →
  ∃ w h, grid a w h ∧ (0 < w)%nat ∧ (0 < h)%nat.
Proof.
  intros Hr Hne Ha. apply rectangular_grid in Hr as [h Hg].
  exists (length a), h. split; [done|]. split.
  - destruct a; [done|simpl; lia].
  - destruct a as [|c0 rest]; [done|]. destruct Hg as [_ Hh].
    inversion Hh; subst. destruct c0; [|simpl; lia].
    exfalso. apply Hne. left.
Qed.

End ArrayFacts.

(** C7, for arrays without an empty column: [opposite(opposite(m))] is [m]
    for every move [m], and for every rectangular array [a] none of whose
    columns is empty, [a.transpose.transpose == a] and
    [a.mirror_ver.mirror_ver == a]. *)
Theorem roundtrip_laws {A} `{EqDecision A} (m : Move.t) (a : list (list A)) :
  Array.rectangular a → [] ∉ a →
  Move.opposite m ≫= Move.opposite = Ok m
  ∧ Array.eq (Array.transpose (Array.transpose a)) a = true
  ∧ Array.eq (Array.mirror_ver (Array.mirror_ver a)) a = true.
Proof.
  intros Hr Hne. split; [apply opposite_involutive|].
  unfold Array.eq. rewrite !bool_decide_eq_true.
  destruct (decide (a = [])) as [->|Ha]; [done|].
  destruct (grid_of_rectangular a Hr Hne Ha) as (w & h & Hg & Hw & Hh).
  split; [by apply (transpose_transpose a w h)|by apply (mirror_ver_mirror_ver a w h)].
Qed.

(** The height the array goes by: the length of its first column *)
Definition height {A} (a : list (list A)) : Z := len (default [] (head a)).

Definition in_bounds {A} (a : list (list A)) (x y : Z) : Prop :=
  0 ≤ x < len a ∧ 0 ≤ y < height a.

Lemma len_fmap {B C} (f : B → C) (l : list B) : len (f <$> l) = len l.
Proof. unfold len. by rewrite length_fmap. Qed.

Section ArrayLookup.
Context {A : Type} `{EqDecision A}.
Implicit Types a : list (list A).

Lemma shape_eq a : Array.shape a = Ok (mkVector (len a) (height a)).
Proof. by destruct a. Qed.

Lemma contains_eq a x y :
  Array.contains a x y = Ok (bool_decide (in_bounds a x y)).
Proof.
  unfold Array.contains, in_bounds, height.
  destruct (Z.leb_spec 0 x), (Z.ltb_spec x (len a)); simpl;
    try (rewrite bool_decide_eq_false_2 by lia; done).
  destruct a as [|c0 rest]; [unfold len in *; simpl in *; lia|]. simpl.
  f_equal. destruct (Z.leb_spec 0 y), (Z.ltb_spec y (len c0)); simpl; symmetry;
    (apply bool_decide_eq_true_2 || apply bool_decide_eq_false_2); lia.
Qed.

Lemma getitem_outside a x y :
  ¬ in_bounds a x y → Array.getitem a x y = Ok None.
Proof.
  intros Hout. unfold Array.getitem. rewrite contains_eq.
  by rewrite bool_decide_eq_false_2.
Qed.


(** In a rectangular array every lookup inside the bounds finds its cell. *)
Lemma getitem_inside a x y :
  Array.rectangular a → in_bounds a x y →
  ∃ v, cell a (Z.to_nat x) (Z.to_nat y) = Some v ∧ Array.getitem a x y = Ok (Some v).
Proof.
  intros Hr [Hx Hy]. unfold Array.getitem. rewrite contains_eq.
  rewrite bool_decide_eq_true_2 by done. simpl.
  destruct (lookup_lt_is_Some_2 a (Z.to_nat x)) as [c Hc]; [unfold len in *; lia|].
  assert (Hlen : len c = height a).
  { unfold Array.rectangular in Hr. rewrite Forall_forall in Hr.
    unfold height, len. f_equal. apply Hr. by eapply list_elem_of_lookup_2. }
  destruct (lookup_lt_is_Some_2 c (Z.to_nat y)) as [v Hv]; [unfold len in *; lia|].
  exists v. split.
  - unfold cell. by rewrite Hc.
  - rewrite (py_get_ok a x c) by (done || lia). simpl.
    by rewrite (py_get_ok c y v) by (done || lia).
Qed.

Lemma getitem_cell a x y :
  Array.rectangular a →
  Array.getitem a x y =
    Ok (if decide (in_bounds a x y) then cell a (Z.to_nat x) (Z.to_nat y) else None).
Proof.
  intros Hr. destruct (decide (in_bounds a x y)) as [Hin|Hout].
  - destruct (getitem_inside a x y Hr Hin) as (v & -> & ->). done.
  - by apply getitem_outside.
Qed.

End ArrayLookup.

Section Indicators.
Context {A : Type} `{EqDecision A}.
Implicit Types a : list (list A).

Lemma height_full_indicators a (value : A) :
  height (Array.full_indicators a value) = height a.
Proof.
  unfold height, Array.full_indicators. destruct a as [|c0 rest]; [done|].
  simpl. apply len_fmap.
Qed.

Lemma in_bounds_full_indicators a (value : A) x y :
  in_bounds (Array.full_indicators a value) x y ↔ in_bounds a x y.
Proof.
  unfold in_bounds. rewrite height_full_indicators.
  unfold Array.full_indicators at 1. by rewrite len_fmap.
Qed.

Lemma ind_getitem_outside a (value : A) x y :
  ¬ in_bounds a x y → Array.ind_getitem (Array.indicate a value) x y = Ok None.
Proof.
  intros Hout. unfold Array.ind_getitem, Array.indicate. simpl.
  apply getitem_outside. by rewrite in_bounds_full_indicators.
Qed.

Lemma rectangular_full_indicators a (value : A) :
  Array.rectangular a → Array.rectangular (Array.full_indicators a value).
Proof.
  unfold Array.rectangular, Array.full_indicators. intros Hr.
  apply Forall_fmap. eapply Forall_impl; [exact Hr|].
  intros c Hc. simpl. rewrite length_fmap, Hc.
  destruct a; simpl; [done|]. by rewrite length_fmap.
Qed.

Lemma cell_full_indicators a (value : A) i j :
  cell (Array.full_indicators a value) i j =
    (fun e => bool_decide (e = value)) <$> cell a i j.
Proof.
  unfold cell, Array.full_indicators. rewrite list_lookup_fmap.
  destruct (a !! i) as [c|]; simpl; [|done]. by rewrite list_lookup_fmap.
Qed.

(** What an indicator lookup returns in a rectangular array: whether the
    cell holds the value, and [None] outside the bounds. *)
Lemma ind_getitem_eq a (value : A) x y :
  Array.rectangular a →
  Array.ind_getitem (Array.indicate a value) x y =
    (fun o : option A => (fun e : A => bool_decide (e = value)) <$> o)
      <$> Array.getitem a x y.
Proof.
  intros Hr. unfold Array.ind_getitem, Array.indicate. simpl.
  rewrite getitem_cell by by apply rectangular_full_indicators.
  rewrite (getitem_cell a) by done. simpl.
  destruct (decide (in_bounds a x y)) as [Hin|Hout].
  - rewrite decide_True by by apply in_bounds_full_indicators.
    by rewrite cell_full_indicators.
  - rewrite decide_False by by rewrite in_bounds_full_indicators. done.
Qed.

End Indicators.

(** C8: at an index outside the bounds that [shape] gives, negative
    coordinates included, [contains] is false and the lookup raises nothing:
    [array[x, y]] is [None] for an [Array] and for its indicator view, and
    [None] is falsy. *)
Theorem getitem_out_of_bounds {A} `{EqDecision A} (a : list (list A)) (value : A)
    (x y : Z) (s : Vector) :
  Array.shape a = Ok s →
  ¬ (0 ≤ x < vx s ∧ 0 ≤ y < vy s) →
  Array.contains a x y = Ok false
  ∧ Array.getitem a x y = Ok None
  ∧ Array.ind_getitem (Array.indicate a value) x y = Ok None
  ∧ Array.truthy None = false.
Proof.
  rewrite shape_eq. intros [= <-] Hout. simpl in Hout.
  split; [|split; [|split]].
  - rewrite contains_eq. by rewrite bool_decide_eq_false_2.
  - by apply getitem_outside.
  - by apply ind_getitem_outside.
  - done.
Qed.

Lemma getitem_out_of_bounds_witness :
  Array.contains [[LayoutObject.wall; LayoutObject.dot]] (-1) 2 = Ok false
  ∧ Array.getitem [[LayoutObject.wall; LayoutObject.dot]] (-1) 2 = Ok None
  ∧ Array.ind_getitem
      (Array.indicate [[LayoutObject.wall; LayoutObject.dot]] LayoutObject.wall)
      (-1) 2 = Ok None
  ∧ Array.truthy None = false.
Proof.
  apply (getitem_out_of_bounds _ _ _ _ (mkVector 1 2)); [reflexivity|].
  simpl. lia.
Defined.

Section ArrayList.
Context {A : Type} `{EqDecision A}.
Implicit Types a : list (list A).

Lemma py_get_cell a x y :
  Array.rectangular a → in_bounds a x y →
  ∃ c v, py_get a x = Ok c ∧ py_get c y = Ok v
         ∧ cell a (Z.to_nat x) (Z.to_nat y) = Some v.
Proof.
  intros Hr [Hx Hy].
  destruct (lookup_lt_is_Some_2 a (Z.to_nat x)) as [c Hc]; [unfold len in *; lia|].
  assert (Hlen : len c = height a).
  { unfold Array.rectangular in Hr. rewrite Forall_forall in Hr.
    unfold height, len. f_equal. apply Hr. by eapply list_elem_of_lookup_2. }
  destruct (lookup_lt_is_Some_2 c (Z.to_nat y)) as [v Hv]; [unfold len in *; lia|].
  exists c, v. split; [|split].
  - apply py_get_ok; [lia|done].
  - apply py_get_ok; [lia|done].
  - unfold cell. by rewrite Hc.
Qed.

(** The coordinates among [l] at which the array holds [value] *)
Definition hits a (value : A) (l : list (Z * Z)) : list Vector :=
  (fun xy => mkVector xy.1 xy.2)
    <$> filter (fun xy => cell a (Z.to_nat xy.1) (Z.to_nat xy.2) = Some value) l.

Lemma list_loop_eq a (value : A) (l : list (Z * Z)) (acc : list Vector) :
  Array.rectangular a →
  Forall (fun xy => in_bounds a xy.1 xy.2) l →
  foldl (fun acc xy =>
           r ← acc;
           c ← py_get a xy.1; v ← py_get c xy.2;
           Ok (if decide (v = value) then r ++ [mkVector xy.1 xy.2] else r))
        (Ok acc) l
  = Ok (acc ++ hits a value l).
Proof.
  intros Hr Hall. revert acc. induction Hall as [|[x y] l Hin Hall IH]; intros acc.
  - simpl. unfold hits. simpl. by rewrite app_nil_r.
  - simpl in Hin. simpl foldl.
    destruct (py_get_cell a x y Hr Hin) as (c & v & -> & Hv & Hcell). simpl.
    rewrite Hv. simpl. unfold hits. rewrite filter_cons. simpl. rewrite Hcell.
    destruct (decide (v = value)) as [->|Hne].
    + rewrite decide_True by done. rewrite IH. unfold hits.
      by rewrite <- app_assoc.
    + rewrite decide_False by congruence. by rewrite IH.
Qed.

Lemma elem_of_product_range (n m x y : Z) :
  (x, y) ∈ Array.product_range n m ↔ 0 ≤ x < n ∧ 0 ≤ y < m.
Proof.
  unfold Array.product_range. rewrite list_elem_of_bind. split.
  - intros (x' & Hy & Hx). apply list_elem_of_bind in Hy as (y' & Hxy & Hy).
    apply list_elem_of_singleton in Hxy as [= -> ->].
    apply elem_of_seqZ in Hx, Hy. lia.
  - intros [Hx Hy]. exists x. split; [|apply elem_of_seqZ; lia].
    apply list_elem_of_bind. exists y. split; [by apply list_elem_of_singleton|].
    apply elem_of_seqZ; lia.
Qed.

(** [Array.list] on a rectangular array *)
Lemma list_eq_hits a (value : A) :
  Array.rectangular a →
  Array.list_ a value = Ok (hits a value (Array.product_range (len a) (height a))).
Proof.
  intros Hr. unfold Array.list_. rewrite shape_eq. simpl.
  rewrite (list_loop_eq a value _ [] Hr); [done|].
  apply Forall_forall. intros [x y] Hxy. by apply elem_of_product_range in Hxy.
Qed.

Lemma list_nil_iff a (value : A) :
  Array.rectangular a →
  Array.list_ a value = Ok [] ↔ ∀ x y, Array.getitem a x y ≠ Ok (Some value).
Proof.
  intros Hr. rewrite list_eq_hits by done. split.
  - intros [= Hnil] x y. rewrite getitem_cell by done.
    destruct (decide (in_bounds a x y)) as [Hin|Hout]; [|done].
    intros [= Hcell]. unfold hits in Hnil. apply fmap_nil_inv in Hnil.
    apply (filter_nil_not_elem_of _ _ (x, y)) in Hnil; [|done].
    apply Hnil. by apply elem_of_product_range.
  - intros Hno. f_equal. unfold hits.
    destruct (filter _ _) as [|[x y] l] eqn:Hf; [done|]. exfalso.
    assert (Hxy : (x, y) ∈ (x, y) :: l) by left. rewrite <- Hf in Hxy.
    apply list_elem_of_filter in Hxy as [Hcell Hxy]. simpl in Hcell.
    apply elem_of_product_range in Hxy.
    apply (Hno x y). rewrite getitem_cell by done.
    rewrite decide_True by done. by rewrite Hcell.
Qed.

End ArrayList.

Lemma ind_list_nil_iff {A} `{EqDecision A} (a : list (list A)) (value : A) :
  Array.rectangular a →
  Array.ind_list (Array.indicate a value) = Ok []
  ↔ ∀ x y, Array.getitem a x y ≠ Ok (Some value).
Proof.
  intros Hr. unfold Array.ind_list, Array.indicate. simpl.
  rewrite list_nil_iff by by apply rectangular_full_indicators.
  split; intros Hno x y.
  - intros Hget. apply (Hno x y).
    pose proof (ind_getitem_eq a value x y Hr) as Heq.
    unfold Array.ind_getitem, Array.indicate in Heq. simpl in Heq.
    rewrite Heq, Hget. simpl. by rewrite bool_decide_eq_true_2.
  - pose proof (ind_getitem_eq a value x y Hr) as Heq.
    unfold Array.ind_getitem, Array.indicate in Heq. simpl in Heq.
    rewrite Heq. specialize (Hno x y).
    destruct (Array.getitem a x y) as [[v|]|]; simpl; try done.
    intros [= Hv]. apply bool_decide_eq_true in Hv. congruence.
Qed.

(** C4: on a rectangular grid, [loss] holds exactly when Pacman's slot holds
    [None]; [win] holds exactly when Pacman is there and no cell of the
    statics grid holds a dot; [win] and [loss] never hold of the same state. *)
Theorem win_loss_characterisation (g : Gamestate.t) :
  Array.rectangular (Gamestate._statics g) →
  (Gamestate.loss g = Ok true ↔ Gamestate.agents g !! 0%nat = Some None)
  ∧ (Gamestate.win g = Ok true ↔
       (∃ v, Gamestate.agents g !! 0%nat = Some (Some v))
       ∧ ∀ x y, Array.getitem (Gamestate._statics g) x y ≠ Ok (Some LayoutObject.dot))
  ∧ ¬ (Gamestate.win g = Ok true ∧ Gamestate.loss g = Ok true).
Proof.
  intros Hr.
  assert (Hloss : Gamestate.loss g = Ok true ↔ Gamestate.agents g !! 0%nat = Some None).
  { unfold Gamestate.loss, Gamestate.pacman, nat_get, Gamestate.PACMAN_ID.
    by destruct (Gamestate.agents g !! 0%nat) as [[v|]|]. }
  assert (Hwin : Gamestate.win g = Ok true ↔
       (∃ v, Gamestate.agents g !! 0%nat = Some (Some v))
       ∧ ∀ x y, Array.getitem (Gamestate._statics g) x y ≠ Ok (Some LayoutObject.dot)).
  { rewrite <- (ind_list_nil_iff _ LayoutObject.dot Hr).
    unfold Gamestate.win, Gamestate.loss, Gamestate.pacman, nat_get,
      Gamestate.PACMAN_ID, Gamestate.dots.
    destruct (Gamestate.agents g !! 0%nat) as [[v|]|]; simpl;
      [|by split; [|intros [[? [=]] _]]..].
    destruct (Array.ind_list _) as [l|e]; simpl; [|by split; [|intros [_ [=]]]].
    split.
    - intros [= Hl]. apply bool_decide_eq_true in Hl. subst. eauto.
    - intros [_ [= ->]]. done. }
  split; [done|]. split; [done|].
  rewrite Hloss, Hwin. intros [[[v Hv] _] Hn]. congruence.
Qed.

(** A world of two columns in which no dot is left: Pacman has won. *)
Definition cleared_world : Gamestate.t :=
  Gamestate.mk
    [[LayoutObject.wall; LayoutObject.empty]; [LayoutObject.wall; LayoutObject.empty]]
    [Some (mkVector 0 1)] [Some (mkVector 0 1)] [Move.stop] [0] 0 0.

Lemma win_loss_characterisation_witness :
  Gamestate.win cleared_world = Ok true
  ∧ Gamestate.loss cleared_world = Ok false
  ∧ Gamestate.gameover cleared_world = Ok true
  ∧ ¬ (Gamestate.win cleared_world = Ok true ∧ Gamestate.loss cleared_world = Ok true).
Proof.
  split; [reflexivity|]. split; [reflexivity|]. split; [reflexivity|].
  apply (win_loss_characterisation cleared_world).
  unfold Array.rectangular. simpl. repeat constructor.
Defined.

(** ** The world state machine *)

(** On a rectangular grid an indicator lookup never raises, and it is truthy
    exactly at the cells that hold the value. *)
Lemma indicator_at (a : list (list LayoutObject.t)) (value : LayoutObject.t)
    (u : Vector) :
  Array.rectangular a →
  ∃ w, Gamestate.at_ (Array.indicate a value) u = Ok w
       ∧ (Array.truthy w = true ↔ Array.getitem a (vx u) (vy u) = Ok (Some value)).
Proof.
  intros Hr. unfold Gamestate.at_. rewrite ind_getitem_eq by done.
  rewrite getitem_cell by done.
  destruct (decide _) as [Hin|Hout]; simpl; [|by eexists].
  destruct (cell a _ _) as [e|]; simpl; [|by eexists].
  eexists. split; [done|]. simpl. rewrite bool_decide_eq_true. naive_solver.
Qed.

Lemma Vector_add_stop (v : Vector) : Vector.add v (Move.vector Move.stop) = v.
Proof. destruct v as [x y]. unfold Vector.add. simpl. f_equal; lia. Qed.

(** A cell holds a wall. Outside the grid nothing does. *)
Definition is_wall (a : list (list LayoutObject.t)) (u : Vector) : Prop :=
  Array.getitem a (vx u) (vy u) = Ok (Some LayoutObject.wall).

#[global] Instance is_wall_dec a u : Decision (is_wall a u).
Proof. unfold is_wall. apply _. Defined.

Lemma legal_moves_loop (g : Gamestate.t) (v : Vector) (l : list Move.t)
    (acc : gset Move.t) :
  Array.rectangular (Gamestate._statics g) →
  foldl (fun acc move =>
           moves ← acc;
           v ← Ok v;
           w ← Gamestate.at_ (Gamestate.walls g) (Vector.add v (Move.vector move));
           Ok (if Array.truthy w then moves else moves ∪ {[move]}))
        (Ok acc) l
  = Ok (acc ∪ list_to_set
          (filter (fun m => ¬ is_wall (Gamestate._statics g)
                                (Vector.add v (Move.vector m))) l)).
Proof.
  intros Hr.
  set (f := fun (acc : result (gset Move.t)) (move : Move.t) => _).
  revert acc. induction l as [|m l IH]; intros acc.
  - cbn [foldl]. f_equal. rewrite filter_nil, list_to_set_nil.
    by rewrite (right_id_L ∅ (∪)).
  - cbn [foldl].
    destruct (indicator_at _ LayoutObject.wall (Vector.add v (Move.vector m)) Hr)
      as (w & Hw & Hiff).
    assert (Hstep : f (Ok acc) m = Ok (if Array.truthy w then acc else acc ∪ {[m]})).
    { unfold f. cbn [mbind result_bind]. unfold Gamestate.walls. by rewrite Hw. }
    rewrite Hstep, filter_cons.
    destruct (Array.truthy w) eqn:Ht.
    + rewrite decide_False by (intros Hn; apply Hn, Hiff; done). apply IH.
    + rewrite decide_True.
      2:{ intros Hn. apply Hiff in Hn. congruence. }
      rewrite IH. f_equal. rewrite list_to_set_cons. by rewrite (assoc_L (∪)).
Qed.

(** [legal_moves_vector] on a rectangular grid: the moves that do not lead
    into a wall. *)
Lemma legal_moves_vector_eq (g : Gamestate.t) (v : Vector) :
  Array.rectangular (Gamestate._statics g) →
  Gamestate.legal_moves_vector g (Some v)
  = Ok (list_to_set
          (filter (fun m => ¬ is_wall (Gamestate._statics g)
                                (Vector.add v (Move.vector m))) Move.all)).
Proof.
  intros Hr. unfold Gamestate.legal_moves_vector.
  rewrite (legal_moves_loop g v Move.all ∅ Hr). f_equal.
  by rewrite (left_id_L ∅ (∪)).
Qed.

(** C10: on a rectangular grid, for a position whose own cell is not a wall,
    [legal_moves_vector] returns a set that contains [stop]; so the set of
    legal moves of an agent that stands there is not empty. *)
Theorem legal_moves_contain_stop (g : Gamestate.t) (v : Vector) (agent_id : nat) :
  Array.rectangular (Gamestate._statics g) →
  Array.getitem (Gamestate._statics g) (vx v) (vy v) ≠ Ok (Some LayoutObject.wall) →
  (∃ moves, Gamestate.legal_moves_vector g (Some v) = Ok moves ∧ Move.stop ∈ moves)
  ∧ (Gamestate.agents g !! agent_id = Some (Some v) →
     ∃ moves, Gamestate.legal_moves_id g agent_id = Ok moves ∧ moves ≠ ∅).
Proof.
  intros Hr Hfree.
  assert (Hlegal : ∃ moves,
    Gamestate.legal_moves_vector g (Some v) = Ok moves ∧ Move.stop ∈ moves).
  { rewrite legal_moves_vector_eq by done. eexists. split; [done|].
    apply elem_of_list_to_set, list_elem_of_filter. split.
    - by rewrite Vector_add_stop.
    - unfold Move.all. repeat constructor. }
  split; [done|].
  intros Hagent. destruct Hlegal as (moves & Hmoves & Hstop).
  exists moves. split; [|by intros ->; apply elem_of_empty in Hstop].
  unfold Gamestate.legal_moves_id, nat_get. by rewrite Hagent.
Qed.

Lemma legal_moves_contain_stop_witness :
  (∃ moves, Gamestate.legal_moves_vector cleared_world (Some (mkVector 0 1)) = Ok moves
            ∧ Move.stop ∈ moves)
  ∧ (Gamestate.agents cleared_world !! 0%nat = Some (Some (mkVector 0 1)) →
     ∃ moves, Gamestate.legal_moves_id cleared_world 0 = Ok moves ∧ moves ≠ ∅).
Proof.
  apply (legal_moves_contain_stop cleared_world (mkVector 0 1) 0).
  - unfold Array.rectangular. simpl. repeat constructor.
  - vm_compute. discriminate.
Defined.

(** *** Which exceptions the methods raise *)

(** A fallible value, or a method, that raises nothing but [IndexError] *)
Definition index_only {A} (r : result A) : Prop :=
  ∀ e, r = Raise e → e = IndexError.

Definition index_only_M {A} (m : Gamestate.M A) : Prop :=
  ∀ g e g', m g = (Raise e, g') → e = IndexError.

Lemma index_only_Ok {A} (a : A) : index_only (Ok a).
Proof. by intros e. Qed.

Lemma index_only_bind {A B} (r : result A) (f : A → result B) :
  index_only r → (∀ a, index_only (f a)) → index_only (r ≫= f).
Proof.
  intros Hr Hf e. destruct r as [a|e']; simpl.
  - apply Hf.
  - intros [= <-]. by apply Hr.
Qed.

Lemma index_only_py_pos {A} (l : list A) i : index_only (py_pos l i).
Proof. intros e. unfold py_pos. case_match; naive_solver. Qed.

Lemma index_only_py_get {A} (l : list A) i : index_only (py_get l i).
Proof.
  apply index_only_bind; [apply index_only_py_pos|].
  intros n e. case_match; naive_solver.
Qed.

Lemma index_only_py_set {A} (l : list A) i v : index_only (py_set l i v).
Proof.
  apply index_only_bind; [apply index_only_py_pos|]. intros n. apply index_only_Ok.
Qed.

Lemma index_only_nat_get {A} (l : list A) i : index_only (nat_get l i).
Proof. intros e. unfold nat_get. case_match; naive_solver. Qed.

Lemma index_only_nat_set {A} (l : list A) i v : index_only (nat_set l i v).
Proof. intros e. unfold nat_set. case_match; naive_solver. Qed.

Lemma index_only_setitem {A} (a : list (list A)) x y v :
  index_only (Array.setitem a x y v).
Proof.
  unfold Array.setitem.
  repeat (apply index_only_bind; [first [apply index_only_py_get|apply index_only_py_set]|intros ?]).
  apply index_only_py_set.
Qed.

Lemma index_only_contains {A} (a : list (list A)) x y :
  index_only (Array.contains a x y).
Proof.
  unfold Array.contains. case_match; [|apply index_only_Ok].
  apply index_only_bind; [apply index_only_py_get|]. intros ?. apply index_only_Ok.
Qed.

Lemma index_only_getitem {A} (a : list (list A)) x y :
  index_only (Array.getitem a x y).
Proof.
  unfold Array.getitem.
  apply index_only_bind; [apply index_only_contains|]. intros [|]; [|apply index_only_Ok].
  repeat (apply index_only_bind; [apply index_only_py_get|intros ?]).
  apply index_only_Ok.
Qed.

Lemma index_only_foldl {A B} (f : result B → A → result B) (l : list A) (r : result B) :
  index_only r → (∀ r a, index_only r → index_only (f r a)) →
  index_only (foldl f r l).
Proof.
  intros Hr Hf. revert r Hr. induction l as [|a l IH]; intros r Hr; simpl; [done|].
  apply IH. by apply Hf.
Qed.

Lemma index_only_shape {A} (a : list (list A)) : index_only (Array.shape a).
Proof. rewrite shape_eq. apply index_only_Ok. Qed.

Lemma index_only_list {A} `{EqDecision A} (a : list (list A)) value :
  index_only (Array.list_ a value).
Proof.
  unfold Array.list_.
  apply index_only_bind; [apply index_only_shape|]. intros s.
  apply index_only_foldl; [apply index_only_Ok|].
  intros r xy Hr.
  apply index_only_bind; [done|]. intros ?.
  repeat (apply index_only_bind; [apply index_only_py_get|intros ?]).
  apply index_only_Ok.
Qed.

Lemma index_only_at i v : index_only (Gamestate.at_ i v).
Proof. apply index_only_getitem. Qed.

Lemma index_only_M_ret {A} (a : A) : index_only_M (mret a).
Proof. by intros g e g'. Qed.

Lemma index_only_M_bind {A B} (m : Gamestate.M A) (f : A → Gamestate.M B) :
  index_only_M m → (∀ a, index_only_M (f a)) → index_only_M (m ≫= f).
Proof.
  intros Hm Hf g e g'. unfold mbind, Gamestate.M_bind.
  destruct (m g) as [[a|e'] g1] eqn:Hmg.
  - apply Hf.
  - intros [= <- <-]. by eapply Hm.
Qed.

Lemma index_only_M_read {A} (f : Gamestate.t → result A) :
  (∀ g, index_only (f g)) → index_only_M (Gamestate.read f).
Proof. intros Hf g e g' [= He _]. by eapply Hf. Qed.

Lemma index_only_M_lift {A} (r : result A) :
  index_only r → index_only_M (Gamestate.lift r).
Proof. intros Hr g e g' [= He _]. by apply Hr. Qed.

Lemma index_only_M_get : index_only_M Gamestate.get.
Proof. by intros g e g'. Qed.

Lemma index_only_M_put g0 : index_only_M (Gamestate.put g0).
Proof. by intros g e g'. Qed.

Lemma index_only_M_if {A} (b : bool) (m1 m2 : Gamestate.M A) :
  index_only_M m1 → index_only_M m2 → index_only_M (if b then m1 else m2).
Proof. by destruct b. Qed.

Lemma index_only_M_decide {A} (P : Prop) `{Decision P} (m1 m2 : Gamestate.M A) :
  index_only_M m1 → index_only_M m2 → index_only_M (if decide P then m1 else m2).
Proof. by destruct (decide P). Qed.

Ltac index_only :=
  repeat first
    [ apply index_only_M_ret
    | apply index_only_M_get
    | apply index_only_M_put
    | apply index_only_M_decide
    | apply index_only_M_if
    | apply index_only_M_lift
    | apply index_only_M_read; intros ?
    | apply index_only_nat_get
    | apply index_only_nat_set
    | apply index_only_setitem
    | apply index_only_at
    | apply index_only_list
    | apply index_only_M_bind; [|intros ?] ].

Lemma index_only_set_agent i v : index_only_M (Gamestate.set_agent i v).
Proof. unfold Gamestate.set_agent. index_only. Qed.

Lemma index_only_set_timer i n : index_only_M (Gamestate.set_timer i n).
Proof. unfold Gamestate.set_timer. index_only. Qed.

Lemma index_only_add_score n : index_only_M (Gamestate.add_score n).
Proof. unfold Gamestate.add_score. index_only. Qed.

Lemma index_only_set_static v o : index_only_M (Gamestate.set_static v o).
Proof. unfold Gamestate.set_static. index_only. Qed.

Lemma index_only_kill i : index_only_M (Gamestate.kill i).
Proof.
  unfold Gamestate.kill. index_only;
    first [apply index_only_set_agent|apply index_only_set_timer].
Qed.

Lemma index_only_resolve_encounter i :
  index_only_M (Gamestate._resolve_encounter i).
Proof.
  unfold Gamestate._resolve_encounter, Gamestate.get_timer. index_only;
    first [apply index_only_kill|apply index_only_add_score].
Qed.

(** *** The two halves of [apply_move] *)

(** What follows when Pacman has arrived on a cell that is not a wall: the
    encounter with a ghost that stands there, and the collection of a dot or
    a pellet. *)
Definition pacman_arrives (new_vector : Vector) : Gamestate.M unit :=
  g ← Gamestate.get;
  (match Gamestate.ghost_at g new_vector with
   | Some ghost_id => Gamestate._resolve_encounter ghost_id
   | None => Gamestate.skip
   end);;
  d ← Gamestate.read (fun g => Gamestate.at_ (Gamestate.dots g) new_vector);
  (if Array.truthy d then
     Gamestate.set_static new_vector LayoutObject.empty;;
     Gamestate.add_score Gamestate.SCORE_GET_DOT;;
     l ← Gamestate.read (fun g => Array.ind_list (Gamestate.dots g));
     if decide (l = []) then Gamestate.add_score Gamestate.SCORE_GET_ALL_DOTS
     else Gamestate.skip
   else Gamestate.skip);;
  p ← Gamestate.read (fun g => Gamestate.at_ (Gamestate.pellets g) new_vector);
  (if Array.truthy p then
     Gamestate.set_static new_vector LayoutObject.empty;;
     Gamestate.add_score Gamestate.SCORE_GET_PELLET;;
     Gamestate.scare_all
   else Gamestate.skip).

(** What follows when a ghost has arrived on a cell that is not a wall *)
Definition ghost_arrives (agent_id : nat) (new_vector : Vector) : Gamestate.M unit :=
  pac ← Gamestate.read Gamestate.pacman;
  if decide (pac = Some new_vector) then Gamestate._resolve_encounter agent_id
  else Gamestate.skip.

(** What [apply_move] does once the agent has been moved: the wall test, and
    then what follows the arrival. *)
Definition consequences (agent_id : nat) (new_vector : Vector) : Gamestate.M unit :=
  w ← Gamestate.read (fun g => Gamestate.at_ (Gamestate.walls g) new_vector);
  if Array.truthy w then
    (if decide (agent_id = Gamestate.PACMAN_ID)
     then Gamestate.add_score Gamestate.SCORE_DIE_PENALTY
     else Gamestate.skip);;
    Gamestate.raise (RuntimeError_wall agent_id (vx new_vector) (vy new_vector))
  else if decide (agent_id = Gamestate.PACMAN_ID) then pacman_arrives new_vector
  else ghost_arrives agent_id new_vector.

(** The state in which the consequences are worked out: the agent faces the
    way it moved, stands on the new cell even if that is a wall, has a scared
    timer that ran down by one, and Pacman has paid for the turn. *)
Definition moved (agent_id : nat) (move : Move.t) (vector : Vector) (timer : Z)
    (g : Gamestate.t) : Gamestate.t :=
  Gamestate.mk (Gamestate._statics g)
    (<[agent_id := Some (Vector.add vector (Move.vector move))]> (Gamestate.agents g))
    (Gamestate.starts g)
    (<[agent_id := move]> (Gamestate.facings g))
    (<[agent_id := if decide (timer ≠ 0) then timer - 1 else timer]>
       (Gamestate._timers g))
    (Gamestate.score g
     + if decide (agent_id = Gamestate.PACMAN_ID)
       then Gamestate.SCORE_TICK_PENALTY else 0)
    (Gamestate._tick g).

Lemma with_fields_eta (g : Gamestate.t) :
  Gamestate.mk (Gamestate._statics g) (Gamestate.agents g) (Gamestate.starts g)
    (Gamestate.facings g) (Gamestate._timers g) (Gamestate.score g)
    (Gamestate._tick g) = g.
Proof. by destruct g. Qed.

(** The outcome of [apply_move] up to the consequences *)
Lemma apply_move_cases (agent_id : nat) (move : option Move.t) (g : Gamestate.t) :
  match Gamestate.agents g !! agent_id with
  | None => Gamestate.apply_move agent_id move g = (Raise IndexError, g)
  | Some None => Gamestate.apply_move agent_id move g = (Ok (), g)
  | Some (Some vector) =>
      let m := default Move.stop move in
      if decide (agent_id < length (Gamestate.facings g))%nat then
        match Gamestate._timers g !! agent_id with
        | Some timer =>
            Gamestate.apply_move agent_id move g
            = consequences agent_id (Vector.add vector (Move.vector m))
                (moved agent_id m vector timer g)
        | None =>
            ∃ g', Gamestate.apply_move agent_id move g = (Raise IndexError, g')
        end
      else Gamestate.apply_move agent_id move g = (Raise IndexError, g)
  end.
Proof.
  change (Gamestate.apply_move agent_id move) with
    (a ← Gamestate.get_agent agent_id;
     match a with
     | None => Gamestate.skip
     | Some vector =>
         let move := default Move.stop move in
         Gamestate.set_facing agent_id move;;
         let new_vector := Vector.add vector (Move.vector move) in
         Gamestate.set_agent agent_id (Some new_vector);;
         timer ← Gamestate.get_timer agent_id;
         (if decide (timer ≠ 0) then Gamestate.set_timer agent_id (timer - 1)
          else Gamestate.skip);;
         (if decide (agent_id = Gamestate.PACMAN_ID)
          then Gamestate.add_score Gamestate.SCORE_TICK_PENALTY
          else Gamestate.skip);;
         consequences agent_id new_vector
     end).
  unfold mbind, Gamestate.M_bind, Gamestate.get_agent, Gamestate.read, nat_get.
  destruct (Gamestate.agents g !! agent_id) as [[vector|]|] eqn:Ha; [|done..].
  cbv zeta. generalize (consequences agent_id
     (Vector.add vector (Move.vector (default Move.stop move)))).
  intros tail.
  unfold Gamestate.set_facing, Gamestate.set_agent, Gamestate.get_timer,
    Gamestate.set_timer, Gamestate.add_score, Gamestate.get, Gamestate.put,
    Gamestate.lift, Gamestate.read, Gamestate.skip, nat_set, nat_get,
    mbind, Gamestate.M_bind, mret, Gamestate.M_ret.
  destruct (decide (agent_id < length (Gamestate.facings g))%nat) as [Hf|Hf]; [|done].
  assert (Hlt : (agent_id < length (Gamestate.agents g))%nat)
    by (by eapply lookup_lt_Some).
  cbn [Gamestate.agents Gamestate.facings Gamestate._timers Gamestate.score
       Gamestate._statics Gamestate.starts Gamestate._tick
       Gamestate.with_facings Gamestate.with_agents Gamestate.with_timers
       Gamestate.with_score].
  rewrite decide_True by done.
  cbn [Gamestate.agents Gamestate.facings Gamestate._timers Gamestate.score
       Gamestate._statics Gamestate.starts Gamestate._tick
       Gamestate.with_facings Gamestate.with_agents Gamestate.with_timers
       Gamestate.with_score].
  destruct (Gamestate._timers g !! agent_id) as [timer|] eqn:Ht; [|by eexists].
  assert (Hlt' : (agent_id < length (Gamestate._timers g))%nat)
    by (by eapply lookup_lt_Some).
  unfold moved.
  destruct (decide (timer ≠ 0)) as [Hn|Hn];
    destruct (decide (agent_id = Gamestate.PACMAN_ID)) as [Hp|Hp];
    cbn [Gamestate.agents Gamestate.facings Gamestate._timers Gamestate.score
       Gamestate._statics Gamestate.starts Gamestate._tick
       Gamestate.with_facings Gamestate.with_agents Gamestate.with_timers
       Gamestate.with_score];
    rewrite ?decide_True by done;
    cbn [Gamestate.agents Gamestate.facings Gamestate._timers Gamestate.score
       Gamestate._statics Gamestate.starts Gamestate._tick
       Gamestate.with_facings Gamestate.with_agents Gamestate.with_timers
       Gamestate.with_score];
    rewrite ?Z.add_0_r.
  all: try done.
  all: apply dec_stable in Hn; subst timer; by rewrite (list_insert_id _ _ _ Ht).
Qed.

Lemma py_get_fmap {A B} (f : A → B) (l : list A) (i : Z) :
  py_get (f <$> l) i = f <$> py_get l i.
Proof.
  unfold py_get, py_pos. rewrite len_fmap.
  destruct (_ && _); simpl; [|done].
  rewrite list_lookup_fmap. by destruct (l !! _).
Qed.

(** A lookup in an array mapped cell by cell *)
Lemma getitem_fmap {A B} (f : A → B) (a : list (list A)) (x y : Z) :
  Array.getitem ((fun c : list A => f <$> c) <$> a) x y
  = (fun o : option A => f <$> o) <$> Array.getitem a x y.
Proof.
  unfold Array.getitem, Array.contains. rewrite len_fmap.
  destruct ((0 <=? x) && (x <? len a)); simpl; [|done].
  rewrite !py_get_fmap.
  destruct (py_get a 0) as [c0|e]; simpl; [|done].
  rewrite len_fmap.
  destruct ((0 <=? y) && (y <? len c0)); simpl; [|done].
  destruct (py_get a x) as [c|e]; simpl; [|done].
  rewrite py_get_fmap. by destruct (py_get c y).
Qed.

(** An indicator is truthy exactly where the array holds the value. *)
Lemma indicator_true (a : list (list LayoutObject.t)) (value : LayoutObject.t)
    (u : Vector) :
  Gamestate.at_ (Array.indicate a value) u = Ok (Some true)
  ↔ Array.getitem a (vx u) (vy u) = Ok (Some value).
Proof.
  unfold Gamestate.at_, Array.ind_getitem, Array.indicate, Array.full_indicators.
  simpl. rewrite getitem_fmap.
  destruct (Array.getitem a (vx u) (vy u)) as [[e|]|]; simpl; [|done..].
  split.
  - intros [= He]. apply bool_decide_eq_true in He. by subst.
  - intros [= ->]. by rewrite bool_decide_eq_true_2.
Qed.

Lemma index_only_pacman_arrives new_vector :
  index_only_M (pacman_arrives new_vector).
Proof.
  unfold pacman_arrives, Gamestate.skip, Gamestate.scare_all.
  index_only;
    try first [apply index_only_resolve_encounter | apply index_only_add_score
              | apply index_only_set_static].
  case_match; first [apply index_only_resolve_encounter|apply index_only_M_ret].
Qed.

Lemma index_only_ghost_arrives agent_id new_vector :
  index_only_M (ghost_arrives agent_id new_vector).
Proof.
  unfold ghost_arrives, Gamestate.skip, Gamestate.pacman.
  index_only.
Qed.

Lemma consequences_wall (agent_id : nat) (new_vector : Vector) (g g' : Gamestate.t)
    (k : nat) (x y : Z) :
  consequences agent_id new_vector g = (Raise (RuntimeError_wall k x y), g') →
  Gamestate.at_ (Gamestate.walls g) new_vector = Ok (Some true)
  ∧ (k, x, y) = (agent_id, vx new_vector, vy new_vector)
  ∧ g' = Gamestate.with_score
           (Gamestate.score g
            + if decide (agent_id = Gamestate.PACMAN_ID)
              then Gamestate.SCORE_DIE_PENALTY else 0) g.
Proof.
  unfold consequences.
  unfold mbind at 1. unfold Gamestate.M_bind at 1. unfold Gamestate.read at 1.
  destruct (Gamestate.at_ (Gamestate.walls g) new_vector) as [w|e] eqn:Hw.
  2:{ intros [= -> _]. by apply index_only_at in Hw. }
  destruct (Array.truthy w) eqn:Ht.
  - destruct w as [[|]|]; try done.
    unfold mbind, Gamestate.M_bind, Gamestate.raise, Gamestate.add_score,
      Gamestate.skip, Gamestate.get, Gamestate.put, mret, Gamestate.M_ret.
    destruct (decide (agent_id = Gamestate.PACMAN_ID)) as [Hp|Hp].
    + intros [= <- <- <- <-]. done.
    + intros [= <- <- <- <-]. split; [done|]. split; [done|].
      unfold Gamestate.with_score. rewrite Z.add_0_r. by destruct g.
  - intros Hraise. exfalso.
    destruct (decide (agent_id = Gamestate.PACMAN_ID)).
    + by apply index_only_pacman_arrives in Hraise.
    + by apply index_only_ghost_arrives in Hraise.
Qed.

(** C9: the wall error of [apply_move] is not atomic. When
    [apply_move(agent_id, move)] raises it, the agent was alive, the cell it
    moved to is a wall, and the state that is left has the agent on that
    cell, facing the move, with its scared timer run down by one if it was
    not zero, and for Pacman the score lowered by the turn penalty and the
    death penalty; the rest of the state is as it was. *)
Theorem wall_collision_not_atomic (g g' : Gamestate.t) (agent_id : nat)
    (move : option Move.t) (k : nat) (x y : Z) :
  Gamestate.apply_move agent_id move g = (Raise (RuntimeError_wall k x y), g') →
  ∃ vector timer,
    let m := default Move.stop move in
    let new_vector := Vector.add vector (Move.vector m) in
    Gamestate.agents g !! agent_id = Some (Some vector)
    ∧ Gamestate._timers g !! agent_id = Some timer
    ∧ is_wall (Gamestate._statics g) new_vector
    ∧ (k, x, y) = (agent_id, vx new_vector, vy new_vector)
    ∧ Gamestate.agents g' = <[agent_id := Some new_vector]> (Gamestate.agents g)
    ∧ Gamestate.facings g' = <[agent_id := m]> (Gamestate.facings g)
    ∧ Gamestate._timers g'
      = <[agent_id := if decide (timer ≠ 0) then timer - 1 else timer]>
          (Gamestate._timers g)
    ∧ Gamestate.score g'
      = Gamestate.score g
        + (if decide (agent_id = Gamestate.PACMAN_ID)
           then Gamestate.SCORE_TICK_PENALTY + Gamestate.SCORE_DIE_PENALTY else 0)
    ∧ Gamestate._statics g' = Gamestate._statics g
    ∧ Gamestate.starts g' = Gamestate.starts g
    ∧ Gamestate._tick g' = Gamestate._tick g.
Proof.
  intros Hraise. pose proof (apply_move_cases agent_id move g) as Hcases.
  destruct (Gamestate.agents g !! agent_id) as [[vector|]|] eqn:Ha;
    [|by rewrite Hcases in Hraise..].
  cbv zeta in Hcases.
  destruct (decide (agent_id < length (Gamestate.facings g))%nat);
    [|by rewrite Hcases in Hraise].
  destruct (Gamestate._timers g !! agent_id) as [timer|] eqn:Ht;
    [|by destruct Hcases as [g1 Hg1]; rewrite Hg1 in Hraise].
  rewrite Hcases in Hraise. apply consequences_wall in Hraise as (Hw & Hk & ->).
  exists vector, timer. cbv zeta. simpl.
  split; [done|]. split; [done|]. split.
  { by apply indicator_true. }
  split; [done|]. repeat (split; [done|]).
  split; [|done].
  destruct (decide (agent_id = Gamestate.PACMAN_ID)); unfold Gamestate.SCORE_TICK_PENALTY, Gamestate.SCORE_DIE_PENALTY; lia.
Qed.

(** *** Encounters *)

(** The collection of a dot or a pellet on the cell where Pacman arrived *)
Definition collect (new_vector : Vector) : Gamestate.M unit :=
  d ← Gamestate.read (fun g => Gamestate.at_ (Gamestate.dots g) new_vector);
  (if Array.truthy d then
     Gamestate.set_static new_vector LayoutObject.empty;;
     Gamestate.add_score Gamestate.SCORE_GET_DOT;;
     l ← Gamestate.read (fun g => Array.ind_list (Gamestate.dots g));
     if decide (l = []) then Gamestate.add_score Gamestate.SCORE_GET_ALL_DOTS
     else Gamestate.skip
   else Gamestate.skip);;
  p ← Gamestate.read (fun g => Gamestate.at_ (Gamestate.pellets g) new_vector);
  (if Array.truthy p then
     Gamestate.set_static new_vector LayoutObject.empty;;
     Gamestate.add_score Gamestate.SCORE_GET_PELLET;;
     Gamestate.scare_all
   else Gamestate.skip).

(** The state after the encounter with the ghost [ghost_id], whose scared
    timer stands at [timer] and which started at [start]: a scared ghost is
    sent back to its start, its timer is reset and Pacman scores the kill; a
    ghost that is not scared kills Pacman, who pays the penalty. *)
Definition resolved (ghost_id : nat) (timer : Z) (start : option Vector)
    (g : Gamestate.t) : Gamestate.t :=
  if decide (timer ≠ 0) then
    Gamestate.mk (Gamestate._statics g)
      (<[ghost_id := start]> (Gamestate.agents g)) (Gamestate.starts g)
      (Gamestate.facings g) (<[ghost_id := 0]> (Gamestate._timers g))
      (Gamestate.score g + Gamestate.SCORE_GET_GHOST) (Gamestate._tick g)
  else
    Gamestate.mk (Gamestate._statics g)
      (<[Gamestate.PACMAN_ID := None]> (Gamestate.agents g)) (Gamestate.starts g)
      (Gamestate.facings g) (Gamestate._timers g)
      (Gamestate.score g + Gamestate.SCORE_DIE_PENALTY) (Gamestate._tick g).

Lemma resolve_encounter_eq (ghost_id : nat) (timer : Z) (start : option Vector)
    (g : Gamestate.t) :
  ghost_id ≠ Gamestate.PACMAN_ID →
  (ghost_id < length (Gamestate.agents g))%nat →
  Gamestate._timers g !! ghost_id = Some timer →
  Gamestate.starts g !! ghost_id = Some start →
  Gamestate._resolve_encounter ghost_id g = (Ok (), resolved ghost_id timer start g).
Proof.
  intros Hid Hlen Ht Hs.
  assert (Htl : (ghost_id < length (Gamestate._timers g))%nat)
    by (by eapply lookup_lt_Some).
  unfold Gamestate._resolve_encounter, Gamestate.kill, resolved,
    Gamestate.get_timer, Gamestate.set_agent, Gamestate.set_timer,
    Gamestate.add_score, Gamestate.read, Gamestate.get, Gamestate.put,
    Gamestate.lift, nat_get, nat_set, mbind, Gamestate.M_bind.
  rewrite Ht. destruct (decide (timer ≠ 0)) as [Hn|Hn].
  - destruct (decide (ghost_id = Gamestate.PACMAN_ID)) as [?|_]; [done|].
    rewrite Hs.
    cbn [Gamestate.agents Gamestate.facings Gamestate._timers Gamestate.score
         Gamestate._statics Gamestate.starts Gamestate._tick
         Gamestate.with_agents Gamestate.with_timers Gamestate.with_score].
    destruct (decide (ghost_id < length (Gamestate.agents g))%nat); [|done].
    cbn [Gamestate.agents Gamestate.facings Gamestate._timers Gamestate.score
         Gamestate._statics Gamestate.starts Gamestate._tick
         Gamestate.with_agents Gamestate.with_timers Gamestate.with_score].
    by destruct (decide (ghost_id < length (Gamestate._timers g))%nat).
  - destruct (decide (Gamestate.PACMAN_ID = Gamestate.PACMAN_ID)) as [_|?]; [|done].
    destruct (decide (Gamestate.PACMAN_ID < length (Gamestate.agents g))%nat);
      [done|]. unfold Gamestate.PACMAN_ID in *. lia.
Qed.

Lemma ghost_at_moved_pacman (g : Gamestate.t) (move : Move.t) (vector : Vector)
    (timer : Z) (u : Vector) :
  Gamestate.ghost_at (moved Gamestate.PACMAN_ID move vector timer g) u
  = Gamestate.ghost_at g u.
Proof.
  unfold Gamestate.ghost_at, Gamestate.ghosts, moved, Gamestate.PACMAN_ID. simpl.
  by destruct (Gamestate.agents g).
Qed.

(** C2, as the code has it: a ghost and Pacman stand on two free cells next
    to each other, and one moves onto the other. Both moves end in the same
    resolution [resolved], decided by the ghost's scared timer as it stands
    when the resolution runs: a ghost whose timer is not zero goes back to
    its start with timer 0 and the score grows by 200, otherwise Pacman
    becomes absent and the score drops by 500. When the ghost is the mover
    its timer has run down by one before that; when Pacman is the mover the
    turn penalty comes first and the collection of a dot or pellet on the
    cell comes after. *)
Theorem encounter_resolution (g : Gamestate.t) (ghost_id : nat)
    (ghost_move pacman_move : Move.t) (pac ghost : Vector) (pac_timer timer : Z)
    (start : option Vector) :
  ghost_id ≠ Gamestate.PACMAN_ID →
  Array.rectangular (Gamestate._statics g) →
  length (Gamestate.facings g) = length (Gamestate.agents g) →
  Gamestate.agents g !! Gamestate.PACMAN_ID = Some (Some pac) →
  Gamestate.agents g !! ghost_id = Some (Some ghost) →
  Gamestate.ghost_at g ghost = Some ghost_id →
  Gamestate._timers g !! Gamestate.PACMAN_ID = Some pac_timer →
  Gamestate._timers g !! ghost_id = Some timer →
  Gamestate.starts g !! ghost_id = Some start →
  ¬ is_wall (Gamestate._statics g) pac →
  ¬ is_wall (Gamestate._statics g) ghost →
  Vector.add ghost (Move.vector ghost_move) = pac →
  Vector.add pac (Move.vector pacman_move) = ghost →
  Gamestate.apply_move ghost_id (Some ghost_move) g
  = (Ok (), resolved ghost_id (if decide (timer ≠ 0) then timer - 1 else timer)
              start (moved ghost_id ghost_move ghost timer g))
  ∧ Gamestate.apply_move Gamestate.PACMAN_ID (Some pacman_move) g
    = collect ghost (resolved ghost_id timer start
                       (moved Gamestate.PACMAN_ID pacman_move pac pac_timer g)).
Proof.
  intros Hid Hr Hlen Hpac Hghost Hfirst Hpt Ht Hs Hfreep Hfreeg Hmeetg Hmeetp.
  assert (Hlg : (ghost_id < length (Gamestate.agents g))%nat)
    by (by eapply lookup_lt_Some).
  assert (Hlp : (Gamestate.PACMAN_ID < length (Gamestate.agents g))%nat)
    by (by eapply lookup_lt_Some).
  split.
  - pose proof (apply_move_cases ghost_id (Some ghost_move) g) as Hcases.
    rewrite Hghost in Hcases. cbv zeta in Hcases.
    rewrite decide_True in Hcases by lia. rewrite Ht in Hcases.
    rewrite Hcases. simpl default. rewrite Hmeetg.
    unfold consequences.
    unfold mbind at 1. unfold Gamestate.M_bind at 1. unfold Gamestate.read at 1.
    destruct (indicator_at (Gamestate._statics g) LayoutObject.wall pac Hr)
      as (w & Hw & Hiff).
    change (Gamestate.walls (moved ghost_id ghost_move ghost timer g))
      with (Array.indicate (Gamestate._statics g) LayoutObject.wall).
    rewrite Hw. destruct (Array.truthy w) eqn:Htr; [by destruct Hfreep; apply Hiff|].
    rewrite decide_False by done.
    unfold ghost_arrives.
    unfold mbind at 1. unfold Gamestate.M_bind at 1. unfold Gamestate.read at 1.
    unfold Gamestate.pacman, nat_get.
    assert (Hpac' : Gamestate.agents (moved ghost_id ghost_move ghost timer g)
                      !! Gamestate.PACMAN_ID = Some (Some pac)).
    { unfold moved. simpl. by rewrite list_lookup_insert_ne. }
    rewrite Hpac'. rewrite decide_True by done.
    apply resolve_encounter_eq; [done| | |done].
    + unfold moved. simpl. by rewrite length_insert.
    + unfold moved. simpl. rewrite list_lookup_insert_eq; [done|].
      by eapply lookup_lt_Some.
  - pose proof (apply_move_cases Gamestate.PACMAN_ID (Some pacman_move) g) as Hcases.
    rewrite Hpac in Hcases. cbv zeta in Hcases.
    rewrite decide_True in Hcases by lia. rewrite Hpt in Hcases.
    rewrite Hcases. simpl default. rewrite Hmeetp.
    unfold consequences.
    unfold mbind at 1. unfold Gamestate.M_bind at 1. unfold Gamestate.read at 1.
    destruct (indicator_at (Gamestate._statics g) LayoutObject.wall ghost Hr)
      as (w & Hw & Hiff).
    change (Gamestate.walls (moved Gamestate.PACMAN_ID pacman_move pac pac_timer g))
      with (Array.indicate (Gamestate._statics g) LayoutObject.wall).
    rewrite Hw. destruct (Array.truthy w) eqn:Htr; [by destruct Hfreeg; apply Hiff|].
    rewrite decide_True by done.
    change (pacman_arrives ghost) with
      (g0 ← Gamestate.get;
       (match Gamestate.ghost_at g0 ghost with
        | Some ghost_id => Gamestate._resolve_encounter ghost_id
        | None => Gamestate.skip
        end);; collect ghost).
    unfold mbind at 1. unfold Gamestate.M_bind at 1. unfold Gamestate.get at 1.
    rewrite ghost_at_moved_pacman, Hfirst.
    unfold mbind at 1. unfold Gamestate.M_bind at 1.
    rewrite (resolve_encounter_eq ghost_id timer start); [done|done| | |done].
    + unfold moved. simpl. by rewrite length_insert.
    + unfold moved. simpl. by rewrite list_lookup_insert_ne.
Qed.

(** A corridor of three free cells between walls: Pacman on the first, a
    ghost that started on the third stands on the second, and is scared for
    [timer] more moves. *)
Definition corridor : list (list LayoutObject.t) :=
  [[LayoutObject.wall; LayoutObject.wall; LayoutObject.wall];
   [LayoutObject.wall; LayoutObject.empty; LayoutObject.wall];
   [LayoutObject.wall; LayoutObject.empty; LayoutObject.wall];
   [LayoutObject.wall; LayoutObject.empty; LayoutObject.wall];
   [LayoutObject.wall; LayoutObject.wall; LayoutObject.wall]].

Definition corridor_world (timer : Z) : Gamestate.t :=
  Gamestate.mk corridor
    [Some (mkVector 1 1); Some (mkVector 2 1)]
    [Some (mkVector 1 1); Some (mkVector 3 1)]
    [Move.stop; Move.stop] [0; timer] 0 0.

Lemma corridor_rectangular : Array.rectangular corridor.
Proof. unfold Array.rectangular, corridor. simpl. repeat constructor. Qed.

Lemma encounter_resolution_witness :
  Gamestate.apply_move 1 (Some Move.left) (corridor_world 3)
  = (Ok (), resolved 1 2 (Some (mkVector 3 1))
              (moved 1 Move.left (mkVector 2 1) 3 (corridor_world 3)))
  ∧ Gamestate.apply_move 0 (Some Move.right) (corridor_world 3)
    = collect (mkVector 2 1)
        (resolved 1 3 (Some (mkVector 3 1))
           (moved 0 Move.right (mkVector 1 1) 0 (corridor_world 3))).
Proof.
  apply (encounter_resolution (corridor_world 3) 1 Move.left Move.right
           (mkVector 1 1) (mkVector 2 1) 0 3 (Some (mkVector 3 1)));
    try reflexivity; try discriminate.
  exact corridor_rectangular.
Defined.

(** C2 as stated fails: a ghost whose timer stands at 1 is scared, yet when it
    moves onto Pacman its timer runs out first and Pacman dies, whereas
    Pacman moving onto that same ghost kills it. *)
Lemma encounter_resolution_counterexample :
  let g := corridor_world 1 in
  let after_ghost := (Gamestate.apply_move 1 (Some Move.left) g).2 in
  let after_pacman := (Gamestate.apply_move 0 (Some Move.right) g).2 in
  Gamestate._timers g !! 1%nat = Some 1
  ∧ Gamestate.agents after_ghost = [None; Some (mkVector 1 1)]
  ∧ Gamestate.score after_ghost = Gamestate.score g - 500
  ∧ Gamestate.agents after_pacman = [Some (mkVector 2 1); Some (mkVector 3 1)]
  ∧ Gamestate.score after_pacman = Gamestate.score g - 1 + 200.
Proof. vm_compute. repeat split. Qed.

Lemma wall_collision_not_atomic_witness :
  ∃ vector timer,
    let g := corridor_world 3 in
    let g' := (Gamestate.apply_move 0 (Some Move.left) g).2 in
    let new_vector := Vector.add vector (Move.vector Move.left) in
    Gamestate.agents g !! 0%nat = Some (Some vector)
    ∧ Gamestate._timers g !! 0%nat = Some timer
    ∧ is_wall (Gamestate._statics g) new_vector
    ∧ (0%nat, 0, 1) = (0%nat, vx new_vector, vy new_vector)
    ∧ Gamestate.agents g' = <[0%nat := Some new_vector]> (Gamestate.agents g)
    ∧ Gamestate.facings g' = <[0%nat := Move.left]> (Gamestate.facings g)
    ∧ Gamestate._timers g'
      = <[0%nat := if decide (timer ≠ 0) then timer - 1 else timer]>
          (Gamestate._timers g)
    ∧ Gamestate.score g'
      = Gamestate.score g
        + (if decide (0%nat = Gamestate.PACMAN_ID)
           then Gamestate.SCORE_TICK_PENALTY + Gamestate.SCORE_DIE_PENALTY else 0)
    ∧ Gamestate._statics g' = Gamestate._statics g
    ∧ Gamestate.starts g' = Gamestate.starts g
    ∧ Gamestate._tick g' = Gamestate._tick g.
Proof.
  apply (wall_collision_not_atomic (corridor_world 3)
           (Gamestate.apply_move 0 (Some Move.left) (corridor_world 3)).2
           0 (Some Move.left) 0 0 1).
  reflexivity.
Defined.

(** ** Minimax and alpha-beta *)

Section ScoreOrder.
Import Ass4.

(** A score within the window from [alpha] to [beta] *)
Definition clamp (alpha beta x : score) : score := max2 alpha (min2 beta x).

(** The maximum and the minimum of a list of scores, [-inf] and [+inf] for
    the empty list *)
Definition maximum (l : list score) : score := foldl max2 NegInf l.
Definition minimum (l : list score) : score := foldl min2 PosInf l.

Ltac score_cases :=
  intros;
  repeat match goal with x : score |- _ => destruct x end;
  unfold clamp, max2, min2, ltb, leb in *; simpl in *;
  repeat (match goal with
          | H : context [Z.leb ?a ?b] |- _ => destruct (Z.leb_spec a b)
          | |- context [Z.leb ?a ?b] => destruct (Z.leb_spec a b)
          end; simpl in * );
  try done; try lia; try (f_equal; lia);
  try (simplify_eq; (lia || (f_equal; lia))).

Lemma max2_comm x y : max2 x y = max2 y x.
Proof. score_cases. Qed.
Lemma max2_assoc x y z : max2 x (max2 y z) = max2 (max2 x y) z.
Proof. score_cases. Qed.
Lemma min2_comm x y : min2 x y = min2 y x.
Proof. score_cases. Qed.
Lemma min2_assoc x y z : min2 x (min2 y z) = min2 (min2 x y) z.
Proof. score_cases. Qed.
Lemma max2_l x y : leb y x = true → max2 x y = x.
Proof. score_cases. Qed.
Lemma max2_r x y : leb x y = true → max2 x y = y.
Proof. score_cases. Qed.
Lemma min2_l x y : leb x y = true → min2 x y = x.
Proof. score_cases. Qed.
Lemma min2_r x y : leb y x = true → min2 x y = y.
Proof. score_cases. Qed.
Lemma leb_refl x : leb x x = true.
Proof. score_cases. Qed.
Lemma leb_trans x y z : leb x y = true → leb y z = true → leb x z = true.
Proof. score_cases. Qed.
Lemma leb_max2_l x y : leb x (max2 x y) = true.
Proof. score_cases. Qed.
Lemma leb_max2_r x y : leb y (max2 x y) = true.
Proof. score_cases. Qed.
Lemma leb_min2_l x y : leb (min2 x y) x = true.
Proof. score_cases. Qed.
Lemma leb_min2_r x y : leb (min2 x y) y = true.
Proof. score_cases. Qed.
Lemma ltb_leb x y : ltb x y = true → leb x y = true.
Proof. score_cases. Qed.
Lemma leb_false_ltb x y : leb x y = false → ltb y x = true.
Proof. score_cases. Qed.
Lemma ltb_false_leb x y : ltb x y = false → leb y x = true.
Proof. score_cases. Qed.
Lemma ltb_irrefl_leb x y : ltb x y = true → leb y x = true → False.
Proof. score_cases. Qed.
Lemma max2_NegInf x : max2 NegInf x = x.
Proof. score_cases. Qed.
Lemma min2_PosInf x : min2 PosInf x = x.
Proof. score_cases. Qed.
Lemma max2_ltb_l a x b : ltb (max2 a x) b = true → ltb x b = true.
Proof. score_cases. Qed.
Lemma min2_ltb_r a x b : ltb a (min2 b x) = true → ltb a x = true.
Proof. score_cases. Qed.
Lemma leb_max2_split b x y : leb b (max2 x y) = true → ltb x b = true → leb b y = true.
Proof. score_cases. Qed.
Lemma leb_min2_split a x y : leb (min2 x y) a = true → ltb a x = true → leb y a = true.
Proof. score_cases. Qed.

Lemma clamp_full x : clamp NegInf PosInf x = x.
Proof. score_cases. Qed.
Lemma clamp_max2 a b x y :
  clamp a b (max2 x y) = max2 (clamp a b x) (clamp a b y).
Proof. score_cases. Qed.
Lemma clamp_min2 a b x y :
  clamp a b (min2 x y) = min2 (clamp a b x) (clamp a b y).
Proof. score_cases. Qed.
Lemma clamp_low a b x : leb a b = true → leb x a = true → clamp a b x = a.
Proof. score_cases. Qed.
Lemma clamp_high a b x : leb a b = true → leb b x = true → clamp a b x = b.
Proof. score_cases. Qed.
Lemma clamp_below a b x : ltb x b = true → clamp a b x = max2 a x.
Proof. score_cases. Qed.
Lemma clamp_above a b x : leb a b = true → ltb a x = true → clamp a b x = min2 b x.
Proof. score_cases. Qed.
Lemma clamp_raise a a' b x :
  leb a a' = true → leb a' b = true → clamp a' b x = max2 a' (clamp a b x).
Proof. score_cases. Qed.
Lemma clamp_lower a b b' x :
  leb b' b = true → leb a b' = true → clamp a b' x = min2 b' (clamp a b x).
Proof. score_cases. Qed.
Lemma clamp_leb_high a b x : leb a b = true → leb (clamp a b x) b = true.
Proof. score_cases. Qed.
Lemma clamp_leb_low a b x : leb a (clamp a b x) = true.
Proof. score_cases. Qed.
Lemma clamp_mono a b x y : leb x y = true → leb (clamp a b x) (clamp a b y) = true.
Proof. score_cases. Qed.
Lemma clamp_high_inv a b x : ltb a b = true → clamp a b x = b → leb b x = true.
Proof. score_cases. Qed.
Lemma clamp_low_inv a b x : ltb a b = true → clamp a b x = a → leb x a = true.
Proof. score_cases. Qed.

Lemma max2_idemp x : max2 x x = x.
Proof. score_cases. Qed.
Lemma min2_idemp x : min2 x x = x.
Proof. score_cases. Qed.
Lemma leb_ltb_trans x y z : leb x y = true → ltb y z = true → ltb x z = true.
Proof. score_cases. Qed.
Lemma ltb_leb_trans x y z : ltb x y = true → leb y z = true → ltb x z = true.
Proof. score_cases. Qed.
Lemma if_ltb_max2 b s : (if ltb b s then s else b) = max2 b s.
Proof. done. Qed.
Lemma if_ltb_min2 b s : (if ltb s b then s else b) = min2 b s.
Proof. done. Qed.

(** The arithmetic of one round of the maximizer's loop: [b] is the best
    score so far, [s] what alpha-beta returns for the child, [v] the child's
    minimax value and [M] the maximum over the children that follow. *)
Lemma max_step_break (a beta b s v M : score) :
  ltb a beta = true → leb b a = true →
  clamp a beta s = clamp a beta v →
  leb beta (max2 (max2 b s) a) = true →
  leb b (max2 b s) = true
  ∧ clamp a beta (max2 b s) = clamp a beta (max2 b (max2 v M)).
Proof.
  intros Hab Hba Hs Hbr. split; [apply leb_max2_l|].
  pose proof (ltb_leb _ _ Hab) as Hab'.
  assert (Hbs : leb beta (max2 b s) = true).
  { rewrite max2_comm in Hbr. by eapply leb_max2_split. }
  assert (Hsb : leb beta s = true).
  { eapply leb_max2_split; [exact Hbs|]. by eapply leb_ltb_trans. }
  rewrite (clamp_high a beta (max2 b s)) by done.
  rewrite !clamp_max2, <- Hs, (clamp_high a beta s) by done.
  rewrite (clamp_low a beta b) by done.
  rewrite (max2_l beta) by by apply clamp_leb_high.
  by rewrite max2_r.
Qed.

Lemma max_step_continue (a beta b s v M r : score) :
  ltb a beta = true → leb b a = true →
  clamp a beta s = clamp a beta v →
  leb beta (max2 (max2 b s) a) = false →
  leb (max2 b s) r = true →
  clamp (max2 (max2 b s) a) beta r
  = clamp (max2 (max2 b s) a) beta (max2 (max2 b s) M) →
  ltb (max2 (max2 b s) a) beta = true
  ∧ leb (max2 b s) (max2 (max2 b s) a) = true
  ∧ leb b r = true
  ∧ clamp a beta r = clamp a beta (max2 b (max2 v M)).
Proof.
  intros Hab Hba Hs Hbr Hr Hc.
  pose proof (ltb_leb _ _ Hab) as Hab'.
  pose proof (leb_false_ltb _ _ Hbr) as Ha'.
  split; [done|]. split; [apply leb_max2_l|].
  split; [eapply leb_trans; [apply leb_max2_l|exact Hr]|].
  assert (Hsr : leb s r = true)
    by (eapply leb_trans; [apply leb_max2_r|exact Hr]).
  assert (Hsb : ltb s beta = true).
  { eapply leb_ltb_trans; [|exact Ha'].
    eapply leb_trans; [apply leb_max2_r|apply leb_max2_l]. }
  assert (Hcb : clamp a beta b = a) by by apply clamp_low.
  assert (Hacs : leb a (clamp a beta s) = true) by apply clamp_leb_low.
  assert (Ha'cs : max2 (max2 b s) a = clamp a beta s).
  { rewrite (clamp_below a beta s) by done.
    rewrite <- max2_assoc, (max2_comm s a), max2_r; [done|].
    eapply leb_trans; [exact Hba|apply leb_max2_l]. }
  rewrite Ha'cs in Hc.
  rewrite (clamp_raise a (clamp a beta s) beta r) in Hc
    by (done || by apply clamp_leb_high).
  rewrite (clamp_raise a (clamp a beta s) beta (max2 (max2 b s) M)) in Hc
    by (done || by apply clamp_leb_high).
  rewrite !clamp_max2, Hcb in Hc.
  rewrite (max2_r a (clamp a beta s)) in Hc by done.
  rewrite (max2_r (clamp a beta s) (clamp a beta r)) in Hc by by apply clamp_mono.
  rewrite max2_assoc, max2_idemp in Hc.
  rewrite Hc, !clamp_max2, Hcb, <- Hs.
  rewrite max2_assoc. by rewrite (max2_r a (clamp a beta s)).
Qed.

(** The same for the minimizer's loop *)
Lemma min_step_break (a beta b s v M : score) :
  ltb a beta = true → leb beta b = true →
  clamp a beta s = clamp a beta v →
  leb (min2 (min2 b s) beta) a = true →
  leb (min2 b s) b = true
  ∧ clamp a beta (min2 b s) = clamp a beta (min2 b (min2 v M)).
Proof.
  intros Hab Hba Hs Hbr. split; [apply leb_min2_l|].
  pose proof (ltb_leb _ _ Hab) as Hab'.
  assert (Hbs : leb (min2 b s) a = true).
  { rewrite min2_comm in Hbr. by eapply leb_min2_split. }
  assert (Hsb : leb s a = true).
  { eapply leb_min2_split; [exact Hbs|]. by eapply ltb_leb_trans. }
  rewrite (clamp_low a beta (min2 b s)) by done.
  rewrite !clamp_min2, <- Hs, (clamp_low a beta s) by done.
  rewrite (clamp_high a beta b) by done.
  rewrite (min2_l a) by apply clamp_leb_low.
  by rewrite min2_r.
Qed.

Lemma min_step_continue (a beta b s v M r : score) :
  ltb a beta = true → leb beta b = true →
  clamp a beta s = clamp a beta v →
  leb (min2 (min2 b s) beta) a = false →
  leb r (min2 b s) = true →
  clamp a (min2 (min2 b s) beta) r
  = clamp a (min2 (min2 b s) beta) (min2 (min2 b s) M) →
  ltb a (min2 (min2 b s) beta) = true
  ∧ leb (min2 (min2 b s) beta) (min2 b s) = true
  ∧ leb r b = true
  ∧ clamp a beta r = clamp a beta (min2 b (min2 v M)).
Proof.
  intros Hab Hba Hs Hbr Hr Hc.
  pose proof (ltb_leb _ _ Hab) as Hab'.
  pose proof (leb_false_ltb _ _ Hbr) as Hb'.
  split; [done|]. split; [apply leb_min2_l|].
  split; [eapply leb_trans; [exact Hr|apply leb_min2_l]|].
  assert (Hsr : leb r s = true)
    by (eapply leb_trans; [exact Hr|apply leb_min2_r]).
  assert (Hsa : ltb a s = true).
  { eapply ltb_leb_trans; [exact Hb'|].
    eapply leb_trans; [apply leb_min2_l|apply leb_min2_r]. }
  assert (Hcb : clamp a beta b = beta) by by apply clamp_high.
  assert (Hcsb : leb (clamp a beta s) beta = true) by by apply clamp_leb_high.
  assert (Hb'cs : min2 (min2 b s) beta = clamp a beta s).
  { rewrite (clamp_above a beta s) by done.
    rewrite <- min2_assoc, (min2_comm s beta), min2_r; [done|].
    eapply leb_trans; [apply leb_min2_l|exact Hba]. }
  rewrite Hb'cs in Hc.
  rewrite (clamp_lower a beta (clamp a beta s) r) in Hc
    by (done || apply clamp_leb_low).
  rewrite (clamp_lower a beta (clamp a beta s) (min2 (min2 b s) M)) in Hc
    by (done || apply clamp_leb_low).
  rewrite !clamp_min2, Hcb in Hc.
  rewrite (min2_r beta (clamp a beta s)) in Hc by done.
  rewrite (min2_r (clamp a beta s) (clamp a beta r)) in Hc by by apply clamp_mono.
  rewrite min2_assoc, min2_idemp in Hc.
  rewrite Hc, !clamp_min2, Hcb, <- Hs.
  rewrite min2_assoc. by rewrite (min2_r beta (clamp a beta s)).
Qed.

Lemma foldl_max2_cons (b x : score) (l : list score) :
  foldl max2 (max2 b x) l = max2 b (foldl max2 x l).
Proof.
  revert b x. induction l as [|y l IH]; intros b x; simpl; [done|].
  by rewrite <- IH, max2_assoc.
Qed.

Lemma foldl_min2_cons (b x : score) (l : list score) :
  foldl min2 (min2 b x) l = min2 b (foldl min2 x l).
Proof.
  revert b x. induction l as [|y l IH]; intros b x; simpl; [done|].
  by rewrite <- IH, min2_assoc.
Qed.

Lemma maximum_cons x l : maximum (x :: l) = max2 x (maximum l).
Proof.
  unfold maximum. simpl. by rewrite <- foldl_max2_cons, (max2_comm x), !max2_NegInf.
Qed.

Lemma minimum_cons x l : minimum (x :: l) = min2 x (minimum l).
Proof.
  unfold minimum. simpl. by rewrite <- foldl_min2_cons, (min2_comm x), !min2_PosInf.
Qed.

Lemma py_max_maximum l v : py_max l = Ok v → v = maximum l.
Proof.
  destruct l as [|x l]; [done|]. intros [= <-]. unfold maximum. simpl.
  by rewrite max2_NegInf.
Qed.

Lemma py_min_minimum l v : py_min l = Ok v → v = minimum l.
Proof.
  destruct l as [|x l]; [done|]. intros [= <-]. unfold minimum. simpl.
  by rewrite min2_PosInf.
Qed.

End ScoreOrder.

Section AlphaBeta.
Import Ass4.
Variable evaluate : Gamestate.t → score.
Variable random_choice : list nat → nat.

(** Alpha-beta is sound for a minimax procedure when, in every window, it
    returns a score wherever minimax returns one, and the two agree within
    the window. *)
Definition sound (mm : Gamestate.t → result (score * Move.t))
    (ab : Gamestate.t → score → score → result (score * Move.t)) : Prop :=
  ∀ g a beta p, ltb a beta = true → mm g = Ok p →
    ∃ q, ab g a beta = Ok q ∧ clamp a beta q.1 = clamp a beta p.1.

Lemma mapM_cons_Ok {A B} (f : A → result B) (x : A) (l : list A) (k : list B) :
  mapM f (x :: l) = Ok k →
  ∃ y k', f x = Ok y ∧ mapM f l = Ok k' ∧ k = y :: k'.
Proof.
  cbn. destruct (f x) as [y|e]; simpl; [|done].
  destruct (mapM f l) as [k'|e]; simpl; [|done].
  intros [= <-]. eauto.
Qed.

Lemma max_loop_sound mm ab (g : Gamestate.t) :
  sound mm ab →
  ∀ la vs b act a beta,
    mapM (fun x => g' ← Gamestate.successor g 0 (Some x); r ← mm g'; Ok r.1) la
      = Ok vs →
    ltb a beta = true → leb b a = true →
    ∃ r act', max_loop ab g la b act a beta = Ok (r, act')
              ∧ leb b r = true
              ∧ clamp a beta r = clamp a beta (max2 b (maximum vs)).
Proof.
  intros Hrec la. induction la as [|x la IH]; intros vs b act a beta Hvs Hab Hba.
  - injection Hvs as <-. exists b, act. split; [done|]. split; [apply leb_refl|].
    by rewrite max2_l.
  - apply mapM_cons_Ok in Hvs as (v & vs' & Hv & Hvs' & ->).
    destruct (Gamestate.successor g 0 (Some x)) as [g'|e] eqn:Hsucc; [|done].
    simpl in Hv. destruct (mm g') as [p|e] eqn:Hmm; [|done].
    injection Hv as <-.
    destruct (Hrec g' a beta p Hab Hmm) as (q & Hq & Hclamp).
    cbn [max_loop]. rewrite Hsucc. cbn [mbind result_bind]. rewrite Hq.
    cbn [mbind result_bind].
    assert (Hbest : (if ltb b q.1 then (q.1, x) else (b, act))
                    = (max2 b q.1, if ltb b q.1 then x else act))
      by (unfold max2; by destruct (ltb b q.1)).
    rewrite Hbest. rewrite maximum_cons.
    destruct (leb beta (max2 (max2 b q.1) a)) eqn:Hbr.
    + destruct (max_step_break a beta b q.1 p.1 (maximum vs') Hab Hba Hclamp Hbr)
        as [H1 H2]. eauto.
    + destruct (IH vs' (max2 b q.1) (if ltb b q.1 then x else act)
                  (max2 (max2 b q.1) a) beta Hvs')
        as (r & act' & Hloop & Hr & Hc).
      { by apply leb_false_ltb. }
      { apply leb_max2_l. }
      destruct (max_step_continue a beta b q.1 p.1 (maximum vs') r
                  Hab Hba Hclamp Hbr Hr Hc) as (_ & _ & H3 & H4).
      eauto.
Qed.

Lemma min_loop_sound mm ab (g : Gamestate.t) :
  sound mm ab →
  ∀ la vs b act a beta,
    mapM (fun x => g' ← Gamestate.successor g 1 (Some x); r ← mm g'; Ok r.1) la
      = Ok vs →
    ltb a beta = true → leb beta b = true →
    ∃ r act', min_loop ab g la b act a beta = Ok (r, act')
              ∧ leb r b = true
              ∧ clamp a beta r = clamp a beta (min2 b (minimum vs)).
Proof.
  intros Hrec la. induction la as [|x la IH]; intros vs b act a beta Hvs Hab Hba.
  - injection Hvs as <-. exists b, act. split; [done|]. split; [apply leb_refl|].
    rewrite min2_l; [done|by destruct b].
  - apply mapM_cons_Ok in Hvs as (v & vs' & Hv & Hvs' & ->).
    destruct (Gamestate.successor g 1 (Some x)) as [g'|e] eqn:Hsucc; [|done].
    simpl in Hv. destruct (mm g') as [p|e] eqn:Hmm; [|done].
    injection Hv as <-.
    destruct (Hrec g' a beta p Hab Hmm) as (q & Hq & Hclamp).
    cbn [min_loop]. rewrite Hsucc. cbn [mbind result_bind]. rewrite Hq.
    cbn [mbind result_bind].
    assert (Hbest : (if ltb q.1 b then (q.1, x) else (b, act))
                    = (min2 b q.1, if ltb q.1 b then x else act))
      by (unfold min2; by destruct (ltb q.1 b)).
    rewrite Hbest. rewrite minimum_cons.
    destruct (leb (min2 (min2 b q.1) beta) a) eqn:Hbr.
    + destruct (min_step_break a beta b q.1 p.1 (minimum vs') Hab Hba Hclamp Hbr)
        as [H1 H2]. eauto.
    + destruct (IH vs' (min2 b q.1) (if ltb q.1 b then x else act)
                  a (min2 (min2 b q.1) beta) Hvs')
        as (r & act' & Hloop & Hr & Hc).
      { by apply leb_false_ltb. }
      { apply leb_min2_l. }
      destruct (min_step_continue a beta b q.1 p.1 (minimum vs') r
                  Hab Hba Hclamp Hbr Hr Hc) as (_ & _ & H3 & H4).
      eauto.
Qed.

Lemma max_node_sound mm ab :
  sound mm ab →
  sound (minimax_node evaluate random_choice 0 py_max mm) (max_node evaluate ab).
Proof.
  intros Hrec g a beta p Hab Hmm. unfold minimax_node in Hmm. unfold max_node.
  destruct (loss_or_win g) as [[|]|e]; simpl in *; [by eauto| |done].
  destruct (Gamestate.legal_moves_id g 0) as [ms|e]; simpl in *; [|done].
  destruct (mapM _ (elements ms)) as [vs|e] eqn:Hvs; simpl in *; [|done].
  destruct (py_max vs) as [v|e] eqn:Hv; simpl in *; [|done].
  destruct (nat_get _ _) as [act|e]; simpl in *; [|done].
  injection Hmm as <-.
  destruct (max_loop_sound mm ab g Hrec (elements ms) vs NegInf Move.stop a beta
              Hvs Hab) as (r & act' & Hloop & _ & Hc); [done|].
  exists (r, act'). split; [done|]. simpl.
  by rewrite Hc, max2_NegInf, (py_max_maximum vs v).
Qed.

Lemma min_node_sound mm ab :
  sound mm ab →
  sound (minimax_node evaluate random_choice 1 py_min mm) (min_node evaluate ab).
Proof.
  intros Hrec g a beta p Hab Hmm. unfold minimax_node in Hmm. unfold min_node.
  destruct (loss_or_win g) as [[|]|e]; simpl in *; [by eauto| |done].
  destruct (Gamestate.legal_moves_id g 1) as [ms|e]; simpl in *; [|done].
  destruct (mapM _ (elements ms)) as [vs|e] eqn:Hvs; simpl in *; [|done].
  destruct (py_min vs) as [v|e] eqn:Hv; simpl in *; [|done].
  destruct (nat_get _ _) as [act|e]; simpl in *; [|done].
  injection Hmm as <-.
  destruct (min_loop_sound mm ab g Hrec (elements ms) vs PosInf Move.stop a beta
              Hvs Hab) as (r & act' & Hloop & _ & Hc).
  { by destruct beta. }
  exists (r, act'). split; [done|]. simpl.
  by rewrite Hc, min2_PosInf, (py_min_minimum vs v).
Qed.

(** Alpha-beta agrees with minimax within the window, at every depth and for
    both players. *)
Lemma alpha_beta_sound (depth : nat) (maximizer : bool) :
  sound (fun g => minimax evaluate random_choice g depth maximizer)
        (fun g a b => alpha_beta evaluate g depth maximizer a b).
Proof.
  revert maximizer. induction depth as [|depth IH]; intros maximizer.
  - intros g a beta p _ [= <-]. by exists (evaluate g, Move.stop).
  - pose proof (min_node_sound _ _ (IH true)) as Hmin.
    destruct maximizer; cbn [minimax alpha_beta].
    + by apply max_node_sound.
    + done.
Qed.

(** With the window from [-inf] to [inf] the two scores are the same. *)
Lemma alpha_beta_agrees (s : Gamestate.t) (d : nat) (v : score)
    (m : Move.t) :
  minimax evaluate random_choice s d true = Ok (v, m) →
  ∃ m', alpha_beta evaluate s d true NegInf PosInf = Ok (v, m').
Proof.
  intros Hmm.
  destruct (alpha_beta_sound d true s NegInf PosInf (v, m) eq_refl Hmm)
    as ([r m'] & Hab & Hc).
  rewrite !clamp_full in Hc. simpl in Hc. subst. eauto.
Qed.

End AlphaBeta.

(** A room of three by three free cells with two dots, Pacman in one corner
    and a ghost in the opposite half. *)
Definition arena_world : Gamestate.t :=
  Gamestate.mk
    [[LayoutObject.wall; LayoutObject.wall; LayoutObject.wall; LayoutObject.wall;
      LayoutObject.wall];
     [LayoutObject.wall; LayoutObject.empty; LayoutObject.empty; LayoutObject.empty;
      LayoutObject.wall];
     [LayoutObject.wall; LayoutObject.empty; LayoutObject.dot; LayoutObject.empty;
      LayoutObject.wall];
     [LayoutObject.wall; LayoutObject.empty; LayoutObject.empty; LayoutObject.dot;
      LayoutObject.wall];
     [LayoutObject.wall; LayoutObject.wall; LayoutObject.wall; LayoutObject.wall;
      LayoutObject.wall]]
    [Some (mkVector 1 1); Some (mkVector 3 2)]
    [Some (mkVector 1 1); Some (mkVector 3 2)]
    [Move.stop; Move.stop] [0; 0] 0 0.

Lemma roundtrip_laws_witness :
  Move.opposite Move.left ≫= Move.opposite = Ok Move.left
  ∧ Array.eq (Array.transpose (Array.transpose corridor)) corridor = true
  ∧ Array.eq (Array.mirror_ver (Array.mirror_ver corridor)) corridor = true.
Proof.
  apply (roundtrip_laws Move.left corridor).
  - exact corridor_rectangular.
  - unfold corridor. intros Hin. repeat (apply elem_of_cons in Hin as [Hin|Hin]; [done|]).
    by apply elem_of_nil in Hin.
Defined.

(** C7 as stated fails on a rectangular array whose columns are empty: its
    transpose has no column at all, and the single column is lost. *)
Lemma roundtrip_laws_counterexample :
  Array.rectangular [[] : list LayoutObject.t]
  ∧ Array.eq (Array.transpose (Array.transpose [[] : list LayoutObject.t])) [[]]
    = false
  ∧ Array.eq (Array.mirror_ver (Array.mirror_ver [[] : list LayoutObject.t])) [[]]
    = false.
Proof. split; [|done]. unfold Array.rectangular. simpl. repeat constructor. Qed.

(** ** The search algorithms *)

(** *** The frontier disciplines *)

(** A discipline takes an entry out of a frontier that is not empty, and
    leaves the others. *)
Definition takes_one {E} (get : list E → option (E * list E)) : Prop :=
  ∀ l, match get l with
       | None => l = []
       | Some (e, l') => l ≡ₚ e :: l'
       end.

Lemma lifo_get_takes_one {E} : takes_one (@Ass2.lifo_get E).
Proof.
  intros l. unfold Ass2.lifo_get.
  destruct (reverse l) as [|e rest] eqn:Hrev.
  - apply (f_equal reverse) in Hrev. by rewrite reverse_involutive, reverse_nil in Hrev.
  - apply (f_equal reverse) in Hrev. rewrite reverse_involutive in Hrev.
    rewrite Hrev, reverse_cons. by rewrite Permutation_app_comm.
Qed.

Lemma fifo_get_takes_one {E} : takes_one (@Ass2.fifo_get E).
Proof. intros [|e l]; simpl; done. Qed.

Lemma priority_get_takes_one {E} (leb : E → E → bool) :
  takes_one (Ass2.priority_get leb).
Proof.
  intros l. induction l as [|e l IH]; [done|].
  simpl. destruct (Ass2.priority_get leb l) as [[m rest]|].
  - destruct (leb e m); [done|]. rewrite IH. apply perm_swap.
  - by rewrite IH.
Qed.

Lemma size_unexplored {K : Type} `{Countable K} (U explored : gset K) (s : K) :
  s ∈ U → s ∉ explored →
  (size (U ∖ (explored ∪ {[s]})) + 1 = size (U ∖ explored))%nat.
Proof.
  intros HU Hnew.
  assert (Hs : s ∈ U ∖ explored) by (by apply elem_of_difference).
  rewrite <- difference_difference_l_L.
  rewrite size_difference by (by apply singleton_subseteq_l).
  rewrite size_singleton.
  assert (size (U ∖ explored) ≠ 0%nat); [|lia].
  intros Hsize. apply size_empty_inv in Hsize.
  apply (not_elem_of_empty (C:=gset K) s). by apply Hsize.
Qed.

Section Generic.
Import Search Ass2.
Context {R S : Type} `{Countable S} `{!SearchRepresentation R S}.

(** What [put_successors] appends to the frontier: an entry for every
    successor whose state is not explored *)
Definition new_entries (priority : Node → R → Z) (explored : gset S)
    (path : list Move.t) (cost : Z) (succs : list (Successor S)) (r : R)
  : list (@Entry S) :=
  (fun x : Successor S =>
     let node := (x.1.1, path ++ x.1.2, cost + x.2) in (priority node r, node))
    <$> filter (fun x : Successor S => x.1.1 ∉ explored) succs.

Lemma put_successors_eq priority frontier explored path cost succs r :
  put_successors priority frontier explored path cost succs r
  = frontier ++ new_entries priority explored path cost succs r.
Proof.
  unfold put_successors, new_entries. revert frontier.
  induction succs as [|[[s' actions] actionCost] succs IH]; intros frontier.
  - by rewrite app_nil_r.
  - cbn [foldl]. rewrite filter_cons. cbn [fst snd].
    destruct (decide (s' ∈ explored)) as [Hin|Hout].
    + rewrite decide_False by (by intros Hn; apply Hn). apply IH.
    + rewrite decide_True by done. rewrite IH. by rewrite <- app_assoc.
Qed.

Lemma new_entries_length priority explored path cost succs r :
  (length (new_entries priority explored path cost succs r) ≤ length succs)%nat.
Proof. unfold new_entries. rewrite length_fmap. apply length_filter. Qed.

(** *** Exhaustion: no goal among the states that can be reached *)
Section Exhaustion.
Variable get : list (@Entry S) → option (@Entry S * list (@Entry S)).
Variable priority : @Node S → R → Z.
Hypothesis get_takes_one : takes_one get.

(** [Rinv] holds of the representation object throughout, [P] of every state
    the search comes across; the states of [P] are among the finitely many
    of [U], and none has more than [B] successors. *)
Variable Rinv : R → Prop.
Variable P : S → Prop.
Variable U : gset S.
Variable B : nat.
Hypothesis P_U : ∀ s, P s → s ∈ U.
Hypothesis start_P : ∀ r, Rinv r → P (start r).
Hypothesis no_goal : ∀ r s, Rinv r → P s →
  ∃ r', is_goal s r = (Ok false, r') ∧ Rinv r'.
Hypothesis successors_P : ∀ r s, Rinv r → P s →
  ∃ succs r', successors s r = (Ok succs, r') ∧ Rinv r'
              ∧ (length succs ≤ B)%nat ∧ Forall (fun x => P x.1.1) succs.

(** What is left to do: the entries of the frontier, and for every state
    not yet explored its expansion and the entries that come of it *)
Definition potential (frontier : list (@Entry S)) (explored : gset S) : nat :=
  (length frontier + (1 + B) * size (U ∖ explored))%nat.

Lemma loop_exhausts (fuel : nat) :
  ∀ frontier explored r,
    Rinv r → Forall (fun e : @Entry S => P e.2.1.1) frontier →
    (potential frontier explored < fuel)%nat →
    ∃ r', Rinv r' ∧ search_loop get priority fuel frontier explored r
                    = Some (Ok None, r').
Proof.
  induction fuel as [|fuel IH]; intros frontier explored r Hr HP Hfuel; [lia|].
  cbn [search_loop]. pose proof (get_takes_one frontier) as Hget.
  destruct (get frontier) as [[[pr [[state path] cost]] rest]|]; [|by eauto].
  assert (HP' : Forall (fun e : @Entry S => P e.2.1.1) ((pr, (state, path, cost)) :: rest))
    by (by rewrite <- Hget).
  apply Forall_cons in HP' as [Hstate Hrest]. simpl in Hstate.
  assert (Hlen : length frontier = Datatypes.S (length rest))
    by (by rewrite Hget).
  unfold potential in *.
  destruct (decide (state ∈ explored)) as [Hin|Hnew].
  - apply IH; [done|done|lia].
  - destruct (no_goal r state Hr Hstate) as (r1 & -> & Hr1).
    destruct (successors_P r1 state Hr1 Hstate) as (succs & r2 & -> & Hr2 & HB & Hsuccs).
    apply IH; [done| |].
    + rewrite put_successors_eq. apply Forall_app. split; [done|].
      unfold new_entries. apply Forall_fmap.
      apply Forall_forall. intros x Hx. apply list_elem_of_filter in Hx as [_ Hx].
      rewrite Forall_forall in Hsuccs. simpl. by apply Hsuccs.
    + rewrite put_successors_eq, length_app.
      pose proof (new_entries_length priority (explored ∪ {[state]}) path cost succs r2).
      pose proof (size_unexplored U explored state (P_U _ Hstate) Hnew).
      nia.
Qed.

Lemma search_exhausts (r : R) :
  Rinv r →
  ∀ fuel, (potential [] ∅ + 1 < fuel)%nat →
    ∃ r', search get priority fuel r = Some (Ok None, r').
Proof.
  intros Hr fuel Hfuel. unfold search.
  destruct (loop_exhausts fuel [(priority (start r, [], 0) r, (start r, [], 0))] ∅ r)
    as (r' & _ & Hloop); [done| |by unfold potential in *; simpl in *; lia|by eauto].
  constructor; [|done]. simpl. by apply start_P.
Qed.
End Exhaustion.

(** *** Breadth-first search finds a shortest path *)

(** The lengths of the paths in a first-in-first-out frontier: they never
    decrease from the front to the back, and span at most two levels. *)
Definition two_level (ls : list nat) : Prop :=
  ∀ i j x y, (i ≤ j)%nat → ls !! i = Some x → ls !! j = Some y →
             (x ≤ y ≤ x + 1)%nat.

Lemma two_level_tail d ls : two_level (d :: ls) → two_level ls.
Proof.
  intros Hl i j x y Hij Hi Hj.
  apply (Hl (Datatypes.S i) (Datatypes.S j)); [lia|done..].
Qed.

Lemma two_level_app d ls news :
  two_level (d :: ls) → Forall (fun y => y = (d + 1)%nat) news →
  two_level (ls ++ news).
Proof.
  intros Hl Hnews i j x y Hij Hi Hj.
  rewrite Forall_forall in Hnews.
  apply lookup_app_Some in Hi as [Hi|[Hil Hi]];
    apply lookup_app_Some in Hj as [Hj|[Hjl Hj]].
  - apply (Hl (Datatypes.S i) (Datatypes.S j)); [lia|done..].
  - apply list_elem_of_lookup_2, Hnews in Hj. subst y.
    pose proof (Hl 0%nat (Datatypes.S i) d x) as Hd.
    specialize (Hd ltac:(lia) eq_refl Hi). lia.
  - apply lookup_lt_Some in Hj. lia.
  - apply list_elem_of_lookup_2, Hnews in Hi.
    apply list_elem_of_lookup_2, Hnews in Hj. lia.
Qed.

Section BreadthFirst.
Variable priority : @Node S → R → Z.
Variable Rinv : R → Prop.
Variable P : S → Prop.
Variable U : gset S.
Variable B : nat.
(** The start state, the goal test and the successors, which the
    representation object computes whatever its bookkeeping holds *)
Variable s0 : S.
Variable goalp : S → bool.
Variable edges : S → list (Successor S).
Hypothesis P_U : ∀ s, P s → s ∈ U.
Hypothesis start_s0 : ∀ r, Rinv r → start r = s0.
Hypothesis P_s0 : P s0.
Hypothesis is_goal_goalp : ∀ r s, Rinv r → P s →
  ∃ r', is_goal s r = (Ok (goalp s), r') ∧ Rinv r'.
Hypothesis successors_edges : ∀ r s, Rinv r → P s →
  ∃ r', successors s r = (Ok (edges s), r') ∧ Rinv r'.
(** Every successor is one action away. *)
Hypothesis edges_P : ∀ s, P s →
  Forall (fun x : Successor S => P x.1.1 ∧ length x.1.2 = 1%nat) (edges s).
Hypothesis edges_B : ∀ s, P s → (length (edges s) ≤ B)%nat.

(** The action sequences that lead from the start to a state *)
Inductive walk : list Move.t → S → Prop :=
| walk_nil : walk [] s0
| walk_snoc p s x : walk p s → x ∈ edges s → walk (p ++ x.1.2) x.1.1.

Lemma walk_P p s : walk p s → P s.
Proof.
  induction 1 as [|p s x Hw IH Hx]; [done|].
  pose proof (edges_P s IH) as Hall. rewrite Forall_forall in Hall.
  by apply Hall.
Qed.

Definition entry_state (e : @Entry S) : S := e.2.1.1.
Definition entry_path (e : @Entry S) : list Move.t := e.2.1.2.

(** The invariant of the loop *)
Record bfs_inv (frontier : list (@Entry S)) (explored : gset S) : Prop := {
  inv_walk : Forall (fun e => walk (entry_path e) (entry_state e)) frontier;
  inv_levels : two_level ((fun e => length (entry_path e)) <$> frontier);
  inv_edges : ∀ u q x, u ∈ explored → walk q u → x ∈ edges u →
    x.1.1 ∈ explored
    ∨ ∃ e, e ∈ frontier ∧ entry_state e = x.1.1
           ∧ (length (entry_path e) ≤ length q + 1)%nat;
  inv_start : s0 ∈ explored
    ∨ ∃ e, e ∈ frontier ∧ entry_state e = s0 ∧ entry_path e = [];
  inv_goal : ∀ u, u ∈ explored → goalp u = false;
}.

(** Every state that can be reached is explored, or some entry of the
    frontier has a path that is no longer than the one that reaches it. *)
Lemma frontier_covers frontier explored q s :
  bfs_inv frontier explored → walk q s →
  s ∈ explored
  ∨ ∃ e, e ∈ frontier ∧ (length (entry_path e) ≤ length q)%nat.
Proof.
  intros Hinv Hw. induction Hw as [|p s x Hw IH Hx].
  - destruct (inv_start _ _ Hinv) as [Hs|(e & He & _ & Hp)]; [by left|].
    right. exists e. split; [done|]. rewrite Hp. simpl. lia.
  - pose proof (edges_P s (walk_P _ _ Hw)) as Hall. rewrite Forall_forall in Hall.
    destruct (Hall x Hx) as [_ Hone]. rewrite length_app, Hone.
    destruct IH as [Hs|(e & He & Hlen)].
    + destruct (inv_edges _ _ Hinv s p x Hs Hw Hx) as [Hex|(e & He & _ & Hlen)];
        [by left|]. right. exists e. split; [done|lia].
    + right. exists e. split; [done|lia].
Qed.

Lemma head_shortest e0 rest explored e :
  bfs_inv (e0 :: rest) explored → e ∈ e0 :: rest →
  (length (entry_path e0) ≤ length (entry_path e))%nat.
Proof.
  intros Hinv He. apply list_elem_of_lookup in He as [j Hj].
  pose proof (inv_levels _ _ Hinv 0%nat j (length (entry_path e0))
                (length (entry_path e))) as Hl.
  rewrite !list_lookup_fmap, Hj in Hl. simpl in Hl.
  specialize (Hl ltac:(lia) eq_refl eq_refl). lia.
Qed.

(** The path in the entry at the front is a shortest path to its state, if
    the state is not explored. *)
Lemma head_optimal e0 rest explored q s :
  bfs_inv (e0 :: rest) explored → walk q s → s ∉ explored →
  (length (entry_path e0) ≤ length q)%nat.
Proof.
  intros Hinv Hw Hnew.
  destruct (frontier_covers _ _ q s Hinv Hw) as [Hs|(e & He & Hlen)]; [done|].
  pose proof (head_shortest e0 rest explored e Hinv He). lia.
Qed.

Lemma bfs_inv_skip e0 rest explored :
  bfs_inv (e0 :: rest) explored → entry_state e0 ∈ explored →
  bfs_inv rest explored.
Proof.
  intros Hinv Hin. split.
  - by eapply Forall_inv_tail, inv_walk.
  - pose proof (inv_levels _ _ Hinv) as Hl. rewrite fmap_cons in Hl.
    by eapply two_level_tail.
  - intros u q x Hu Hw Hx.
    destruct (inv_edges _ _ Hinv u q x Hu Hw Hx) as [Hex|(e & He & Hst & Hlen)];
      [by left|].
    apply elem_of_cons in He as [->|He]; [left; by rewrite <- Hst|].
    right. by exists e.
  - destruct (inv_start _ _ Hinv) as [Hs|(e & He & Hst & Hp)]; [by left|].
    apply elem_of_cons in He as [->|He]; [left; by rewrite <- Hst|].
    right. by exists e.
  - by eapply inv_goal.
Qed.

Lemma bfs_inv_expand pr state path cost rest explored r :
  bfs_inv ((pr, (state, path, cost)) :: rest) explored →
  state ∉ explored → goalp state = false →
  bfs_inv (rest ++ new_entries priority (explored ∪ {[state]}) path cost
                     (edges state) r)
          (explored ∪ {[state]}).
Proof.
  intros Hinv Hnew Hgoal.
  assert (Hw0 : walk path state).
  { pose proof (inv_walk _ _ Hinv) as Hall. by apply Forall_inv in Hall. }
  pose proof (edges_P state (walk_P _ _ Hw0)) as Hedges.
  rewrite Forall_forall in Hedges.
  split.
  - apply Forall_app. split; [by eapply Forall_inv_tail, inv_walk|].
    unfold new_entries. apply Forall_fmap, Forall_forall. intros x Hx.
    apply list_elem_of_filter in Hx as [_ Hx]. simpl.
    by apply (walk_snoc path state x).
  - rewrite fmap_app. apply (two_level_app (length path)).
    + pose proof (inv_levels _ _ Hinv) as Hl. by rewrite fmap_cons in Hl.
    + unfold new_entries. rewrite <- list_fmap_compose.
      apply Forall_fmap, Forall_forall. intros x Hx.
      apply list_elem_of_filter in Hx as [_ Hx]. simpl.
      unfold entry_path. simpl. rewrite length_app.
      destruct (Hedges x Hx) as [_ ->]. done.
  - intros u q x Hu Hw Hx. apply elem_of_union in Hu as [Hu|Hu].
    + destruct (inv_edges _ _ Hinv u q x Hu Hw Hx) as [Hex|(e & He & Hst & Hlen)].
      { left. apply elem_of_union. by left. }
      apply elem_of_cons in He as [->|He].
      { left. apply elem_of_union. right. apply elem_of_singleton.
        by rewrite <- Hst. }
      right. exists e. split; [|done]. apply elem_of_app. by left.
    + apply elem_of_singleton in Hu as ->.
      destruct (decide (x.1.1 ∈ explored ∪ {[state]})) as [Hex|Hex]; [by left|].
      right. eexists. split; [|split].
      * apply elem_of_app. right. unfold new_entries.
        apply list_elem_of_fmap. exists x. split; [done|].
        by apply list_elem_of_filter.
      * done.
      * unfold entry_path. simpl. rewrite length_app.
        destruct (Hedges x Hx) as [_ ->].
        pose proof (head_optimal _ _ _ q state Hinv Hw Hnew) as Hopt.
        unfold entry_path in Hopt. simpl in Hopt. lia.
  - destruct (inv_start _ _ Hinv) as [Hs|(e & He & Hst & Hp)].
    { left. apply elem_of_union. by left. }
    apply elem_of_cons in He as [->|He].
    { left. apply elem_of_union. right. apply elem_of_singleton. by rewrite <- Hst. }
    right. exists e. split; [|done]. apply elem_of_app. by left.
  - intros u Hu. apply elem_of_union in Hu as [Hu|Hu]; [by eapply inv_goal|].
    by apply elem_of_singleton in Hu as ->.
Qed.

Lemma bfs_loop (fuel : nat) :
  ∀ frontier explored r,
    Rinv r → bfs_inv frontier explored →
    (∃ q s, walk q s ∧ goalp s = true) →
    (potential U B frontier explored < fuel)%nat →
    ∃ path r' s,
      search_loop fifo_get priority fuel frontier explored r
        = Some (Ok (Some path), r')
      ∧ walk path s ∧ goalp s = true
      ∧ ∀ q s', walk q s' → goalp s' = true → (length path ≤ length q)%nat.
Proof.
  induction fuel as [|fuel IH]; intros frontier explored r Hr Hinv Hreach Hfuel;
    [lia|].
  cbn [search_loop].
  destruct frontier as [|[pr [[state path] cost]] rest]; cbn [fifo_get].
  { exfalso. destruct Hreach as (q & s & Hw & Hg).
    destruct (frontier_covers _ _ q s Hinv Hw) as [Hs|(e & He & _)].
    - pose proof (inv_goal _ _ Hinv s Hs). congruence.
    - by apply elem_of_nil in He. }
  assert (Hw0 : walk path state).
  { pose proof (inv_walk _ _ Hinv) as Hall. by apply Forall_inv in Hall. }
  pose proof (walk_P _ _ Hw0) as HP0.
  unfold potential in *. cbn [length] in Hfuel.
  destruct (decide (state ∈ explored)) as [Hin|Hnew].
  - apply IH; [done|by eapply bfs_inv_skip|done|lia].
  - destruct (is_goal_goalp r state Hr HP0) as (r1 & -> & Hr1).
    destruct (goalp state) eqn:Hgoal.
    + exists path, r1, state. split; [done|]. split; [done|]. split; [done|].
      intros q s' Hw Hg.
      destruct (frontier_covers _ _ q s' Hinv Hw) as [Hs|(e & He & Hlen)].
      * pose proof (inv_goal _ _ Hinv s' Hs). congruence.
      * pose proof (head_shortest _ _ _ e Hinv He) as Hh.
        unfold entry_path in Hh at 1. simpl in Hh. lia.
    + destruct (successors_edges r1 state Hr1 HP0) as (r2 & -> & Hr2).
      rewrite put_successors_eq.
      apply IH; [done|by apply (bfs_inv_expand pr)|done|].
      rewrite length_app.
      pose proof (new_entries_length priority (explored ∪ {[state]}) path cost
                    (edges state) r2).
      pose proof (edges_B state HP0).
      pose proof (size_unexplored U explored state (P_U _ HP0) Hnew).
      nia.
Qed.

Lemma bfs_inv_initial pr : bfs_inv [(pr, (s0, [], 0))] ∅.
Proof.
  split.
  - constructor; [|done]. apply walk_nil.
  - intros i j x y Hij Hi Hj. destruct i, j; simplify_eq/=; lia.
  - intros u q x Hu. by apply elem_of_empty in Hu.
  - right. eexists. split; [by left|done].
  - intros u Hu. by apply elem_of_empty in Hu.
Qed.

Lemma breadthfirst_correct (r : R) :
  Rinv r → (∃ q s, walk q s ∧ goalp s = true) →
  ∀ fuel, (potential U B [] ∅ + 1 < fuel)%nat →
    ∃ path r' s,
      search fifo_get priority fuel r = Some (Ok (Some path), r')
      ∧ walk path s ∧ goalp s = true
      ∧ ∀ q s', walk q s' → goalp s' = true → (length path ≤ length q)%nat.
Proof.
  intros Hr Hreach fuel Hfuel. unfold search. rewrite (start_s0 r Hr).
  apply bfs_loop; [done|apply bfs_inv_initial|done|].
  unfold potential in *. simpl in *. lia.
Qed.
End BreadthFirst.
End Generic.

(** *** The position search representation *)

Lemma py_set_ok {A} (l : list A) (i : Z) (v : A) :
  0 ≤ i < len l → py_set l i v = Ok (<[Z.to_nat i := v]> l).
Proof. intros Hi. unfold py_set. by rewrite py_pos_ok. Qed.

(** Writing a cell inside a grid keeps its shape. *)
Lemma setitem_grid {A} (a : list (list A)) (w h : nat) (x y : Z) (v : A) :
  grid a w h → 0 ≤ x < Z.of_nat w → 0 ≤ y < Z.of_nat h →
  ∃ a', Array.setitem a x y v = Ok a' ∧ grid a' w h.
Proof.
  intros [Hw Hh] Hx Hy. unfold Array.setitem.
  destruct (lookup_lt_is_Some_2 a (Z.to_nat x)) as [c Hc]; [lia|].
  assert (Hlen : length c = h).
  { rewrite Forall_forall in Hh. apply Hh. by eapply list_elem_of_lookup_2. }
  rewrite (py_get_ok a x c) by (lia || done). cbn [mbind result_bind].
  rewrite py_set_ok by (unfold len; lia). cbn [mbind result_bind].
  rewrite py_set_ok by (unfold len; lia).
  eexists. split; [done|]. split.
  - by rewrite length_insert.
  - apply Forall_insert; [done|]. by rewrite length_insert.
Qed.

Section Position.
Import Search.

(** The representation objects of one search problem: the walls of the
    grid [a], a goal, a cost function and a start, whatever has been noted of
    the expansion order in a grid of [w] by [h] cells. *)
Definition position_inv (a : list (list LayoutObject.t)) (goal : Vector)
    (cost_fn : Vector → Z) (start : option Vector) (w h : nat)
    (r : Position.t) : Prop :=
  Position.walls r = Array.indicate a LayoutObject.wall
  ∧ Position.goal r = goal
  ∧ Position.cost_fn r = cost_fn
  ∧ Position.start_state r = start
  ∧ grid (Position.expansion_order r) w h.

(** The successors of a position: the neighbours that are not walls *)
Definition position_edges (a : list (list LayoutObject.t)) (cost_fn : Vector → Z)
    (s : option Vector) : list (Successor (option Vector)) :=
  match s with
  | None => []
  | Some v =>
      (fun m => (Some (Vector.add v (Move.vector m)), [m],
                 cost_fn (Vector.add v (Move.vector m))))
        <$> filter (fun m => ¬ is_wall a (Vector.add v (Move.vector m)))
              Move.no_stop
  end.

Lemma position_successors_loop (a : list (list LayoutObject.t)) (r : Position.t)
    (v : Vector) (l : list Move.t) (acc : list (Successor (option Vector))) :
  Array.rectangular a →
  Position.walls r = Array.indicate a LayoutObject.wall →
  foldl (fun acc move =>
           successors ← acc;
           v ← Ok v;
           let new_vector := Vector.add v (Move.vector move) in
           w ← Gamestate.at_ (Position.walls r) new_vector;
           Ok (if Array.truthy w then successors
               else successors ++ [(Some new_vector, [move],
                                    Position.cost_fn r new_vector)]))
        (Ok acc) l
  = Ok (acc ++ ((fun m => (Some (Vector.add v (Move.vector m)), [m],
                           Position.cost_fn r (Vector.add v (Move.vector m))))
                  <$> filter (fun m => ¬ is_wall a (Vector.add v (Move.vector m))) l)).
Proof.
  intros Hr Hwalls.
  match goal with |- foldl ?g _ _ = _ => set (f := g) end.
  revert acc. induction l as [|m l IH]; intros acc.
  - cbn [foldl]. by rewrite filter_nil, fmap_nil, app_nil_r.
  - cbn [foldl].
    destruct (indicator_at a LayoutObject.wall (Vector.add v (Move.vector m)) Hr)
      as (w & Hw & Hiff).
    assert (Hstep : f (Ok acc) m
      = Ok (if Array.truthy w then acc
            else acc ++ [(Some (Vector.add v (Move.vector m)), [m],
                          Position.cost_fn r (Vector.add v (Move.vector m)))])).
    { unfold f. cbn [mbind result_bind]. rewrite Hwalls. by rewrite Hw. }
    rewrite Hstep, filter_cons.
    destruct (Array.truthy w) eqn:Ht.
    + rewrite decide_False by (intros Hn; apply Hn, Hiff; done). apply IH.
    + rewrite decide_True.
      2:{ intros Hn. apply Hiff in Hn. congruence. }
      rewrite IH, fmap_cons. by rewrite <- app_assoc.
Qed.

Lemma position_successors_eq (a : list (list LayoutObject.t)) (r : Position.t)
    (v : Vector) :
  Array.rectangular a →
  Position.walls r = Array.indicate a LayoutObject.wall →
  Position.successors (Some v) r
  = Ok (position_edges a (Position.cost_fn r) (Some v)).
Proof.
  intros Hr Hwalls.
  exact (position_successors_loop a r v Move.no_stop [] Hr Hwalls).
Qed.

Lemma position_is_goal_eq a goal cost_fn start w h (r : Position.t) (v : Vector) :
  position_inv a goal cost_fn start w h r →
  0 ≤ vx v < Z.of_nat w → 0 ≤ vy v < Z.of_nat h →
  ∃ r', Position.is_goal (Some v) r = (Ok (bool_decide (Some v = Some goal)), r')
        ∧ position_inv a goal cost_fn start w h r'.
Proof.
  intros (Hwalls & Hgoal & Hcost & Hstart & Hgrid) Hx Hy.
  unfold Position.is_goal, Position.super_is_goal.
  destruct (setitem_grid (Position.expansion_order r) w h (vx v) (vy v)
              (Some (Position.expansion_count r)) Hgrid Hx Hy)
    as (order & -> & Hgrid').
  eexists. split; [by rewrite Hgoal|].
  unfold position_inv. simpl. by repeat (split; [done|]).
Qed.

Lemma position_init_inv (g : Gamestate.t) (goal : Vector) (cost_fn : Vector → Z)
    (r : Position.t) (start : option Vector) :
  Gamestate.pacman g = Ok start →
  Position.init g goal cost_fn = Ok r →
  position_inv (Gamestate._statics g) goal cost_fn start
    (length (Gamestate._statics g))
    (length (default [] (head (Gamestate._statics g)))) r.
Proof.
  intros Hpac. unfold Position.init. rewrite shape_eq, Hpac. simpl.
  intros [= <-]. unfold position_inv. simpl. repeat (split; [done|]). split.
  - rewrite length_replicate. unfold len. lia.
  - apply Forall_replicate. rewrite length_replicate. unfold height, len. lia.
Qed.

End Position.

(** C5: a representation whose goal cannot be reached. The states [P] that
    can be reached are finitely many (they lie in [U]), the goal test
    answers [False] on each of them and [successors] lists at most [B] of
    them. Then each of [depthfirst], [breadthfirst], [uniformcost] and
    [astar] comes to an end, given the iterations it needs, and returns
    [None]; none raises. *)
Theorem search_exhaustion {R S : Type} `{Countable S}
    `{!Search.SearchRepresentation R S}
    (Rinv : R → Prop) (P : S → Prop) (U : gset S) (B : nat)
    (node_leb : @Ass2.Node S → @Ass2.Node S → bool) (heuristic : S → R → Z)
    (r : R) :
  (∀ s, P s → s ∈ U) →
  (∀ r, Rinv r → P (Search.start r)) →
  (∀ r s, Rinv r → P s → ∃ r', Search.is_goal s r = (Ok false, r') ∧ Rinv r') →
  (∀ r s, Rinv r → P s →
     ∃ succs r', Search.successors s r = (Ok succs, r') ∧ Rinv r'
                 ∧ (length succs ≤ B)%nat
                 ∧ Forall (fun x : Search.Successor S => P x.1.1) succs) →
  Rinv r →
  ∃ n, ∀ fuel, (n ≤ fuel)%nat →
    fst <$> Ass2.depthfirst fuel r = Some (Ok None)
    ∧ fst <$> Ass2.breadthfirst fuel r = Some (Ok None)
    ∧ fst <$> Ass2.uniformcost node_leb fuel r = Some (Ok None)
    ∧ fst <$> Ass2.astar heuristic fuel r = Some (Ok None).
Proof.
  intros HPU Hstart Hgoal Hsucc Hr.
  exists (potential U B [] ∅ + 2)%nat. intros fuel Hfuel.
  assert (Hany : ∀ get priority, takes_one get →
            fst <$> Ass2.search get priority fuel r = Some (Ok None)).
  { intros get priority Hget.
    destruct (search_exhausts get priority Hget Rinv P U B HPU Hstart Hgoal Hsucc
                r Hr fuel) as [r' ->]; [lia|done]. }
  split; [|split; [|split]].
  - apply Hany, lifo_get_takes_one.
  - apply Hany, fifo_get_takes_one.
  - apply Hany, priority_get_takes_one.
  - apply Hany, priority_get_takes_one.
Qed.

(** A corridor with a wall in its middle: the cell (3,1) cannot be reached
    from the cell (1,1). *)
Definition blocked_corridor : list (list LayoutObject.t) :=
  [[LayoutObject.wall; LayoutObject.wall; LayoutObject.wall];
   [LayoutObject.wall; LayoutObject.empty; LayoutObject.wall];
   [LayoutObject.wall; LayoutObject.wall; LayoutObject.wall];
   [LayoutObject.wall; LayoutObject.empty; LayoutObject.wall];
   [LayoutObject.wall; LayoutObject.wall; LayoutObject.wall]].

Definition blocked_world : Gamestate.t :=
  Gamestate.mk blocked_corridor [Some (mkVector 1 1)] [Some (mkVector 1 1)]
    [Move.stop] [0] 0 0.

(** The representation that [PositionSearchRepresentation(gstate, goal)]
    builds for that world and the goal (3,1) *)
Definition blocked_representation : Search.Position.t :=
  Search.Position.mk 0 (replicate 5 (replicate 3 None)) (Some (mkVector 1 1))
    (mkVector 3 1) (fun _ => 1) (Gamestate.walls blocked_world).

Lemma blocked_representation_init :
  Search.Position.init blocked_world (mkVector 3 1) (fun _ => 1)
  = Ok blocked_representation.
Proof. reflexivity. Qed.

Lemma blocked_corridor_rectangular : Array.rectangular blocked_corridor.
Proof. unfold Array.rectangular, blocked_corridor. simpl. repeat constructor. Qed.

Lemma search_exhaustion_witness :
  ∃ n, ∀ fuel, (n ≤ fuel)%nat →
    fst <$> Ass2.depthfirst fuel blocked_representation = Some (Ok None)
    ∧ fst <$> Ass2.breadthfirst fuel blocked_representation = Some (Ok None)
    ∧ fst <$> Ass2.uniformcost (fun _ _ => true) fuel blocked_representation
      = Some (Ok None)
    ∧ fst <$> Ass2.astar Search.null fuel blocked_representation = Some (Ok None).
Proof.
  apply (search_exhaustion
           (position_inv blocked_corridor (mkVector 3 1) (fun _ => 1)
              (Some (mkVector 1 1)) 5 3)
           (fun s => s = Some (mkVector 1 1)) {[Some (mkVector 1 1)]} 4).
  - intros s ->. by apply elem_of_singleton.
  - intros r (_ & _ & _ & Hstart & _). exact Hstart.
  - intros r s Hinv ->.
    destruct (position_is_goal_eq _ _ _ _ _ _ r (mkVector 1 1) Hinv)
      as (r' & Hgoal & Hinv'); [simpl; lia..|].
    exists r'. split; [exact Hgoal|exact Hinv'].
  - intros r s Hinv ->. exists [], r.
    split; [|split; [exact Hinv|split; [simpl; lia|constructor]]].
    destruct Hinv as (Hwalls & _ & Hcost & _).
    cbn [Search.successors Search.Position.representation].
    rewrite (position_successors_eq blocked_corridor r (mkVector 1 1)
               blocked_corridor_rectangular Hwalls).
    rewrite Hcost. reflexivity.
  - unfold position_inv, blocked_representation. simpl.
    repeat (split; [reflexivity|]). repeat constructor.
Defined.

(** *** Breadth-first search in a maze *)

(** The moves [q] lead from [u] to [v] and enter no wall on the way. *)
Fixpoint wall_free (a : list (list LayoutObject.t)) (u : Vector)
    (q : list Move.t) (v : Vector) : Prop :=
  match q with
  | [] => u = v
  | m :: q =>
      ¬ is_wall a (Vector.add u (Move.vector m))
      ∧ wall_free a (Vector.add u (Move.vector m)) q v
  end.

Lemma wall_free_snoc a u q m w :
  wall_free a u (q ++ [m]) w
  ↔ ∃ v, wall_free a u q v ∧ ¬ is_wall a (Vector.add v (Move.vector m))
         ∧ w = Vector.add v (Move.vector m).
Proof.
  revert u. induction q as [|m' q IH]; intros u; simpl.
  - split.
    + intros [Hw <-]. by exists u.
    + intros (v & <- & Hw & ->). done.
  - rewrite IH. split.
    + intros (Hw & v & Hq & Hv & ->). by exists v.
    + intros (v & [Hw Hq] & Hv & ->). split; [done|]. by exists v.
Qed.

Section Maze.
Variable a : list (list LayoutObject.t).
Variable cost_fn : Vector → Z.
Variable start : Vector.

Lemma walk_wall_free p s :
  walk (Some start) (position_edges a cost_fn) p s →
  ∃ v, s = Some v ∧ wall_free a start p v.
Proof.
  induction 1 as [|p s x Hw (v & -> & IH) Hx]; [by exists start|].
  unfold position_edges in Hx. apply list_elem_of_fmap in Hx as (m & -> & Hm).
  apply list_elem_of_filter in Hm as [Hfree _]. simpl.
  eexists. split; [done|]. apply wall_free_snoc. by exists v.
Qed.

Lemma wall_free_walk q v :
  wall_free a start q v →
  ∃ p, walk (Some start) (position_edges a cost_fn) p (Some v)
       ∧ (length p ≤ length q)%nat.
Proof.
  revert v. induction q as [|m q IH] using rev_ind; intros v.
  - intros <-. exists []. split; [apply walk_nil|done].
  - intros (v' & Hq & Hfree & ->)%wall_free_snoc.
    destruct (IH v' Hq) as (p & Hp & Hlen). rewrite length_app. simpl.
    destruct (decide (m = Move.stop)) as [->|Hm].
    + rewrite Vector_add_stop. exists p. split; [done|lia].
    + exists (p ++ [m]). split; [|rewrite length_app; simpl; lia].
      apply (walk_snoc (Some start) (position_edges a cost_fn) p (Some v')
               (Some (Vector.add v' (Move.vector m)), [m],
                cost_fn (Vector.add v' (Move.vector m)))); [done|].
      unfold position_edges. apply list_elem_of_fmap. exists m. split; [done|].
      apply list_elem_of_filter. split; [done|].
      unfold Move.no_stop. apply list_elem_of_filter. split; [done|].
      destruct m; unfold Move.all; repeat constructor.
Qed.
End Maze.

(** The cells of a grid *)
Definition cells (a : list (list LayoutObject.t)) : gset (option Vector) :=
  list_to_set ((fun xy => Some (mkVector xy.1 xy.2))
                 <$> Array.product_range (len a) (height a)).

Lemma elem_of_cells a v : in_bounds a (vx v) (vy v) → Some v ∈ cells a.
Proof.
  intros Hin. unfold cells. apply elem_of_list_to_set, list_elem_of_fmap.
  exists (vx v, vy v). split; [by destruct v|]. by apply elem_of_product_range.
Qed.

(** C3, for a maze that keeps the search inside the grid: the grid is
    rectangular, the goal can be reached from Pacman's cell by moves that
    enter no wall, and every cell that can be reached so lies inside the
    grid. Then [breadthfirst] on the position representation with unit costs
    comes to an end and returns a path; the path leads from the start to the
    goal, enters no wall, and no such path is shorter. *)
Theorem breadthfirst_shortest_path (g : Gamestate.t) (start goal : Vector)
    (r : Search.Position.t) :
  let a := Gamestate._statics g in
  Array.rectangular a →
  Gamestate.pacman g = Ok (Some start) →
  Search.Position.init g goal (fun _ => 1) = Ok r →
  (∃ q, wall_free a start q goal) →
  (∀ q v, wall_free a start q v → in_bounds a (vx v) (vy v)) →
  ∃ n, ∀ fuel, (n ≤ fuel)%nat →
    ∃ path r',
      Ass2.breadthfirst fuel r = Some (Ok (Some path), r')
      ∧ wall_free a start path goal
      ∧ ∀ q, wall_free a start q goal → (length path ≤ length q)%nat.
Proof.
  intros a Hrect Hpac Hinit [q0 Hq0] Hclosed.
  set (w := length a). set (h := length (default [] (head a))).
  set (Rinv := position_inv a goal (fun _ => 1) (Some start) w h).
  set (P := fun s : option Vector => ∃ v q, s = Some v ∧ wall_free a start q v).
  set (goalp := fun s : option Vector => bool_decide (s = Some goal)).
  set (edges := position_edges a (fun _ => 1)).
  exists (potential (cells a) 4 [] ∅ + 2)%nat. intros fuel Hfuel.
  assert (Hbounds : ∀ v q, wall_free a start q v →
            0 ≤ vx v < Z.of_nat w ∧ 0 ≤ vy v < Z.of_nat h).
  { intros v q Hq. destruct (Hclosed q v Hq) as [Hx Hy].
    unfold height, len in *. subst w h. lia. }
  destruct (breadthfirst_correct (fun _ _ => 0) Rinv P (cells a) 4 (Some start)
              goalp edges) with (r := r) (fuel := fuel)
    as (path & r' & s & Hsearch & Hwalk & Hgoal & Hmin).
  - intros s (v & q & -> & Hq). apply elem_of_cells. by eapply Hclosed.
  - intros r1 (_ & _ & _ & Hstart & _). exact Hstart.
  - exists start, []. done.
  - intros r1 s Hr1 (v & q & -> & Hq).
    destruct (Hbounds v q Hq) as [Hx Hy].
    exact (position_is_goal_eq a goal _ _ w h r1 v Hr1 Hx Hy).
  - intros r1 s Hr1 (v & q & -> & Hq). exists r1. split; [|done].
    destruct Hr1 as (Hwalls & _ & Hcost & _).
    cbn [Search.successors Search.Position.representation].
    rewrite (position_successors_eq a r1 v Hrect Hwalls). by rewrite Hcost.
  - intros s (v & q & -> & Hq). unfold edges, position_edges.
    apply Forall_fmap, Forall_forall. intros m Hm.
    apply list_elem_of_filter in Hm as [Hfree _]. simpl. split; [|done].
    exists (Vector.add v (Move.vector m)), (q ++ [m]). split; [done|].
    apply wall_free_snoc. by exists v.
  - intros s (v & q & -> & Hq). unfold edges, position_edges.
    rewrite length_fmap. etrans; [apply length_filter|]. done.
  - by apply (position_init_inv g goal (fun _ => 1) r (Some start)).
  - destruct (wall_free_walk a (fun _ => 1) start q0 goal Hq0) as (p & Hp & _).
    exists p, (Some goal). split; [done|]. unfold goalp. by apply bool_decide_eq_true.
  - lia.
  - exists path, r'. split; [exact Hsearch|].
    apply bool_decide_eq_true in Hgoal as ->.
    destruct (walk_wall_free a _ start path (Some goal) Hwalk) as (v & [= <-] & Hpath).
    split; [done|]. intros q Hq.
    destruct (wall_free_walk a (fun _ => 1) start q goal Hq) as (p & Hp & Hlen).
    specialize (Hmin p (Some goal) Hp). unfold goalp in Hmin.
    rewrite bool_decide_eq_true_2 in Hmin by done. specialize (Hmin eq_refl). lia.
Qed.

(** A maze is enclosed when every cell that is not a wall lies off the
    border of the grid. *)
Definition enclosed (a : list (list LayoutObject.t)) : Prop :=
  ∀ x y, in_bounds a x y → Array.getitem a x y ≠ Ok (Some LayoutObject.wall) →
         1 ≤ x < len a - 1 ∧ 1 ≤ y < height a - 1.

(** In an enclosed maze the search stays inside the grid. *)
Lemma enclosed_closed (a : list (list LayoutObject.t)) (start : Vector) :
  enclosed a → in_bounds a (vx start) (vy start) → ¬ is_wall a start →
  ∀ q v, wall_free a start q v → in_bounds a (vx v) (vy v).
Proof.
  intros Hen Hin Hfree q. revert start Hin Hfree.
  induction q as [|m q IH]; intros u Hin Hfree v; simpl.
  - by intros <-.
  - intros [Hm Hq]. apply (IH (Vector.add u (Move.vector m))); [|done..].
    destruct (Hen (vx u) (vy u) Hin Hfree) as [Hx Hy].
    unfold in_bounds. destruct m; simpl; lia.
Qed.

(** An open room of three by three cells inside its walls: Pacman in one
    corner, the goal in the opposite one. *)
Definition room : list (list LayoutObject.t) :=
  [[LayoutObject.wall; LayoutObject.wall; LayoutObject.wall; LayoutObject.wall;
    LayoutObject.wall];
   [LayoutObject.wall; LayoutObject.empty; LayoutObject.empty; LayoutObject.empty;
    LayoutObject.wall];
   [LayoutObject.wall; LayoutObject.empty; LayoutObject.empty; LayoutObject.empty;
    LayoutObject.wall];
   [LayoutObject.wall; LayoutObject.empty; LayoutObject.empty; LayoutObject.dot;
    LayoutObject.wall];
   [LayoutObject.wall; LayoutObject.wall; LayoutObject.wall; LayoutObject.wall;
    LayoutObject.wall]].

Definition room_world : Gamestate.t :=
  Gamestate.mk room [Some (mkVector 1 1)] [Some (mkVector 1 1)] [Move.stop] [0] 0 0.

Definition room_representation : Search.Position.t :=
  Search.Position.mk 0 (replicate 5 (replicate 5 None)) (Some (mkVector 1 1))
    (mkVector 3 3) (fun _ => 1) (Gamestate.walls room_world).

Lemma room_enclosed : enclosed room.
Proof.
  intros x y Hin Hfree.
  change (0 ≤ x < 5 ∧ 0 ≤ y < 5) in Hin.
  change (1 ≤ x < 4 ∧ 1 ≤ y < 4).
  assert (Hxs : x = 0 ∨ x = 1 ∨ x = 2 ∨ x = 3 ∨ x = 4) by lia.
  assert (Hys : y = 0 ∨ y = 1 ∨ y = 2 ∨ y = 3 ∨ y = 4) by lia.
  destruct Hxs as [->|[->|[->|[->| ->]]]], Hys as [->|[->|[->|[->| ->]]]];
    first [lia | by destruct Hfree].
Qed.

Lemma breadthfirst_shortest_path_witness :
  ∃ n, ∀ fuel, (n ≤ fuel)%nat →
    ∃ path r',
      Ass2.breadthfirst fuel room_representation = Some (Ok (Some path), r')
      ∧ wall_free room (mkVector 1 1) path (mkVector 3 3)
      ∧ ∀ q, wall_free room (mkVector 1 1) q (mkVector 3 3) →
             (length path ≤ length q)%nat.
Proof.
  apply (breadthfirst_shortest_path room_world (mkVector 1 1) (mkVector 3 3)
           room_representation).
  - unfold Array.rectangular. simpl. repeat constructor.
  - reflexivity.
  - reflexivity.
  - exists [Move.up; Move.up; Move.right; Move.right]. simpl.
    repeat (split; [discriminate|]). reflexivity.
  - apply enclosed_closed; [exact room_enclosed| |discriminate].
    change (0 ≤ 1 < 5 ∧ 0 ≤ 1 < 5). lia.
Defined.

(** The scenario of the specification: in that room breadth-first search
    returns four moves, which cost 4. *)
Lemma room_scenario :
  fst <$> Ass2.breadthfirst 100 room_representation
  = Some (Ok (Some [Move.up; Move.up; Move.right; Move.right]))
  ∧ Search.Position.pathcost [Move.up; Move.up; Move.right; Move.right]
      room_representation = Ok (Search.Finite 4).
Proof. split; reflexivity. Qed.

(** C3 as stated fails in a maze without walls around it: the search leaves
    the grid, and the bookkeeping of the goal test raises an [IndexError]
    before the goal next door is reached. *)
Definition open_world : Gamestate.t :=
  Gamestate.mk [[LayoutObject.empty]; [LayoutObject.empty]]
    [Some (mkVector 0 0)] [Some (mkVector 0 0)] [Move.stop] [0] 0 0.

Definition open_representation : Search.Position.t :=
  Search.Position.mk 0 (replicate 2 (replicate 1 None)) (Some (mkVector 0 0))
    (mkVector 1 0) (fun _ => 1) (Gamestate.walls open_world).

Lemma breadthfirst_shortest_path_counterexample :
  Search.Position.init open_world (mkVector 1 0) (fun _ => 1)
  = Ok open_representation
  ∧ wall_free (Gamestate._statics open_world) (mkVector 0 0) [Move.right]
      (mkVector 1 0)
  ∧ ∀ fuel, (2 ≤ fuel)%nat →
      fst <$> Ass2.breadthfirst fuel open_representation = Some (Raise IndexError).
Proof.
  split; [reflexivity|]. split; [by split|].
  intros [|[|fuel]] Hfuel; [lia..|]. reflexivity.
Qed.

(** ** Worlds in which the game goes on *)

Lemma copy_id (g : Gamestate.t) : Gamestate.copy g = g.
Proof.
  destruct g. unfold Gamestate.copy, Array.copy. simpl. by rewrite list_fmap_id.
Qed.

(** Writing a cell inside a rectangular grid changes that cell and nothing
    else. *)
Lemma setitem_inside {A} (a : list (list A)) (x y : Z) (v : A) :
  Array.rectangular a → in_bounds a x y →
  ∃ a', Array.setitem a x y v = Ok a'
        ∧ Array.rectangular a'
        ∧ len a' = len a ∧ height a' = height a
        ∧ ∀ i j, cell a' i j
                 = if decide (i = Z.to_nat x ∧ j = Z.to_nat y) then Some v
                   else cell a i j.
Proof.
  intros Hr [Hx Hy].
  apply rectangular_grid in Hr as [h Hg].
  assert (Hh : height a = Z.of_nat h).
  { unfold height, len. destruct Hg as [_ Hall].
    destruct a as [|c0 rest]; [unfold len in Hx; simpl in Hx; lia|].
    simpl. inversion Hall; subst. done. }
  destruct (setitem_grid a (length a) h x y v Hg) as (a' & Hset & Hg');
    [unfold len in Hx; lia|lia|].
  exists a'. split; [done|].
  assert (Hlen : length a' = length a) by apply Hg'.
  assert (Hh' : height a' = Z.of_nat h).
  { unfold height, len. destruct Hg' as [_ Hall].
    destruct a' as [|c0 rest]; [unfold len in Hx; simpl in *; lia|].
    simpl. inversion Hall; subst. done. }
  split; [|split; [|split]].
  - apply rectangular_grid. exists h. by rewrite Hlen.
  - unfold len. by rewrite Hlen.
  - by rewrite Hh, Hh'.
  - intros i j. unfold Array.setitem in Hset.
    destruct (lookup_lt_is_Some_2 a (Z.to_nat x)) as [c Hc]; [unfold len in Hx; lia|].
    assert (Hlc : length c = h).
    { destruct Hg as [_ Hall]. rewrite Forall_forall in Hall.
      apply Hall. by eapply list_elem_of_lookup_2. }
    rewrite (py_get_ok a x c) in Hset by (lia || done). cbn [mbind result_bind] in Hset.
    rewrite py_set_ok in Hset by (unfold len; lia). cbn [mbind result_bind] in Hset.
    rewrite py_set_ok in Hset by (unfold len in *; lia).
    injection Hset as <-. unfold cell.
    destruct (decide (i = Z.to_nat x)) as [->|Hi].
    + rewrite list_lookup_insert_eq by (unfold len in Hx; lia). simpl.
      destruct (decide (j = Z.to_nat y)) as [->|Hj].
      * rewrite decide_True by done. apply list_lookup_insert_eq. lia.
      * rewrite decide_False by tauto. rewrite Hc. simpl.
        by apply list_lookup_insert_ne.
    + rewrite decide_False by tauto. by rewrite list_lookup_insert_ne.
Qed.

Lemma getitem_Some_in_bounds {A} (a : list (list A)) (x y : Z) (e : A) :
  Array.getitem a x y = Ok (Some e) → in_bounds a x y.
Proof.
  intros Hg. destruct (decide (in_bounds a x y)) as [Hin|Hout]; [done|].
  rewrite getitem_outside in Hg by done. discriminate.
Qed.

(** Replacing what lies on the floor moves no wall. *)
Lemma is_wall_setitem (a a' : list (list LayoutObject.t)) (x y : Z)
    (e v : LayoutObject.t) (u : Vector) :
  Array.rectangular a →
  Array.getitem a x y = Ok (Some e) → e ≠ LayoutObject.wall →
  v ≠ LayoutObject.wall →
  Array.rectangular a' → len a' = len a → height a' = height a →
  (∀ i j, cell a' i j
          = if decide (i = Z.to_nat x ∧ j = Z.to_nat y) then Some v
            else cell a i j) →
  is_wall a' u ↔ is_wall a u.
Proof.
  intros Hr Hg He Hv Hr' Hlen Hh Hcell. unfold is_wall.
  pose proof (getitem_Some_in_bounds _ _ _ _ Hg) as Hin.
  rewrite (getitem_cell a) in Hg by done. rewrite decide_True in Hg by done.
  rewrite (getitem_cell a') by done. rewrite (getitem_cell a) by done.
  assert (Hb : in_bounds a' (vx u) (vy u) ↔ in_bounds a (vx u) (vy u)).
  { unfold in_bounds. by rewrite Hlen, Hh. }
  destruct (decide (in_bounds a (vx u) (vy u))) as [Hu|Hu].
  - rewrite decide_True by by apply Hb. rewrite Hcell.
    destruct (decide _) as [[Hx Hy]|Hne]; [|done].
    rewrite Hx, Hy. injection Hg as Hg. rewrite Hg.
    split; intros [= ?]; congruence.
  - rewrite decide_False by by rewrite Hb. done.
Qed.

(** An agent, or a start, that is there stands on a cell that is no wall. *)
Definition on_floor (a : list (list LayoutObject.t)) (o : option Vector) : Prop :=
  match o with
  | Some v => ¬ is_wall a v
  | None => True
  end.

(** A world in which Pacman and the first ghost can be moved, as
    [Gamestate.__init__] builds it from a layout with Pacman and a ghost:
    the grid is rectangular, the lists of the agents have one length, the
    agents and the starts are on the floor, and the first ghost is there and
    has a start. *)
Definition playable (g : Gamestate.t) : Prop :=
  Array.rectangular (Gamestate._statics g)
  ∧ length (Gamestate.starts g) = length (Gamestate.agents g)
  ∧ length (Gamestate.facings g) = length (Gamestate.agents g)
  ∧ length (Gamestate._timers g) = length (Gamestate.agents g)
  ∧ Forall (on_floor (Gamestate._statics g)) (Gamestate.agents g)
  ∧ Forall (on_floor (Gamestate._statics g)) (Gamestate.starts g)
  ∧ (∃ v, Gamestate.agents g !! 1%nat = Some (Some v))
  ∧ (∃ v, Gamestate.starts g !! 1%nat = Some (Some v)).

Lemma on_floor_lookup a (l : list (option Vector)) (i : nat) (v : Vector) :
  Forall (on_floor a) l → l !! i = Some (Some v) → ¬ is_wall a v.
Proof.
  intros Hl Hi. rewrite Forall_forall in Hl.
  apply (Hl (Some v)). by eapply list_elem_of_lookup_2.
Qed.

(** The first ghost is still there when a slot is written that is not its
    slot, or that it is written to with a position. *)
Lemma ghost_insert (l : list (option Vector)) (i : nat) (o : option Vector) :
  (∃ v, l !! 1%nat = Some (Some v)) →
  (i = 1%nat → ∃ v, o = Some v) →
  ∃ v, <[i := o]> l !! 1%nat = Some (Some v).
Proof.
  intros [v Hv] Ho. destruct (decide (i = 1%nat)) as [->|Hi].
  - destruct (Ho eq_refl) as [v' ->]. exists v'.
    apply list_lookup_insert_eq. by apply lookup_lt_Some in Hv.
  - exists v. by rewrite list_lookup_insert_ne.
Qed.

Lemma playable_moved (g : Gamestate.t) (agent_id : nat) (move : Move.t)
    (vector : Vector) (timer : Z) :
  playable g →
  ¬ is_wall (Gamestate._statics g) (Vector.add vector (Move.vector move)) →
  playable (moved agent_id move vector timer g).
Proof.
  intros (Hr & Hs & Hf & Ht & Ha & Hst & Hg & Hgs) Hfree.
  unfold playable, moved. simpl. rewrite !length_insert.
  repeat (split; [done|]). split; [|split; [done|split; [|done]]].
  - by apply Forall_insert.
  - apply ghost_insert; eauto.
Qed.

Lemma playable_resolved (g : Gamestate.t) (ghost_id : nat) (timer : Z)
    (start : option Vector) :
  playable g → ghost_id ≠ Gamestate.PACMAN_ID →
  Gamestate.starts g !! ghost_id = Some start →
  playable (resolved ghost_id timer start g).
Proof.
  intros (Hr & Hs & Hf & Ht & Ha & Hst & Hg & Hgs) Hid Hstart.
  unfold playable, resolved. destruct (decide (timer ≠ 0)); simpl;
    rewrite ?length_insert.
  - repeat (split; [done|]). split; [|split; [done|split; [|done]]].
    + apply Forall_insert; [done|].
      rewrite Forall_forall in Hst. apply Hst. by eapply list_elem_of_lookup_2.
    + apply ghost_insert; [done|]. intros ->.
      destruct Hgs as [v Hv]. rewrite Hv in Hstart. injection Hstart as <-. eauto.
  - repeat (split; [done|]). split; [|split; [done|split; [|done]]].
    + by apply Forall_insert.
    + apply ghost_insert; [done|]. unfold Gamestate.PACMAN_ID. discriminate.
Qed.

(** The encounter with a ghost goes through in a playable world. *)
Lemma resolve_encounter_playable (g : Gamestate.t) (ghost_id : nat) :
  playable g → ghost_id ≠ Gamestate.PACMAN_ID →
  (ghost_id < length (Gamestate.agents g))%nat →
  ∃ g', Gamestate._resolve_encounter ghost_id g = (Ok (), g') ∧ playable g'.
Proof.
  intros Hp Hid Hlt. pose proof Hp as (Hr & Hs & Hf & Ht & _).
  destruct (lookup_lt_is_Some_2 (Gamestate._timers g) ghost_id) as [timer Htimer];
    [lia|].
  destruct (lookup_lt_is_Some_2 (Gamestate.starts g) ghost_id) as [start Hstart];
    [lia|].
  exists (resolved ghost_id timer start g). split.
  - by apply resolve_encounter_eq.
  - by apply playable_resolved.
Qed.

(** The floor of a playable world can be cleared where it holds something
    that is no wall. *)
Lemma set_static_playable (g : Gamestate.t) (u : Vector) (e : LayoutObject.t) :
  playable g →
  Array.getitem (Gamestate._statics g) (vx u) (vy u) = Ok (Some e) →
  e ≠ LayoutObject.wall →
  ∃ g', Gamestate.set_static u LayoutObject.empty g = (Ok (), g')
        ∧ playable g'
        ∧ Gamestate.agents g' = Gamestate.agents g
        ∧ Gamestate._timers g' = Gamestate._timers g.
Proof.
  intros (Hr & Hs & Hf & Ht & Ha & Hst & Hg & Hgs) Hget He.
  pose proof (getitem_Some_in_bounds _ _ _ _ Hget) as Hin.
  destruct (setitem_inside (Gamestate._statics g) (vx u) (vy u) LayoutObject.empty
              Hr Hin) as (a' & Hset & Hr' & Hlen & Hh & Hcell).
  exists (Gamestate.with_statics a' g). split.
  { unfold Gamestate.set_static, Gamestate.get, Gamestate.lift, Gamestate.put,
      mbind, Gamestate.M_bind. by rewrite Hset. }
  assert (Hwall : ∀ v, is_wall a' v ↔ is_wall (Gamestate._statics g) v).
  { intros v. by apply (is_wall_setitem _ _ (vx u) (vy u) e LayoutObject.empty). }
  assert (Hfloor : ∀ l, Forall (on_floor (Gamestate._statics g)) l →
                        Forall (on_floor a') l).
  { intros l Hl. eapply Forall_impl; [exact Hl|].
    intros [v|]; simpl; [|done]. by rewrite Hwall. }
  split; [|done]. unfold playable. simpl. repeat (split; [done|]).
  split; [by apply Hfloor|]. split; [by apply Hfloor|]. done.
Qed.

(** *** Methods that go through in a playable world *)

Definition keeps (c : Gamestate.M ()) : Prop :=
  ∀ g, playable g → ∃ g', c g = (Ok (), g') ∧ playable g'.

Lemma keeps_skip : keeps Gamestate.skip.
Proof. intros g Hg. by exists g. Qed.

Lemma keeps_seq (c1 c2 : Gamestate.M ()) : keeps c1 → keeps c2 → keeps (c1;; c2).
Proof.
  intros H1 H2 g Hg. destruct (H1 g Hg) as (g1 & E1 & Hg1).
  destruct (H2 g1 Hg1) as (g2 & E2 & Hg2). exists g2. split; [|done].
  unfold mbind, Gamestate.M_bind. by rewrite E1.
Qed.

Lemma keeps_read {A} (f : Gamestate.t → result A) (k : A → Gamestate.M ()) :
  (∀ g, playable g →
     ∃ a, f g = Ok a ∧ ∃ g', k a g = (Ok (), g') ∧ playable g') →
  keeps (a ← Gamestate.read f; k a).
Proof.
  intros Hk g Hg. destruct (Hk g Hg) as (a & Ha & g' & Hg' & Hp).
  exists g'. split; [|done].
  unfold mbind, Gamestate.M_bind, Gamestate.read. by rewrite Ha.
Qed.

Lemma keeps_add_score (n : Z) : keeps (Gamestate.add_score n).
Proof. intros g Hg. eexists. split; [reflexivity|]. exact Hg. Qed.

Lemma keeps_scare_all : keeps Gamestate.scare_all.
Proof.
  intros g (Hr & Hs & Hf & Ht & Ha & Hst & Hgh & Hgs).
  eexists. split; [reflexivity|]. unfold playable. simpl.
  repeat (split; [done|]). split; [|done].
  rewrite length_app, length_replicate, <- length_app, take_drop. done.
Qed.

Lemma keeps_resolve_encounter (ghost_id : nat) :
  ghost_id ≠ Gamestate.PACMAN_ID →
  (∀ g, playable g → (ghost_id < length (Gamestate.agents g))%nat) →
  keeps (Gamestate._resolve_encounter ghost_id).
Proof. intros Hid Hlt g Hg. apply resolve_encounter_playable; auto. Qed.

Lemma seq_run (c1 c2 : Gamestate.M ()) (g g1 : Gamestate.t) :
  c1 g = (Ok (), g1) → (c1;; c2) g = c2 g1.
Proof. intros E. unfold mbind, Gamestate.M_bind. by rewrite E. Qed.

(** The collection of a pellet *)
Lemma keeps_collect_pellet (new_vector : Vector) :
  keeps (p ← Gamestate.read (fun g => Gamestate.at_ (Gamestate.pellets g) new_vector);
         if Array.truthy p then
           Gamestate.set_static new_vector LayoutObject.empty;;
           Gamestate.add_score Gamestate.SCORE_GET_PELLET;;
           Gamestate.scare_all
         else Gamestate.skip).
Proof.
  apply keeps_read. intros g Hg. pose proof Hg as (Hr & _).
  destruct (indicator_at _ LayoutObject.pellet new_vector Hr) as (w & Hw & Hiff).
  exists w. split; [done|].
  destruct (Array.truthy w); [|by apply keeps_skip].
  destruct (set_static_playable g new_vector LayoutObject.pellet Hg)
    as (g1 & E1 & Hg1 & _); [by apply Hiff|done|].
  rewrite (seq_run _ _ g g1 E1).
  by apply keeps_seq; [apply keeps_add_score|apply keeps_scare_all|].
Qed.

(** The collection of a dot or a pellet *)
Lemma keeps_collect (new_vector : Vector) : keeps (collect new_vector).
Proof.
  unfold collect.
  apply keeps_read. intros g Hg. pose proof Hg as (Hr & _).
  destruct (indicator_at _ LayoutObject.dot new_vector Hr) as (w & Hw & Hiff).
  exists w. split; [done|].
  destruct (Array.truthy w).
  - destruct (set_static_playable g new_vector LayoutObject.dot Hg)
      as (g1 & E1 & Hg1 & _); [by apply Hiff|done|].
    assert (Hrest : keeps
      (Gamestate.add_score Gamestate.SCORE_GET_DOT;;
       l ← Gamestate.read (fun g => Array.ind_list (Gamestate.dots g));
       if decide (l = []) then Gamestate.add_score Gamestate.SCORE_GET_ALL_DOTS
       else Gamestate.skip)).
    { apply keeps_seq; [apply keeps_add_score|].
      apply keeps_read. intros g2 Hg2. pose proof Hg2 as (Hr2 & _).
      eexists. split.
      - unfold Array.ind_list, Gamestate.dots, Array.indicate. simpl.
        apply list_eq_hits. by apply rectangular_full_indicators.
      - destruct (decide _); [by apply keeps_add_score|by apply keeps_skip]. }
    destruct (Hrest g1 Hg1) as (g2 & E2 & Hg2).
    assert (E : (Gamestate.set_static new_vector LayoutObject.empty;;
                 Gamestate.add_score Gamestate.SCORE_GET_DOT;;
                 l ← Gamestate.read (fun g => Array.ind_list (Gamestate.dots g));
                 if decide (l = [])
                 then Gamestate.add_score Gamestate.SCORE_GET_ALL_DOTS
                 else Gamestate.skip) g = (Ok (), g2)).
    { by rewrite (seq_run _ _ g g1 E1). }
    rewrite (seq_run _ _ g g2 E).
    by apply keeps_collect_pellet.
  - rewrite (seq_run _ _ g g eq_refl). by apply keeps_collect_pellet.
Qed.

Lemma ghost_at_Some (g : Gamestate.t) (new_vector : Vector) (ghost_id : nat) :
  Gamestate.ghost_at g new_vector = Some ghost_id →
  ghost_id ≠ Gamestate.PACMAN_ID ∧ (ghost_id < length (Gamestate.agents g))%nat.
Proof.
  unfold Gamestate.ghost_at, Gamestate.ghosts.
  destruct (list_find _ _) as [[i a]|] eqn:Hfind; [|done].
  simpl. intros [= <-]. apply list_find_Some in Hfind as (Hi & _).
  apply lookup_lt_Some in Hi. rewrite length_drop in Hi.
  unfold Gamestate.PACMAN_ID. split; lia.
Qed.

Lemma keeps_pacman_arrives (new_vector : Vector) : keeps (pacman_arrives new_vector).
Proof.
  intros g Hg.
  change (pacman_arrives new_vector g) with
    (((match Gamestate.ghost_at g new_vector with
       | Some ghost_id => Gamestate._resolve_encounter ghost_id
       | None => Gamestate.skip
       end);; collect new_vector) g).
  assert (Hfirst : ∃ g1,
    (match Gamestate.ghost_at g new_vector with
     | Some ghost_id => Gamestate._resolve_encounter ghost_id
     | None => Gamestate.skip
     end) g = (Ok (), g1) ∧ playable g1).
  { destruct (Gamestate.ghost_at g new_vector) as [ghost_id|] eqn:Hgh.
    - apply ghost_at_Some in Hgh as [Hid Hlt].
      by apply resolve_encounter_playable.
    - by apply keeps_skip. }
  destruct Hfirst as (g1 & E1 & Hg1).
  rewrite (seq_run _ _ g g1 E1). by apply keeps_collect.
Qed.

Lemma ghost_arrives_playable (g : Gamestate.t) (agent_id : nat)
    (new_vector : Vector) :
  playable g → agent_id ≠ Gamestate.PACMAN_ID →
  (agent_id < length (Gamestate.agents g))%nat →
  ∃ g', ghost_arrives agent_id new_vector g = (Ok (), g') ∧ playable g'.
Proof.
  intros Hg Hid Hlt. unfold ghost_arrives.
  destruct (lookup_lt_is_Some_2 (Gamestate.agents g) 0) as [pac Hpac]; [lia|].
  assert (E : Gamestate.pacman g = Ok pac).
  { unfold Gamestate.pacman, nat_get, Gamestate.PACMAN_ID. by rewrite Hpac. }
  unfold mbind, Gamestate.M_bind, Gamestate.read. rewrite E.
  destruct (decide _).
  - by apply resolve_encounter_playable.
  - by apply keeps_skip.
Qed.

(** A move to a cell that is no wall goes through. *)
Lemma apply_move_playable (g : Gamestate.t) (agent_id : nat) (move : Move.t)
    (vector : Vector) :
  playable g →
  Gamestate.agents g !! agent_id = Some (Some vector) →
  ¬ is_wall (Gamestate._statics g) (Vector.add vector (Move.vector move)) →
  ∃ g', Gamestate.apply_move agent_id (Some move) g = (Ok (), g') ∧ playable g'.
Proof.
  intros Hg Ha Hfree. pose proof Hg as (Hr & Hs & Hf & Ht & _).
  pose proof (lookup_lt_Some _ _ _ Ha) as Hlt.
  pose proof (apply_move_cases agent_id (Some move) g) as Hcases.
  rewrite Ha in Hcases. cbv zeta in Hcases. simpl in Hcases.
  rewrite decide_True in Hcases by lia.
  destruct (lookup_lt_is_Some_2 (Gamestate._timers g) agent_id) as [timer Htimer];
    [lia|].
  rewrite Htimer in Hcases. rewrite Hcases.
  set (new_vector := Vector.add vector (Move.vector move)) in *.
  pose proof (playable_moved g agent_id move vector timer Hg Hfree) as Hm.
  set (g1 := moved agent_id move vector timer g) in *.
  unfold consequences.
  destruct (indicator_at (Gamestate._statics g1) LayoutObject.wall new_vector)
    as (w & Hw & Hiff); [apply Hm|].
  unfold mbind at 1. unfold Gamestate.M_bind at 1. unfold Gamestate.read at 1.
  unfold Gamestate.walls. rewrite Hw.
  destruct (Array.truthy w) eqn:Htr.
  { exfalso. apply Hfree. by apply Hiff. }
  destruct (decide (agent_id = Gamestate.PACMAN_ID)) as [->|Hid].
  - by apply keeps_pacman_arrives.
  - apply ghost_arrives_playable; [done|done|].
    unfold g1, moved. simpl. by rewrite length_insert.
Qed.

Lemma successor_playable (g : Gamestate.t) (agent_id : nat) (move : Move.t)
    (vector : Vector) :
  playable g →
  Gamestate.agents g !! agent_id = Some (Some vector) →
  ¬ is_wall (Gamestate._statics g) (Vector.add vector (Move.vector move)) →
  ∃ g', Gamestate.successor g agent_id (Some move) = Ok g' ∧ playable g'.
Proof.
  intros Hg Ha Hfree.
  destruct (apply_move_playable g agent_id move vector Hg Ha Hfree)
    as (g' & E & Hg').
  exists g'. split; [|done]. unfold Gamestate.successor.
  by rewrite copy_id, E.
Qed.

(** The legal moves of an agent of a playable world: there are some, and
    each leads to a cell that is no wall. *)
Lemma legal_moves_playable (g : Gamestate.t) (agent_id : nat) (vector : Vector) :
  playable g →
  Gamestate.agents g !! agent_id = Some (Some vector) →
  ∃ moves, Gamestate.legal_moves_id g agent_id = Ok moves
           ∧ elements moves ≠ []
           ∧ ∀ move, move ∈ elements moves →
               ¬ is_wall (Gamestate._statics g)
                   (Vector.add vector (Move.vector move)).
Proof.
  intros Hg Ha. pose proof Hg as (Hr & _ & _ & _ & Hfloor & _).
  eexists. split; [|split].
  - unfold Gamestate.legal_moves_id, nat_get. rewrite Ha. simpl.
    by apply legal_moves_vector_eq.
  - intros Hnil. apply elements_empty_inv in Hnil.
    assert (Hstop : Move.stop ∈ (list_to_set
              (filter (fun m => ¬ is_wall (Gamestate._statics g)
                                    (Vector.add vector (Move.vector m)))
                 Move.all) : gset Move.t)).
    { apply elem_of_list_to_set, list_elem_of_filter. split.
      - rewrite Vector_add_stop. by eapply on_floor_lookup.
      - unfold Move.all. repeat constructor. }
    rewrite Hnil in Hstop. by apply elem_of_empty in Hstop.
  - intros move Hin. apply elem_of_elements, elem_of_list_to_set in Hin.
    by apply list_elem_of_filter in Hin as [Hfree _].
Qed.

(** *** The agents return *)

Section Returns.
Import Ass4.
Variable evaluate : Gamestate.t → score.
Variable random_choice : list nat → nat.
(** [random.choice] returns an element of the list it is given. *)
Hypothesis random_choice_elem : ∀ l, l ≠ [] → random_choice l ∈ l.

Lemma loss_or_win_playable (g : Gamestate.t) :
  playable g →
  ∃ b, loss_or_win g = Ok b
       ∧ (b = false → ∃ v, Gamestate.agents g !! 0%nat = Some (Some v)).
Proof.
  intros (Hr & _ & _ & _ & _ & _ & [v1 Hv1] & _).
  destruct (lookup_lt_is_Some_2 (Gamestate.agents g) 0) as [pac Hpac].
  { apply lookup_lt_Some in Hv1. lia. }
  unfold loss_or_win, Gamestate.win, Gamestate.loss, Gamestate.pacman, nat_get,
    Gamestate.PACMAN_ID.
  rewrite Hpac. simpl. destruct pac as [v|]; simpl; [|by exists true].
  unfold Array.ind_list, Gamestate.dots, Array.indicate. simpl.
  rewrite list_eq_hits by by apply rectangular_full_indicators. simpl.
  eexists. split; [done|]. eauto.
Qed.

Lemma mapM_returns {A B} (f : A → result B) (l : list A) :
  (∀ x, x ∈ l → ∃ y, f x = Ok y) →
  ∃ k, mapM f l = Ok k ∧ length k = length l.
Proof.
  induction l as [|x l IH]; intros Hf.
  - by exists [].
  - destruct (Hf x) as [y Hy]; [by left|].
    destruct IH as (k & Hk & Hlen); [intros x' Hx'; apply Hf; by right|].
    exists (y :: k). split; [|by simpl; rewrite Hlen].
    cbn. rewrite Hy. simpl. by rewrite Hk.
Qed.

Lemma foldl_max2_elem (s : score) (rest : list score) :
  foldl max2 s rest ∈ s :: rest.
Proof.
  revert s. induction rest as [|x rest IH]; intros s; simpl; [by left|].
  specialize (IH (max2 s x)). apply elem_of_cons in IH as [->|IH].
  - unfold max2. destruct (ltb s x); [right; by left|by left].
  - by do 2 right.
Qed.

Lemma foldl_min2_elem (s : score) (rest : list score) :
  foldl min2 s rest ∈ s :: rest.
Proof.
  revert s. induction rest as [|x rest IH]; intros s; simpl; [by left|].
  specialize (IH (min2 s x)). apply elem_of_cons in IH as [->|IH].
  - unfold min2. destruct (ltb x s); [right; by left|by left].
  - by do 2 right.
Qed.

(** [max] and [min] of a list that is not empty return one of its
    elements. *)
Definition picks (best : list score → result score) : Prop :=
  ∀ scores, scores ≠ [] → ∃ b, best scores = Ok b ∧ b ∈ scores.

Lemma py_max_picks : picks py_max.
Proof. intros [|s rest] Hne; [done|]. eexists. split; [done|]. apply foldl_max2_elem. Qed.

Lemma py_min_picks : picks py_min.
Proof. intros [|s rest] Hne; [done|]. eexists. split; [done|]. apply foldl_min2_elem. Qed.

Lemma best_actions_valid (scores : list score) (best_score : score) :
  best_score ∈ scores →
  best_actions scores best_score ≠ []
  ∧ ∀ x, x ∈ best_actions scores best_score → (x < length scores)%nat.
Proof.
  intros Hin. unfold best_actions. split.
  - apply list_elem_of_lookup in Hin as [i Hi].
    intros Hnil.
    assert (Hi' : i ∈ filter (fun x => scores !! x = Some best_score)
                       (seq 0 (length scores))).
    { apply list_elem_of_filter. split; [done|].
      apply elem_of_seq. apply lookup_lt_Some in Hi. lia. }
    rewrite Hnil in Hi'. by apply elem_of_nil in Hi'.
  - intros x Hx. apply list_elem_of_filter in Hx as [Hx _].
    by apply lookup_lt_Some in Hx.
Qed.

(** A node of the game tree returns when the calls it makes do. *)
Lemma minimax_node_returns (agent_id : nat) (best : list score → result score)
    (recurse : Gamestate.t → result (score * Move.t)) (g : Gamestate.t) :
  agent_id = 0%nat ∨ agent_id = 1%nat →
  picks best →
  (∀ g', playable g' → ∃ r, recurse g' = Ok r) →
  playable g →
  ∃ r, minimax_node evaluate random_choice agent_id best recurse g = Ok r.
Proof.
  intros Hid Hbest Hrec Hg. unfold minimax_node.
  destruct (loss_or_win_playable g Hg) as (b & -> & Hb). simpl.
  destruct b; [by eexists|].
  assert (Hagent : ∃ v, Gamestate.agents g !! agent_id = Some (Some v)).
  { destruct Hid as [-> | ->]; [by apply Hb|]. apply Hg. }
  destruct Hagent as [vector Hvector].
  destruct (legal_moves_playable g agent_id vector Hg Hvector)
    as (moves & -> & Hne & Hfree). simpl.
  destruct (mapM_returns
              (fun x => g' ← Gamestate.successor g agent_id (Some x);
                        r ← recurse g'; Ok r.1) (elements moves))
    as (scores & -> & Hlen).
  { intros move Hmove.
    destruct (successor_playable g agent_id move vector Hg Hvector (Hfree _ Hmove))
      as (g' & -> & Hg'). simpl.
    destruct (Hrec g' Hg') as [r ->]. simpl. by eexists. }
  simpl. destruct (Hbest scores) as (best_score & -> & Hin).
  { intros ->. simpl in Hlen. by destruct (elements moves). }
  simpl. destruct (best_actions_valid scores best_score Hin) as [Hsome Hvalid].
  pose proof (Hvalid _ (random_choice_elem _ Hsome)) as Hlt.
  destruct (lookup_lt_is_Some_2 (elements moves)
              (random_choice (best_actions scores best_score))) as [a Ha]; [lia|].
  unfold nat_get. rewrite Ha. simpl. by eexists.
Qed.

(** [minimax] returns in every playable world, at every depth. *)
Lemma minimax_returns (depth : nat) (maximizer : bool) (g : Gamestate.t) :
  playable g → ∃ r, minimax evaluate random_choice g depth maximizer = Ok r.
Proof.
  revert maximizer g. induction depth as [|depth IH]; intros maximizer g Hg.
  - by eexists.
  - cbn [minimax].
    assert (Hmin : ∀ g', playable g' →
      ∃ r, minimax_node evaluate random_choice 1 py_min
             (fun g => minimax evaluate random_choice g depth true) g' = Ok r).
    { intros g' Hg'. apply minimax_node_returns; auto using py_min_picks. }
    destruct maximizer; [|by apply Hmin].
    apply minimax_node_returns; auto using py_max_picks.
Qed.

End Returns.

(** C1: for every gamestate [s], depth [d] and evaluation function, the
    score of [alpha_beta(s, d, True, -inf, inf)] is the score of
    [minimax(s, d, True)]; the moves may differ. Whenever [minimax] returns
    a score, [alpha_beta] returns the same score; and in a playable world,
    with a [random.choice] that picks from its list, both return. *)
Theorem alpha_beta_minimax_score (evaluate : Gamestate.t → Ass4.score)
    (random_choice : list nat → nat) (s : Gamestate.t) (d : nat) :
  (∀ v m, Ass4.minimax evaluate random_choice s d true = Ok (v, m) →
     ∃ m', Ass4.alpha_beta evaluate s d true Ass4.NegInf Ass4.PosInf = Ok (v, m'))
  ∧ (playable s → (∀ l, l ≠ [] → random_choice l ∈ l) →
     ∃ v m m',
       Ass4.minimax evaluate random_choice s d true = Ok (v, m)
       ∧ Ass4.alpha_beta evaluate s d true Ass4.NegInf Ass4.PosInf = Ok (v, m')).
Proof.
  split.
  - intros v m. apply alpha_beta_agrees.
  - intros Hs Hchoice.
    destruct (minimax_returns evaluate random_choice Hchoice d true s Hs)
      as [[v m] Hmm].
    destruct (alpha_beta_agrees evaluate random_choice s d v m Hmm) as [m' Hab].
    by exists v, m, m'.
Qed.

Lemma arena_playable : playable arena_world.
Proof.
  unfold playable, arena_world. simpl.
  split; [unfold Array.rectangular; simpl; repeat constructor|].
  repeat (split; [done|]).
  split; [|split; [|by eauto]];
    repeat constructor; unfold on_floor, is_wall; vm_compute; discriminate.
Qed.

Lemma alpha_beta_minimax_score_witness :
  (∃ m', Ass4.alpha_beta Ass4.score_evaluate arena_world 2 true
           Ass4.NegInf Ass4.PosInf = Ok (Ass4.Num (-2), m'))
  ∧ ∃ v m m',
      Ass4.minimax Ass4.score_evaluate (fun l => default 0%nat (head l))
        arena_world 2 true = Ok (v, m)
      ∧ Ass4.alpha_beta Ass4.score_evaluate arena_world 2 true
          Ass4.NegInf Ass4.PosInf = Ok (v, m').
Proof.
  destruct (alpha_beta_minimax_score Ass4.score_evaluate
              (fun l => default 0%nat (head l)) arena_world 2) as [Hsame Hboth].
  split.
  - apply (Hsame (Ass4.Num (-2)) Move.stop). vm_compute. reflexivity.
  - apply Hboth.
    + exact arena_playable.
    + intros [|x l] Hl; [done|]. simpl. by left.
Defined.

(** ** What a method leaves alone *)

Module Frame.
Import Store.

Lemma bind_run {A B} (c : H A) (f : A → H B) (h : heap) :
  (c ≫= f) h = match c h with
               | (Ok a, h') => f a h'
               | (Raise e, h') => (Raise e, h')
               end.
Proof. reflexivity. Qed.

(** *** Invariants of the store

    [inv I Q c]: the code [c] keeps the invariant [I] of the store, also
    when it raises, and what it returns satisfies [Q]. *)
Section Invariant.
Variable I : heap → Prop.

Definition inv {A} (Q : A → Prop) (c : H A) : Prop :=
  ∀ h, I h → I (c h).2 ∧ ∀ a, (c h).1 = Ok a → Q a.

Lemma inv_ret {A} (Q : A → Prop) (a : A) : Q a → inv Q (mret a).
Proof. intros Ha h Hh. split; [done|]. intros a' [= <-]. done. Qed.

Lemma inv_raise {A} (Q : A → Prop) (e : exn) : inv Q (raise e).
Proof. intros h Hh. split; [done|]. intros a' [=]. Qed.

Lemma inv_lift {A} (Q : A → Prop) (r : result A) :
  (∀ a, r = Ok a → Q a) → inv Q (lift r).
Proof. intros Hr h Hh. split; [done|]. intros a Ha. by apply Hr. Qed.

Lemma inv_bind {A B} (P : A → Prop) (Q : B → Prop) (c : H A) (f : A → H B) :
  inv P c → (∀ a, P a → inv Q (f a)) → inv Q (c ≫= f).
Proof.
  intros Hc Hf h Hh. rewrite bind_run.
  destruct (Hc h Hh) as [Hi Ha]. destruct (c h) as [[a|e] h']; simpl in *.
  - apply Hf; auto.
  - split; [done|]. intros b [=].
Qed.

Lemma inv_weaken {A} (P Q : A → Prop) (c : H A) :
  inv P c → (∀ a, P a → Q a) → inv Q c.
Proof. intros Hc HPQ h Hh. destruct (Hc h Hh). split; auto. Qed.

Lemma inv_mapM {A B} (P : A → Prop) (Q : B → Prop) (f : A → H B) (l : list A) :
  Forall P l → (∀ x, P x → inv Q (f x)) → inv (Forall Q) (mapM f l).
Proof.
  intros Hl Hf. induction Hl as [|x l Hx Hl IH]; simpl.
  - by apply inv_ret.
  - eapply inv_bind; [by apply Hf|]. intros y Hy.
    eapply inv_bind; [exact IH|]. intros k Hk.
    apply inv_ret. by constructor.
Qed.

Lemma inv_for_ {A B} (P : A → Prop) (Q : B → Prop) (body : B → A → H B)
    (l : list A) (b : B) :
  Forall P l → Q b → (∀ b x, Q b → P x → inv Q (body b x)) →
  inv Q (for_ l b body).
Proof.
  intros Hl Hb Hf. revert b Hb. induction Hl as [|x l Hx Hl IH]; intros b Hb; simpl.
  - by apply inv_ret.
  - eapply inv_bind; [by apply Hf|]. intros b' Hb'. by apply IH.
Qed.
End Invariant.

Lemma Forall_True {A} (l : list A) : Forall (fun _ => True) l.
Proof. by apply Forall_forall. Qed.

(** *** Code that writes nothing *)

Definition readonly {A} (c : H A) : Prop := ∀ h, (c h).2 = h.

Lemma readonly_keeps {A} (I : heap → Prop) (c : H A) :
  readonly c → inv I (fun _ => True) c.
Proof. intros Hc h Hh. rewrite Hc. done. Qed.

Lemma readonly_ret {A} (a : A) : readonly (mret a).
Proof. by intros h. Qed.
Lemma readonly_raise {A} (e : exn) : readonly (raise e : H A).
Proof. by intros h. Qed.
Lemma readonly_lift {A} (r : result A) : readonly (lift r).
Proof. by intros h. Qed.
Lemma readonly_load (l : loc) : readonly (load l).
Proof. intros h. unfold load. by destruct (h !! l). Qed.
Lemma readonly_bind {A B} (c : H A) (f : A → H B) :
  readonly c → (∀ a, readonly (f a)) → readonly (c ≫= f).
Proof.
  intros Hc Hf h. rewrite bind_run. specialize (Hc h).
  destruct (c h) as [[a|e] h']; simpl in *; subst; [apply Hf|done].
Qed.
Lemma readonly_for_ {A B} (body : B → A → H B) (l : list A) (b : B) :
  (∀ b x, readonly (body b x)) → readonly (for_ l b body).
Proof.
  intros Hf. revert b. induction l as [|x l IH]; intros b; simpl.
  - apply readonly_ret.
  - apply readonly_bind; auto.
Qed.
Lemma readonly_mapM {A B} (f : A → H B) (l : list A) :
  (∀ x, readonly (f x)) → readonly (mapM f l).
Proof.
  intros Hf. induction l as [|x l IH]; simpl.
  - apply readonly_ret.
  - apply readonly_bind; [done|]. intros y.
    apply readonly_bind; [done|]. intros k. apply readonly_ret.
Qed.

Create HintDb readonly.
#[local] Hint Resolve readonly_raise readonly_lift readonly_load : readonly.

Ltac readonly_step :=
  match goal with
  | |- readonly (mret _) => apply readonly_ret
  | |- readonly (_ ≫= _) => apply readonly_bind; [ | intros ]
  | |- readonly (for_ _ _ _) => apply readonly_for_; intros
  | |- readonly (mapM _ _) => apply readonly_mapM; intros
  | |- readonly (match ?x with _ => _ end) => destruct x
  | |- readonly _ => solve [auto with readonly]
  end.
Ltac readonly_solve := repeat readonly_step.

Lemma readonly_deref v : readonly (deref v).
Proof. unfold deref. readonly_solve. Qed.
Lemma readonly_truthy v : readonly (truthy v).
Proof. unfold truthy. readonly_solve. Qed.
Lemma readonly_load_list l : readonly (load_list l).
Proof. unfold load_list. readonly_solve. Qed.
#[local] Hint Resolve readonly_deref readonly_truthy readonly_load_list : readonly.
Lemma readonly_list_get l i : readonly (list_get l i).
Proof. unfold list_get. readonly_solve. Qed.
Lemma readonly_list_get_id l i : readonly (list_get_id l i).
Proof. unfold list_get_id. readonly_solve. Qed.
Lemma readonly_load_dict d : readonly (load_dict d).
Proof. unfold load_dict. readonly_solve. Qed.
#[local] Hint Resolve readonly_list_get readonly_list_get_id readonly_load_dict
  : readonly.
Lemma readonly_dict_get d k : readonly (dict_get d k).
Proof. unfold dict_get. readonly_solve. Qed.
Lemma readonly_fields self : readonly (Array.fields self).
Proof. unfold Array.fields. readonly_solve. Qed.
#[local] Hint Resolve readonly_dict_get readonly_fields : readonly.
Lemma readonly_column a x : readonly (Array.column a x).
Proof. unfold Array.column. readonly_solve. Qed.
#[local] Hint Resolve readonly_column : readonly.
Lemma readonly_contains self x y : readonly (Array.contains self x y).
Proof. unfold Array.contains. readonly_solve. Qed.
Lemma readonly_shape self : readonly (Array.shape self).
Proof. unfold Array.shape. readonly_solve. Qed.
#[local] Hint Resolve readonly_contains readonly_shape : readonly.
Lemma readonly_getitem self x y : readonly (Array.getitem self x y).
Proof. unfold Array.getitem. readonly_solve. Qed.
#[local] Hint Resolve readonly_getitem : readonly.
Lemma readonly_get self : readonly (Gamestate.get self).
Proof. unfold Gamestate.get. readonly_solve. Qed.
Lemma readonly_vector_of v : readonly (Gamestate.vector_of v).
Proof. unfold Gamestate.vector_of. readonly_solve. Qed.
Lemma readonly_at_ i v : readonly (Gamestate.at_ i v).
Proof. unfold Gamestate.at_. readonly_solve. Qed.
#[local] Hint Resolve readonly_get readonly_vector_of readonly_at_ : readonly.
Lemma readonly_pacman self : readonly (Gamestate.pacman self).
Proof. unfold Gamestate.pacman. readonly_solve. Qed.
#[local] Hint Resolve readonly_pacman : readonly.

Lemma readonly_standard_pathcost path start walls cost_fn :
  readonly (Search.standard_pathcost path start walls cost_fn).
Proof.
  unfold Search.standard_pathcost. generalize 0 as cost.
  revert start. induction path as [|direction path IH]; intros start cost; simpl.
  - apply readonly_ret.
  - readonly_solve.
Qed.
#[local] Hint Resolve readonly_standard_pathcost : readonly.

Lemma readonly_position_get self : readonly (Search.Position.get self).
Proof. unfold Search.Position.get. readonly_solve. Qed.
Lemma readonly_alldot_get self : readonly (Search.AllDot.get self).
Proof. unfold Search.AllDot.get. readonly_solve. Qed.
#[local] Hint Resolve readonly_position_get readonly_alldot_get : readonly.

Lemma readonly_position_successors self state :
  readonly (Search.Position.successors self state).
Proof. unfold Search.Position.successors. readonly_solve. Qed.
Lemma readonly_position_pathcost self path :
  readonly (Search.Position.pathcost self path).
Proof. unfold Search.Position.pathcost. readonly_solve. Qed.
Lemma readonly_alldot_successors self state :
  readonly (Search.AllDot.successors self state).
Proof. unfold Search.AllDot.successors. readonly_solve. Qed.
Lemma readonly_alldot_pathcost self path :
  readonly (Search.AllDot.pathcost self path).
Proof. unfold Search.AllDot.pathcost. readonly_solve. Qed.

(** *** Code that writes to memo caches only *)

Lemma unchanged_refl h : unchanged h h.
Proof. by intros l o. Qed.

Lemma unchanged_but_caches_refl h : unchanged_but_caches h h.
Proof. intros l o Hl. destruct o; eauto. Qed.

Lemma unchanged_but_caches_trans h1 h2 h3 :
  unchanged_but_caches h1 h2 → unchanged_but_caches h2 h3 →
  unchanged_but_caches h1 h3.
Proof.
  intros H12 H23 l o Hl. specialize (H12 l o Hl).
  destruct o; try (by apply (H23 l _ H12)).
  destruct H12 as [es H12]. apply (H23 l _ H12).
Qed.

Lemma unchanged_caches h h' : unchanged h h' → unchanged_but_caches h h'.
Proof. intros Hu l o Hl. apply Hu in Hl. destruct o; eauto. Qed.

Definition caches_only {A} (c : H A) : Prop :=
  ∀ h0, inv (unchanged_but_caches h0) (fun _ => True) c.

Lemma caches_only_frame {A} (c : H A) h :
  caches_only c → unchanged_but_caches h (c h).2.
Proof. intros Hc. apply (Hc h h), unchanged_but_caches_refl. Qed.

Lemma caches_only_readonly {A} (c : H A) : readonly c → caches_only c.
Proof. intros Hc h0. by apply readonly_keeps. Qed.

Lemma caches_only_ret {A} (a : A) : caches_only (mret a).
Proof. intros h0. by apply inv_ret. Qed.
Lemma caches_only_bind {A B} (c : H A) (f : A → H B) :
  caches_only c → (∀ a, caches_only (f a)) → caches_only (c ≫= f).
Proof. intros Hc Hf h0. eapply inv_bind; [apply Hc|]. intros a _. apply Hf. Qed.
Lemma caches_only_mapM {A B} (f : A → H B) (l : list A) :
  (∀ x, caches_only (f x)) → caches_only (mapM f l).
Proof.
  intros Hf h0. eapply inv_weaken.
  - apply (inv_mapM _ (fun _ => True) (fun _ => True)); [apply Forall_True|].
    intros x _. apply Hf.
  - done.
Qed.
Lemma caches_only_for_ {A B} (body : B → A → H B) (l : list A) (b : B) :
  (∀ b x, caches_only (body b x)) → caches_only (for_ l b body).
Proof.
  intros Hf h0.
  apply (inv_for_ _ (fun _ => True)); [apply Forall_True|done|].
  intros b' x _ _. apply Hf.
Qed.

Lemma fresh_unused (h : heap) : h !! fresh (dom h) = None.
Proof. apply not_elem_of_dom, is_fresh. Qed.

Lemma caches_only_alloc o : caches_only (alloc o).
Proof.
  intros h0 h Hh. split; [|done]. unfold alloc; simpl.
  eapply unchanged_but_caches_trans; [exact Hh|].
  apply unchanged_caches. intros l o' Hl.
  rewrite lookup_insert_ne; [done|]. intros <-.
  by rewrite fresh_unused in Hl.
Qed.

Lemma caches_only_store_dict d entries :
  caches_only (_ ← load_dict d; store d (ODict entries)).
Proof.
  intros h0 h Hh. split; [|done].
  rewrite bind_run. unfold load_dict. rewrite bind_run. unfold load.
  destruct (h !! d) as [o|] eqn:Hd; simpl; [|done].
  destruct o; simpl; try done.
  eapply unchanged_but_caches_trans; [exact Hh|].
  intros l o Hl. destruct (decide (l = d)) as [->|Hne].
  - rewrite lookup_insert_eq. rewrite Hd in Hl. injection Hl as <-. eauto.
  - rewrite lookup_insert_ne; [|done]. destruct o; eauto.
Qed.

Lemma caches_only_dict_clear d : caches_only (dict_clear d).
Proof. apply caches_only_store_dict. Qed.

Lemma caches_only_dict_put d k v : caches_only (dict_put d k v).
Proof.
  intros h0 h Hh. split; [|done].
  unfold dict_put. rewrite bind_run. unfold load_dict. rewrite bind_run. unfold load.
  destruct (h !! d) as [o|] eqn:Hd; simpl; [|done].
  destruct o; simpl; try done.
  eapply unchanged_but_caches_trans; [exact Hh|].
  intros l o Hl. destruct (decide (l = d)) as [->|Hne].
  - rewrite lookup_insert_eq. rewrite Hd in Hl. injection Hl as <-. eauto.
  - rewrite lookup_insert_ne; [|done]. destruct o; eauto.
Qed.

Create HintDb caches.
#[local] Hint Resolve caches_only_alloc caches_only_dict_clear caches_only_dict_put
  : caches.
#[local] Hint Extern 5 (caches_only _) =>
  (apply caches_only_readonly; solve [auto with readonly]) : caches.

Ltac caches_step :=
  match goal with
  | |- caches_only (mret _) => apply caches_only_ret
  | |- caches_only (_ ≫= _) => apply caches_only_bind; [ | intros ]
  | |- caches_only (for_ _ _ _) => apply caches_only_for_; intros
  | |- caches_only (mapM _ _) => apply caches_only_mapM; intros
  | |- caches_only (match ?x with _ => _ end) => destruct x
  | |- caches_only _ => solve [auto with caches]
  end.
Ltac caches_solve := repeat caches_step.

Lemma caches_only_list_copy l : caches_only (list_copy l).
Proof. unfold list_copy. caches_solve. Qed.
#[local] Hint Resolve caches_only_list_copy : caches.
Lemma caches_only_copy_columns lst : caches_only (Array.copy_columns lst).
Proof. unfold Array.copy_columns. caches_solve. Qed.
#[local] Hint Resolve caches_only_copy_columns : caches.
Lemma caches_only_indicator_init lst value :
  caches_only (Array.indicator_init lst value).
Proof. unfold Array.indicator_init. caches_solve. Qed.
#[local] Hint Resolve caches_only_indicator_init : caches.
Lemma caches_only_indicate self value : caches_only (Array.indicate self value).
Proof. unfold Array.indicate. caches_solve. Qed.
#[local] Hint Resolve caches_only_indicate : caches.
Lemma caches_only_walls self : caches_only (Gamestate.walls self).
Proof. unfold Gamestate.walls. caches_solve. Qed.
#[local] Hint Resolve caches_only_walls : caches.
Lemma caches_only_legal_moves_vector self vector :
  caches_only (Gamestate.legal_moves_vector self vector).
Proof. unfold Gamestate.legal_moves_vector. caches_solve. Qed.

(** *** The objects that make up a world *)

(** A value that is not a reference *)
Definition immediate (v : val) : Prop :=
  match v with
  | VRef _ => False
  | _ => True
  end.


Lemma read_list_Some {A} (f : val → option A) (h : heap) (l : loc) (xs : list A) :
  read_list f h l = Some xs →
  ∃ items, h !! l = Some (OList items) ∧ mapM f items = Some xs.
Proof.
  unfold read_list. destruct (h !! l) as [[]|]; try done. eauto.
Qed.

Lemma mapM_Forall {A} (P : val → Prop) (f : val → option A) items xs :
  (∀ v x, f v = Some x → P v) → mapM f items = Some xs → Forall P items.
Proof.
  intros Hf Hm. apply mapM_Some in Hm.
  induction Hm; constructor; eauto.
Qed.

Lemma read_layout_immediate v o : read_layout v = Some o → immediate v.
Proof. by destruct v. Qed.
Lemma read_agent_immediate v o : read_agent v = Some o → immediate v.
Proof. by destruct v. Qed.
Lemma read_move_immediate v o : read_move v = Some o → immediate v.
Proof. by destruct v. Qed.
Lemma read_int_immediate v o : read_int v = Some o → immediate v.
Proof. by destruct v. Qed.

Lemma read_column_Some h c cells :
  read_column h c = Some cells →
  ∃ l items, c = VRef l ∧ h !! l = Some (OList items) ∧ Forall immediate items.
Proof.
  destruct c; try done. simpl. intros (items & Hl & Hm)%read_list_Some.
  eexists _, _. repeat split; [done|].
  eapply mapM_Forall; [|done]. apply read_layout_immediate.
Qed.

(** The objects of a gamestate whose world can be read *)
Lemma world_Some h self w :
  world h self = Some w →
  ∃ s a st f t sc tk arr ci cl columns ia ist ifc it,
    h !! self = Some (OGamestate s a st f t sc tk)
    ∧ h !! s = Some (OArray arr ci cl)
    ∧ h !! arr = Some (OList columns)
    ∧ Forall (fun c => ∃ l items, c = VRef l ∧ h !! l = Some (OList items)
                                   ∧ Forall immediate items) columns
    ∧ (h !! a = Some (OList ia) ∧ Forall immediate ia)
    ∧ (h !! st = Some (OList ist) ∧ Forall immediate ist)
    ∧ (h !! f = Some (OList ifc) ∧ Forall immediate ifc)
    ∧ (h !! t = Some (OList it) ∧ Forall immediate it).
Proof.
  unfold world. destruct (h !! self) as [[]|] eqn:Hself; try done.
  intros Hw.
  destruct (read_array h _statics) as [grid|] eqn:Hg; [|done].
  destruct (read_list read_agent h agents) as [xa|] eqn:Hxa; [|done].
  destruct (read_list read_agent h starts) as [xs|] eqn:Hxs; [|done].
  destruct (read_list read_move h facings) as [xf|] eqn:Hxf; [|done].
  destruct (read_list read_int h _timers) as [xt|] eqn:Hxt; [|done].
  unfold read_array in Hg.
  destruct (h !! _statics) as [[]|] eqn:Hst; try done.
  apply read_list_Some in Hg as (columns & Harr & Hcols).
  apply read_list_Some in Hxa as (ia & Ha & Hia).
  apply read_list_Some in Hxs as (ist & Hs & His).
  apply read_list_Some in Hxf as (ifc & Hf & Hif).
  apply read_list_Some in Hxt as (it & Ht & Hit).
  do 15 eexists. repeat split; try done.
  - eapply mapM_Forall; [|exact Hcols]. intros v x Hv. by eapply read_column_Some.
  - eapply mapM_Forall; [|exact Hia]. apply read_agent_immediate.
  - eapply mapM_Forall; [|exact His]. apply read_agent_immediate.
  - eapply mapM_Forall; [|exact Hif]. apply read_move_immediate.
  - eapply mapM_Forall; [|exact Hit]. apply read_int_immediate.
Qed.

(** *** Code that writes to new objects only

    Relative to a store [h0], a location is new when [h0] holds nothing
    there. The invariant [good] of the stores that a method runs through:
    the objects of [h0] are as they were, and a new object refers to new
    objects only. *)
Section Fresh.
Variable h0 : heap.

Definition new (l : loc) : Prop := h0 !! l = None.

Definition val_new (v : val) : Prop :=
  match v with
  | VRef l => new l
  | _ => True
  end.

Definition obj_new (o : obj) : Prop :=
  match o with
  | OList items => Forall val_new items
  | ODict entries => Forall (fun e => val_new e.1 ∧ val_new e.2) entries
  | OArray a ci cl => new a ∧ new ci ∧ new cl
  | OIndicatorArray a ci cl lst value =>
      new a ∧ new ci ∧ new cl ∧ new lst ∧ val_new value
  | OGamestate s a st f t _ _ => new s ∧ new a ∧ new st ∧ new f ∧ new t
  | OPosition _ order start _ _ walls | OAllDot _ order start _ walls =>
      new order ∧ new walls ∧ val_new start
  end.

Lemma val_new_refs (v : val) : val_new v ↔ Forall new (val_refs v).
Proof.
  destruct v; simpl; try (by split; [constructor|]).
  split; [by repeat constructor|]. by intros [? _]%Forall_cons.
Qed.

(** A new object refers to new objects only. *)
Lemma obj_new_refs (o : obj) : obj_new o ↔ Forall new (refs o).
Proof.
  destruct o; simpl.
  - rewrite Forall_bind. apply Forall_iff. intros v. apply val_new_refs.
  - rewrite Forall_bind. apply Forall_iff. intros [k v]. simpl.
    by rewrite Forall_app, !val_new_refs.
  - rewrite !Forall_cons, Forall_nil. tauto.
  - rewrite !Forall_cons, val_new_refs. tauto.
  - rewrite !Forall_cons, Forall_nil. tauto.
  - rewrite !Forall_cons, val_new_refs. tauto.
  - rewrite !Forall_cons, val_new_refs. tauto.
Qed.

Definition good (h : heap) : Prop :=
  unchanged h0 h ∧ ∀ l o, new l → h !! l = Some o → obj_new o.

Lemma good_initial : good h0.
Proof.
  split; [apply unchanged_refl|]. intros l o Hl Ho.
  unfold new in Hl. congruence.
Qed.

(** What a result of each type has to satisfy *)
Class Post (A : Type) : Type := post : A → Prop.
#[local] Instance post_loc : Post loc := new.
#[local] Instance post_val : Post val := val_new.
#[local] Instance post_obj : Post obj := obj_new.
#[local] Instance post_unit : Post unit := fun _ => True.
#[local] Instance post_bool : Post bool := fun _ => True.
#[local] Instance post_Z : Post Z := fun _ => True.
#[local] Instance post_Vector : Post Vector := fun _ => True.
#[local] Instance post_moves : Post (gset Move.t) := fun _ => True.
#[local] Instance post_prod {A B} `{Post A} `{Post B} : Post (A * B) :=
  fun p => post p.1 ∧ post p.2.
#[local] Instance post_list {A} `{Post A} : Post (list A) := Forall post.
#[local] Instance post_option {A} `{Post A} : Post (option A) :=
  fun o => ∀ a, o = Some a → post a.
#[local] Instance post_fields : Post Gamestate.fields := fun f =>
  new (Gamestate._statics f) ∧ new (Gamestate.agents f)
  ∧ new (Gamestate.starts f) ∧ new (Gamestate.facings f)
  ∧ new (Gamestate._timers f).

Definition safe {A} `{Post A} (c : H A) : Prop := inv good post c.

Ltac unpost :=
  unfold post, post_loc, post_val, post_obj, post_unit, post_bool, post_Z,
    post_Vector, post_moves, post_prod, post_list, post_option, post_fields.
Ltac unpost_in H :=
  unfold post, post_loc, post_val, post_obj, post_unit, post_bool, post_Z,
    post_Vector, post_moves, post_prod, post_list, post_option, post_fields in H.
Ltac post_hyps :=
  repeat match goal with
         | H : post _ |- _ => unpost_in H; simpl in H
         | H : _ ∧ _ |- _ => destruct H
         | H : ∀ a, Some ?v = Some a → _ |- _ => specialize (H v eq_refl)
         | H : ∀ a, None = Some a → _ |- _ => clear H
         end.
Ltac post_goal :=
  repeat (progress (unpost; simpl) || match goal with |- _ ∧ _ => split end);
  first [ assumption | exact Logic.I
        | match goal with |- Forall _ [] => constructor end | idtac ].

Lemma safe_ret {A} `{Post A} (a : A) : post a → safe (mret a).
Proof. apply inv_ret. Qed.
Lemma safe_raise {A} `{Post A} (e : exn) : safe (raise e : H A).
Proof. apply inv_raise. Qed.
Lemma safe_lift {A} `{Post A} (r : result A) :
  (∀ a, r = Ok a → post a) → safe (lift r).
Proof. apply inv_lift. Qed.
Lemma safe_bind {A B} `{Post A} `{Post B} (c : H A) (f : A → H B) :
  safe c → (∀ a, post a → safe (f a)) → safe (c ≫= f).
Proof. apply inv_bind. Qed.
Lemma safe_bind_with {A B} `{Post B} (P : A → Prop) (c : H A) (f : A → H B) :
  inv good P c → (∀ a, P a → safe (f a)) → safe (c ≫= f).
Proof. apply inv_bind. Qed.
Lemma safe_readonly {A} (c : H A) :
  readonly c → @safe A (fun _ => True) c.
Proof. apply readonly_keeps. Qed.
Lemma safe_mapM {A B} `{Post B} (P : A → Prop) (f : A → H B) (l : list A) :
  Forall P l → (∀ x, P x → safe (f x)) → safe (mapM f l).
Proof. apply inv_mapM. Qed.
Lemma safe_for_ {A B} `{Post B} (P : A → Prop) (body : B → A → H B)
    (l : list A) (b : B) :
  Forall P l → post b → (∀ b x, post b → P x → safe (body b x)) →
  safe (for_ l b body).
Proof. apply inv_for_. Qed.

Lemma new_fresh (h : heap) : good h → new (fresh (dom h)).
Proof.
  intros [Hu _]. unfold new.
  destruct (h0 !! fresh (dom h)) as [o|] eqn:Ho; [|done].
  apply Hu in Ho. by rewrite fresh_unused in Ho.
Qed.

Lemma good_insert (h : heap) (l : loc) (o : obj) :
  good h → new l → obj_new o → good (<[l := o]> h).
Proof.
  intros [Hu Hc] Hl Ho. split.
  - intros l' o' Hl'. rewrite lookup_insert_ne; [by apply Hu|].
    intros <-. unfold new in Hl. congruence.
  - intros l' o' Hn. destruct (decide (l' = l)) as [->|Hne].
    + rewrite lookup_insert_eq. by intros [= <-].
    + rewrite lookup_insert_ne; [|done]. by apply Hc.
Qed.

Lemma safe_alloc (o : obj) : obj_new o → safe (alloc o).
Proof.
  intros Ho h Hh. unfold alloc; simpl. split.
  - apply good_insert; [done|by apply new_fresh|done].
  - intros l [= <-]. by apply new_fresh.
Qed.

Lemma safe_load (l : loc) : new l → safe (load l).
Proof.
  intros Hl h Hh. unfold load.
  destruct (h !! l) as [o|] eqn:Ho; simpl; (split; [done|]); [|done].
  intros o' [= <-]. destruct Hh as [_ Hc]. by apply (Hc l).
Qed.

Lemma safe_store (l : loc) (o : obj) : new l → obj_new o → safe (store l o).
Proof.
  intros Hl Ho h Hh. unfold store; simpl. split; [|done].
  by apply good_insert.
Qed.

(** An object of [h0] is read as it was. *)
Lemma inv_load_old (l : loc) (o : obj) :
  h0 !! l = Some o → inv good (fun o' => o' = o) (load l).
Proof.
  intros Hl h Hh. unfold load. destruct Hh as [Hu Hc].
  rewrite (Hu l o Hl). simpl. split; [done|]. by intros o' [= <-].
Qed.

Lemma py_get_elem {A} (l : list A) (i : Z) (a : A) : py_get l i = Ok a → a ∈ l.
Proof.
  unfold py_get. destruct (py_pos l i) as [n|]; simpl; [|done].
  destruct (l !! n) eqn:Hn; [|done]. intros [= <-].
  by apply list_elem_of_lookup_2 in Hn.
Qed.
Lemma nat_get_elem {A} (l : list A) (i : nat) (a : A) : nat_get l i = Ok a → a ∈ l.
Proof.
  unfold nat_get. destruct (l !! i) eqn:Hn; [|done]. intros [= <-].
  by apply list_elem_of_lookup_2 in Hn.
Qed.
Lemma py_set_Forall {A} (P : A → Prop) (l l' : list A) (i : Z) (a : A) :
  Forall P l → P a → py_set l i a = Ok l' → Forall P l'.
Proof.
  unfold py_set. destruct (py_pos l i) as [n|]; simpl; [|done].
  intros Hl Ha [= <-]. by apply Forall_insert.
Qed.
Lemma nat_set_Forall {A} (P : A → Prop) (l l' : list A) (i : nat) (a : A) :
  Forall P l → P a → nat_set l i a = Ok l' → Forall P l'.
Proof.
  unfold nat_set. destruct (decide _); [|done].
  intros Hl Ha [= <-]. by apply Forall_insert.
Qed.

Create HintDb safe.
#[local] Hint Resolve safe_raise safe_alloc safe_load safe_store : safe.
#[local] Hint Extern 1 (val_new _) => simpl; trivial : safe.
#[local] Hint Extern 1 (obj_new _) => simpl; repeat split; trivial : safe.
#[local] Hint Extern 5 (safe _) =>
  (apply safe_readonly; solve [auto with readonly]) : safe.

Ltac safe_all :=
  first [ assumption | apply Forall_forall; intros ? _; post_goal ].
Ltac safe_step :=
  match goal with
  | |- safe (mret _) => apply safe_ret; post_goal
  | |- safe (_ ≫= _) => apply safe_bind; [ | intros ? ?; post_hyps ]
  | |- safe (for_ _ _ _) =>
      apply (safe_for_ post); [ safe_all | post_goal | intros ? ? ? ?; post_hyps ]
  | |- safe (mapM _ _) =>
      apply (safe_mapM post); [ safe_all | intros ? ?; post_hyps ]
  | |- safe (match ?x with _ => _ end) => destruct x; simpl in *; post_hyps
  | |- safe _ => solve [eauto with safe]
  end.
Ltac safe_solve := repeat safe_step.

Lemma safe_deref v : val_new v → safe (deref v).
Proof. intros Hv. unfold deref. safe_solve. Qed.
Lemma safe_truthy v : safe (truthy v).
Proof. apply safe_readonly, readonly_truthy. Qed.
Lemma safe_load_list l : new l → safe (load_list l).
Proof. intros Hl. unfold load_list. safe_solve. Qed.
#[local] Hint Resolve safe_deref safe_truthy safe_load_list : safe.

Lemma safe_list_copy l : new l → safe (list_copy l).
Proof. intros Hl. unfold list_copy. safe_solve. Qed.
Lemma safe_list_get l i : new l → safe (list_get l i).
Proof.
  intros Hl. unfold list_get. safe_solve.
  apply safe_lift. intros v Hv%py_get_elem.
  eapply Forall_forall in Hv; [exact Hv|done].
Qed.
Lemma safe_list_get_id l i : new l → safe (list_get_id l i).
Proof.
  intros Hl. unfold list_get_id. safe_solve.
  apply safe_lift. intros v Hv%nat_get_elem.
  eapply Forall_forall in Hv; [exact Hv|done].
Qed.
Lemma safe_list_set l i v : new l → val_new v → safe (list_set l i v).
Proof.
  intros Hl Hv. unfold list_set. safe_solve.
  apply safe_lift. intros l' Hl'. by eapply py_set_Forall.
Qed.
Lemma safe_list_set_id l i v : new l → val_new v → safe (list_set_id l i v).
Proof.
  intros Hl Hv. unfold list_set_id. safe_solve.
  apply safe_lift. intros l' Hl'. by eapply nat_set_Forall.
Qed.
Lemma safe_load_dict d : new d → safe (load_dict d).
Proof. intros Hd. unfold load_dict. safe_solve. Qed.
#[local] Hint Resolve safe_list_copy safe_list_get safe_list_get_id safe_list_set
  safe_list_set_id safe_load_dict : safe.

Lemma lookup_entry_new k entries v :
  Forall (fun e : val * val => val_new e.1 ∧ val_new e.2) entries →
  lookup_entry k entries = Some v → val_new v.
Proof.
  induction 1 as [|[k' v'] entries [Hk Hv] Hes IH]; simpl; [done|].
  destruct (decide (k' = k)); [by intros [= <-]|done].
Qed.
Lemma put_entry_new k v entries :
  val_new k → val_new v →
  Forall (fun e : val * val => val_new e.1 ∧ val_new e.2) entries →
  Forall (fun e : val * val => val_new e.1 ∧ val_new e.2) (put_entry k v entries).
Proof.
  intros Hk Hv. induction 1 as [|[k' v'] entries [Hk' Hv'] Hes IH]; simpl.
  - by repeat constructor.
  - destruct (decide (k' = k)); by repeat constructor.
Qed.

Lemma safe_dict_get d k : new d → safe (dict_get d k).
Proof.
  intros Hd. unfold dict_get. safe_solve.
  intros v Hv. by eapply lookup_entry_new.
Qed.
Lemma safe_dict_put d k v : new d → val_new k → val_new v → safe (dict_put d k v).
Proof.
  intros Hd Hk Hv. unfold dict_put. safe_solve.
  apply safe_store; [done|]. by apply put_entry_new.
Qed.
Lemma safe_dict_clear d : new d → safe (dict_clear d).
Proof. intros Hd. unfold dict_clear. safe_solve. Qed.
#[local] Hint Resolve safe_dict_get safe_dict_put safe_dict_clear : safe.

Lemma safe_fields self : new self → safe (Array.fields self).
Proof. intros Hs. unfold Array.fields. safe_solve. Qed.
#[local] Hint Resolve safe_fields : safe.
Lemma safe_copy_columns lst : new lst → safe (Array.copy_columns lst).
Proof. intros Hl. unfold Array.copy_columns. safe_solve. Qed.
#[local] Hint Resolve safe_copy_columns : safe.
Lemma safe_array_init lst : new lst → safe (Array.init lst).
Proof. intros Hl. unfold Array.init. safe_solve. Qed.
#[local] Hint Resolve safe_array_init : safe.
Lemma safe_array_copy self : new self → safe (Array.copy self).
Proof. intros Hl. unfold Array.copy. safe_solve. Qed.
Lemma safe_column a x : new a → safe (Array.column a x).
Proof. intros Hl. unfold Array.column. safe_solve. Qed.
#[local] Hint Resolve safe_array_copy safe_column : safe.
Lemma safe_getitem self x y : new self → safe (Array.getitem self x y).
Proof. intros Hl. unfold Array.getitem. safe_solve. Qed.
#[local] Hint Resolve safe_getitem : safe.
Lemma safe_at_ i v : new i → safe (Gamestate.at_ i v).
Proof. intros Hl. unfold Gamestate.at_. safe_solve. Qed.
#[local] Hint Resolve safe_at_ : safe.
Lemma safe_setitem self x y value :
  new self → val_new value → safe (Array.setitem self x y value).
Proof. intros Hl Hv. unfold Array.setitem. safe_solve. Qed.
Lemma safe_list_ self value : new self → val_new value → safe (Array.list_ self value).
Proof.
  intros Hl Hv. unfold Array.list_. safe_solve.
  destruct (decide _); [|done].
  apply Forall_app. split; [done|]. by repeat constructor.
Qed.
Lemma safe_indicator_init lst value :
  new lst → val_new value → safe (Array.indicator_init lst value).
Proof.
  intros Hl Hv. unfold Array.indicator_init. safe_solve.
  apply safe_alloc. simpl. apply Forall_fmap, Forall_forall. by intros e _.
Qed.
#[local] Hint Resolve safe_setitem safe_list_ safe_indicator_init : safe.
Lemma safe_indicate self value :
  new self → val_new value → safe (Array.indicate self value).
Proof. intros Hl Hv. unfold Array.indicate. safe_solve. Qed.
Lemma safe_indicator_list self : new self → safe (Array.indicator_list self).
Proof. intros Hl. unfold Array.indicator_list. safe_solve. Qed.
#[local] Hint Resolve safe_indicate safe_indicator_list : safe.

Lemma safe_get self : new self → safe (Gamestate.get self).
Proof. intros Hs. unfold Gamestate.get. safe_solve. Qed.
#[local] Hint Resolve safe_get : safe.
Lemma safe_store_fields self f : new self → post f → safe (store self (Gamestate.object f)).
Proof. intros Hs Hf. apply safe_store; [done|]. post_hyps. simpl. auto. Qed.
Lemma safe_add_score self n : new self → safe (Gamestate.add_score self n).
Proof.
  intros Hs. unfold Gamestate.add_score. safe_solve.
Qed.
#[local] Hint Resolve safe_add_score : safe.
Lemma safe_gamestate_init arr : new arr → safe (Gamestate.init arr).
Proof.
  intros Ha. unfold Gamestate.init. safe_solve.
  - apply safe_alloc. simpl. apply Forall_app. by split.
  - apply safe_alloc. simpl. apply Forall_replicate. done.
  - apply safe_alloc. simpl. apply Forall_replicate. done.
Qed.
Lemma safe_walls self : new self → safe (Gamestate.walls self).
Proof. intros Hs. unfold Gamestate.walls. safe_solve. Qed.
Lemma safe_dots self : new self → safe (Gamestate.dots self).
Proof. intros Hs. unfold Gamestate.dots. safe_solve. Qed.
Lemma safe_pellets self : new self → safe (Gamestate.pellets self).
Proof. intros Hs. unfold Gamestate.pellets. safe_solve. Qed.
Lemma safe_pacman self : new self → safe (Gamestate.pacman self).
Proof. intros Hs. unfold Gamestate.pacman. safe_solve. Qed.
#[local] Hint Resolve safe_gamestate_init safe_walls safe_dots safe_pellets
  safe_pacman : safe.
Lemma safe_kill self agent_id : new self → safe (Gamestate.kill self agent_id).
Proof. intros Hs. unfold Gamestate.kill. safe_solve. Qed.
#[local] Hint Resolve safe_kill : safe.
Lemma safe_resolve_encounter self ghost_id :
  new self → safe (Gamestate._resolve_encounter self ghost_id).
Proof. intros Hs. unfold Gamestate._resolve_encounter. safe_solve. Qed.
#[local] Hint Resolve safe_resolve_encounter : safe.

Lemma safe_apply_move self agent_id move :
  new self → safe (Gamestate.apply_move self agent_id move).
Proof.
  intros Hs. unfold Gamestate.apply_move. safe_solve.
  all: apply safe_store; [done|]; simpl.
  all: apply Forall_app; split; [by apply Forall_take|by apply Forall_replicate].
Qed.

(** **** Copying an object of [h0] *)

Lemma immediate_new v : immediate v → val_new v.
Proof. by destruct v. Qed.

Lemma inv_load_list_old l items :
  h0 !! l = Some (OList items) →
  inv good (fun items' => items' = items) (load_list l).
Proof.
  intros Hl. unfold load_list.
  eapply inv_bind; [by apply inv_load_old|]. intros o ->. by apply inv_ret.
Qed.

Lemma safe_list_copy_old l items :
  h0 !! l = Some (OList items) → Forall immediate items → safe (list_copy l).
Proof.
  intros Hl Hi. unfold list_copy.
  eapply safe_bind_with; [by apply inv_load_list_old|]. intros ? ->.
  apply safe_alloc. simpl. eapply Forall_impl; [done|apply immediate_new].
Qed.

Lemma safe_copy_columns_old a columns :
  h0 !! a = Some (OList columns) →
  Forall (fun c => ∃ l items, c = VRef l ∧ h0 !! l = Some (OList items)
                               ∧ Forall immediate items) columns →
  safe (Array.copy_columns a).
Proof.
  intros Ha Hc. unfold Array.copy_columns.
  eapply safe_bind_with; [by apply inv_load_list_old|]. intros ? ->.
  apply safe_bind.
  - eapply safe_mapM; [exact Hc|]. intros c (l & items & -> & Hl & Hi). simpl.
    eapply safe_bind_with; [by apply (inv_ret _ (fun l' => l' = l))|]. intros ? ->.
    apply safe_bind; [by eapply safe_list_copy_old|]. intros c' Hc'.
    by apply safe_ret.
  - intros copies Hcopies. by apply safe_alloc.
Qed.

Lemma safe_array_copy_old s a ci cl columns :
  h0 !! s = Some (OArray a ci cl) →
  h0 !! a = Some (OList columns) →
  Forall (fun c => ∃ l items, c = VRef l ∧ h0 !! l = Some (OList items)
                               ∧ Forall immediate items) columns →
  safe (Array.copy s).
Proof.
  intros Hs Ha Hc. unfold Array.copy.
  eapply safe_bind_with.
  { unfold Array.fields. eapply inv_bind; [by apply inv_load_old|].
    intros o ->. by apply (inv_ret _ (fun p => p = (a, ci, cl))). }
  intros ? ->. apply safe_bind; [by eapply safe_copy_columns_old|].
  intros c Hc'. by apply safe_array_init.
Qed.

Lemma safe_gamestate_copy self w :
  world h0 self = Some w → safe (Gamestate.copy self).
Proof.
  intros (s & a & st & f & t & sc & tk & arr & ci & cl & columns & ia & ist
          & ifc & it & Hself & Hs & Harr & Hcols & [Ha Hia] & [Hst Hist]
          & [Hf Hifc] & [Ht Hit])%world_Some.
  unfold Gamestate.copy.
  repeat lazymatch goal with
         | |- safe (Gamestate.get self ≫= _) => fail
         | |- _ => safe_step
         end.
  eapply safe_bind_with.
  { unfold Gamestate.get. eapply inv_bind; [by apply inv_load_old|].
    intros o ->. by apply (inv_ret _ (fun x => x = Gamestate.mk s a st f t sc tk)). }
  intros ? ->. simpl.
  pose proof (safe_array_copy_old s arr ci cl columns Hs Harr Hcols).
  pose proof (safe_list_copy_old a ia Ha Hia).
  pose proof (safe_list_copy_old st ist Hst Hist).
  pose proof (safe_list_copy_old f ifc Hf Hifc).
  pose proof (safe_list_copy_old t it Ht Hit).
  safe_solve.
Qed.

Lemma safe_successor self agent_id move w :
  world h0 self = Some w → safe (Gamestate.successor self agent_id move).
Proof.
  intros Hw. unfold Gamestate.successor.
  apply safe_bind; [by eapply safe_gamestate_copy|]. intros s Hs.
  apply safe_bind; [by apply safe_apply_move|]. intros _ _.
  by apply safe_ret.
Qed.

End Fresh.

(** *** The frame of [successor] and of [successors] *)

Lemma good_independent h0 h : good h0 h → independent h0 h.
Proof.
  intros [_ Hc] l o Hl Ho l' Hin.
  apply (Hc l o Hl), obj_new_refs in Ho.
  by eapply Forall_forall in Ho.
Qed.

Lemma successor_frame h self agent_id move w :
  world h self = Some w →
  unchanged h (Gamestate.successor self agent_id move h).2
  ∧ independent h (Gamestate.successor self agent_id move h).2
  ∧ ∀ s, (Gamestate.successor self agent_id move h).1 = Ok s → h !! s = None.
Proof.
  intros Hw.
  destruct (safe_successor h self agent_id move w Hw h (good_initial h))
    as [Hg Hs].
  split; [by destruct Hg|]. split; [by apply good_independent|]. exact Hs.
Qed.

Lemma read_list_preserved {A} (f f' : val → option A) h h' l xs :
  unchanged_but_caches h h' →
  (∀ v x, f v = Some x → f' v = Some x) →
  read_list f h l = Some xs → read_list f' h' l = Some xs.
Proof.
  intros Hu Hf (items & Hl & Hm)%read_list_Some.
  apply Hu in Hl. simpl in Hl. unfold read_list. rewrite Hl.
  apply mapM_Some. apply mapM_Some in Hm.
  eapply Forall2_impl; [exact Hm|]. exact Hf.
Qed.

Lemma read_column_preserved h h' c cells :
  unchanged_but_caches h h' →
  read_column h c = Some cells → read_column h' c = Some cells.
Proof.
  intros Hu. destruct c; try done. simpl.
  by apply read_list_preserved.
Qed.

Lemma read_array_preserved h h' s grid :
  unchanged_but_caches h h' →
  read_array h s = Some grid → read_array h' s = Some grid.
Proof.
  intros Hu. unfold read_array.
  destruct (h !! s) as [o|] eqn:Hs; [|done]. destruct o; try done.
  apply Hu in Hs. simpl in Hs. rewrite Hs.
  apply read_list_preserved; [done|].
  intros v x. by apply read_column_preserved.
Qed.

(** The world of a gamestate does not depend on the memo caches. *)
Lemma world_preserved h h' self w :
  unchanged_but_caches h h' → world h self = Some w → world h' self = Some w.
Proof.
  intros Hu. unfold world.
  destruct (h !! self) as [o|] eqn:Hself; [|done]. destruct o; try done.
  apply Hu in Hself. simpl in Hself. rewrite Hself.
  destruct (read_array h _statics) as [grid|] eqn:Hg; [|done].
  destruct (read_list read_agent h agents) as [xa|] eqn:Hxa; [|done].
  destruct (read_list read_agent h starts) as [xs|] eqn:Hxs; [|done].
  destruct (read_list read_move h facings) as [xf|] eqn:Hxf; [|done].
  destruct (read_list read_int h _timers) as [xt|] eqn:Hxt; [|done].
  rewrite (read_array_preserved h h' _ _ Hu Hg).
  rewrite (read_list_preserved _ _ h h' _ _ Hu (fun _ _ H => H) Hxa).
  rewrite (read_list_preserved _ _ h h' _ _ Hu (fun _ _ H => H) Hxs).
  rewrite (read_list_preserved _ _ h h' _ _ Hu (fun _ _ H => H) Hxf).
  rewrite (read_list_preserved _ _ h h' _ _ Hu (fun _ _ H => H) Hxt).
  done.
Qed.

Section Successors.
Variables (h : heap) (self : loc) (w : Value.Gamestate.t).

(** The invariant of the stores that [successors] runs through *)
Definition kept (h' : heap) : Prop :=
  unchanged_but_caches h h' ∧ world h' self = Some w.

Lemma kept_caches_only {A} (c : H A) : caches_only c → inv kept (fun _ => True) c.
Proof.
  intros Hc h' [Hu Hw]. split; [|done].
  destruct (Hc h h' Hu) as [Hu' _]. split; [done|].
  eapply world_preserved; [|exact Hw]. by apply caches_only_frame.
Qed.

Lemma kept_successor agent_id move :
  inv kept (fun _ => True) (Gamestate.successor self agent_id move).
Proof.
  intros h' [Hu Hw]. split; [|done].
  destruct (successor_frame h' self agent_id move w Hw) as [Hu' _].
  apply unchanged_caches in Hu'. split.
  - by eapply unchanged_but_caches_trans.
  - by eapply world_preserved.
Qed.

Lemma kept_successors agent_id :
  inv kept (fun _ => True) (Gamestate.successors self agent_id).
Proof.
  unfold Gamestate.successors.
  eapply inv_bind.
  { apply kept_caches_only, caches_only_readonly, readonly_get. }
  intros f _. eapply inv_bind.
  { apply kept_caches_only, caches_only_readonly, readonly_list_get_id. }
  intros a _. eapply inv_bind.
  { apply kept_caches_only, caches_only_legal_moves_vector. }
  intros moves _. eapply inv_weaken.
  - apply (inv_mapM _ (fun _ => True) (fun _ => True)); [apply Forall_True|].
    intros move _. apply kept_successor.
  - done.
Qed.
End Successors.

Lemma successors_frame h self agent_id w :
  world h self = Some w →
  unchanged_but_caches h (Gamestate.successors self agent_id h).2
  ∧ world (Gamestate.successors self agent_id h).2 self = Some w.
Proof.
  intros Hw. apply (kept_successors h self w agent_id h).
  split; [apply unchanged_but_caches_refl|done].
Qed.

End Frame.

(** C6: [successor] and [successors] leave the receiver as it was, and
    [successors] and [pathcost] of a representation leave the whole store as
    it was. For a gamestate object [g] whose world is [w]: after
    [g.successor(agent_id, move)], also when it raises, every object that
    was in the store is unchanged, [g] still holds [w], the objects made
    refer to objects made only, and the successor that is returned is one
    of them; after [g.successors(agent_id)] every object that was in the
    store is unchanged but for the memo caches, which are still dicts, and
    [g] still holds [w]. For every representation object, state and action
    list, [successors] and [pathcost] return in the store they were called
    in, whatever it holds. *)
Theorem successors_and_pathcost_pure (h : Store.heap) (g : Store.loc)
    (w : Gamestate.t) (agent_id : nat) (move : option Move.t)
    (r : Store.loc) (state : Store.val) (dots : gset Vector)
    (path : list Move.t) :
  Store.world h g = Some w →
  (Store.unchanged h (Store.Gamestate.successor g agent_id move h).2
   ∧ Store.world (Store.Gamestate.successor g agent_id move h).2 g = Some w
   ∧ Store.independent h (Store.Gamestate.successor g agent_id move h).2
   ∧ ∀ s, (Store.Gamestate.successor g agent_id move h).1 = Ok s → h !! s = None)
  ∧ (Store.unchanged_but_caches h (Store.Gamestate.successors g agent_id h).2
     ∧ Store.world (Store.Gamestate.successors g agent_id h).2 g = Some w)
  ∧ (Store.Search.Position.successors r state h).2 = h
  ∧ (Store.Search.Position.pathcost r path h).2 = h
  ∧ (Store.Search.AllDot.successors r (state, dots) h).2 = h
  ∧ (Store.Search.AllDot.pathcost r path h).2 = h.
Proof.
  intros Hw.
  destruct (Frame.successor_frame h g agent_id move w Hw) as (Hu & Hi & Hs).
  split; [|split; [|repeat split]].
  - split; [done|]. split; [|done].
    eapply Frame.world_preserved; [|exact Hw]. by apply Frame.unchanged_caches.
  - by apply (Frame.successors_frame h g agent_id w).
  - apply Frame.readonly_position_successors.
  - apply Frame.readonly_position_pathcost.
  - apply Frame.readonly_alldot_successors.
  - apply Frame.readonly_alldot_pathcost.
Qed.

(** *** A den in the store *)

(** A den with Pacman at (1,1), a dot above him, a pellet and a ghost *)
Definition den : list (list LayoutObject.t) :=
  [[LayoutObject.wall; LayoutObject.wall; LayoutObject.wall; LayoutObject.wall;
    LayoutObject.wall];
   [LayoutObject.wall; LayoutObject.pacman; LayoutObject.dot; LayoutObject.empty;
    LayoutObject.wall];
   [LayoutObject.wall; LayoutObject.empty; LayoutObject.wall; LayoutObject.pellet;
    LayoutObject.wall];
   [LayoutObject.wall; LayoutObject.empty; LayoutObject.empty; LayoutObject.ghost;
    LayoutObject.wall];
   [LayoutObject.wall; LayoutObject.wall; LayoutObject.wall; LayoutObject.wall;
    LayoutObject.wall]].

(** The world that [Gamestate(Array(den))] holds: the floor beneath the
    agents is cleared. *)
Definition den_world : Gamestate.t :=
  Gamestate.mk
    [[LayoutObject.wall; LayoutObject.wall; LayoutObject.wall; LayoutObject.wall;
      LayoutObject.wall];
     [LayoutObject.wall; LayoutObject.empty; LayoutObject.dot; LayoutObject.empty;
      LayoutObject.wall];
     [LayoutObject.wall; LayoutObject.empty; LayoutObject.wall; LayoutObject.pellet;
      LayoutObject.wall];
     [LayoutObject.wall; LayoutObject.empty; LayoutObject.empty; LayoutObject.empty;
      LayoutObject.wall];
     [LayoutObject.wall; LayoutObject.wall; LayoutObject.wall; LayoutObject.wall;
      LayoutObject.wall]]
    [Some (mkVector 1 1); Some (mkVector 3 3)]
    [Some (mkVector 1 1); Some (mkVector 3 3)]
    [Move.stop; Move.stop] [0; 0] 0 0.

(** [gstate = Gamestate(Array(den))] in an empty store: the gamestate
    object and the store *)
Definition den_game : result Store.loc * Store.heap :=
  (arr ← Store.layout den; Store.Gamestate.init arr) ∅.

(** The same, followed by
    [PositionSearchRepresentation(gstate, Vector(3, 3))] *)
Definition den_search : result (Store.loc * Store.loc) * Store.heap :=
  (arr ← Store.layout den;
   gstate ← Store.Gamestate.init arr;
   representation ← Store.Search.Position.init gstate (mkVector 3 3) (fun _ => 1);
   mret (gstate, representation)) ∅.

Lemma den_game_built :
  den_game.1 = Ok 36%nat ∧ Store.world den_game.2 36%nat = Some den_world.
Proof. split; vm_compute; reflexivity. Qed.

Lemma den_search_built :
  den_search.1 = Ok (36%nat, 67%nat)
  ∧ Store.world den_search.2 36%nat = Some den_world.
Proof. split; vm_compute; reflexivity. Qed.

Lemma successors_and_pathcost_pure_witness :
  (Store.unchanged den_search.2
     (Store.Gamestate.successor 36%nat 0%nat (Some Move.up) den_search.2).2
   ∧ Store.world
       (Store.Gamestate.successor 36%nat 0%nat (Some Move.up) den_search.2).2
       36%nat = Some den_world
   ∧ Store.independent den_search.2
       (Store.Gamestate.successor 36%nat 0%nat (Some Move.up) den_search.2).2
   ∧ ∀ s, (Store.Gamestate.successor 36%nat 0%nat (Some Move.up) den_search.2).1
          = Ok s → den_search.2 !! s = None)
  ∧ (Store.unchanged_but_caches den_search.2
       (Store.Gamestate.successors 36%nat 0%nat den_search.2).2
     ∧ Store.world (Store.Gamestate.successors 36%nat 0%nat den_search.2).2
         36%nat = Some den_world)
  ∧ (Store.Search.Position.successors 67%nat (Store.VVector (mkVector 1 1))
       den_search.2).2 = den_search.2
  ∧ (Store.Search.Position.pathcost 67%nat [Move.up; Move.up; Move.right]
       den_search.2).2 = den_search.2
  ∧ (Store.Search.AllDot.successors 67%nat (Store.VVector (mkVector 1 1), ∅)
       den_search.2).2 = den_search.2
  ∧ (Store.Search.AllDot.pathcost 67%nat [Move.up; Move.up; Move.right]
       den_search.2).2 = den_search.2.
Proof.
  apply (successors_and_pathcost_pure den_search.2 36%nat den_world 0%nat
           (Some Move.up) 67%nat (Store.VVector (mkVector 1 1)) ∅
           [Move.up; Move.up; Move.right]).
  vm_compute. reflexivity.
Defined.

(** What the methods return in the den: the successor of Pacman's move up
    holds the world that the first model computes, in which the only dot is
    eaten, and the representation lists the two free neighbours of (1,1). *)
Lemma den_scenario :
  (∃ s h', Store.Gamestate.successor 36%nat 0%nat (Some Move.up) den_game.2
           = (Ok s, h')
           ∧ Ok <$> Store.world h' s
             = Some (Gamestate.successor den_world 0 (Some Move.up)))
  ∧ (Store.Search.Position.successors 67%nat (Store.VVector (mkVector 1 1))
       den_search.2).1
    = Ok [(mkVector 1 2, [Move.up], 1); (mkVector 2 1, [Move.right], 1)]
  ∧ (Store.Search.Position.pathcost 67%nat [Move.up; Move.up; Move.right]
       den_search.2).1 = Ok (Search.Finite 3).
Proof.
  split; [|split; vm_compute; reflexivity].
  eexists _, _. split; [vm_compute; reflexivity|]. vm_compute. reflexivity.
Qed.

(** [successors] does write to the store: the first look at the walls puts
    their indicator into the memo cache of the receiver's grid. *)
Lemma successors_fill_cache :
  den_game.2 !! 27%nat = Some (Store.ODict [])
  ∧ (Store.Gamestate.successors 36%nat 0%nat den_game.2).2 !! 27%nat
    = Some (Store.ODict [(Store.VLayout LayoutObject.wall, Store.VRef 51%nat)])
  ∧ ¬ Store.unchanged den_game.2
        (Store.Gamestate.successors 36%nat 0%nat den_game.2).2.
Proof.
  assert (H1 : den_game.2 !! 27%nat = Some (Store.ODict []))
    by (vm_compute; reflexivity).
  assert (H2 : (Store.Gamestate.successors 36%nat 0%nat den_game.2).2 !! 27%nat
               = Some (Store.ODict [(Store.VLayout LayoutObject.wall,
                                     Store.VRef 51%nat)]))
    by (vm_compute; reflexivity).
  split; [done|]. split; [done|].
  intros Hu. pose proof (Hu _ _ H1) as H3.
  discriminate (eq_trans (eq_sym H3) H2).
Qed.

(** * Further properties: arrays, searches, the game and its agents *)

(** ** Positions and moves ([pacman/util.py]) *)

(** The laws of [manhattan] *)
Lemma manhattan_laws (u v w : Vector) (m : Move.t) :
  0 ≤ manhattan u v
  ∧ (manhattan u v = 0 ↔ u = v)
  ∧ manhattan u v = manhattan v u
  ∧ manhattan u w ≤ manhattan u v + manhattan v w
  ∧ manhattan u (Vector.add u (Move.vector m))
    = (if decide (m = Move.stop) then 0 else 1).
Proof.
  destruct u as [ux uy], v as [vx' vy'], w as [wx wy].
  unfold manhattan, Vector.abs, Vector.sub, Vector.add. simpl.
  split; [lia|]. split; [|split; [lia|split; [lia|]]].
  - split; [|intros [= -> ->]; lia].
    intros Hd. f_equal; lia.
  - destruct m; simpl; lia.
Qed.

(** X1: [manhattan] is a metric on positions. It is never negative, it is 0
    exactly between a position and itself, it is symmetric and it obeys the
    triangle inequality; and a move leads to a position at distance 1, but
    for [stop], which leads to a position at distance 0. *)
Theorem manhattan_metric (u v w : Vector) (m : Move.t) :
  0 ≤ manhattan u v
  ∧ (manhattan u v = 0 ↔ u = v)
  ∧ manhattan u v = manhattan v u
  ∧ manhattan u w ≤ manhattan u v + manhattan v w
  ∧ manhattan u (Vector.add u (Move.vector m))
    = (if decide (m = Move.stop) then 0 else 1).
Proof. exact (manhattan_laws u v w m). Qed.

(** X2: [Move.opposite] turns a move round. Its vector is the vector of the
    move negated, so that a move and its opposite lead back to where one
    was; [stop] is the only move that is its own opposite. [by_index] is the
    inverse of [index]; an index counts from the end when it is negative,
    and outside the ten indexes from -5 to 4 it is an [IndexError]. *)
Theorem opposite_reverses (m : Move.t) (v : Vector) :
  (∃ o, Move.opposite m = Ok o
        ∧ Move.vector o = Vector.sub Vector.zero (Move.vector m)
        ∧ Vector.add (Vector.add v (Move.vector m)) (Move.vector o) = v
        ∧ (o = m ↔ m = Move.stop))
  ∧ Move.by_index (Move.index m) = Ok m
  ∧ Move.by_index (Move.index m - 5) = Ok m
  ∧ ∀ i, ¬ (-5 ≤ i < 5) → Move.by_index i = Raise IndexError.
Proof.
  split; [|split; [|split]].
  - destruct v as [x y].
    destruct m; eexists; (split; [reflexivity|]);
      unfold Vector.add, Vector.sub; simpl;
      (split; [done|]); (split; [f_equal; lia|]); by split.
  - by destruct m.
  - by destruct m.
  - intros i Hi. unfold Move.by_index, py_get, py_pos.
    change (len Move.all) with 5.
    destruct (Z.ltb_spec i 0).
    + destruct (Z.leb_spec 0 (i + 5)); [lia|]. done.
    + destruct (Z.leb_spec 0 i); [|lia].
      destruct (Z.ltb_spec i 5); [lia|]. done.
Qed.

(** ** Arrays ([pacman/array.py]) *)

(** The order in which [Array.list] and [Array.coords] go through the
    grid: column by column, and up each column *)
Definition column_major (u w : Vector) : Prop :=
  vx u < vx w ∨ (vx u = vx w ∧ vy u < vy w).

Lemma StronglySorted_filter {B} (R : relation B) (P : B → Prop)
    `{∀ x, Decision (P x)} (l : list B) :
  StronglySorted R l → StronglySorted R (filter P l).
Proof.
  induction 1 as [|x l Hs IH Hall]; [constructor|].
  rewrite filter_cons. destruct (decide (P x)); [|done].
  constructor; [done|]. apply Forall_forall. intros z Hz.
  apply list_elem_of_filter in Hz as [_ Hz]. rewrite Forall_forall in Hall. auto.
Qed.

Lemma StronglySorted_seqZ (m n : Z) : StronglySorted Z.lt (seqZ m n).
Proof.
  destruct (Z.le_gt_cases n 0) as [Hn|Hn]; [rewrite seqZ_nil by done; constructor|].
  rewrite <- (Z2Nat.id n) by lia. generalize (Z.to_nat n) as k. clear.
  intros k. revert m. induction k as [|k IH]; intros m.
  - rewrite seqZ_nil by done. constructor.
  - rewrite seqZ_cons by lia. constructor.
    + replace (Z.pred (Z.of_nat (S k))) with (Z.of_nat k) by lia. apply IH.
    + apply Forall_forall. intros z Hz. apply elem_of_seqZ in Hz. lia.
Qed.

Lemma StronglySorted_bind {B C} (S : relation B) (R : relation C)
    (f : B → list C) (l : list B) :
  StronglySorted S l →
  (∀ x, x ∈ l → StronglySorted R (f x)) →
  (∀ x x' c c', S x x' → c ∈ f x → c' ∈ f x' → R c c') →
  StronglySorted R (l ≫= f).
Proof.
  intros Hs Hf HR. induction Hs as [|x l Hs IH Hall]; [constructor|].
  rewrite bind_cons. apply StronglySorted_app_2.
  - intros c c' Hc Hc'. apply list_elem_of_bind in Hc' as (x' & Hc' & Hx').
    rewrite Forall_forall in Hall. by apply (HR x x'); [apply Hall|..].
  - apply Hf. left.
  - apply IH. intros x' Hx'. apply Hf. by right.
Qed.

Lemma product_range_sorted (n m : Z) :
  StronglySorted (fun p q : Z * Z => p.1 < q.1 ∨ (p.1 = q.1 ∧ p.2 < q.2))
    (Array.product_range n m).
Proof.
  unfold Array.product_range.
  apply (StronglySorted_bind Z.lt); [apply StronglySorted_seqZ|..].
  - intros x _. apply (StronglySorted_bind Z.lt); [apply StronglySorted_seqZ|..].
    + intros y _. repeat constructor.
    + intros y y' c c' Hy Hc Hc'.
      apply list_elem_of_singleton in Hc as ->.
      apply list_elem_of_singleton in Hc' as ->. simpl. lia.
  - intros x x' c c' Hx Hc Hc'.
    apply list_elem_of_bind in Hc as (y & Hc & _).
    apply list_elem_of_bind in Hc' as (y' & Hc' & _).
    apply list_elem_of_singleton in Hc as ->.
    apply list_elem_of_singleton in Hc' as ->. simpl. lia.
Qed.

Lemma column_major_NoDup (l : list Vector) :
  StronglySorted column_major l → NoDup l.
Proof.
  induction 1 as [|u l Hs IH Hall]; constructor; [|done].
  intros Hu. rewrite Forall_forall in Hall. specialize (Hall u Hu).
  unfold column_major in Hall. lia.
Qed.

Lemma elem_of_hits {A} `{EqDecision A} (a : list (list A)) (value : A)
    (l : list (Z * Z)) (x y : Z) :
  mkVector x y ∈ hits a value l
  ↔ (x, y) ∈ l ∧ cell a (Z.to_nat x) (Z.to_nat y) = Some value.
Proof.
  unfold hits. rewrite list_elem_of_fmap. split.
  - intros ([x' y'] & [= -> ->] & Hin). apply list_elem_of_filter in Hin.
    simpl in Hin. tauto.
  - intros [Hin Hc]. exists (x, y). split; [done|].
    by apply list_elem_of_filter.
Qed.

Lemma hits_sorted {A} `{EqDecision A} (a : list (list A)) (value : A) (n m : Z) :
  StronglySorted column_major (hits a value (Array.product_range n m)).
Proof.
  unfold hits.
  eapply (StronglySorted_fmap _ _ column_major);
    [|apply StronglySorted_filter, product_range_sorted].
  intros [x y] [x' y'] Hlt. exact Hlt.
Qed.

(** What [Array.list] returns on a rectangular array *)
Lemma list_hits_positions {A} `{EqDecision A} (a : list (list A)) (value : A) :
  Array.rectangular a →
  ∃ l, Array.list_ a value = Ok l
       ∧ (∀ x y, mkVector x y ∈ l ↔ Array.getitem a x y = Ok (Some value))
       ∧ StronglySorted column_major l
       ∧ NoDup l.
Proof.
  intros Hr. eexists. split; [by apply list_eq_hits|].
  split; [|split].
  - intros x y. rewrite elem_of_hits, elem_of_product_range.
    rewrite getitem_cell by done.
    destruct (decide (in_bounds a x y)) as [Hin|Hout].
    + split; [intros [_ ->]; done|intros [= ->]]. split; [apply Hin|done].
    + split; [intros [Hin _]; by destruct Hout|done].
  - apply hits_sorted.
  - apply column_major_NoDup, hits_sorted.
Qed.

(** X3: on a rectangular array, [Array.list(value)] raises nothing and lists
    exactly the positions at which the array holds [value], that is, those
    at which a lookup returns it: column by column and up each column, so
    each position once. *)
Theorem list_positions {A} `{EqDecision A} (a : list (list A)) (value : A) :
  Array.rectangular a →
  ∃ l, Array.list_ a value = Ok l
       ∧ (∀ x y, mkVector x y ∈ l ↔ Array.getitem a x y = Ok (Some value))
       ∧ StronglySorted column_major l
       ∧ NoDup l.
Proof. exact (list_hits_positions a value). Qed.

Lemma list_positions_witness :
  ∃ l, Array.list_ [[LayoutObject.wall; LayoutObject.dot];
                    [LayoutObject.dot; LayoutObject.dot]] LayoutObject.dot = Ok l
       ∧ (∀ x y, mkVector x y ∈ l
                 ↔ Array.getitem [[LayoutObject.wall; LayoutObject.dot];
                                  [LayoutObject.dot; LayoutObject.dot]] x y
                   = Ok (Some LayoutObject.dot))
       ∧ StronglySorted column_major l
       ∧ NoDup l.
Proof.
  apply (list_positions [[LayoutObject.wall; LayoutObject.dot];
                         [LayoutObject.dot; LayoutObject.dot]] LayoutObject.dot).
  unfold Array.rectangular. repeat constructor.
Defined.

Lemma grid_dims {A} (a : list (list A)) (w h : nat) :
  grid a w h → (0 < w)%nat → len a = Z.of_nat w ∧ height a = Z.of_nat h.
Proof.
  intros [Hw Hh] Hpos. unfold height, len. rewrite Hw. split; [done|].
  destruct a as [|c0 rest]; [simpl in *; lia|]. simpl.
  inversion Hh; subst. done.
Qed.

Lemma grid_rectangular {A} (a : list (list A)) (w h : nat) :
  grid a w h → Array.rectangular a.
Proof.
  intros Hg. apply rectangular_grid. exists h. destruct Hg as [Hw Hh].
  by split.
Qed.

Lemma in_bounds_contains {A} (a : list (list A)) (x y : Z) :
  Array.contains a x y = Ok true ↔ in_bounds a x y.
Proof.
  rewrite contains_eq. split.
  - intros [= Hb]. by apply bool_decide_eq_true in Hb.
  - intros Hin. by rewrite bool_decide_eq_true_2.
Qed.

(** A cell that was set holds the value, and the others hold what they held. *)
Lemma setitem_lookup {A} `{EqDecision A} (a : list (list A)) (x y : Z) (v : A) :
  Array.rectangular a →
  Array.contains a x y = Ok true →
  ∃ a', Array.setitem a x y v = Ok a'
        ∧ Array.rectangular a'
        ∧ Array.shape a' = Array.shape a
        ∧ ∀ x' y', Array.getitem a' x' y'
                   = if decide (x' = x ∧ y' = y) then Ok (Some v)
                     else Array.getitem a x' y'.
Proof.
  intros Hr Hin. apply in_bounds_contains in Hin.
  destruct (setitem_inside a x y v Hr Hin) as (a' & Hset & Hr' & Hlen & Hh & Hcell).
  exists a'. split; [done|]. split; [done|]. split.
  - rewrite !shape_eq. by rewrite Hlen, Hh.
  - intros x' y'. rewrite (getitem_cell a') by done.
    rewrite (getitem_cell a) by done.
    assert (Hiff : in_bounds a' x' y' ↔ in_bounds a x' y').
    { unfold in_bounds. by rewrite Hlen, Hh. }
    destruct (decide (x' = x ∧ y' = y)) as [[-> ->]|Hne].
    + rewrite decide_True by by apply Hiff. rewrite Hcell.
      by rewrite decide_True.
    + destruct (decide (in_bounds a x' y')) as [Hin'|Hout].
      * rewrite decide_True by by apply Hiff. rewrite Hcell.
        rewrite decide_False; [done|].
        intros [Hx Hy]. destruct Hin as [Hx1 Hy1], Hin' as [Hx2 Hy2].
        apply Hne. split; lia.
      * rewrite decide_False; [done|]. by rewrite Hiff.
Qed.

(** X4: writing a cell that the array contains and reading it back. On a
    rectangular array the write raises nothing and leaves a rectangular
    array of the same shape, in which a lookup at the cell written returns
    the value written, and a lookup anywhere else returns what it returned
    before. *)
Theorem setitem_getitem {A} `{EqDecision A} (a : list (list A)) (x y : Z) (v : A) :
  Array.rectangular a →
  Array.contains a x y = Ok true →
  ∃ a', Array.setitem a x y v = Ok a'
        ∧ Array.rectangular a'
        ∧ Array.shape a' = Array.shape a
        ∧ ∀ x' y', Array.getitem a' x' y'
                   = if decide (x' = x ∧ y' = y) then Ok (Some v)
                     else Array.getitem a x' y'.
Proof. exact (setitem_lookup a x y v). Qed.

Lemma setitem_getitem_witness :
  ∃ a', Array.setitem [[LayoutObject.wall; LayoutObject.dot]] 0 1 LayoutObject.empty
        = Ok a'
        ∧ Array.rectangular a'
        ∧ Array.shape a' = Array.shape [[LayoutObject.wall; LayoutObject.dot]]
        ∧ ∀ x' y', Array.getitem a' x' y'
                   = if decide (x' = 0 ∧ y' = 1) then Ok (Some LayoutObject.empty)
                     else Array.getitem [[LayoutObject.wall; LayoutObject.dot]] x' y'.
Proof.
  apply (setitem_getitem [[LayoutObject.wall; LayoutObject.dot]] 0 1
           LayoutObject.empty).
  - unfold Array.rectangular. repeat constructor.
  - reflexivity.
Defined.

Lemma py_pos_wrap {A} (l : list A) (i : Z) :
  - len l ≤ i < len l → py_pos l i = Ok (Z.to_nat (i `mod` len l)).
Proof.
  intros Hi. unfold py_pos. destruct (Z.ltb_spec i 0).
  - destruct (Z.leb_spec 0 (i + len l)); [|lia].
    destruct (Z.ltb_spec (i + len l) (len l)); [|lia]. simpl.
    do 2 f_equal. apply Z.mod_unique with (-1); lia.
  - destruct (Z.leb_spec 0 i); [|lia].
    destruct (Z.ltb_spec i (len l)); [|lia]. simpl.
    by rewrite Z.mod_small by lia.
Qed.

Lemma py_pos_out {A} (l : list A) (i : Z) :
  ¬ (- len l ≤ i < len l) → py_pos l i = Raise IndexError.
Proof.
  intros Hi. unfold py_pos. destruct (Z.ltb_spec i 0).
  - destruct (Z.leb_spec 0 (i + len l)); [lia|]. done.
  - destruct (Z.leb_spec 0 i); [|lia].
    destruct (Z.ltb_spec i (len l)); [lia|]. done.
Qed.

Lemma rectangular_len {A} (a : list (list A)) (n : nat) (c : list A) :
  Array.rectangular a → a !! n = Some c → len c = height a.
Proof.
  intros Hr Hc. unfold Array.rectangular in Hr. rewrite Forall_forall in Hr.
  unfold height, len. f_equal. apply Hr. by eapply list_elem_of_lookup_2.
Qed.

(** X5: the index of a write is a Python list index. On a rectangular array
    of shape [s], an [x] from [-s.x] up to [s.x - 1] and a [y] from [-s.y] up
    to [s.y - 1] name a cell, the one at [(x % s.x, y % s.y)]: a negative
    index counts from the end, and the write is the write at that cell. Any
    other index raises [IndexError]. A lookup at a negative index returns
    [None] all the same. *)
Theorem setitem_index {A} `{EqDecision A} (a : list (list A)) (s : Vector)
    (x y : Z) (v : A) :
  Array.rectangular a →
  Array.shape a = Ok s →
  (- vx s ≤ x < vx s → - vy s ≤ y < vy s →
     Array.contains a (x `mod` vx s) (y `mod` vy s) = Ok true
     ∧ Array.setitem a x y v = Array.setitem a (x `mod` vx s) (y `mod` vy s) v)
  ∧ (¬ (- vx s ≤ x < vx s ∧ - vy s ≤ y < vy s) →
     Array.setitem a x y v = Raise IndexError)
  ∧ (x < 0 ∨ y < 0 → Array.getitem a x y = Ok None).
Proof.
  intros Hr. rewrite shape_eq. intros [= <-]. simpl.
  split; [|split].
  - intros Hx Hy.
    assert (Hx' : 0 ≤ x `mod` len a < len a) by (apply Z.mod_pos_bound; lia).
    assert (Hy' : 0 ≤ y `mod` height a < height a) by (apply Z.mod_pos_bound; lia).
    split; [by apply in_bounds_contains|].
    unfold Array.setitem, py_get, py_set.
    rewrite !(py_pos_wrap a) by lia. rewrite Z.mod_mod by lia.
    cbn [mbind result_bind].
    destruct (a !! Z.to_nat (x `mod` len a)) as [c|] eqn:Hc; [|done].
    cbn [mbind result_bind].
    pose proof (rectangular_len a _ c Hr Hc) as Hlen.
    rewrite !(py_pos_wrap c) by lia. rewrite Hlen, Z.mod_mod by lia. done.
  - intros Hout. unfold Array.setitem, py_get, py_set.
    destruct (decide (- len a ≤ x < len a)) as [Hx|Hx];
      [|by rewrite py_pos_out].
    rewrite !(py_pos_wrap a) by lia. cbn [mbind result_bind].
    destruct (a !! Z.to_nat (x `mod` len a)) as [c|] eqn:Hc; [|done].
    cbn [mbind result_bind].
    pose proof (rectangular_len a _ c Hr Hc) as Hlen.
    rewrite py_pos_out by lia. done.
  - intros Hneg. apply getitem_outside. unfold in_bounds. lia.
Qed.

Lemma setitem_index_witness :
  (- 1 ≤ -1 < 1 → - 2 ≤ -1 < 2 →
     Array.contains [[LayoutObject.wall; LayoutObject.dot]] ((-1) `mod` 1) ((-1) `mod` 2)
     = Ok true
     ∧ Array.setitem [[LayoutObject.wall; LayoutObject.dot]] (-1) (-1)
         LayoutObject.empty
       = Array.setitem [[LayoutObject.wall; LayoutObject.dot]] ((-1) `mod` 1)
           ((-1) `mod` 2) LayoutObject.empty)
  ∧ (¬ (- 1 ≤ -1 < 1 ∧ - 2 ≤ -1 < 2) →
     Array.setitem [[LayoutObject.wall; LayoutObject.dot]] (-1) (-1)
       LayoutObject.empty = Raise IndexError)
  ∧ (-1 < 0 ∨ -1 < 0 →
     Array.getitem [[LayoutObject.wall; LayoutObject.dot]] (-1) (-1) = Ok None).
Proof.
  apply (setitem_index [[LayoutObject.wall; LayoutObject.dot]] (mkVector 1 2)
           (-1) (-1) LayoutObject.empty).
  - unfold Array.rectangular. repeat constructor.
  - reflexivity.
Defined.

Lemma cell_reverse {A} (a : list (list A)) (i j : nat) :
  (i < length a)%nat →
  cell (reverse a) i j = cell a (length a - S i) j.
Proof. intros Hi. unfold cell. by rewrite reverse_lookup. Qed.

Lemma getitem_grid {A} `{EqDecision A} (a : list (list A)) (w h : nat) (x y : Z) :
  grid a w h → (0 < w)%nat →
  Array.getitem a x y
  = Ok (if decide (0 ≤ x < Z.of_nat w ∧ 0 ≤ y < Z.of_nat h)
        then cell a (Z.to_nat x) (Z.to_nat y) else None).
Proof.
  intros Hg Hw. rewrite getitem_cell by by eapply grid_rectangular.
  destruct (grid_dims a w h Hg Hw) as [Hl Hh]. unfold in_bounds.
  rewrite Hl, Hh. done.
Qed.

Lemma getitem_nil {A} `{EqDecision A} (x y : Z) :
  Array.getitem (@nil (list A)) x y = Ok None.
Proof. apply getitem_outside. unfold in_bounds, len. simpl. lia. Qed.

(** X6: where the cells of an array go when it is turned. For a
    rectangular array of shape [s], the transposed array holds at [(y, x)]
    what the array holds at [(x, y)], the array mirrored horizontally holds
    at [(x, y)] what the array holds at [(s.x - 1 - x, y)], and the array
    mirrored vertically what it holds at [(x, s.y - 1 - y)]; in each case
    [None] if the array holds nothing there. *)
Theorem transforms_getitem {A} `{EqDecision A} (a : list (list A)) (s : Vector)
    (x y : Z) :
  Array.rectangular a →
  Array.shape a = Ok s →
  Array.getitem (Array.transpose a) y x = Array.getitem a x y
  ∧ Array.getitem (Array.mirror_hor a) x y = Array.getitem a (vx s - 1 - x) y
  ∧ Array.getitem (Array.mirror_ver a) x y = Array.getitem a x (vy s - 1 - y).
Proof.
  intros Hr. rewrite shape_eq. intros [= <-]. simpl.
  pose proof Hr as Hg. apply rectangular_grid in Hg as [h Hg].
  destruct (decide (a = [])) as [->|Hne].
  { change (Array.transpose (@nil (list A))) with (@nil (list A)).
    change (Array.mirror_hor (@nil (list A))) with (@nil (list A)).
    change (Array.mirror_ver (@nil (list A))) with (@nil (list A)).
    by rewrite !getitem_nil. }
  assert (Hw : (0 < length a)%nat) by (destruct a; [done|simpl; lia]).
  destruct (grid_dims a _ h Hg Hw) as [Hl Hh]. rewrite Hh.
  destruct (transpose_grid a _ h Hg Hw) as [Hg1 Hc1].
  pose proof (mirror_hor_grid _ _ _ Hg) as Hgm.
  rewrite (getitem_grid a _ h) by done.
  rewrite (getitem_grid (Array.mirror_hor a) _ h) by done.
  rewrite (getitem_grid a _ h (len a - 1 - x)) by done.
  rewrite (getitem_grid a _ h x (Z.of_nat h - 1 - y)) by done.
  destruct (decide (h = 0%nat)) as [->|Hh0].
  { assert (Ht : Array.transpose a = []) by (destruct Hg1 as [Ht _]; by destruct (Array.transpose a)).
    unfold Array.mirror_ver. rewrite Ht. unfold Array.mirror_hor, Array.transpose.
    simpl. rewrite !getitem_nil.
    rewrite !decide_False by lia. done. }
  assert (Hhpos : (0 < h)%nat) by lia.
  rewrite (getitem_grid (Array.transpose a) h _) by done.
  pose proof (mirror_hor_grid _ _ _ Hg1) as Hg2.
  destruct (transpose_grid _ h _ Hg2 Hhpos) as [Hg3 Hc3].
  unfold Array.mirror_ver. rewrite (getitem_grid _ _ h _ _ Hg3 Hw).
  unfold len in *.
  split; [|split].
  - destruct (decide (0 ≤ x < Z.of_nat (length a) ∧ 0 ≤ y < Z.of_nat h)) as [Hin|Hout].
    + rewrite decide_True by lia. by rewrite Hc1.
    + rewrite decide_False by lia. done.
  - destruct (decide (0 ≤ x < Z.of_nat (length a) ∧ 0 ≤ y < Z.of_nat h)) as [Hin|Hout].
    + rewrite decide_True by lia. unfold Array.mirror_hor.
      rewrite cell_reverse by lia. do 2 f_equal. lia.
    + rewrite decide_False by lia. done.
  - destruct (decide (0 ≤ x < Z.of_nat (length a) ∧ 0 ≤ y < Z.of_nat h)) as [Hin|Hout].
    + rewrite decide_True by lia. rewrite Hc3. unfold Array.mirror_hor.
      destruct Hg1 as [Hlt _].
      rewrite cell_reverse by lia. rewrite Hc1. rewrite Hlt.
      do 2 f_equal. lia.
    + rewrite decide_False by lia. done.
Qed.

Lemma transforms_getitem_witness :
  Array.getitem (Array.transpose [[LayoutObject.wall; LayoutObject.dot]]) 1 0
  = Array.getitem [[LayoutObject.wall; LayoutObject.dot]] 0 1
  ∧ Array.getitem (Array.mirror_hor [[LayoutObject.wall; LayoutObject.dot]]) 0 1
    = Array.getitem [[LayoutObject.wall; LayoutObject.dot]] (1 - 1 - 0) 1
  ∧ Array.getitem (Array.mirror_ver [[LayoutObject.wall; LayoutObject.dot]]) 0 1
    = Array.getitem [[LayoutObject.wall; LayoutObject.dot]] 0 (2 - 1 - 1).
Proof.
  apply (transforms_getitem [[LayoutObject.wall; LayoutObject.dot]]
           (mkVector 1 2) 0 1).
  - unfold Array.rectangular. repeat constructor.
  - reflexivity.
Defined.

Lemma length_product_range (n m : Z) :
  length (Array.product_range n m) = (Z.to_nat n * Z.to_nat m)%nat.
Proof.
  unfold Array.product_range.
  assert (Hin : ∀ x : Z, length (seqZ 0 m ≫= (fun y => [(x, y)])) = Z.to_nat m).
  { intros x. rewrite <- (length_seqZ 0 m).
    induction (seqZ 0 m) as [|y l IH]; [done|].
    rewrite bind_cons. simpl. by rewrite IH. }
  rewrite <- (length_seqZ 0 n).
  induction (seqZ 0 n) as [|x l IH]; [done|].
  rewrite bind_cons, length_app, IH, Hin. simpl. done.
Qed.

(** X7: [Array.coords] never raises, and lists exactly the positions that
    [Array.contains] accepts, column by column and up each column, each
    once: as many as the product of the two components of the shape. *)
Theorem coords_contains {A} `{EqDecision A} (a : list (list A)) :
  ∃ l s, Array.coords a = Ok l
         ∧ Array.shape a = Ok s
         ∧ (∀ x y, mkVector x y ∈ l ↔ Array.contains a x y = Ok true)
         ∧ StronglySorted column_major l
         ∧ NoDup l
         ∧ len l = vx s * vy s.
Proof.
  unfold Array.coords. rewrite shape_eq. simpl. eexists _, _.
  split; [done|]. split; [done|].
  assert (Hs : StronglySorted column_major
                 ((fun t : Z * Z => mkVector t.1 t.2)
                    <$> Array.product_range (len a) (height a))).
  { eapply (StronglySorted_fmap _ _ column_major); [|apply product_range_sorted].
    intros [x y] [x' y'] Hlt. exact Hlt. }
  split; [|split; [done|split; [by apply column_major_NoDup|]]].
  - intros x y. rewrite in_bounds_contains, list_elem_of_fmap. split.
    + intros ([x' y'] & [= -> ->] & Hin). by apply elem_of_product_range in Hin.
    + intros Hin. exists (x, y). split; [done|]. by apply elem_of_product_range.
  - simpl. unfold len at 1. rewrite length_fmap, length_product_range.
    unfold height, len. lia.
Qed.

Section IndicatorView.
Context {A : Type} `{EqDecision A}.
Implicit Types a : list (list A).

Lemma mapM_head_fmap {B} (f : A → B) (rest : list (list A)) :
  mapM (M:=option) head (fmap (M:=list) f <$> rest)
  = fmap (M:=list) f <$> mapM (M:=option) head rest.
Proof.
  induction rest as [|c rest IH]; [done|].
  rewrite fmap_cons. cbn [mapM]. rewrite IH.
  destruct c as [|e c]; [done|]. simpl.
  by destruct (mapM head rest).
Qed.

Lemma zip_star_from_fmap {B} `{EqDecision B} (f : A → B) (c0 : list A)
    (rest : list (list A)) :
  Array.zip_star_from (f <$> c0) (fmap (M:=list) f <$> rest)
  = fmap (M:=list) f <$> Array.zip_star_from c0 rest.
Proof.
  revert rest. induction c0 as [|e c0 IH]; intros rest; [done|].
  rewrite fmap_cons. cbn [Array.zip_star_from]. rewrite mapM_head_fmap.
  destruct (mapM head rest) as [hs|]; [|done]. simpl.
  f_equal. rewrite <- IH. f_equal.
  rewrite <- !list_fmap_compose. apply list_fmap_ext. intros _ c _. simpl.
  by rewrite fmap_tail.
Qed.

Lemma transpose_full_indicators a (value : A) :
  Array.full_indicators (Array.zip_star a) value
  = Array.transpose (Array.full_indicators a value).
Proof.
  unfold Array.transpose, Array.full_indicators.
  destruct a as [|c0 rest]; [done|]. simpl. symmetry.
  apply (zip_star_from_fmap (fun e => bool_decide (e = value))).
Qed.

Lemma mirror_hor_full_indicators a (value : A) :
  Array.full_indicators (reverse a) value
  = Array.mirror_hor (Array.full_indicators a value).
Proof.
  unfold Array.mirror_hor, Array.full_indicators. by rewrite fmap_reverse.
Qed.

Lemma list_full_indicators a (value : A) :
  Array.rectangular a →
  Array.list_ (Array.full_indicators a value) true = Array.list_ a value.
Proof.
  intros Hr.
  rewrite list_eq_hits by by apply rectangular_full_indicators.
  rewrite list_eq_hits by done.
  rewrite height_full_indicators. unfold Array.full_indicators at 2.
  rewrite len_fmap. unfold hits. f_equal. f_equal.
  apply list_filter_iff. intros [x y]. simpl. rewrite cell_full_indicators.
  destruct (cell a (Z.to_nat x) (Z.to_nat y)) as [e|]; simpl; [|done].
  split.
  - intros [= He]. apply bool_decide_eq_true in He. by subst.
  - intros [= ->]. by rewrite bool_decide_eq_true_2.
Qed.

End IndicatorView.

(** X8: the indicator array of a rectangular array is a view of it. Its
    list of positions is the array's list for the value, its length the
    number of these, and it is truthy exactly when the array holds the
    value somewhere. Its own [transpose], [mirror_hor] and [mirror_ver],
    which build a new indicator from the values, hold the booleans that the
    inherited operations of [Array] give on the booleans; its copy is equal
    to it, and every write raises [ValueError]. *)
Theorem indicator_view {A} `{EqDecision A} (a : list (list A)) (value : A)
    (x y : Z) (b : bool) :
  Array.rectangular a →
  let i := Array.indicate a value in
  Array.ind_list i = Array.list_ a value
  ∧ Array.ind_len i = len <$> Array.list_ a value
  ∧ (Array.ind_bool i = Ok true ↔ ∃ x y, Array.getitem a x y = Ok (Some value))
  ∧ (Array.ind_bool i = Ok false ↔ ∀ x y, Array.getitem a x y ≠ Ok (Some value))
  ∧ Array._array (Array.ind_transpose i) = Array.transpose (Array._array i)
  ∧ Array._array (Array.ind_mirror_hor i) = Array.mirror_hor (Array._array i)
  ∧ Array._array (Array.ind_mirror_ver i) = Array.mirror_ver (Array._array i)
  ∧ Array.ind_eq (Array.ind_copy i) i = true
  ∧ Array.ind_setitem i x y b = Raise ValueError.
Proof.
  intros Hr i.
  assert (Hl : Array.ind_list i = Array.list_ a value)
    by by apply list_full_indicators.
  destruct (list_hits_positions a value Hr) as (l & Hlist & Hmem & _).
  split; [done|]. split; [|split; [|split]].
  - unfold Array.ind_len. rewrite Hl. by destruct (Array.list_ a value).
  - unfold Array.ind_bool. rewrite Hl, Hlist. simpl. split.
    + intros [= Hb]. apply bool_decide_eq_true in Hb.
      destruct l as [|[x' y'] l]; [done|]. exists x', y'. apply Hmem. left.
    + intros (x' & y' & Hg). apply Hmem in Hg. f_equal.
      apply bool_decide_eq_true_2. intros ->. by apply elem_of_nil in Hg.
  - unfold Array.ind_bool. rewrite Hl, Hlist. simpl. split.
    + intros [= Hb]. apply bool_decide_eq_false in Hb.
      assert (l = []) as -> by (destruct l; [done|by destruct Hb]).
      intros x' y' Hg. apply Hmem in Hg. by apply elem_of_nil in Hg.
    + intros Hno. f_equal. apply bool_decide_eq_false_2. intros Hne.
      destruct l as [|[x' y'] l]; [done|]. apply (Hno x' y'), Hmem. left.
  - split; [|split; [|split; [|split]]].
    + apply transpose_full_indicators.
    + apply mirror_hor_full_indicators.
    + unfold Array.ind_mirror_ver, Array.ind_transpose, Array.ind_mirror_hor,
        Array.indicate, Array.mirror_ver. simpl.
      rewrite transpose_full_indicators, mirror_hor_full_indicators.
      by rewrite transpose_full_indicators.
    + unfold Array.ind_eq, Array.ind_copy, i, Array.indicate. simpl.
      rewrite list_fmap_id. by rewrite !bool_decide_eq_true_2.
    + done.
Qed.

Lemma indicator_view_witness :
  let i := Array.indicate [[LayoutObject.wall; LayoutObject.dot]] LayoutObject.dot in
  Array.ind_list i = Array.list_ [[LayoutObject.wall; LayoutObject.dot]] LayoutObject.dot
  ∧ Array.ind_len i
    = len <$> Array.list_ [[LayoutObject.wall; LayoutObject.dot]] LayoutObject.dot
  ∧ (Array.ind_bool i = Ok true
     ↔ ∃ x y, Array.getitem [[LayoutObject.wall; LayoutObject.dot]] x y
              = Ok (Some LayoutObject.dot))
  ∧ (Array.ind_bool i = Ok false
     ↔ ∀ x y, Array.getitem [[LayoutObject.wall; LayoutObject.dot]] x y
              ≠ Ok (Some LayoutObject.dot))
  ∧ Array._array (Array.ind_transpose i) = Array.transpose (Array._array i)
  ∧ Array._array (Array.ind_mirror_hor i) = Array.mirror_hor (Array._array i)
  ∧ Array._array (Array.ind_mirror_ver i) = Array.mirror_ver (Array._array i)
  ∧ Array.ind_eq (Array.ind_copy i) i = true
  ∧ Array.ind_setitem i 0 0 true = Raise ValueError.
Proof.
  apply (indicator_view [[LayoutObject.wall; LayoutObject.dot]] LayoutObject.dot
           0 0 true).
  unfold Array.rectangular. repeat constructor.
Defined.

(** ** Path costs and heuristics ([pacman/search.py]) *)

(** What the moves of a path cost: [cost_fn] of the vector of each move *)
Definition moves_cost (cost_fn : Vector → Z) (path : list Move.t) : Z :=
  foldr (fun m c => cost_fn (Move.vector m) + c) 0 path.

Lemma standard_pathcost_from_free (a : list (list LayoutObject.t))
    (cost_fn : Vector → Z) (path : list Move.t) (u v : Vector) (cost : Z) :
  Array.rectangular a →
  wall_free a u path v →
  Search.standard_pathcost_from path (Some u) cost
    (Array.indicate a LayoutObject.wall) cost_fn
  = Ok (Search.Finite (cost + moves_cost cost_fn path)).
Proof.
  intros Hr. revert u cost. induction path as [|m path IH]; intros u cost; simpl.
  - intros _. by rewrite Z.add_0_r.
  - intros [Hfree Hrest].
    destruct (indicator_at a LayoutObject.wall (Vector.add u (Move.vector m)) Hr)
      as (w & Hw & Hiff).
    rewrite Hw. simpl.
    destruct (Array.truthy w) eqn:Ht; [by destruct Hfree; apply Hiff|].
    rewrite (IH _ _ Hrest). do 2 f_equal. lia.
Qed.

Lemma standard_pathcost_from_wall (a : list (list LayoutObject.t))
    (cost_fn : Vector → Z) (path : list Move.t) (u : Vector) (cost : Z) :
  Array.rectangular a →
  (∀ v, ¬ wall_free a u path v) →
  Search.standard_pathcost_from path (Some u) cost
    (Array.indicate a LayoutObject.wall) cost_fn
  = Ok Search.Infinite.
Proof.
  intros Hr. revert u cost. induction path as [|m path IH]; intros u cost Hno.
  - by destruct (Hno u).
  - simpl.
    destruct (indicator_at a LayoutObject.wall (Vector.add u (Move.vector m)) Hr)
      as (w & Hw & Hiff).
    rewrite Hw. simpl.
    destruct (Array.truthy w) eqn:Ht; [done|].
    apply IH. intros v Hv. apply (Hno v). simpl. split; [|done].
    intros Hwall. apply Hiff in Hwall. congruence.
Qed.

(** X9: what [standard_pathcost] computes on a rectangular grid. For a path
    that enters no wall it is the sum of [cost_fn(move.vector)] over the
    moves of the path: the cost function is applied to the vector of the
    move, not to the position that is entered, so with the default cost
    function the cost is the number of moves. For a path that enters a wall
    it is [inf]. *)
Theorem standard_pathcost_sum (a : list (list LayoutObject.t))
    (cost_fn : Vector → Z) (path : list Move.t) (start : Vector) :
  Array.rectangular a →
  let walls := Array.indicate a LayoutObject.wall in
  (∀ v, wall_free a start path v →
     Search.standard_pathcost path (Some start) walls cost_fn
     = Ok (Search.Finite (moves_cost cost_fn path))
     ∧ Search.standard_pathcost path (Some start) walls (fun _ => 1)
       = Ok (Search.Finite (len path)))
  ∧ ((∀ v, ¬ wall_free a start path v) →
     Search.standard_pathcost path (Some start) walls cost_fn = Ok Search.Infinite).
Proof.
  intros Hr walls. split.
  - intros v Hfree. unfold Search.standard_pathcost, walls.
    rewrite !(standard_pathcost_from_free a _ path start v 0 Hr Hfree).
    split; [done|]. do 2 f_equal. unfold len, moves_cost. clear.
    induction path as [|m path IH]; [done|]. cbn [foldr length]. lia.
  - intros Hno. by apply standard_pathcost_from_wall.
Qed.

Lemma standard_pathcost_sum_witness :
  let walls := Array.indicate room LayoutObject.wall in
  (∀ v, wall_free room (mkVector 1 1) [Move.up; Move.right] v →
     Search.standard_pathcost [Move.up; Move.right] (Some (mkVector 1 1)) walls
       (fun u => 2 * vx u)
     = Ok (Search.Finite (moves_cost (fun u => 2 * vx u) [Move.up; Move.right]))
     ∧ Search.standard_pathcost [Move.up; Move.right] (Some (mkVector 1 1)) walls
         (fun _ => 1)
       = Ok (Search.Finite (len [Move.up; Move.right])))
  ∧ ((∀ v, ¬ wall_free room (mkVector 1 1) [Move.up; Move.right] v) →
     Search.standard_pathcost [Move.up; Move.right] (Some (mkVector 1 1)) walls
       (fun u => 2 * vx u) = Ok Search.Infinite).
Proof.
  apply (standard_pathcost_sum room (fun u => 2 * vx u) [Move.up; Move.right]
           (mkVector 1 1)).
  unfold Array.rectangular. simpl. repeat constructor.
Defined.

Lemma wall_free_end (a : list (list LayoutObject.t)) (u v : Vector)
    (q : list Move.t) :
  wall_free a u q v → manhattan u v ≤ len q.
Proof.
  revert u. induction q as [|m q IH]; intros u; simpl.
  - intros <-. destruct (manhattan_laws u u u Move.stop) as (_ & H0 & _).
    unfold len. simpl. by rewrite (proj2 H0 eq_refl).
  - intros [_ Hq]. specialize (IH _ Hq).
    destruct (manhattan_laws u (Vector.add u (Move.vector m)) v m)
      as (_ & _ & _ & Htri & Hstep).
    unfold len in *. simpl length. destruct (decide (m = Move.stop)); lia.
Qed.

(** X10: the Manhattan heuristic is a lower bound. From a position [v], every
    sequence of moves that leads to the goal of the representation has at
    least [manhattan(v, representation)] moves; a move changes the heuristic by
    at most 1; it is 0 at the goal and nowhere else, and never below the
    null heuristic. *)
Theorem manhattan_lower_bound (a : list (list LayoutObject.t)) (v : Vector)
    (representation : Search.Position.t) (q : list Move.t) (m : Move.t) :
  (wall_free a v q (Search.Position.goal representation) →
     Search.manhattan v representation ≤ len q)
  ∧ Search.manhattan v representation
    ≤ 1 + Search.manhattan (Vector.add v (Move.vector m)) representation
  ∧ Search.manhattan (Vector.add v (Move.vector m)) representation
    ≤ 1 + Search.manhattan v representation
  ∧ (Search.manhattan v representation = 0
     ↔ v = Search.Position.goal representation)
  ∧ Search.null v representation ≤ Search.manhattan v representation.
Proof.
  unfold Search.manhattan, Search.null.
  set (goal := Search.Position.goal representation).
  split; [apply wall_free_end|].
  destruct (manhattan_laws v (Vector.add v (Move.vector m)) goal m)
    as (Hpos & _ & Hsym & Htri & Hstep).
  destruct (manhattan_laws (Vector.add v (Move.vector m)) v goal m)
    as (_ & _ & _ & Htri' & _).
  destruct (manhattan_laws v goal goal m) as (Hpos' & Hzero & _).
  split; [|split; [|split; [done|done]]];
    destruct (decide (m = Move.stop)); lia.
Qed.

(** ** Every frontier discipline finds a path ([ass2.py]) *)

Section AnyDiscipline.
Import Search Ass2.
Context {R S : Type} `{Countable S} `{!SearchRepresentation R S}.
Variable get : list (@Entry S) → option (@Entry S * list (@Entry S)).
Variable priority : @Node S → R → Z.
Hypothesis get_takes_one : takes_one get.
Variable Rinv : R → Prop.
Variable P : S → Prop.
Variable U : gset S.
Variable B : nat.
Variable s0 : S.
Variable goalp : S → bool.
Variable edges : S → list (Successor S).
Hypothesis P_U : ∀ s, P s → s ∈ U.
Hypothesis start_s0 : ∀ r, Rinv r → start r = s0.
Hypothesis P_s0 : P s0.
Hypothesis is_goal_goalp : ∀ r s, Rinv r → P s →
  ∃ r', is_goal s r = (Ok (goalp s), r') ∧ Rinv r'.
Hypothesis successors_edges : ∀ r s, Rinv r → P s →
  ∃ r', successors s r = (Ok (edges s), r') ∧ Rinv r'.
Hypothesis edges_P : ∀ s, P s → Forall (fun x : Successor S => P x.1.1) (edges s).
Hypothesis edges_B : ∀ s, P s → (length (edges s) ≤ B)%nat.

Lemma any_walk_P p s : walk s0 edges p s → P s.
Proof.
  induction 1 as [|p s x Hw IH Hx]; [done|].
  pose proof (edges_P s IH) as Hall. rewrite Forall_forall in Hall.
  by apply Hall.
Qed.

(** The invariant of the loop, whatever entry is taken next: the entries
    hold paths to their states, the successors of an explored state and
    the start are explored or wait in the frontier, and no explored state
    is a goal. *)
Record any_inv (frontier : list (@Entry S)) (explored : gset S) : Prop := {
  any_walk : Forall (fun e : @Entry S => walk s0 edges e.2.1.2 e.2.1.1) frontier;
  any_edges : ∀ u x, u ∈ explored → P u → x ∈ edges u →
    x.1.1 ∈ explored ∨ ∃ e : @Entry S, e ∈ frontier ∧ e.2.1.1 = x.1.1;
  any_start : s0 ∈ explored ∨ ∃ e : @Entry S, e ∈ frontier ∧ e.2.1.1 = s0;
  any_goal : ∀ u, u ∈ explored → goalp u = false;
}.

Lemma any_inv_perm frontier frontier' explored :
  frontier ≡ₚ frontier' → any_inv frontier explored → any_inv frontier' explored.
Proof.
  intros Hp [Hw He Hs Hg]. split.
  - by rewrite <- Hp.
  - intros u x Hu HPu Hx. destruct (He u x Hu HPu Hx) as [?|(e & Hin & Hst)];
      [by left|]. right. exists e. by rewrite <- Hp.
  - destruct Hs as [?|(e & Hin & Hst)]; [by left|]. right. exists e.
    by rewrite <- Hp.
  - done.
Qed.

Lemma any_covers frontier explored q s :
  any_inv frontier explored → walk s0 edges q s →
  s ∈ explored ∨ frontier ≠ [].
Proof.
  intros Hinv Hw. induction Hw as [|p s x Hw IH Hx].
  - destruct (any_start _ _ Hinv) as [Hs|(e & He & _)]; [by left|].
    right. intros ->. by apply elem_of_nil in He.
  - destruct IH as [Hs|Hne]; [|by right].
    destruct (any_edges _ _ Hinv s x Hs (any_walk_P _ _ Hw) Hx)
      as [Hex|(e & He & _)]; [by left|].
    right. intros ->. by apply elem_of_nil in He.
Qed.

Lemma any_inv_skip e0 rest explored :
  any_inv (e0 :: rest) explored → e0.2.1.1 ∈ explored → any_inv rest explored.
Proof.
  intros [Hw He Hs Hg] Hin. split.
  - by eapply Forall_inv_tail.
  - intros u x Hu HPu Hx. destruct (He u x Hu HPu Hx) as [?|(e & Hine & Hst)];
      [by left|].
    apply elem_of_cons in Hine as [->|Hine]; [left; by rewrite <- Hst|].
    right. by exists e.
  - destruct Hs as [?|(e & Hine & Hst)]; [by left|].
    apply elem_of_cons in Hine as [->|Hine]; [left; by rewrite <- Hst|].
    right. by exists e.
  - done.
Qed.

Lemma any_inv_expand pr state path cost rest explored r :
  any_inv ((pr, (state, path, cost)) :: rest) explored →
  state ∉ explored → goalp state = false →
  any_inv (rest ++ new_entries priority (explored ∪ {[state]}) path cost
                     (edges state) r)
          (explored ∪ {[state]}).
Proof.
  intros [Hw He Hs Hg] Hnew Hgoal.
  assert (Hw0 : walk s0 edges path state) by (by apply Forall_inv in Hw).
  split.
  - apply Forall_app. split; [by eapply Forall_inv_tail|].
    unfold new_entries. apply Forall_fmap, Forall_forall. intros x Hx.
    apply list_elem_of_filter in Hx as [_ Hx]. simpl.
    by apply (walk_snoc s0 edges path state x).
  - intros u x Hu HPu Hx. apply elem_of_union in Hu as [Hu|Hu].
    + destruct (He u x Hu HPu Hx) as [Hex|(e & Hine & Hst)].
      { left. apply elem_of_union. by left. }
      apply elem_of_cons in Hine as [->|Hine].
      { left. apply elem_of_union. right. apply elem_of_singleton.
        by rewrite <- Hst. }
      right. exists e. split; [|done]. apply elem_of_app. by left.
    + apply elem_of_singleton in Hu as ->.
      destruct (decide (x.1.1 ∈ explored ∪ {[state]})) as [Hex|Hex]; [by left|].
      right. eexists. split.
      * apply elem_of_app. right. unfold new_entries.
        apply list_elem_of_fmap. exists x. split; [done|].
        by apply list_elem_of_filter.
      * done.
  - destruct Hs as [Hs|(e & Hine & Hst)].
    { left. apply elem_of_union. by left. }
    apply elem_of_cons in Hine as [->|Hine].
    { left. apply elem_of_union. right. apply elem_of_singleton. by rewrite <- Hst. }
    right. exists e. split; [|done]. apply elem_of_app. by left.
  - intros u Hu. apply elem_of_union in Hu as [Hu|Hu]; [by apply Hg|].
    by apply elem_of_singleton in Hu as ->.
Qed.

Lemma any_loop (fuel : nat) :
  ∀ frontier explored r,
    Rinv r → any_inv frontier explored →
    (∃ q s, walk s0 edges q s ∧ goalp s = true) →
    (potential U B frontier explored < fuel)%nat →
    ∃ path r' s,
      search_loop get priority fuel frontier explored r
        = Some (Ok (Some path), r')
      ∧ walk s0 edges path s ∧ goalp s = true.
Proof.
  induction fuel as [|fuel IH]; intros frontier explored r Hr Hinv Hreach Hfuel;
    [lia|].
  cbn [search_loop]. pose proof (get_takes_one frontier) as Hget.
  destruct (get frontier) as [[[pr [[state path] cost]] rest]|].
  2:{ exfalso. subst frontier. destruct Hreach as (q & s & Hw & Hg).
      destruct (any_covers _ _ q s Hinv Hw) as [Hs|Hne]; [|done].
      pose proof (any_goal _ _ Hinv s Hs). congruence. }
  apply (any_inv_perm _ _ _ Hget) in Hinv.
  assert (Hlen : length frontier = Datatypes.S (length rest)) by (by rewrite Hget).
  assert (Hw0 : walk s0 edges path state).
  { pose proof (any_walk _ _ Hinv) as Hall. by apply Forall_inv in Hall. }
  pose proof (any_walk_P _ _ Hw0) as HP0.
  unfold potential in *.
  destruct (decide (state ∈ explored)) as [Hin|Hnew].
  - apply IH; [done|by eapply any_inv_skip|done|lia].
  - destruct (is_goal_goalp r state Hr HP0) as (r1 & -> & Hr1).
    destruct (goalp state) eqn:Hgoal.
    + by exists path, r1, state.
    + destruct (successors_edges r1 state Hr1 HP0) as (r2 & -> & Hr2).
      rewrite put_successors_eq.
      apply IH; [done|by apply (any_inv_expand pr)|done|].
      rewrite length_app.
      pose proof (new_entries_length priority (explored ∪ {[state]}) path cost
                    (edges state) r2).
      pose proof (edges_B state HP0).
      pose proof (size_unexplored U explored state (P_U _ HP0) Hnew).
      nia.
Qed.

Lemma any_inv_initial pr : any_inv [(pr, (s0, [], 0))] ∅.
Proof.
  split.
  - constructor; [|done]. apply walk_nil.
  - intros u x Hu. by apply elem_of_empty in Hu.
  - right. eexists. split; [by left|done].
  - intros u Hu. by apply elem_of_empty in Hu.
Qed.

Lemma search_finds (r : R) :
  Rinv r → (∃ q s, walk s0 edges q s ∧ goalp s = true) →
  ∀ fuel, (potential U B [] ∅ + 1 < fuel)%nat →
    ∃ path r' s,
      search get priority fuel r = Some (Ok (Some path), r')
      ∧ walk s0 edges path s ∧ goalp s = true.
Proof.
  intros Hr Hreach fuel Hfuel. unfold search. rewrite (start_s0 r Hr).
  apply any_loop; [done|apply any_inv_initial|done|].
  unfold potential in *. simpl in *. lia.
Qed.

End AnyDiscipline.

(** The search on the position representation of a maze, for any frontier
    discipline and any priority *)
Lemma position_search_finds (get : list (@Ass2.Entry (option Vector))
                                   → option (@Ass2.Entry (option Vector)
                                             * list (@Ass2.Entry (option Vector))))
    (priority : @Ass2.Node (option Vector) → Search.Position.t → Z)
    (g : Gamestate.t) (start goal : Vector) (cost_fn : Vector → Z)
    (r : Search.Position.t) :
  let a := Gamestate._statics g in
  takes_one get →
  Array.rectangular a →
  Gamestate.pacman g = Ok (Some start) →
  Search.Position.init g goal cost_fn = Ok r →
  (∃ q, wall_free a start q goal) →
  (∀ q v, wall_free a start q v → in_bounds a (vx v) (vy v)) →
  ∀ fuel, (potential (cells a) 4 [] ∅ + 2 ≤ fuel)%nat →
    ∃ path r',
      Ass2.search get priority fuel r = Some (Ok (Some path), r')
      ∧ wall_free a start path goal.
Proof.
  intros a Hget Hrect Hpac Hinit [q0 Hq0] Hclosed fuel Hfuel.
  set (w := length a). set (h := length (default [] (head a))).
  set (Rinv := position_inv a goal cost_fn (Some start) w h).
  set (P := fun s : option Vector => ∃ v q, s = Some v ∧ wall_free a start q v).
  set (goalp := fun s : option Vector => bool_decide (s = Some goal)).
  set (edges := position_edges a cost_fn).
  assert (Hbounds : ∀ v q, wall_free a start q v →
            0 ≤ vx v < Z.of_nat w ∧ 0 ≤ vy v < Z.of_nat h).
  { intros v q Hq. destruct (Hclosed q v Hq) as [Hx Hy].
    unfold height, len in *. subst w h. lia. }
  destruct (search_finds get priority Hget Rinv P (cells a) 4 (Some start)
              goalp edges) with (r := r) (fuel := fuel)
    as (path & r' & s & Hsearch & Hwalk & Hgoal).
  - intros s (v & q & -> & Hq). apply elem_of_cells. by eapply Hclosed.
  - intros r1 (_ & _ & _ & Hstart & _). exact Hstart.
  - exists start, []. done.
  - intros r1 s Hr1 (v & q & -> & Hq).
    destruct (Hbounds v q Hq) as [Hx Hy].
    exact (position_is_goal_eq a goal _ _ w h r1 v Hr1 Hx Hy).
  - intros r1 s Hr1 (v & q & -> & Hq). exists r1. split; [|done].
    destruct Hr1 as (Hwalls & _ & Hcost & _).
    cbn [Search.successors Search.Position.representation].
    rewrite (position_successors_eq a r1 v Hrect Hwalls). by rewrite Hcost.
  - intros s (v & q & -> & Hq). unfold edges, position_edges.
    apply Forall_fmap, Forall_forall. intros m Hm.
    apply list_elem_of_filter in Hm as [Hfree _]. simpl.
    exists (Vector.add v (Move.vector m)), (q ++ [m]). split; [done|].
    apply wall_free_snoc. by exists v.
  - intros s (v & q & -> & Hq). unfold edges, position_edges.
    rewrite length_fmap. etrans; [apply length_filter|]. done.
  - by apply (position_init_inv g goal cost_fn r (Some start)).
  - destruct (wall_free_walk a cost_fn start q0 goal Hq0) as (p & Hp & _).
    exists p, (Some goal). split; [done|]. unfold goalp. by apply bool_decide_eq_true.
  - lia.
  - exists path, r'. split; [exact Hsearch|].
    apply bool_decide_eq_true in Hgoal as ->.
    by destruct (walk_wall_free a _ start path (Some goal) Hwalk) as (v & [= <-] & Hpath).
Qed.

(** X11: depth-first search, uniform-cost search and A* find a path
    whenever there is one. In a rectangular maze that keeps the search
    inside the grid, with any cost function, any order on the nodes for the
    ties of [uniformcost] and any heuristic for [astar], each of the three
    comes to an end on the position representation and returns a path, and
    the path leads from Pacman's cell to the goal and enters no wall. *)
Theorem searches_find_a_path (g : Gamestate.t) (start goal : Vector)
    (cost_fn : Vector → Z) (r : Search.Position.t)
    (node_leb : @Ass2.Node (option Vector) → @Ass2.Node (option Vector) → bool)
    (heuristic : option Vector → Search.Position.t → Z) :
  let a := Gamestate._statics g in
  Array.rectangular a →
  Gamestate.pacman g = Ok (Some start) →
  Search.Position.init g goal cost_fn = Ok r →
  (∃ q, wall_free a start q goal) →
  (∀ q v, wall_free a start q v → in_bounds a (vx v) (vy v)) →
  ∃ n, ∀ fuel, (n ≤ fuel)%nat →
    (∃ path r', Ass2.depthfirst fuel r = Some (Ok (Some path), r')
                ∧ wall_free a start path goal)
    ∧ (∃ path r', Ass2.uniformcost node_leb fuel r = Some (Ok (Some path), r')
                  ∧ wall_free a start path goal)
    ∧ (∃ path r', Ass2.astar heuristic fuel r = Some (Ok (Some path), r')
                  ∧ wall_free a start path goal).
Proof.
  intros a Hrect Hpac Hinit Hreach Hclosed.
  exists (potential (cells a) 4 [] ∅ + 2)%nat. intros fuel Hfuel.
  split; [|split].
  - apply (position_search_finds _ _ g start goal cost_fn r); try done.
    apply lifo_get_takes_one.
  - apply (position_search_finds _ _ g start goal cost_fn r); try done.
    apply priority_get_takes_one.
  - apply (position_search_finds _ _ g start goal cost_fn r); try done.
    apply priority_get_takes_one.
Qed.

Lemma searches_find_a_path_witness :
  ∃ n, ∀ fuel, (n ≤ fuel)%nat →
    (∃ path r', Ass2.depthfirst fuel room_representation = Some (Ok (Some path), r')
                ∧ wall_free room (mkVector 1 1) path (mkVector 3 3))
    ∧ (∃ path r', Ass2.uniformcost (fun _ _ => true) fuel room_representation
                  = Some (Ok (Some path), r')
                  ∧ wall_free room (mkVector 1 1) path (mkVector 3 3))
    ∧ (∃ path r', Ass2.astar (fun _ _ => 0) fuel room_representation
                  = Some (Ok (Some path), r')
                  ∧ wall_free room (mkVector 1 1) path (mkVector 3 3)).
Proof.
  apply (searches_find_a_path room_world (mkVector 1 1) (mkVector 3 3)
           (fun _ => 1) room_representation (fun _ _ => true) (fun _ _ => 0)).
  - unfold Array.rectangular. simpl. repeat constructor.
  - reflexivity.
  - reflexivity.
  - exists [Move.up; Move.up; Move.right; Move.right]. simpl.
    repeat (split; [discriminate|]). reflexivity.
  - apply enclosed_closed; [exact room_enclosed| |discriminate].
    change (0 ≤ 1 < 5 ∧ 0 ≤ 1 < 5). lia.
Defined.

(** ** Uniform-cost search and A* return a cheapest path ([ass2.py]) *)

(** The order of the entries of [uniformcost]: by the cost first *)
Definition cost_first {S : Type} (node_leb : @Ass2.Node S → @Ass2.Node S → bool)
    (e1 e2 : @Ass2.Entry S) : bool :=
  (e1.1 <? e2.1) || ((e1.1 =? e2.1) && node_leb e1.2 e2.2).

(** The order of the entries of [astar]: by the priority, and the entry
    that was put first among those of one priority *)
Definition priority_first {S : Type} (e1 e2 : @Ass2.Entry S) : bool := e1.1 <=? e2.1.

(** An order on the entries that goes by the priority first *)
Definition by_priority {S : Type} (leb : @Ass2.Entry S → @Ass2.Entry S → bool) : Prop :=
  ∀ e1 e2, if leb e1 e2 then e1.1 ≤ e2.1 else e2.1 ≤ e1.1.

Lemma cost_first_by_priority {S : Type} (node_leb : @Ass2.Node S → @Ass2.Node S → bool) :
  by_priority (cost_first node_leb).
Proof.
  intros e1 e2. unfold cost_first.
  destruct (Z.ltb_spec e1.1 e2.1); simpl; [lia|].
  destruct (Z.eqb_spec e1.1 e2.1); simpl; [|lia].
  destruct (node_leb _ _); lia.
Qed.

Lemma priority_first_by_priority {S : Type} : by_priority (@priority_first S).
Proof.
  intros e1 e2. unfold priority_first. destruct (Z.leb_spec e1.1 e2.1); lia.
Qed.

Lemma priority_get_least {S : Type} (leb : @Ass2.Entry S → @Ass2.Entry S → bool)
    (l : list (@Ass2.Entry S)) (m : @Ass2.Entry S) (rest : list (@Ass2.Entry S)) :
  by_priority leb →
  Ass2.priority_get leb l = Some (m, rest) →
  ∀ e, e ∈ l → m.1 ≤ e.1.
Proof.
  intros Hleb. revert m rest. induction l as [|e0 l IH]; intros m rest; [done|].
  cbn [Ass2.priority_get].
  destruct (Ass2.priority_get leb l) as [[m' rest']|] eqn:Hget.
  - specialize (IH m' rest' eq_refl). pose proof (Hleb e0 m') as Hcmp.
    destruct (leb e0 m').
    + intros [= <- <-] e He. apply elem_of_cons in He as [->|He]; [lia|].
      specialize (IH e He). lia.
    + intros [= <- <-] e He. apply elem_of_cons in He as [->|He]; [lia|].
      by apply IH.
  - intros [= <- <-] e He. apply elem_of_cons in He as [->|He]; [lia|].
    pose proof (priority_get_takes_one leb l) as Ht.
    rewrite Hget in Ht. subst l. by apply elem_of_nil in He.
Qed.

Section PrioritySearch.
Import Search Ass2.
Context {R S : Type} `{Countable S} `{!SearchRepresentation R S}.
Variable leb : @Entry S → @Entry S → bool.
Variable priority : @Node S → R → Z.
Variable h : S → Z.
Variable Rinv : R → Prop.
Variable P : S → Prop.
Variable U : gset S.
Variable B : nat.
Variable s0 : S.
Variable goalp : S → bool.
Variable edges : S → list (Successor S).
Hypothesis P_U : ∀ s, P s → s ∈ U.
Hypothesis start_s0 : ∀ r, Rinv r → start r = s0.
Hypothesis P_s0 : P s0.
Hypothesis is_goal_goalp : ∀ r s, Rinv r → P s →
  ∃ r', is_goal s r = (Ok (goalp s), r') ∧ Rinv r'.
Hypothesis successors_edges : ∀ r s, Rinv r → P s →
  ∃ r', successors s r = (Ok (edges s), r') ∧ Rinv r'.
Hypothesis edges_P : ∀ s, P s → Forall (fun x : Successor S => P x.1.1) (edges s).
Hypothesis edges_B : ∀ s, P s → (length (edges s) ≤ B)%nat.
(** The frontier goes by the priority, which is the cost of the node and
    what [h] adds for its state; and [h] is consistent: along a successor it
    goes down by no more than the successor costs. *)
Hypothesis leb_by_priority : by_priority leb.
Hypothesis priority_h : ∀ r node, Rinv r → P node.1.1 →
  priority node r = h node.1.1 + node.2.
Hypothesis h_consistent : ∀ s, P s →
  Forall (fun x : Successor S => h s ≤ x.2 + h x.1.1) (edges s).

Let get := priority_get leb.

(** The action sequences that lead from the start to a state, with the
    cost that the search adds up for them *)
Inductive cwalk : list Move.t → Z → S → Prop :=
| cwalk_nil : cwalk [] 0 s0
| cwalk_snoc p c s x :
    cwalk p c s → x ∈ edges s → cwalk (p ++ x.1.2) (c + x.2) x.1.1.

Lemma cwalk_P p c s : cwalk p c s → P s.
Proof.
  induction 1 as [|p c s x Hw IH Hx]; [done|].
  pose proof (edges_P s IH) as Hall. rewrite Forall_forall in Hall.
  by apply Hall.
Qed.

Record ucs_inv (frontier : list (@Entry S)) (explored : gset S) : Prop := {
  ucs_walk : Forall (fun e : @Entry S =>
                       cwalk e.2.1.2 e.2.2 e.2.1.1 ∧ e.1 = h e.2.1.1 + e.2.2)
               frontier;
  ucs_edges : ∀ u q c x, u ∈ explored → cwalk q c u → x ∈ edges u →
    x.1.1 ∈ explored
    ∨ ∃ e : @Entry S, e ∈ frontier ∧ e.2.1.1 = x.1.1 ∧ e.1 ≤ h x.1.1 + (c + x.2);
  ucs_start : s0 ∈ explored
    ∨ ∃ e : @Entry S, e ∈ frontier ∧ e.2.1.1 = s0 ∧ e.1 ≤ h s0 + 0;
  ucs_goal : ∀ u, u ∈ explored → goalp u = false;
}.

Lemma ucs_inv_perm frontier frontier' explored :
  frontier ≡ₚ frontier' → ucs_inv frontier explored → ucs_inv frontier' explored.
Proof.
  intros Hp [Hw He Hs Hg]. split.
  - by rewrite <- Hp.
  - intros u q c x Hu Hq Hx.
    destruct (He u q c x Hu Hq Hx) as [?|(e & Hin & Hst)]; [by left|].
    right. exists e. by rewrite <- Hp.
  - destruct Hs as [?|(e & Hin & Hst)]; [by left|]. right. exists e.
    by rewrite <- Hp.
  - done.
Qed.

(** Every state that can be reached is explored, or some entry of the
    frontier costs no more than the path that reaches it. *)
Lemma ucs_covers frontier explored q c s :
  ucs_inv frontier explored → cwalk q c s →
  s ∈ explored ∨ ∃ e : @Entry S, e ∈ frontier ∧ e.1 ≤ h s + c.
Proof.
  intros Hinv Hw. induction Hw as [|p c s x Hw IH Hx].
  - destruct (ucs_start _ _ Hinv) as [Hs|(e & He & _ & Hc)]; [by left|].
    right. by exists e.
  - pose proof (h_consistent s (cwalk_P _ _ _ Hw)) as Hall.
    rewrite Forall_forall in Hall. pose proof (Hall x Hx) as Hcons. simpl in Hcons.
    destruct IH as [Hs|(e & He & Hc)].
    + destruct (ucs_edges _ _ Hinv s p c x Hs Hw Hx) as [Hex|(e & He & _ & Hc)];
        [by left|]. right. by exists e.
    + right. exists e. split; [done|lia].
Qed.

Lemma ucs_inv_skip e0 rest explored :
  ucs_inv (e0 :: rest) explored → e0.2.1.1 ∈ explored → ucs_inv rest explored.
Proof.
  intros [Hw He Hs Hg] Hin. split.
  - by eapply Forall_inv_tail.
  - intros u q c x Hu Hq Hx.
    destruct (He u q c x Hu Hq Hx) as [?|(e & Hine & Hst & Hc)]; [by left|].
    apply elem_of_cons in Hine as [->|Hine]; [left; by rewrite <- Hst|].
    right. by exists e.
  - destruct Hs as [?|(e & Hine & Hst & Hc)]; [by left|].
    apply elem_of_cons in Hine as [->|Hine]; [left; by rewrite <- Hst|].
    right. by exists e.
  - done.
Qed.

Lemma ucs_inv_expand pr state path cost rest explored r :
  Rinv r →
  ucs_inv ((pr, (state, path, cost)) :: rest) explored →
  (∀ e : @Entry S, e ∈ (pr, (state, path, cost)) :: rest → pr ≤ e.1) →
  state ∉ explored → goalp state = false →
  ucs_inv (rest ++ new_entries priority (explored ∪ {[state]}) path cost
                     (edges state) r)
          (explored ∪ {[state]}).
Proof.
  intros Hr Hinv Hleast Hnew Hgoal. pose proof Hinv as [Hw He Hs Hg].
  assert (Hw0 : cwalk path cost state ∧ pr = h state + cost)
    by (by apply Forall_inv in Hw).
  destruct Hw0 as [Hw0 ->].
  pose proof (edges_P state (cwalk_P _ _ _ Hw0)) as HallP.
  rewrite Forall_forall in HallP.
  split.
  - apply Forall_app. split; [by eapply Forall_inv_tail|].
    unfold new_entries. apply Forall_fmap, Forall_forall. intros x Hx.
    apply list_elem_of_filter in Hx as [_ Hx]. simpl. split.
    + by apply (cwalk_snoc path cost state x).
    + rewrite priority_h; [done|done|]. simpl. by apply HallP.
  - intros u q c x Hu Hq Hx. apply elem_of_union in Hu as [Hu|Hu].
    + destruct (He u q c x Hu Hq Hx) as [Hex|(e & Hine & Hst & Hc)].
      { left. apply elem_of_union. by left. }
      apply elem_of_cons in Hine as [->|Hine].
      { left. apply elem_of_union. right. apply elem_of_singleton.
        by rewrite <- Hst. }
      right. exists e. split; [|done]. apply elem_of_app. by left.
    + apply elem_of_singleton in Hu as ->.
      destruct (decide (x.1.1 ∈ explored ∪ {[state]})) as [Hex|Hex]; [by left|].
      right. eexists. split; [|split].
      * apply elem_of_app. right. unfold new_entries.
        apply list_elem_of_fmap. exists x. split; [done|].
        by apply list_elem_of_filter.
      * done.
      * simpl. rewrite priority_h; [|done|simpl; by apply HallP]. simpl.
        destruct (ucs_covers _ _ q c state Hinv Hq) as [Hin|(e & Hine & Hc)];
          [done|].
        specialize (Hleast e Hine). simpl in Hleast. lia.
  - destruct Hs as [Hs|(e & Hine & Hst & Hc)].
    { left. apply elem_of_union. by left. }
    apply elem_of_cons in Hine as [->|Hine].
    { left. apply elem_of_union. right. apply elem_of_singleton. by rewrite <- Hst. }
    right. exists e. split; [|done]. apply elem_of_app. by left.
  - intros u Hu. apply elem_of_union in Hu as [Hu|Hu]; [by apply Hg|].
    by apply elem_of_singleton in Hu as ->.
Qed.

Lemma ucs_loop (fuel : nat) :
  ∀ frontier explored r,
    Rinv r → ucs_inv frontier explored →
    (∃ q c s, cwalk q c s ∧ goalp s = true) →
    (potential U B frontier explored < fuel)%nat →
    ∃ path cost r' s,
      search_loop get priority fuel frontier explored r
        = Some (Ok (Some path), r')
      ∧ cwalk path cost s ∧ goalp s = true
      ∧ ∀ q c s', cwalk q c s' → goalp s' = true → h s + cost ≤ h s' + c.
Proof.
  induction fuel as [|fuel IH]; intros frontier explored r Hr Hinv Hreach Hfuel;
    [lia|].
  cbn [search_loop].
  pose proof (priority_get_takes_one leb frontier) as Hget.
  pose proof (priority_get_least leb frontier) as Hleast.
  fold get in Hget, Hleast.
  destruct (get frontier) as [[[pr [[state path] cost]] rest]|].
  2:{ exfalso. subst frontier. destruct Hreach as (q & c & s & Hw & Hg).
      destruct (ucs_covers _ _ q c s Hinv Hw) as [Hs|(e & He & _)].
      - pose proof (ucs_goal _ _ Hinv s Hs). congruence.
      - by apply elem_of_nil in He. }
  specialize (Hleast _ _ leb_by_priority eq_refl). simpl in Hleast.
  assert (Hleast' : ∀ e : @Entry S, e ∈ (pr, (state, path, cost)) :: rest → pr ≤ e.1).
  { intros e He. apply Hleast. by rewrite Hget. }
  apply (ucs_inv_perm _ _ _ Hget) in Hinv.
  assert (Hlen : length frontier = Datatypes.S (length rest)) by (by rewrite Hget).
  assert (Hw0 : cwalk path cost state ∧ pr = h state + cost).
  { pose proof (ucs_walk _ _ Hinv) as Hall. by apply Forall_inv in Hall. }
  destruct Hw0 as [Hw0 ->].
  pose proof (cwalk_P _ _ _ Hw0) as HP0.
  unfold potential in *.
  destruct (decide (state ∈ explored)) as [Hin|Hnew].
  - apply IH; [done|by eapply ucs_inv_skip|done|lia].
  - destruct (is_goal_goalp r state Hr HP0) as (r1 & -> & Hr1).
    destruct (goalp state) eqn:Hgoal.
    + exists path, cost, r1, state. split; [done|]. split; [done|].
      split; [done|]. intros q c s' Hw Hg.
      destruct (ucs_covers _ _ q c s' Hinv Hw) as [Hs|(e & He & Hc)].
      * pose proof (ucs_goal _ _ Hinv s' Hs). congruence.
      * specialize (Hleast' e He). lia.
    + destruct (successors_edges r1 state Hr1 HP0) as (r2 & -> & Hr2).
      rewrite put_successors_eq.
      apply IH; [done|by apply (ucs_inv_expand (h state + cost))|done|].
      rewrite length_app.
      pose proof (new_entries_length priority (explored ∪ {[state]}) path cost
                    (edges state) r2).
      pose proof (edges_B state HP0).
      pose proof (size_unexplored U explored state (P_U _ HP0) Hnew).
      nia.
Qed.

Lemma ucs_inv_initial (r : R) : Rinv r → ucs_inv [(priority (s0, [], 0) r, (s0, [], 0))] ∅.
Proof.
  intros Hr. split.
  - constructor; [|done]. split; [apply cwalk_nil|]. by rewrite priority_h.
  - intros u q c x Hu. by apply elem_of_empty in Hu.
  - right. eexists. split; [by left|]. split; [done|]. simpl.
    rewrite priority_h by done. done.
  - intros u Hu. by apply elem_of_empty in Hu.
Qed.

(** A search that takes a node of least priority first, with a consistent
    [h], returns a path of least cost to a goal. *)
Lemma priority_search_correct (r : R) :
  Rinv r → (∃ q c s, cwalk q c s ∧ goalp s = true) →
  ∀ fuel, (potential U B [] ∅ + 1 < fuel)%nat →
    ∃ path cost r' s,
      search get priority fuel r = Some (Ok (Some path), r')
      ∧ cwalk path cost s ∧ goalp s = true
      ∧ ∀ q c s', cwalk q c s' → goalp s' = true → h s + cost ≤ h s' + c.
Proof.
  intros Hr Hreach fuel Hfuel. unfold search.
  rewrite (start_s0 r Hr).
  apply ucs_loop; [done|by apply ucs_inv_initial|done|].
  unfold potential in *. simpl in *. lia.
Qed.

End PrioritySearch.

(** What the search adds up for a sequence of moves from [u]: [cost_fn] of
    every position that is entered *)
Fixpoint entered_cost (cost_fn : Vector → Z) (u : Vector) (q : list Move.t) : Z :=
  match q with
  | [] => 0
  | m :: q =>
      cost_fn (Vector.add u (Move.vector m))
      + entered_cost cost_fn (Vector.add u (Move.vector m)) q
  end.

Lemma entered_cost_snoc a cost_fn u q m v :
  wall_free a u q v →
  entered_cost cost_fn u (q ++ [m])
  = entered_cost cost_fn u q + cost_fn (Vector.add v (Move.vector m)).
Proof.
  revert u. induction q as [|m' q IH]; intros u; simpl.
  - intros <-. lia.
  - intros [_ Hq]. rewrite (IH _ Hq). lia.
Qed.

Section CostMaze.
Variable a : list (list LayoutObject.t).
Variable cost_fn : Vector → Z.
Variable start : Vector.
Hypothesis cost_pos : ∀ v, 0 ≤ cost_fn v.

Lemma cwalk_wall_free p c s :
  cwalk (Some start) (position_edges a cost_fn) p c s →
  ∃ v, s = Some v ∧ wall_free a start p v ∧ c = entered_cost cost_fn start p.
Proof.
  induction 1 as [|p c s x Hw (v & -> & IH & ->) Hx]; [by exists start|].
  unfold position_edges in Hx. apply list_elem_of_fmap in Hx as (m & -> & Hm).
  apply list_elem_of_filter in Hm as [Hfree _]. simpl.
  eexists. split; [done|]. split.
  - apply wall_free_snoc. by exists v.
  - by rewrite (entered_cost_snoc a cost_fn start p m v).
Qed.

Lemma wall_free_cwalk q v :
  wall_free a start q v →
  ∃ p c, cwalk (Some start) (position_edges a cost_fn) p c (Some v)
         ∧ c ≤ entered_cost cost_fn start q.
Proof.
  revert v. induction q as [|m q IH] using rev_ind; intros v.
  - intros <-. exists [], 0. split; [apply cwalk_nil|done].
  - intros Hall. pose proof Hall as (v' & Hq & Hfree & ->)%wall_free_snoc.
    destruct (IH v' Hq) as (p & c & Hp & Hc).
    rewrite (entered_cost_snoc a cost_fn start q m v' Hq).
    destruct (decide (m = Move.stop)) as [->|Hm].
    + rewrite Vector_add_stop. exists p, c. split; [done|].
      specialize (cost_pos v'). lia.
    + exists (p ++ [m]), (c + cost_fn (Vector.add v' (Move.vector m))).
      split; [|lia].
      apply (cwalk_snoc (Some start) (position_edges a cost_fn) p c (Some v')
               (Some (Vector.add v' (Move.vector m)), [m],
                cost_fn (Vector.add v' (Move.vector m)))); [done|].
      unfold position_edges. apply list_elem_of_fmap. exists m. split; [done|].
      apply list_elem_of_filter. split; [done|].
      unfold Move.no_stop. apply list_elem_of_filter. split; [done|].
      destruct m; unfold Move.all; repeat constructor.
Qed.
End CostMaze.

(** X12: uniform-cost search returns a cheapest path. In a rectangular maze
    that keeps the search inside the grid, with a cost function that is
    never negative and any order on the nodes for the ties, [uniformcost]
    on the position representation comes to an end and returns a path from
    Pacman's cell to the goal that enters no wall; and of all such
    sequences of moves none costs less, where a sequence costs what the
    search adds up for it: the cost function at every position that is
    entered. *)
Theorem uniformcost_cheapest_path (g : Gamestate.t) (start goal : Vector)
    (cost_fn : Vector → Z) (r : Search.Position.t)
    (node_leb : @Ass2.Node (option Vector) → @Ass2.Node (option Vector) → bool) :
  let a := Gamestate._statics g in
  Array.rectangular a →
  (∀ v, 0 ≤ cost_fn v) →
  Gamestate.pacman g = Ok (Some start) →
  Search.Position.init g goal cost_fn = Ok r →
  (∃ q, wall_free a start q goal) →
  (∀ q v, wall_free a start q v → in_bounds a (vx v) (vy v)) →
  ∃ n, ∀ fuel, (n ≤ fuel)%nat →
    ∃ path r',
      Ass2.uniformcost node_leb fuel r = Some (Ok (Some path), r')
      ∧ wall_free a start path goal
      ∧ ∀ q, wall_free a start q goal →
             entered_cost cost_fn start path ≤ entered_cost cost_fn start q.
Proof.
  intros a Hrect Hcost Hpac Hinit [q0 Hq0] Hclosed.
  set (w := length a). set (h := length (default [] (head a))).
  set (Rinv := position_inv a goal cost_fn (Some start) w h).
  set (P := fun s : option Vector => ∃ v q, s = Some v ∧ wall_free a start q v).
  set (goalp := fun s : option Vector => bool_decide (s = Some goal)).
  set (edges := position_edges a cost_fn).
  exists (potential (cells a) 4 [] ∅ + 2)%nat. intros fuel Hfuel.
  assert (Hbounds : ∀ v q, wall_free a start q v →
            0 ≤ vx v < Z.of_nat w ∧ 0 ≤ vy v < Z.of_nat h).
  { intros v q Hq. destruct (Hclosed q v Hq) as [Hx Hy].
    unfold height, len in *. subst w h. lia. }
  destruct (priority_search_correct (cost_first node_leb) (fun node _ => node.2)
              (fun _ => 0) Rinv P (cells a) 4 (Some start) goalp edges)
    with (r := r) (fuel := fuel)
    as (path & cost & r' & s & Hsearch & Hwalk & Hgoal & Hmin).
  - intros s (v & q & -> & Hq). apply elem_of_cells. by eapply Hclosed.
  - intros r1 (_ & _ & _ & Hstart & _). exact Hstart.
  - exists start, []. done.
  - intros r1 s Hr1 (v & q & -> & Hq).
    destruct (Hbounds v q Hq) as [Hx Hy].
    exact (position_is_goal_eq a goal _ _ w h r1 v Hr1 Hx Hy).
  - intros r1 s Hr1 (v & q & -> & Hq). exists r1. split; [|done].
    destruct Hr1 as (Hwalls & _ & Hcf & _).
    cbn [Search.successors Search.Position.representation].
    rewrite (position_successors_eq a r1 v Hrect Hwalls). by rewrite Hcf.
  - intros s (v & q & -> & Hq). unfold edges, position_edges.
    apply Forall_fmap, Forall_forall. intros m Hm.
    apply list_elem_of_filter in Hm as [Hfree _]. simpl.
    exists (Vector.add v (Move.vector m)), (q ++ [m]). split; [done|].
    apply wall_free_snoc. by exists v.
  - intros s (v & q & -> & Hq). unfold edges, position_edges.
    rewrite length_fmap. etrans; [apply length_filter|]. done.
  - apply cost_first_by_priority.
  - done.
  - intros s (v & q & -> & Hq). unfold edges, position_edges.
    apply Forall_fmap, Forall_forall. intros m Hm. simpl.
    specialize (Hcost (Vector.add v (Move.vector m))). lia.
  - by apply (position_init_inv g goal cost_fn r (Some start)).
  - destruct (wall_free_cwalk a cost_fn start Hcost q0 goal Hq0) as (p & c & Hp & _).
    exists p, c, (Some goal). split; [done|]. unfold goalp.
    by apply bool_decide_eq_true.
  - lia.
  - exists path, r'. split; [exact Hsearch|].
    apply bool_decide_eq_true in Hgoal as ->.
    destruct (cwalk_wall_free a _ start path cost (Some goal) Hwalk)
      as (v & [= <-] & Hpath & ->).
    split; [done|]. intros q Hq.
    destruct (wall_free_cwalk a cost_fn start Hcost q goal Hq) as (p & c & Hp & Hc).
    specialize (Hmin p c (Some goal) Hp). unfold goalp in Hmin.
    rewrite bool_decide_eq_true_2 in Hmin by done. specialize (Hmin eq_refl). lia.
Qed.

Lemma uniformcost_cheapest_path_witness :
  ∃ n, ∀ fuel, (n ≤ fuel)%nat →
    ∃ path r',
      Ass2.uniformcost (fun _ _ => true) fuel room_representation
      = Some (Ok (Some path), r')
      ∧ wall_free room (mkVector 1 1) path (mkVector 3 3)
      ∧ ∀ q, wall_free room (mkVector 1 1) q (mkVector 3 3) →
             entered_cost (fun _ => 1) (mkVector 1 1) path
             ≤ entered_cost (fun _ => 1) (mkVector 1 1) q.
Proof.
  apply (uniformcost_cheapest_path room_world (mkVector 1 1) (mkVector 3 3)
           (fun _ => 1) room_representation (fun _ _ => true)).
  - unfold Array.rectangular. simpl. repeat constructor.
  - intros v. lia.
  - reflexivity.
  - reflexivity.
  - exists [Move.up; Move.up; Move.right; Move.right]. simpl.
    repeat (split; [discriminate|]). reflexivity.
  - apply enclosed_closed; [exact room_enclosed| |discriminate].
    change (0 ≤ 1 < 5 ∧ 0 ≤ 1 < 5). lia.
Defined.

(** X24: A* returns a cheapest path. In a rectangular maze that keeps the
    search inside the grid, with a cost function that is at least 1
    everywhere and a heuristic that is the Manhattan or the null heuristic
    on positions, [astar] on the position representation comes to an end
    and returns a path from Pacman's cell to the goal that enters no wall;
    and of all such sequences of moves none costs less, where a sequence
    costs the cost function at every position that is entered. *)
Theorem astar_cheapest_path (g : Gamestate.t) (start goal : Vector)
    (cost_fn : Vector → Z) (r : Search.Position.t)
    (heuristic : option Vector → Search.Position.t → Z) :
  let a := Gamestate._statics g in
  Array.rectangular a →
  (∀ v, 1 ≤ cost_fn v) →
  (∀ v r', heuristic (Some v) r' = Search.manhattan v r')
  ∨ (∀ v r', heuristic (Some v) r' = Search.null (Some v) r') →
  Gamestate.pacman g = Ok (Some start) →
  Search.Position.init g goal cost_fn = Ok r →
  (∃ q, wall_free a start q goal) →
  (∀ q v, wall_free a start q v → in_bounds a (vx v) (vy v)) →
  ∃ n, ∀ fuel, (n ≤ fuel)%nat →
    ∃ path r',
      Ass2.astar heuristic fuel r = Some (Ok (Some path), r')
      ∧ wall_free a start path goal
      ∧ ∀ q, wall_free a start q goal →
             entered_cost cost_fn start path ≤ entered_cost cost_fn start q.
Proof.
  intros a Hrect Hcost Hheur Hpac Hinit [q0 Hq0] Hclosed.
  set (w := length a). set (h := length (default [] (head a))).
  set (Rinv := position_inv a goal cost_fn (Some start) w h).
  set (P := fun s : option Vector => ∃ v q, s = Some v ∧ wall_free a start q v).
  set (goalp := fun s : option Vector => bool_decide (s = Some goal)).
  set (edges := position_edges a cost_fn).
  assert (Hcost0 : ∀ v, 0 ≤ cost_fn v) by (intros v; specialize (Hcost v); lia).
  assert (Hh : ∃ hh : Vector → Z,
            (∀ r' v, Rinv r' → heuristic (Some v) r' = hh v)
            ∧ ∀ v m, hh v ≤ cost_fn (Vector.add v (Move.vector m))
                            + hh (Vector.add v (Move.vector m))).
  { destruct Hheur as [Hm|Hn].
    - exists (fun v => manhattan v goal). split.
      + intros r' v (_ & Hgoal & _). rewrite Hm. unfold Search.manhattan.
        by rewrite Hgoal.
      + intros v m. specialize (Hcost (Vector.add v (Move.vector m))).
        destruct (manhattan_laws v (Vector.add v (Move.vector m)) goal m)
          as (_ & _ & _ & Htri & Hstep).
        destruct (decide (m = Move.stop)); lia.
    - exists (fun _ => 0). split.
      + intros r' v _. by rewrite Hn.
      + intros v m. specialize (Hcost (Vector.add v (Move.vector m))). lia. }
  destruct Hh as (hh & Hhh & Hcons).
  exists (potential (cells a) 4 [] ∅ + 2)%nat. intros fuel Hfuel.
  assert (Hbounds : ∀ v q, wall_free a start q v →
            0 ≤ vx v < Z.of_nat w ∧ 0 ≤ vy v < Z.of_nat h).
  { intros v q Hq. destruct (Hclosed q v Hq) as [Hx Hy].
    unfold height, len in *. subst w h. lia. }
  destruct (priority_search_correct priority_first
              (fun node r => heuristic node.1.1 r + node.2)
              (fun s => match s with Some v => hh v | None => 0 end)
              Rinv P (cells a) 4 (Some start) goalp edges)
    with (r := r) (fuel := fuel)
    as (path & cost & r' & s & Hsearch & Hwalk & Hgoal & Hmin).
  - intros s (v & q & -> & Hq). apply elem_of_cells. by eapply Hclosed.
  - intros r1 (_ & _ & _ & Hstart & _). exact Hstart.
  - exists start, []. done.
  - intros r1 s Hr1 (v & q & -> & Hq).
    destruct (Hbounds v q Hq) as [Hx Hy].
    exact (position_is_goal_eq a goal _ _ w h r1 v Hr1 Hx Hy).
  - intros r1 s Hr1 (v & q & -> & Hq). exists r1. split; [|done].
    destruct Hr1 as (Hwalls & _ & Hcf & _).
    cbn [Search.successors Search.Position.representation].
    rewrite (position_successors_eq a r1 v Hrect Hwalls). by rewrite Hcf.
  - intros s (v & q & -> & Hq). unfold edges, position_edges.
    apply Forall_fmap, Forall_forall. intros m Hm.
    apply list_elem_of_filter in Hm as [Hfree _]. simpl.
    exists (Vector.add v (Move.vector m)), (q ++ [m]). split; [done|].
    apply wall_free_snoc. by exists v.
  - intros s (v & q & -> & Hq). unfold edges, position_edges.
    rewrite length_fmap. etrans; [apply length_filter|]. done.
  - apply priority_first_by_priority.
  - intros r1 [[s p] c] Hr1 (v & q & Hs & Hq). simpl in Hs. subst s. simpl.
    by rewrite (Hhh r1 v Hr1).
  - intros s (v & q & -> & Hq). unfold edges, position_edges.
    apply Forall_fmap, Forall_forall. intros m Hm. simpl.
    specialize (Hcons v m). lia.
  - by apply (position_init_inv g goal cost_fn r (Some start)).
  - destruct (wall_free_cwalk a cost_fn start Hcost0 q0 goal Hq0) as (p & c & Hp & _).
    exists p, c, (Some goal). split; [done|]. unfold goalp.
    by apply bool_decide_eq_true.
  - lia.
  - exists path, r'. split; [exact Hsearch|].
    apply bool_decide_eq_true in Hgoal as ->.
    destruct (cwalk_wall_free a _ start path cost (Some goal) Hwalk)
      as (v & [= <-] & Hpath & ->).
    split; [done|]. intros q Hq.
    destruct (wall_free_cwalk a cost_fn start Hcost0 q goal Hq) as (p & c & Hp & Hc).
    specialize (Hmin p c (Some goal) Hp). unfold goalp in Hmin.
    rewrite bool_decide_eq_true_2 in Hmin by done. specialize (Hmin eq_refl). lia.
Qed.

Lemma astar_cheapest_path_witness :
  ∃ n, ∀ fuel, (n ≤ fuel)%nat →
    ∃ path r',
      Ass2.astar (fun s r => match s with
                             | Some v => Search.manhattan v r
                             | None => 0
                             end) fuel room_representation
      = Some (Ok (Some path), r')
      ∧ wall_free room (mkVector 1 1) path (mkVector 3 3)
      ∧ ∀ q, wall_free room (mkVector 1 1) q (mkVector 3 3) →
             entered_cost (fun _ => 1) (mkVector 1 1) path
             ≤ entered_cost (fun _ => 1) (mkVector 1 1) q.
Proof.
  apply (astar_cheapest_path room_world (mkVector 1 1) (mkVector 3 3)
           (fun _ => 1) room_representation
           (fun s r => match s with
                       | Some v => Search.manhattan v r
                       | None => 0
                       end)).
  - unfold Array.rectangular. simpl. repeat constructor.
  - intros v. lia.
  - left. done.
  - reflexivity.
  - reflexivity.
  - exists [Move.up; Move.up; Move.right; Move.right]. simpl.
    repeat (split; [discriminate|]). reflexivity.
  - apply enclosed_closed; [exact room_enclosed| |discriminate].
    change (0 ≤ 1 < 5 ∧ 0 ≤ 1 < 5). lia.
Defined.

(** ** The rules of the game ([pacman/gamestate.py]) *)

(** A world that is well formed: the grid is rectangular, every agent has
    a start, a facing and a timer, and the agents that are there and the
    starts are on cells that are no walls. *)
Definition well_formed (g : Gamestate.t) : Prop :=
  Array.rectangular (Gamestate._statics g)
  ∧ length (Gamestate.starts g) = length (Gamestate.agents g)
  ∧ length (Gamestate.facings g) = length (Gamestate.agents g)
  ∧ length (Gamestate._timers g) = length (Gamestate.agents g)
  ∧ Forall (on_floor (Gamestate._statics g)) (Gamestate.agents g)
  ∧ Forall (on_floor (Gamestate._statics g)) (Gamestate.starts g).

Lemma playable_well_formed (g : Gamestate.t) : playable g → well_formed g.
Proof. intros (Hr & Hs & Hf & Ht & Ha & Hst & _). by repeat split. Qed.

Lemma well_formed_moved (g : Gamestate.t) (agent_id : nat) (move : Move.t)
    (vector : Vector) (timer : Z) :
  well_formed g →
  ¬ is_wall (Gamestate._statics g) (Vector.add vector (Move.vector move)) →
  well_formed (moved agent_id move vector timer g).
Proof.
  intros (Hr & Hs & Hf & Ht & Ha & Hst) Hfree.
  unfold well_formed, moved. simpl. rewrite !length_insert.
  repeat (split; [done|]). split; [|done].
  by apply Forall_insert.
Qed.

Lemma well_formed_resolved (g : Gamestate.t) (ghost_id : nat) (timer : Z)
    (start : option Vector) :
  well_formed g →
  Gamestate.starts g !! ghost_id = Some start →
  well_formed (resolved ghost_id timer start g).
Proof.
  intros (Hr & Hs & Hf & Ht & Ha & Hst) Hstart.
  unfold well_formed, resolved. destruct (decide (timer ≠ 0)); simpl;
    rewrite ?length_insert.
  - repeat (split; [done|]). split; [|done].
    apply Forall_insert; [done|].
    rewrite Forall_forall in Hst. apply Hst. by eapply list_elem_of_lookup_2.
  - repeat (split; [done|]). split; [|done]. by apply Forall_insert.
Qed.

Lemma resolve_encounter_well_formed (g : Gamestate.t) (ghost_id : nat) :
  well_formed g → ghost_id ≠ Gamestate.PACMAN_ID →
  (ghost_id < length (Gamestate.agents g))%nat →
  ∃ timer start,
    Gamestate._timers g !! ghost_id = Some timer
    ∧ Gamestate.starts g !! ghost_id = Some start
    ∧ Gamestate._resolve_encounter ghost_id g
      = (Ok (), resolved ghost_id timer start g)
    ∧ well_formed (resolved ghost_id timer start g).
Proof.
  intros Hp Hid Hlt. pose proof Hp as (Hr & Hs & Hf & Ht & _).
  destruct (lookup_lt_is_Some_2 (Gamestate._timers g) ghost_id) as [timer Htimer];
    [lia|].
  destruct (lookup_lt_is_Some_2 (Gamestate.starts g) ghost_id) as [start Hstart];
    [lia|].
  exists timer, start. split; [done|]. split; [done|]. split.
  - by apply resolve_encounter_eq.
  - by apply well_formed_resolved.
Qed.

(** The floor of a well-formed world can be cleared where it holds something
    that is no wall. *)
Lemma set_static_well_formed (g : Gamestate.t) (u : Vector) (e : LayoutObject.t) :
  well_formed g →
  Array.getitem (Gamestate._statics g) (vx u) (vy u) = Ok (Some e) →
  e ≠ LayoutObject.wall →
  ∃ a', Array.setitem (Gamestate._statics g) (vx u) (vy u) LayoutObject.empty = Ok a'
        ∧ Gamestate.set_static u LayoutObject.empty g
          = (Ok (), Gamestate.with_statics a' g)
        ∧ well_formed (Gamestate.with_statics a' g)
        ∧ (∀ x y, Array.getitem a' x y
                  = if decide (x = vx u ∧ y = vy u) then Ok (Some LayoutObject.empty)
                    else Array.getitem (Gamestate._statics g) x y).
Proof.
  intros (Hr & Hs & Hf & Ht & Ha & Hst) Hget He.
  pose proof (getitem_Some_in_bounds _ _ _ _ Hget) as Hin.
  destruct (setitem_inside (Gamestate._statics g) (vx u) (vy u) LayoutObject.empty
              Hr Hin) as (a' & Hset & Hr' & Hlen & Hh & Hcell).
  destruct (setitem_lookup (Gamestate._statics g) (vx u) (vy u) LayoutObject.empty
              Hr) as (a'' & Hset' & _ & _ & Hget').
  { by apply in_bounds_contains. }
  rewrite Hset in Hset'. injection Hset' as <-.
  exists a'. split; [done|]. split.
  { unfold Gamestate.set_static, Gamestate.get, Gamestate.lift, Gamestate.put,
      mbind, Gamestate.M_bind. by rewrite Hset. }
  assert (Hwall : ∀ v, is_wall a' v ↔ is_wall (Gamestate._statics g) v).
  { intros v. by apply (is_wall_setitem _ _ (vx u) (vy u) e LayoutObject.empty). }
  assert (Hfloor : ∀ l, Forall (on_floor (Gamestate._statics g)) l →
                        Forall (on_floor a') l).
  { intros l Hl. eapply Forall_impl; [exact Hl|].
    intros [v|]; simpl; [|done]. by rewrite Hwall. }
  split; [|done]. unfold well_formed. simpl. repeat (split; [done|]).
  split; by apply Hfloor.
Qed.

(** *** Methods that go through in a well-formed world *)

Definition goes (c : Gamestate.M ()) : Prop :=
  ∀ g, well_formed g → ∃ g', c g = (Ok (), g') ∧ well_formed g'.

Lemma goes_skip : goes Gamestate.skip.
Proof. intros g Hg. by exists g. Qed.

Lemma goes_seq (c1 c2 : Gamestate.M ()) : goes c1 → goes c2 → goes (c1;; c2).
Proof.
  intros H1 H2 g Hg. destruct (H1 g Hg) as (g1 & E1 & Hg1).
  destruct (H2 g1 Hg1) as (g2 & E2 & Hg2). exists g2. split; [|done].
  unfold mbind, Gamestate.M_bind. by rewrite E1.
Qed.

Lemma goes_read {A} (f : Gamestate.t → result A) (k : A → Gamestate.M ()) :
  (∀ g, well_formed g →
     ∃ a, f g = Ok a ∧ ∃ g', k a g = (Ok (), g') ∧ well_formed g') →
  goes (a ← Gamestate.read f; k a).
Proof.
  intros Hk g Hg. destruct (Hk g Hg) as (a & Ha & g' & Hg' & Hp).
  exists g'. split; [|done].
  unfold mbind, Gamestate.M_bind, Gamestate.read. by rewrite Ha.
Qed.

Lemma goes_add_score (n : Z) : goes (Gamestate.add_score n).
Proof. intros g Hg. eexists. split; [reflexivity|]. exact Hg. Qed.

Lemma goes_scare_all : goes Gamestate.scare_all.
Proof.
  intros g (Hr & Hs & Hf & Ht & Ha & Hst).
  eexists. split; [reflexivity|]. unfold well_formed. simpl.
  repeat (split; [done|]). split; [|done].
  rewrite length_app, length_replicate, <- length_app, take_drop. done.
Qed.

Lemma goes_collect_pellet (new_vector : Vector) :
  goes (p ← Gamestate.read (fun g => Gamestate.at_ (Gamestate.pellets g) new_vector);
        if Array.truthy p then
          Gamestate.set_static new_vector LayoutObject.empty;;
          Gamestate.add_score Gamestate.SCORE_GET_PELLET;;
          Gamestate.scare_all
        else Gamestate.skip).
Proof.
  apply goes_read. intros g Hg. pose proof Hg as (Hr & _).
  destruct (indicator_at _ LayoutObject.pellet new_vector Hr) as (w & Hw & Hiff).
  exists w. split; [done|].
  destruct (Array.truthy w); [|by apply goes_skip].
  destruct (set_static_well_formed g new_vector LayoutObject.pellet Hg)
    as (a' & _ & E1 & Hg1 & _); [by apply Hiff|done|].
  rewrite (seq_run _ _ g _ E1).
  by apply goes_seq; [apply goes_add_score|apply goes_scare_all|].
Qed.

Lemma goes_collect (new_vector : Vector) : goes (collect new_vector).
Proof.
  unfold collect.
  apply goes_read. intros g Hg. pose proof Hg as (Hr & _).
  destruct (indicator_at _ LayoutObject.dot new_vector Hr) as (w & Hw & Hiff).
  exists w. split; [done|].
  destruct (Array.truthy w).
  - destruct (set_static_well_formed g new_vector LayoutObject.dot Hg)
      as (a' & _ & E1 & Hg1 & _); [by apply Hiff|done|].
    assert (Hrest : goes
      (Gamestate.add_score Gamestate.SCORE_GET_DOT;;
       l ← Gamestate.read (fun g => Array.ind_list (Gamestate.dots g));
       if decide (l = []) then Gamestate.add_score Gamestate.SCORE_GET_ALL_DOTS
       else Gamestate.skip)).
    { apply goes_seq; [apply goes_add_score|].
      apply goes_read. intros g2 Hg2. pose proof Hg2 as (Hr2 & _).
      eexists. split.
      - unfold Array.ind_list, Gamestate.dots, Array.indicate. simpl.
        apply list_eq_hits. by apply rectangular_full_indicators.
      - destruct (decide _); [by apply goes_add_score|by apply goes_skip]. }
    destruct (Hrest _ Hg1) as (g2 & E2 & Hg2).
    assert (E : (Gamestate.set_static new_vector LayoutObject.empty;;
                 Gamestate.add_score Gamestate.SCORE_GET_DOT;;
                 l ← Gamestate.read (fun g => Array.ind_list (Gamestate.dots g));
                 if decide (l = [])
                 then Gamestate.add_score Gamestate.SCORE_GET_ALL_DOTS
                 else Gamestate.skip) g = (Ok (), g2)).
    { by rewrite (seq_run _ _ g _ E1). }
    rewrite (seq_run _ _ g g2 E).
    by apply goes_collect_pellet.
  - rewrite (seq_run _ _ g g eq_refl). by apply goes_collect_pellet.
Qed.

Lemma goes_pacman_arrives (new_vector : Vector) : goes (pacman_arrives new_vector).
Proof.
  intros g Hg.
  change (pacman_arrives new_vector g) with
    (((match Gamestate.ghost_at g new_vector with
       | Some ghost_id => Gamestate._resolve_encounter ghost_id
       | None => Gamestate.skip
       end);; collect new_vector) g).
  assert (Hfirst : ∃ g1,
    (match Gamestate.ghost_at g new_vector with
     | Some ghost_id => Gamestate._resolve_encounter ghost_id
     | None => Gamestate.skip
     end) g = (Ok (), g1) ∧ well_formed g1).
  { destruct (Gamestate.ghost_at g new_vector) as [ghost_id|] eqn:Hgh.
    - apply ghost_at_Some in Hgh as [Hid Hlt].
      destruct (resolve_encounter_well_formed g ghost_id Hg Hid Hlt)
        as (timer & start & _ & _ & E & Hs). eauto.
    - by apply goes_skip. }
  destruct Hfirst as (g1 & E1 & Hg1).
  rewrite (seq_run _ _ g g1 E1). by apply goes_collect.
Qed.

Lemma ghost_arrives_well_formed (g : Gamestate.t) (agent_id : nat)
    (new_vector : Vector) :
  well_formed g → agent_id ≠ Gamestate.PACMAN_ID →
  (agent_id < length (Gamestate.agents g))%nat →
  ∃ g', ghost_arrives agent_id new_vector g = (Ok (), g') ∧ well_formed g'.
Proof.
  intros Hg Hid Hlt. unfold ghost_arrives.
  destruct (lookup_lt_is_Some_2 (Gamestate.agents g) 0) as [pac Hpac]; [lia|].
  assert (E : Gamestate.pacman g = Ok pac).
  { unfold Gamestate.pacman, nat_get, Gamestate.PACMAN_ID. by rewrite Hpac. }
  unfold mbind, Gamestate.M_bind, Gamestate.read. rewrite E.
  destruct (decide _).
  - destruct (resolve_encounter_well_formed g agent_id Hg Hid Hlt)
      as (timer & start & _ & _ & E' & Hs). eauto.
  - by apply goes_skip.
Qed.

(** The state in which the consequences of a move are worked out *)
Lemma apply_move_moved (g : Gamestate.t) (agent_id : nat) (move : Move.t)
    (vector : Vector) :
  well_formed g →
  Gamestate.agents g !! agent_id = Some (Some vector) →
  ∃ timer,
    Gamestate._timers g !! agent_id = Some timer
    ∧ Gamestate.apply_move agent_id (Some move) g
      = consequences agent_id (Vector.add vector (Move.vector move))
          (moved agent_id move vector timer g).
Proof.
  intros Hg Ha. pose proof Hg as (Hr & Hs & Hf & Ht & _).
  pose proof (lookup_lt_Some _ _ _ Ha) as Hlt.
  pose proof (apply_move_cases agent_id (Some move) g) as Hcases.
  rewrite Ha in Hcases. cbv zeta in Hcases. simpl in Hcases.
  rewrite decide_True in Hcases by lia.
  destruct (lookup_lt_is_Some_2 (Gamestate._timers g) agent_id) as [timer Htimer];
    [lia|].
  rewrite Htimer in Hcases. by exists timer.
Qed.

(** A move to a cell that is no wall goes through. *)
Lemma apply_move_well_formed (g : Gamestate.t) (agent_id : nat) (move : Move.t)
    (vector : Vector) :
  well_formed g →
  Gamestate.agents g !! agent_id = Some (Some vector) →
  ¬ is_wall (Gamestate._statics g) (Vector.add vector (Move.vector move)) →
  ∃ g', Gamestate.apply_move agent_id (Some move) g = (Ok (), g') ∧ well_formed g'.
Proof.
  intros Hg Ha Hfree.
  pose proof (lookup_lt_Some _ _ _ Ha) as Hlt.
  destruct (apply_move_moved g agent_id move vector Hg Ha) as (timer & Htimer & ->).
  set (new_vector := Vector.add vector (Move.vector move)) in *.
  pose proof (well_formed_moved g agent_id move vector timer Hg Hfree) as Hm.
  set (g1 := moved agent_id move vector timer g) in *.
  unfold consequences.
  destruct (indicator_at (Gamestate._statics g1) LayoutObject.wall new_vector)
    as (w & Hw & Hiff); [apply Hm|].
  unfold mbind at 1. unfold Gamestate.M_bind at 1. unfold Gamestate.read at 1.
  unfold Gamestate.walls. rewrite Hw.
  destruct (Array.truthy w) eqn:Htr.
  { exfalso. apply Hfree. by apply Hiff. }
  destruct (decide (agent_id = Gamestate.PACMAN_ID)) as [->|Hid].
  - by apply goes_pacman_arrives.
  - apply ghost_arrives_well_formed; [done|done|].
    unfold g1, moved. simpl. by rewrite length_insert.
Qed.

(** A move into a wall raises, and leaves the agent in the wall. *)
Lemma apply_move_wall (g : Gamestate.t) (agent_id : nat) (move : Move.t)
    (vector : Vector) :
  well_formed g →
  Gamestate.agents g !! agent_id = Some (Some vector) →
  is_wall (Gamestate._statics g) (Vector.add vector (Move.vector move)) →
  ∃ g', Gamestate.apply_move agent_id (Some move) g
        = (Raise (RuntimeError_wall agent_id
                    (vx (Vector.add vector (Move.vector move)))
                    (vy (Vector.add vector (Move.vector move)))), g')
        ∧ Gamestate.agents g' !! agent_id
          = Some (Some (Vector.add vector (Move.vector move))).
Proof.
  intros Hg Ha Hwall.
  pose proof (lookup_lt_Some _ _ _ Ha) as Hlt.
  destruct (apply_move_moved g agent_id move vector Hg Ha) as (timer & Htimer & ->).
  set (new_vector := Vector.add vector (Move.vector move)) in *.
  set (g1 := moved agent_id move vector timer g) in *.
  unfold consequences.
  unfold mbind at 1. unfold Gamestate.M_bind at 1. unfold Gamestate.read at 1.
  assert (Hw : Gamestate.at_ (Gamestate.walls g1) new_vector = Ok (Some true)).
  { by apply indicator_true. }
  rewrite Hw. simpl.
  assert (Hag : ∀ s, Gamestate.agents (Gamestate.with_score s g1) !! agent_id
                     = Some (Some new_vector)).
  { intros s. unfold g1, moved. simpl. by apply list_lookup_insert_eq. }
  destruct (decide (agent_id = Gamestate.PACMAN_ID)); eexists; (split; [reflexivity|]).
  - apply Hag.
  - unfold g1, moved. simpl. by apply list_lookup_insert_eq.
Qed.

(** [apply_move] accepts the legal moves, and no other move. *)
Lemma legal_moves_accepted (g : Gamestate.t) (agent_id : nat) (vector : Vector)
    (move : Move.t) :
  well_formed g →
  Gamestate.agents g !! agent_id = Some (Some vector) →
  ∃ moves,
    Gamestate.legal_moves_id g agent_id = Ok moves
    ∧ Move.stop ∈ moves
    ∧ (move ∈ moves →
       ∃ g', Gamestate.apply_move agent_id (Some move) g = (Ok (), g') ∧ well_formed g')
    ∧ (move ∉ moves →
       ∃ g', Gamestate.apply_move agent_id (Some move) g
             = (Raise (RuntimeError_wall agent_id
                         (vx (Vector.add vector (Move.vector move)))
                         (vy (Vector.add vector (Move.vector move)))), g')
             ∧ Gamestate.agents g' !! agent_id
               = Some (Some (Vector.add vector (Move.vector move)))).
Proof.
  intros Hg Ha. pose proof Hg as (Hr & _ & _ & _ & Hfloor & _).
  eexists. split; [|split; [|split]].
  - unfold Gamestate.legal_moves_id, nat_get. rewrite Ha. simpl.
    by apply legal_moves_vector_eq.
  - apply elem_of_list_to_set, list_elem_of_filter. split.
    + rewrite Vector_add_stop. by eapply on_floor_lookup.
    + unfold Move.all. repeat constructor.
  - intros Hin. apply elem_of_list_to_set, list_elem_of_filter in Hin as [Hfree _].
    by apply (apply_move_well_formed g agent_id move vector).
  - intros Hout. apply (apply_move_wall g agent_id move vector); [done..|].
    destruct (decide (is_wall (Gamestate._statics g)
                        (Vector.add vector (Move.vector move)))) as [|Hfree];
      [done|].
    exfalso. apply Hout, elem_of_list_to_set, list_elem_of_filter. split; [done|].
    destruct move; unfold Move.all; repeat constructor.
Qed.

(** X13: the legal moves of an agent are exactly the moves that
    [apply_move] accepts. In a well-formed world, for an agent that is
    there, [legal_moves_id] returns a set that contains [stop]; a move of
    the set goes through and leaves a well-formed world, and a move that is
    not in the set raises the wall error, with the agent left on the wall. *)
Theorem legal_moves_are_safe (g : Gamestate.t) (agent_id : nat) (vector : Vector)
    (move : Move.t) :
  well_formed g →
  Gamestate.agents g !! agent_id = Some (Some vector) →
  ∃ moves,
    Gamestate.legal_moves_id g agent_id = Ok moves
    ∧ Move.stop ∈ moves
    ∧ (move ∈ moves →
       ∃ g', Gamestate.apply_move agent_id (Some move) g = (Ok (), g') ∧ well_formed g')
    ∧ (move ∉ moves →
       ∃ g', Gamestate.apply_move agent_id (Some move) g
             = (Raise (RuntimeError_wall agent_id
                         (vx (Vector.add vector (Move.vector move)))
                         (vy (Vector.add vector (Move.vector move)))), g')
             ∧ Gamestate.agents g' !! agent_id
               = Some (Some (Vector.add vector (Move.vector move)))).
Proof. exact (legal_moves_accepted g agent_id vector move). Qed.

Lemma corridor_well_formed (timer : Z) : well_formed (corridor_world timer).
Proof.
  unfold well_formed, corridor_world. simpl.
  split; [exact corridor_rectangular|]. repeat (split; [done|]).
  split; repeat constructor; simpl; unfold is_wall; simpl; discriminate.
Qed.

Lemma legal_moves_are_safe_witness :
  ∃ moves,
    Gamestate.legal_moves_id (corridor_world 0) 0 = Ok moves
    ∧ Move.stop ∈ moves
    ∧ (Move.up ∈ moves →
       ∃ g', Gamestate.apply_move 0 (Some Move.up) (corridor_world 0) = (Ok (), g')
             ∧ well_formed g')
    ∧ (Move.up ∉ moves →
       ∃ g', Gamestate.apply_move 0 (Some Move.up) (corridor_world 0)
             = (Raise (RuntimeError_wall 0
                         (vx (Vector.add (mkVector 1 1) (Move.vector Move.up)))
                         (vy (Vector.add (mkVector 1 1) (Move.vector Move.up)))), g')
             ∧ Gamestate.agents g' !! 0%nat
               = Some (Some (Vector.add (mkVector 1 1) (Move.vector Move.up)))).
Proof.
  apply (legal_moves_are_safe (corridor_world 0) 0 (mkVector 1 1) Move.up).
  - exact (corridor_well_formed 0).
  - reflexivity.
Defined.

(** *** What a move leaves alone *)

(** The state that a method leaves, whether it returns or raises *)
Definition final {A} (c : Gamestate.M A) (g : Gamestate.t) : Gamestate.t := (c g).2.

Section Steps.
Variable Rel : Gamestate.t → Gamestate.t → Prop.
Hypothesis Rel_refl : ∀ g, Rel g g.
Hypothesis Rel_trans : ∀ g1 g2 g3, Rel g1 g2 → Rel g2 g3 → Rel g1 g3.

(** From [g], the method [c] leaves a state that [Rel] relates to [g]. *)
Definition steps {A} (c : Gamestate.M A) (g : Gamestate.t) : Prop :=
  Rel g (final c g).

Lemma steps_ret {A} (a : A) g : steps (mret a) g.
Proof. apply Rel_refl. Qed.

Lemma steps_skip g : steps Gamestate.skip g.
Proof. apply Rel_refl. Qed.

Lemma steps_raise {A} e g : steps (@Gamestate.raise A e) g.
Proof. apply Rel_refl. Qed.

Lemma steps_read {A} (f : Gamestate.t → result A) g : steps (Gamestate.read f) g.
Proof. apply Rel_refl. Qed.

Lemma steps_bind {A B} (c : Gamestate.M A) (k : A → Gamestate.M B) g :
  steps c g →
  (∀ a g', c g = (Ok a, g') → steps (k a) g') →
  steps (c ≫= k) g.
Proof.
  unfold steps, final, mbind, Gamestate.M_bind. intros Hc Hk.
  destruct (c g) as [[a|e] g'] eqn:E; simpl in *; [|done].
  eapply Rel_trans; [exact Hc|]. by apply Hk.
Qed.

Lemma steps_read_bind {A B} (f : Gamestate.t → result A) (k : A → Gamestate.M B) g :
  (∀ a, f g = Ok a → steps (k a) g) →
  steps (a ← Gamestate.read f; k a) g.
Proof.
  intros Hk. apply steps_bind; [apply steps_read|].
  intros a g'. unfold Gamestate.read. intros [= Hf <-]. by apply Hk.
Qed.

Lemma steps_get_bind {B} (k : Gamestate.t → Gamestate.M B) g :
  steps (k g) g → steps (g0 ← Gamestate.get; k g0) g.
Proof.
  intros Hk. apply steps_bind; [apply Rel_refl|].
  intros a g'. unfold Gamestate.get. by intros [= <- <-].
Qed.

End Steps.

(** The grid [a'] is the grid [a] with some dots and pellets taken away. *)
Definition eroded (a a' : list (list LayoutObject.t)) : Prop :=
  Array.rectangular a' ∧ len a' = len a ∧ height a' = height a
  ∧ ∀ i j, cell a' i j = cell a i j
           ∨ ((cell a i j = Some LayoutObject.dot
               ∨ cell a i j = Some LayoutObject.pellet)
              ∧ cell a' i j = Some LayoutObject.empty).

(** What [apply_move] keeps of a state *)
Definition frame (g g' : Gamestate.t) : Prop :=
  Gamestate.starts g' = Gamestate.starts g
  ∧ Gamestate._tick g' = Gamestate._tick g
  ∧ length (Gamestate.agents g') = length (Gamestate.agents g)
  ∧ length (Gamestate.facings g') = length (Gamestate.facings g)
  ∧ length (Gamestate._timers g') = length (Gamestate._timers g)
  ∧ (Gamestate.agents g !! 0%nat = Some None →
     Gamestate.agents g' !! 0%nat = Some None)
  ∧ (Array.rectangular (Gamestate._statics g) →
     eroded (Gamestate._statics g) (Gamestate._statics g')).

Lemma eroded_refl a : Array.rectangular a → eroded a a.
Proof. intros Hr. unfold eroded. split_and!; try done. intros i j. by left. Qed.

Lemma eroded_trans a1 a2 a3 : eroded a1 a2 → eroded a2 a3 → eroded a1 a3.
Proof.
  intros (Hr2 & Hl2 & Hh2 & Hc2) (Hr3 & Hl3 & Hh3 & Hc3).
  split; [done|]. split; [congruence|]. split; [congruence|].
  intros i j. destruct (Hc2 i j) as [E2|[Hd E2]], (Hc3 i j) as [E3|[Hd3 E3]].
  - left. congruence.
  - right. split; [|done]. by rewrite <- E2.
  - right. split; [done|]. congruence.
  - rewrite E2 in Hd3. by destruct Hd3.
Qed.

Lemma frame_refl g : frame g g.
Proof. unfold frame. split_and!; try done. apply eroded_refl. Qed.

Lemma frame_trans g1 g2 g3 : frame g1 g2 → frame g2 g3 → frame g1 g3.
Proof.
  intros (Hs & Ht & Hla & Hlf & Hlt & Hd & He) (Hs' & Ht' & Hla' & Hlf' & Hlt' & Hd' & He').
  unfold frame. split_and!; try congruence; [auto|].
  intros Hr. specialize (He Hr). eapply eroded_trans; [exact He|].
  apply He'. apply He.
Qed.

Abbreviation fsteps := (steps frame).

Ltac frame_get := apply (steps_get_bind frame frame_refl frame_trans).
Tactic Notation "frame_read" "as" ident(a) ident(H) :=
  apply (steps_read_bind frame frame_refl frame_trans); intros a H.
Ltac frame_seq := apply (steps_bind frame frame_trans); [|intros ? ? ?].
Ltac frame_done := apply steps_skip, frame_refl.

Lemma nat_set_run {A} (l l' : list A) (i : nat) (v : A) :
  nat_set l i v = Ok l' → l' = <[i := v]> l.
Proof. unfold nat_set. destruct (decide _); [by intros [= <-]|done]. Qed.

Lemma fsteps_set_facing i m g : fsteps (Gamestate.set_facing i m) g.
Proof.
  unfold steps, final, Gamestate.set_facing, Gamestate.get, Gamestate.lift,
    Gamestate.put, mbind, Gamestate.M_bind.
  destruct (nat_set (Gamestate.facings g) i m) as [l|e] eqn:E; simpl;
    [|apply frame_refl].
  apply nat_set_run in E as ->. unfold frame. simpl. rewrite length_insert.
  split_and!; try done. apply eroded_refl.
Qed.

Lemma set_facing_run i m g g' :
  Gamestate.set_facing i m g = (Ok (), g') →
  Gamestate.agents g' = Gamestate.agents g.
Proof.
  unfold Gamestate.set_facing, Gamestate.get, Gamestate.lift,
    Gamestate.put, mbind, Gamestate.M_bind.
  destruct (nat_set (Gamestate.facings g) i m) as [l|e]; [|done].
  by intros [= <-].
Qed.

Lemma fsteps_set_timer i n g : fsteps (Gamestate.set_timer i n) g.
Proof.
  unfold steps, final, Gamestate.set_timer, Gamestate.get, Gamestate.lift,
    Gamestate.put, mbind, Gamestate.M_bind.
  destruct (nat_set (Gamestate._timers g) i n) as [l|e] eqn:E; simpl;
    [|apply frame_refl].
  apply nat_set_run in E as ->. unfold frame. simpl. rewrite length_insert.
  split_and!; try done. apply eroded_refl.
Qed.

Lemma fsteps_add_score n g : fsteps (Gamestate.add_score n) g.
Proof.
  unfold steps, final, frame. simpl.
  split_and!; try done. apply eroded_refl.
Qed.

Lemma fsteps_scare_all g : fsteps Gamestate.scare_all g.
Proof.
  unfold steps, final, frame. simpl.
  split_and!; try done; [|apply eroded_refl].
  rewrite length_app, length_replicate, <- length_app, take_drop. done.
Qed.

(** Writing an agent's slot, unless it brings a dead Pacman back *)
Lemma fsteps_set_agent i v g :
  (i = 0%nat → v = None ∨ Gamestate.agents g !! 0%nat ≠ Some None) →
  fsteps (Gamestate.set_agent i v) g.
Proof.
  intros Hv.
  unfold steps, final, Gamestate.set_agent, Gamestate.get, Gamestate.lift,
    Gamestate.put, mbind, Gamestate.M_bind.
  destruct (nat_set (Gamestate.agents g) i v) as [l|e] eqn:E; simpl;
    [|apply frame_refl].
  pose proof E as Hlt. unfold nat_set in Hlt.
  destruct (decide (i < length (Gamestate.agents g))%nat) as [Hi|]; [|done].
  apply nat_set_run in E as ->. unfold frame. simpl. rewrite length_insert.
  split_and!; try done; [|apply eroded_refl].
  intros Hdead. destruct (decide (i = 0%nat)) as [->|Hne].
  - destruct (Hv eq_refl) as [->|Hn]; [|done].
    by apply list_lookup_insert_eq.
  - by rewrite list_lookup_insert_ne.
Qed.

Lemma fsteps_kill i g : fsteps (Gamestate.kill i) g.
Proof.
  unfold Gamestate.kill. destruct (decide (i = Gamestate.PACMAN_ID)) as [->|Hi].
  - apply fsteps_set_agent. by left.
  - apply (steps_get_bind frame frame_refl frame_trans).
    apply (steps_bind frame frame_trans); [apply frame_refl|].
    intros s g' [= _ <-].
    apply (steps_bind frame frame_trans); [|intros; apply fsteps_set_timer].
    apply fsteps_set_agent. intros ->. by destruct Hi.
Qed.

Lemma fsteps_resolve_encounter i g : fsteps (Gamestate._resolve_encounter i) g.
Proof.
  unfold Gamestate._resolve_encounter, Gamestate.get_timer.
  frame_read as timer Ht. destruct (decide _).
  - frame_seq; [apply fsteps_kill|apply fsteps_add_score].
  - frame_seq; [apply fsteps_kill|apply fsteps_add_score].
Qed.

(** Clearing a cell that holds a dot or a pellet *)
Lemma fsteps_set_static v g :
  (Gamestate.at_ (Gamestate.dots g) v = Ok (Some true)
   ∨ Gamestate.at_ (Gamestate.pellets g) v = Ok (Some true)) →
  fsteps (Gamestate.set_static v LayoutObject.empty) g.
Proof.
  intros Hv.
  unfold steps, final, Gamestate.set_static, Gamestate.get, Gamestate.lift,
    Gamestate.put, mbind, Gamestate.M_bind.
  destruct (Array.setitem (Gamestate._statics g) (vx v) (vy v) LayoutObject.empty)
    as [a'|e] eqn:E; simpl; [|apply frame_refl].
  unfold frame. simpl. split_and!; try done.
  intros Hr.
  assert (Hget : ∃ e, (e = LayoutObject.dot ∨ e = LayoutObject.pellet)
                      ∧ Array.getitem (Gamestate._statics g) (vx v) (vy v)
                        = Ok (Some e)).
  { destruct Hv as [Hv|Hv]; apply indicator_true in Hv; eauto. }
  destruct Hget as (e & He & Hget).
  pose proof (getitem_Some_in_bounds _ _ _ _ Hget) as Hin.
  destruct (setitem_inside (Gamestate._statics g) (vx v) (vy v) LayoutObject.empty
              Hr Hin) as (a'' & Hset & Hr' & Hlen & Hh & Hcell).
  rewrite E in Hset. injection Hset as <-.
  unfold eroded. split_and!; try done. intros i j. rewrite Hcell.
  destruct (decide _) as [[-> ->]|]; [|by left].
  right. split; [|done].
  rewrite getitem_cell in Hget by done. rewrite decide_True in Hget by done.
  injection Hget as ->. destruct He as [->| ->]; auto.
Qed.

Lemma truthy_true (w : option bool) : Array.truthy w = true → w = Some true.
Proof. by destruct w as [[|]|]. Qed.

Lemma fsteps_pacman_arrives v g : fsteps (pacman_arrives v) g.
Proof.
  unfold pacman_arrives. frame_get. frame_seq.
  { destruct (Gamestate.ghost_at g v);
      [apply fsteps_resolve_encounter|frame_done]. }
  frame_read as d Hd. frame_seq.
  { destruct (Array.truthy d) eqn:Ht; [|frame_done].
    apply truthy_true in Ht as ->.
    frame_seq; [apply fsteps_set_static; by left|].
    frame_seq; [apply fsteps_add_score|].
    frame_read as l Hl. destruct (decide _); [apply fsteps_add_score|frame_done]. }
  frame_read as p Hp.
  destruct (Array.truthy p) eqn:Ht; [|frame_done].
  apply truthy_true in Ht as ->.
  frame_seq; [apply fsteps_set_static; by right|].
  frame_seq; [apply fsteps_add_score|apply fsteps_scare_all].
Qed.

Lemma fsteps_ghost_arrives i v g : fsteps (ghost_arrives i v) g.
Proof.
  unfold ghost_arrives. frame_read as pac Hpac.
  destruct (decide _); [apply fsteps_resolve_encounter|frame_done].
Qed.

Lemma fsteps_consequences i v g : fsteps (consequences i v) g.
Proof.
  unfold consequences. frame_read as w Hw. destruct (Array.truthy w).
  - frame_seq; [|apply steps_raise, frame_refl].
    destruct (decide _); [apply fsteps_add_score|frame_done].
  - destruct (decide _); [apply fsteps_pacman_arrives|apply fsteps_ghost_arrives].
Qed.

Lemma fsteps_apply_move i move g : fsteps (Gamestate.apply_move i move) g.
Proof.
  change (Gamestate.apply_move i move) with
    (a ← Gamestate.get_agent i;
     match a with
     | None => Gamestate.skip
     | Some vector =>
         let move := default Move.stop move in
         Gamestate.set_facing i move;;
         let new_vector := Vector.add vector (Move.vector move) in
         Gamestate.set_agent i (Some new_vector);;
         timer ← Gamestate.get_timer i;
         (if decide (timer ≠ 0) then Gamestate.set_timer i (timer - 1)
          else Gamestate.skip);;
         (if decide (i = Gamestate.PACMAN_ID)
          then Gamestate.add_score Gamestate.SCORE_TICK_PENALTY
          else Gamestate.skip);;
         consequences i new_vector
     end).
  unfold Gamestate.get_agent. frame_read as a Ha.
  destruct a as [vector|]; [|frame_done]. cbv zeta.
  apply (steps_bind frame frame_trans); [apply fsteps_set_facing|].
  intros [] g1 Hrun. apply set_facing_run in Hrun.
  frame_seq.
  { apply fsteps_set_agent. intros ->. right. rewrite Hrun.
    unfold nat_get in Ha. destruct (Gamestate.agents g !! 0%nat) as [o|]; [|done].
    injection Ha as ->. done. }
  unfold Gamestate.get_timer. frame_read as timer Ht.
  frame_seq.
  { destruct (decide _); [apply fsteps_set_timer|frame_done]. }
  frame_seq; [|apply fsteps_consequences].
  destruct (decide (i = Gamestate.PACMAN_ID)); [apply fsteps_add_score|frame_done].
Qed.

Lemma eroded_getitem a a' x y :
  Array.rectangular a → eroded a a' →
  Array.getitem a' x y = Array.getitem a x y
  ∨ ((Array.getitem a x y = Ok (Some LayoutObject.dot)
      ∨ Array.getitem a x y = Ok (Some LayoutObject.pellet))
     ∧ Array.getitem a' x y = Ok (Some LayoutObject.empty)).
Proof.
  intros Hr (Hr' & Hl & Hh & Hc).
  rewrite (getitem_cell a') by done. rewrite (getitem_cell a) by done.
  assert (Hiff : in_bounds a' x y ↔ in_bounds a x y).
  { unfold in_bounds. by rewrite Hl, Hh. }
  destruct (decide (in_bounds a x y)) as [Hin|Hout].
  - rewrite decide_True by by apply Hiff.
    destruct (Hc (Z.to_nat x) (Z.to_nat y)) as [->|[[Hd|Hd] ->]]; [by left|..];
      rewrite Hd; right; auto.
  - rewrite decide_False by by rewrite Hiff. by left.
Qed.

(** The frame of [apply_move], spelled out *)
Lemma frame_apply_move (g : Gamestate.t) (agent_id : nat) (move : option Move.t) :
  let g' := final (Gamestate.apply_move agent_id move) g in
  Gamestate.starts g' = Gamestate.starts g
  ∧ Gamestate._tick g' = Gamestate._tick g
  ∧ length (Gamestate.agents g') = length (Gamestate.agents g)
  ∧ length (Gamestate.facings g') = length (Gamestate.facings g)
  ∧ length (Gamestate._timers g') = length (Gamestate._timers g)
  ∧ (Gamestate.loss g = Ok true → Gamestate.loss g' = Ok true)
  ∧ (Array.rectangular (Gamestate._statics g) →
     Array.rectangular (Gamestate._statics g')
     ∧ Gamestate.shape g' = Gamestate.shape g
     ∧ ∀ x y,
         Array.getitem (Gamestate._statics g') x y
         = Array.getitem (Gamestate._statics g) x y
         ∨ ((Array.getitem (Gamestate._statics g) x y = Ok (Some LayoutObject.dot)
             ∨ Array.getitem (Gamestate._statics g) x y
               = Ok (Some LayoutObject.pellet))
            ∧ Array.getitem (Gamestate._statics g') x y
              = Ok (Some LayoutObject.empty))).
Proof.
  intros g'.
  destruct (fsteps_apply_move agent_id move g) as (Hs & Ht & Hla & Hlf & Hlt & Hd & He).
  fold g' in Hs, Ht, Hla, Hlf, Hlt, Hd, He.
  split_and!; try done.
  - unfold Gamestate.loss, Gamestate.pacman, nat_get, Gamestate.PACMAN_ID.
    destruct (Gamestate.agents g !! 0%nat) as [[v|]|] eqn:E; simpl; try done.
    intros _. by rewrite (Hd eq_refl).
  - intros Hr. specialize (He Hr). split; [apply He|]. split.
    + unfold Gamestate.shape. rewrite !shape_eq.
      destruct He as (_ & -> & -> & _). done.
    + intros x y. by apply eroded_getitem.
Qed.

(** X14: what [apply_move] never does. Whatever the agent and the move, and
    whether it returns or raises, the state it leaves has the starts, the
    turn number and the numbers of agents, facings and timers of the state
    it was called on; a Pacman who was dead is still dead; and on a
    rectangular grid the grid keeps its shape and every cell holds what it
    held, but for a dot or a pellet that was taken away and left the cell
    empty: no wall moves and nothing is put on the floor. *)
Theorem apply_move_frame (g : Gamestate.t) (agent_id : nat) (move : option Move.t) :
  let g' := final (Gamestate.apply_move agent_id move) g in
  Gamestate.starts g' = Gamestate.starts g
  ∧ Gamestate._tick g' = Gamestate._tick g
  ∧ length (Gamestate.agents g') = length (Gamestate.agents g)
  ∧ length (Gamestate.facings g') = length (Gamestate.facings g)
  ∧ length (Gamestate._timers g') = length (Gamestate._timers g)
  ∧ (Gamestate.loss g = Ok true → Gamestate.loss g' = Ok true)
  ∧ (Array.rectangular (Gamestate._statics g) →
     Array.rectangular (Gamestate._statics g')
     ∧ Gamestate.shape g' = Gamestate.shape g
     ∧ ∀ x y,
         Array.getitem (Gamestate._statics g') x y
         = Array.getitem (Gamestate._statics g) x y
         ∨ ((Array.getitem (Gamestate._statics g) x y = Ok (Some LayoutObject.dot)
             ∨ Array.getitem (Gamestate._statics g) x y
               = Ok (Some LayoutObject.pellet))
            ∧ Array.getitem (Gamestate._statics g') x y
              = Ok (Some LayoutObject.empty))).
Proof. exact (frame_apply_move g agent_id move). Qed.

(** *** What Pacman collects *)

Lemma read_run {A B} (f : Gamestate.t → result A) (k : A → Gamestate.M B)
    (g : Gamestate.t) (a : A) :
  f g = Ok a → (a ← Gamestate.read f; k a) g = k a g.
Proof. intros E. unfold mbind, Gamestate.M_bind, Gamestate.read. by rewrite E. Qed.

(** The test of an indicator on a cell of which the content is known *)
Lemma indicator_test (a : list (list LayoutObject.t)) (value : LayoutObject.t)
    (u : Vector) (c : option LayoutObject.t) :
  Array.rectangular a →
  Array.getitem a (vx u) (vy u) = Ok c →
  ∃ w, Gamestate.at_ (Array.indicate a value) u = Ok w
       ∧ Array.truthy w = bool_decide (c = Some value).
Proof.
  intros Hr Hc. destruct (indicator_at a value u Hr) as (w & Hw & Hiff).
  exists w. split; [done|]. rewrite Hc in Hiff.
  destruct (Array.truthy w); symmetry.
  - apply bool_decide_eq_true. destruct Hiff as [Hiff _].
    specialize (Hiff eq_refl). congruence.
  - apply bool_decide_eq_false. intros ->. by destruct Hiff as [_ Hiff]; specialize (Hiff eq_refl).
Qed.

Lemma ghost_at_moved (g : Gamestate.t) (move : Move.t) (vector : Vector) (timer : Z)
    (u : Vector) :
  Gamestate.ghost_at (moved 0 move vector timer g) u = Gamestate.ghost_at g u.
Proof.
  unfold Gamestate.ghost_at, Gamestate.ghosts, moved. simpl.
  by destruct (Gamestate.agents g).
Qed.

(** The timer of Pacman after a move: a timer that runs is one lower. *)
Definition run_down (timer : Z) : Z := if decide (timer ≠ 0) then timer - 1 else timer.

(** X23: what Pacman collects. In a well-formed world, a move of Pacman to a
    cell that is no wall and on which no ghost stands goes through: Pacman
    stands on the cell and faces the way he went, and the turn costs one
    point. A dot on the cell is taken away and scores 10, and 500 more if no
    dot is left in the grid; a pellet is taken away, scores 5 and sets the
    timer of every ghost to 40; on any other cell the grid and the timers of
    the ghosts stay as they were. *)
Theorem pacman_collects (g : Gamestate.t) (vector : Vector) (move : Move.t) :
  let new_vector := Vector.add vector (Move.vector move) in
  well_formed g →
  Gamestate.agents g !! 0%nat = Some (Some vector) →
  ¬ is_wall (Gamestate._statics g) new_vector →
  Gamestate.ghost_at g new_vector = None →
  ∃ c timer g',
    Array.getitem (Gamestate._statics g) (vx new_vector) (vy new_vector) = Ok c
    ∧ Gamestate._timers g !! 0%nat = Some timer
    ∧ Gamestate.apply_move 0 (Some move) g = (Ok (), g')
    ∧ Gamestate.agents g' = <[0%nat := Some new_vector]> (Gamestate.agents g)
    ∧ Gamestate.facings g' = <[0%nat := move]> (Gamestate.facings g)
    ∧ let timers := <[0%nat := run_down timer]> (Gamestate._timers g) in
      match c with
      | Some LayoutObject.dot =>
          ∃ a' l,
            Array.setitem (Gamestate._statics g) (vx new_vector) (vy new_vector)
              LayoutObject.empty = Ok a'
            ∧ Array.list_ a' LayoutObject.dot = Ok l
            ∧ Gamestate._statics g' = a'
            ∧ Gamestate._timers g' = timers
            ∧ Gamestate.score g'
              = Gamestate.score g - 1 + 10 + (if decide (l = []) then 500 else 0)
      | Some LayoutObject.pellet =>
          ∃ a',
            Array.setitem (Gamestate._statics g) (vx new_vector) (vy new_vector)
              LayoutObject.empty = Ok a'
            ∧ Gamestate._statics g' = a'
            ∧ Gamestate._timers g'
              = take 1 timers ++ replicate (length timers - 1) 40
            ∧ Gamestate.score g' = Gamestate.score g - 1 + 5
      | _ =>
          Gamestate._statics g' = Gamestate._statics g
          ∧ Gamestate._timers g' = timers
          ∧ Gamestate.score g' = Gamestate.score g - 1
      end.
Proof.
  intros new_vector Hg Ha Hfree Hghost.
  destruct (apply_move_moved g 0 move vector Hg Ha) as (timer & Htimer & Heq).
  fold new_vector in Heq.
  pose proof (well_formed_moved g 0 move vector timer Hg Hfree) as Hg1.
  set (g1 := moved 0 move vector timer g) in *.
  pose proof Hg as (Hr & _).
  destruct (Array.getitem (Gamestate._statics g) (vx new_vector) (vy new_vector))
    as [c|] eqn:Hc; [|by rewrite getitem_cell in Hc].
  exists c, timer.
  assert (Hstart : Gamestate.apply_move 0 (Some move) g = collect new_vector g1).
  { rewrite Heq. unfold consequences.
    destruct (indicator_test _ LayoutObject.wall new_vector c Hr Hc) as (w & Hw & Hwt).
    rewrite (read_run _ _ g1 w Hw), Hwt.
    rewrite bool_decide_eq_false_2.
    2:{ intros ->. by apply Hfree. }
    rewrite decide_True by done.
    change (pacman_arrives new_vector g1) with
      (((match Gamestate.ghost_at g1 new_vector with
         | Some ghost_id => Gamestate._resolve_encounter ghost_id
         | None => Gamestate.skip
         end);; collect new_vector) g1).
    unfold g1 at 1. rewrite ghost_at_moved, Hghost.
    by rewrite (seq_run _ _ g1 g1 eq_refl). }
  rewrite Hstart. unfold collect.
  destruct (indicator_test _ LayoutObject.dot new_vector c Hr Hc) as (d & Hd & Hdt).
  rewrite (read_run _ _ g1 d Hd), Hdt.
  destruct (decide (c = Some LayoutObject.dot)) as [->|Hnd].
  - rewrite bool_decide_eq_true_2 by done.
    destruct (set_static_well_formed g1 new_vector LayoutObject.dot Hg1 Hc)
      as (a' & Hset & E1 & Hg2 & Hget); [done|].
    pose proof Hg2 as (Hr2 & _). simpl in Hr2.
    pose proof (list_eq_hits a' LayoutObject.dot Hr2) as Hl.
    set (l := hits a' LayoutObject.dot _) in Hl.
    set (g3 := Gamestate.with_score (Gamestate.score g1 + 10)
                 (Gamestate.with_statics a' g1)).
    set (g4 := if decide (l = [])
               then Gamestate.with_score (Gamestate.score g3 + 500) g3 else g3).
    assert (E : (Gamestate.set_static new_vector LayoutObject.empty;;
                 Gamestate.add_score Gamestate.SCORE_GET_DOT;;
                 l ← Gamestate.read (fun g => Array.ind_list (Gamestate.dots g));
                 if decide (l = [])
                 then Gamestate.add_score Gamestate.SCORE_GET_ALL_DOTS
                 else Gamestate.skip) g1 = (Ok (), g4)).
    { rewrite (seq_run _ _ g1 _ E1).
      rewrite (seq_run (Gamestate.add_score Gamestate.SCORE_GET_DOT) _
                 (Gamestate.with_statics a' g1) g3 eq_refl).
      rewrite (read_run _ _ g3 l).
      - unfold g4. by destruct (decide (l = [])).
      - unfold Array.ind_list, Gamestate.dots, Array.indicate. simpl.
        by rewrite list_full_indicators. }
    rewrite (seq_run _ _ g1 g4 E).
    assert (Hc4 : Array.getitem (Gamestate._statics g4) (vx new_vector) (vy new_vector)
                  = Ok (Some LayoutObject.empty)).
    { replace (Gamestate._statics g4) with a' by (unfold g4; by destruct (decide _)).
      rewrite Hget. by rewrite decide_True. }
    assert (Hr4 : Array.rectangular (Gamestate._statics g4)).
    { by replace (Gamestate._statics g4) with a' by (unfold g4; by destruct (decide _)). }
    destruct (indicator_test _ LayoutObject.pellet new_vector _ Hr4 Hc4)
      as (p & Hp & Hpt).
    rewrite (read_run _ _ g4 p Hp), Hpt. rewrite bool_decide_eq_false_2 by done.
    exists g4. split; [done|]. split; [done|]. split; [done|].
    split; [unfold g4; by destruct (decide _)|].
    split; [unfold g4; by destruct (decide _)|].
    cbv zeta. exists a', l. split; [done|]. split; [done|].
    split; [unfold g4; by destruct (decide _)|].
    split; [unfold g4; by destruct (decide _)|].
    unfold g4. destruct (decide _); simpl;
      unfold Gamestate.SCORE_TICK_PENALTY; lia.
  - rewrite bool_decide_eq_false_2 by done.
    rewrite (seq_run _ _ g1 g1 eq_refl).
    destruct (indicator_test _ LayoutObject.pellet new_vector c Hr Hc)
      as (p & Hp & Hpt).
    rewrite (read_run _ _ g1 p Hp), Hpt.
    destruct (decide (c = Some LayoutObject.pellet)) as [->|Hnp].
    + rewrite bool_decide_eq_true_2 by done.
      destruct (set_static_well_formed g1 new_vector LayoutObject.pellet Hg1 Hc)
        as (a' & Hset & E1 & Hg2 & Hget); [done|].
      rewrite (seq_run _ _ g1 _ E1).
      eexists. split; [done|]. split; [done|]. split; [reflexivity|].
      split; [done|]. split; [done|]. cbv zeta.
      exists a'. split; [done|]. split; [done|]. split.
      * simpl. rewrite length_drop, length_insert.
        unfold run_down, Gamestate.SCARED_TIME. f_equal. by rewrite !length_insert.
      * simpl. unfold Gamestate.SCORE_TICK_PENALTY, Gamestate.SCORE_GET_PELLET. lia.
    + rewrite bool_decide_eq_false_2 by done.
      exists g1. split; [done|]. split; [done|]. split; [done|].
      split; [done|]. split; [done|]. cbv zeta.
      assert (Hrest : Gamestate._statics g1 = Gamestate._statics g
                      ∧ Gamestate._timers g1
                        = <[0%nat:=run_down timer]> (Gamestate._timers g)
                      ∧ Gamestate.score g1 = Gamestate.score g - 1).
      { split; [done|]. split; [done|]. simpl.
        unfold Gamestate.SCORE_TICK_PENALTY. lia. }
      destruct c as [[]|]; done.
Qed.

(** A corridor of three free cells: Pacman on the first, the only dot on the
    second, and a ghost on a pellet on the third. *)
Definition larder_world : Gamestate.t :=
  Gamestate.mk
    [[LayoutObject.wall; LayoutObject.wall; LayoutObject.wall];
     [LayoutObject.wall; LayoutObject.empty; LayoutObject.wall];
     [LayoutObject.wall; LayoutObject.dot; LayoutObject.wall];
     [LayoutObject.wall; LayoutObject.pellet; LayoutObject.wall];
     [LayoutObject.wall; LayoutObject.wall; LayoutObject.wall]]
    [Some (mkVector 1 1); Some (mkVector 3 1)]
    [Some (mkVector 1 1); Some (mkVector 3 1)]
    [Move.stop; Move.stop] [0; 0] 0 0.

Lemma larder_well_formed : well_formed larder_world.
Proof.
  unfold well_formed, larder_world. simpl.
  split; [unfold Array.rectangular; simpl; repeat constructor|].
  repeat (split; [done|]).
  split; repeat constructor; simpl; unfold is_wall; simpl; discriminate.
Qed.

Lemma pacman_collects_witness :
  let new_vector := Vector.add (mkVector 1 1) (Move.vector Move.right) in
  ∃ c timer g',
    Array.getitem (Gamestate._statics larder_world) (vx new_vector) (vy new_vector)
    = Ok c
    ∧ Gamestate._timers larder_world !! 0%nat = Some timer
    ∧ Gamestate.apply_move 0 (Some Move.right) larder_world = (Ok (), g')
    ∧ Gamestate.agents g' = <[0%nat := Some new_vector]> (Gamestate.agents larder_world)
    ∧ Gamestate.facings g' = <[0%nat := Move.right]> (Gamestate.facings larder_world)
    ∧ let timers := <[0%nat := run_down timer]> (Gamestate._timers larder_world) in
      match c with
      | Some LayoutObject.dot =>
          ∃ a' l,
            Array.setitem (Gamestate._statics larder_world) (vx new_vector)
              (vy new_vector) LayoutObject.empty = Ok a'
            ∧ Array.list_ a' LayoutObject.dot = Ok l
            ∧ Gamestate._statics g' = a'
            ∧ Gamestate._timers g' = timers
            ∧ Gamestate.score g'
              = Gamestate.score larder_world - 1 + 10
                + (if decide (l = []) then 500 else 0)
      | Some LayoutObject.pellet =>
          ∃ a',
            Array.setitem (Gamestate._statics larder_world) (vx new_vector)
              (vy new_vector) LayoutObject.empty = Ok a'
            ∧ Gamestate._statics g' = a'
            ∧ Gamestate._timers g'
              = take 1 timers ++ replicate (length timers - 1) 40
            ∧ Gamestate.score g' = Gamestate.score larder_world - 1 + 5
      | _ =>
          Gamestate._statics g' = Gamestate._statics larder_world
          ∧ Gamestate._timers g' = timers
          ∧ Gamestate.score g' = Gamestate.score larder_world - 1
      end.
Proof.
  apply (pacman_collects larder_world (mkVector 1 1) Move.right).
  - exact larder_well_formed.
  - reflexivity.
  - unfold is_wall. simpl. discriminate.
  - reflexivity.
Defined.

(** *** The first state of a game *)

Lemma omap_id_Some {A} (l : list A) : omap id (Some <$> l) = l.
Proof. induction l as [|x l IH]; [done|]. rewrite fmap_cons. cbn. by f_equal. Qed.

(** Clearing the floor at positions that the grid contains *)
Lemma clear_floor (l : list Vector) (a : list (list LayoutObject.t)) :
  Array.rectangular a →
  Forall (fun v => in_bounds a (vx v) (vy v)) l →
  ∃ a', foldl (fun acc v =>
                 a ← acc; Array.setitem a (vx v) (vy v) LayoutObject.empty)
              (Ok a) l = Ok a'
        ∧ Array.rectangular a'
        ∧ len a' = len a ∧ height a' = height a
        ∧ ∀ x y, Array.getitem a' x y
                 = if decide (mkVector x y ∈ l ∧ in_bounds a x y)
                   then Ok (Some LayoutObject.empty)
                   else Array.getitem a x y.
Proof.
  revert a. induction l as [|v l IH]; intros a Hr Hall.
  - exists a. split; [done|]. repeat (split; [done|]). intros x y.
    rewrite decide_False; [done|]. intros [Hin _]. by apply elem_of_nil in Hin.
  - apply Forall_cons in Hall as [Hv Hall]. cbn [foldl mbind result_bind].
    destruct (setitem_lookup a (vx v) (vy v) LayoutObject.empty Hr)
      as (a1 & Hset & Hr1 & Hshape & Hget1); [by apply in_bounds_contains|].
    rewrite Hset. rewrite !shape_eq in Hshape. injection Hshape as Hl1 Hh1.
    assert (Hb : ∀ x y, in_bounds a1 x y ↔ in_bounds a x y).
    { intros x y. unfold in_bounds. by rewrite Hl1, Hh1. }
    destruct (IH a1 Hr1) as (a' & Hfold & Hr' & Hl' & Hh' & Hget').
    { eapply Forall_impl; [exact Hall|]. intros u Hu. by apply Hb. }
    exists a'. split; [done|]. split; [done|]. split; [congruence|].
    split; [congruence|]. intros x y. rewrite Hget', Hget1.
    destruct (decide (mkVector x y ∈ l ∧ in_bounds a1 x y)) as [[Hin Hbx]|Hn].
    + rewrite decide_True; [done|]. split; [by right|by apply Hb].
    + destruct (decide (x = vx v ∧ y = vy v)) as [[-> ->]|Hne].
      * rewrite decide_True; [done|]. split; [destruct v; left|done].
      * destruct (decide (mkVector x y ∈ v :: l ∧ in_bounds a x y))
          as [[Hin Hbx]|Hn']; [|done].
        exfalso. apply elem_of_cons in Hin as [<-|Hin]; [by apply Hne|].
        apply Hn. split; [done|by apply Hb].
Qed.

(** The state that is built from a rectangular layout *)
Lemma init_builds (arr : list (list LayoutObject.t)) :
  Array.rectangular arr →
  ∃ g ps gs,
    Gamestate.init arr None = Ok g
    ∧ Array.list_ arr LayoutObject.pacman = Ok ps
    ∧ Array.list_ arr LayoutObject.ghost = Ok gs
    ∧ Gamestate.agents g = Some <$> ps ++ gs
    ∧ Gamestate.starts g = Gamestate.agents g
    ∧ Gamestate.facings g = replicate (length (ps ++ gs)) Move.stop
    ∧ Gamestate._timers g = replicate (length (ps ++ gs)) 0
    ∧ Gamestate.score g = 0
    ∧ Gamestate._tick g = 0
    ∧ Gamestate.shape g = Array.shape arr
    ∧ (∀ x y,
         Array.getitem (Gamestate._statics g) x y
         = if decide (Array.getitem arr x y = Ok (Some LayoutObject.pacman)
                      ∨ Array.getitem arr x y = Ok (Some LayoutObject.ghost))
           then Ok (Some LayoutObject.empty)
           else Array.getitem arr x y)
    ∧ well_formed g.
Proof.
  intros Hr.
  destruct (list_hits_positions arr LayoutObject.pacman Hr) as (ps & Hps & Hmp & _).
  destruct (list_hits_positions arr LayoutObject.ghost Hr) as (gs & Hgs & Hmg & _).
  assert (Hmem : ∀ x y, mkVector x y ∈ ps ++ gs
                        ↔ Array.getitem arr x y = Ok (Some LayoutObject.pacman)
                          ∨ Array.getitem arr x y = Ok (Some LayoutObject.ghost)).
  { intros x y. rewrite elem_of_app, Hmp, Hmg. done. }
  assert (Hcopy : Array.copy arr = arr).
  { unfold Array.copy. by rewrite list_fmap_id. }
  destruct (clear_floor (ps ++ gs) arr Hr) as (a' & Hfold & Hr' & Hl' & Hh' & Hget').
  { apply Forall_forall. intros [x y] Hin. apply Hmem in Hin. simpl.
    destruct Hin as [Hin|Hin]; by apply getitem_Some_in_bounds in Hin. }
  assert (Hget : ∀ x y,
    Array.getitem a' x y
    = if decide (Array.getitem arr x y = Ok (Some LayoutObject.pacman)
                 ∨ Array.getitem arr x y = Ok (Some LayoutObject.ghost))
      then Ok (Some LayoutObject.empty) else Array.getitem arr x y).
  { intros x y. rewrite Hget'.
    destruct (decide (mkVector x y ∈ ps ++ gs ∧ in_bounds arr x y)) as [[Hin _]|Hn].
    - rewrite decide_True; [done|]. by apply Hmem.
    - rewrite decide_False; [done|]. intros Hin. apply Hn. split; [by apply Hmem|].
      destruct Hin as [Hin|Hin]; by apply getitem_Some_in_bounds in Hin. }
  eexists _, ps, gs. split.
  { unfold Gamestate.init. rewrite Hps, Hgs. cbn [mbind result_bind].
    rewrite omap_id_Some, Hcopy, Hfold. cbn [mbind result_bind]. reflexivity. }
  cbn [Gamestate.agents Gamestate.starts Gamestate.facings Gamestate._timers
       Gamestate.score Gamestate._tick Gamestate._statics].
  rewrite length_fmap.
  split_and!; try done.
  - unfold Gamestate.shape. cbn [Gamestate._statics]. rewrite !shape_eq.
    by rewrite Hl', Hh'.
  - unfold well_formed.
    cbn [Gamestate.agents Gamestate.starts Gamestate.facings Gamestate._timers
         Gamestate._statics].
    rewrite !length_replicate, length_fmap.
    assert (Hfloor : Forall (on_floor a') (Some <$> ps ++ gs)).
    { apply Forall_fmap, Forall_forall. intros [x y] Hin. simpl.
      unfold is_wall. simpl. rewrite Hget. apply Hmem in Hin.
      by rewrite decide_True. }
    split_and!; done.
Qed.

(** X15: the state that [Gamestate(layout)] builds from a rectangular
    layout. The agents are the cells that hold Pacman, followed by the cells
    that hold a ghost, each list column by column; every agent starts where
    it stands, faces [stop] and has timer 0, and the score and the turn
    number are 0. The grid is the layout with the cells of the agents
    cleared, and the state is well formed. *)
Theorem init_state (arr : list (list LayoutObject.t)) :
  Array.rectangular arr →
  ∃ g ps gs,
    Gamestate.init arr None = Ok g
    ∧ Array.list_ arr LayoutObject.pacman = Ok ps
    ∧ Array.list_ arr LayoutObject.ghost = Ok gs
    ∧ Gamestate.agents g = Some <$> ps ++ gs
    ∧ Gamestate.starts g = Gamestate.agents g
    ∧ Gamestate.facings g = replicate (length (ps ++ gs)) Move.stop
    ∧ Gamestate._timers g = replicate (length (ps ++ gs)) 0
    ∧ Gamestate.score g = 0
    ∧ Gamestate._tick g = 0
    ∧ Gamestate.shape g = Array.shape arr
    ∧ (∀ x y,
         Array.getitem (Gamestate._statics g) x y
         = if decide (Array.getitem arr x y = Ok (Some LayoutObject.pacman)
                      ∨ Array.getitem arr x y = Ok (Some LayoutObject.ghost))
           then Ok (Some LayoutObject.empty)
           else Array.getitem arr x y)
    ∧ well_formed g.
Proof. exact (init_builds arr). Qed.

(** A layout of two columns: Pacman above a dot, and a ghost above a wall *)
Definition yard : list (list LayoutObject.t) :=
  [[LayoutObject.dot; LayoutObject.pacman];
   [LayoutObject.wall; LayoutObject.ghost]].

Lemma init_state_witness :
  ∃ g ps gs,
    Gamestate.init yard None = Ok g
    ∧ Array.list_ yard LayoutObject.pacman = Ok ps
    ∧ Array.list_ yard LayoutObject.ghost = Ok gs
    ∧ Gamestate.agents g = Some <$> ps ++ gs
    ∧ Gamestate.starts g = Gamestate.agents g
    ∧ Gamestate.facings g = replicate (length (ps ++ gs)) Move.stop
    ∧ Gamestate._timers g = replicate (length (ps ++ gs)) 0
    ∧ Gamestate.score g = 0
    ∧ Gamestate._tick g = 0
    ∧ Gamestate.shape g = Array.shape yard
    ∧ (∀ x y,
         Array.getitem (Gamestate._statics g) x y
         = if decide (Array.getitem yard x y = Ok (Some LayoutObject.pacman)
                      ∨ Array.getitem yard x y = Ok (Some LayoutObject.ghost))
           then Ok (Some LayoutObject.empty)
           else Array.getitem yard x y)
    ∧ well_formed g.
Proof.
  apply (init_state yard). unfold Array.rectangular. simpl. repeat constructor.
Defined.

(** ** Running a game ([pacman/game.py]) *)

Lemma gameover_dead (g : Gamestate.t) :
  Gamestate.agents g !! 0%nat = Some None → Gamestate.gameover g = Ok true.
Proof.
  intros Hd. unfold Gamestate.gameover, Gamestate.win, Gamestate.loss,
    Gamestate.pacman, nat_get, Gamestate.PACMAN_ID. by rewrite Hd.
Qed.

Lemma gameover_alive (g : Gamestate.t) :
  Gamestate.gameover g = Ok false → ∃ v, Gamestate.agents g !! 0%nat = Some (Some v).
Proof.
  unfold Gamestate.gameover, Gamestate.win, Gamestate.loss,
    Gamestate.pacman, nat_get, Gamestate.PACMAN_ID.
  destruct (Gamestate.agents g !! 0%nat) as [[v|]|]; simpl; [eauto|done..].
Qed.

(** What [tick] does *)
Lemma tick_run (g : Gamestate.t) :
  Gamestate.tick g
  = if decide (Gamestate._tick g + 1 = Gamestate.MAX_TICKS) then
      Gamestate.destroy Gamestate.PACMAN_ID
        (Gamestate.with_tick (Gamestate._tick g + 1) g)
    else (Ok (), Gamestate.with_tick (Gamestate._tick g + 1) g).
Proof.
  unfold Gamestate.tick, Gamestate.get, Gamestate.put, mbind, Gamestate.M_bind.
  cbn [Gamestate._tick Gamestate.with_tick]. by destruct (decide _).
Qed.

Lemma destroy_pacman_run (g : Gamestate.t) :
  Gamestate.destroy Gamestate.PACMAN_ID g
  = if decide (0 < length (Gamestate.agents g))%nat then
      (Ok (), Gamestate.with_score (Gamestate.score g + Gamestate.SCORE_DIE_PENALTY)
                (Gamestate.with_agents (<[0%nat := None]> (Gamestate.agents g)) g))
    else (Raise IndexError, g).
Proof.
  unfold Gamestate.destroy, Gamestate.set_agent, Gamestate.add_score,
    Gamestate.get, Gamestate.put, Gamestate.lift, nat_set, mbind, Gamestate.M_bind,
    Gamestate.PACMAN_ID.
  by destruct (decide (0 < length (Gamestate.agents g))%nat).
Qed.

Section Rounds.
Context {St : Type}.
Implicit Types all_agents : list (Game.Agent St).

Lemma round_tick all_agents g timed st g' timed' st' :
  Game.round all_agents g timed st = (Ok (g', timed'), st') →
  Gamestate._tick g' = Gamestate._tick g.
Proof.
  revert g timed st. induction all_agents as [|agent all_agents IH];
    intros g timed st; cbn [Game.round].
  - by intros [= <- _ _].
  - destruct (Gamestate.gameover g) as [[|]|]; [by intros [= <- _ _]| |done].
    destruct (Gamestate.can_move g (Game.id agent)) as [[|]|]; [|by apply IH|done].
    destruct (Game.move agent (Gamestate.copy g) st) as [[m|e] st1]; [|done].
    destruct (Gamestate.apply_move (Game.id agent) m g) as [[[]|e] g1] eqn:E;
      [|done].
    intros Hround. rewrite (IH _ _ _ Hround).
    destruct (frame_apply_move g (Game.id agent) m) as (_ & Ht & _).
    unfold final in Ht. by rewrite E in Ht.
Qed.

(** A move time that was measured stays measured. *)
Lemma round_keeps_timed all_agents g st g' timed' st' :
  Game.round all_agents g true st = (Ok (g', timed'), st') → timed' = true.
Proof.
  revert g st. induction all_agents as [|a l IH]; intros g st; cbn [Game.round].
  - by intros [= _ <- _].
  - destruct (Gamestate.gameover g) as [[|]|]; [by intros [= _ <- _]| |done].
    destruct (Gamestate.can_move g (Game.id a)) as [[|]|]; [|by apply IH|done].
    destruct (Game.move a (Gamestate.copy g) st) as [[m|e] st2]; [|done].
    destruct (Gamestate.apply_move (Game.id a) m g) as [[[]|e] g2]; [|done].
    apply IH.
Qed.

(** An agent that is there, with timer 0, can move unless the game is over. *)
Lemma can_move_fresh (g : Gamestate.t) (i : nat) :
  Gamestate.gameover g = Ok false →
  Forall (fun a => is_Some a) (Gamestate.agents g) →
  Forall (fun t => t = 0) (Gamestate._timers g) →
  Gamestate.can_move g i = Ok true ∨ ∃ e, Gamestate.can_move g i = Raise e.
Proof.
  intros Hover Ha Ht. unfold Gamestate.can_move, nat_get.
  destruct (Gamestate.agents g !! i) as [a|] eqn:Ea; [|right; by eexists].
  rewrite Forall_forall in Ha. destruct (Ha a) as [v ->];
    [by eapply list_elem_of_lookup_2|]. cbn [mbind result_bind].
  destruct (Gamestate._timers g !! i) as [t|] eqn:Et; [|right; by eexists].
  rewrite Forall_forall in Ht. rewrite (Ht t) by (by eapply list_elem_of_lookup_2).
  cbn [mbind result_bind]. simpl. rewrite Hover. by left.
Qed.

(** The first round of a game times a move, if it comes to an end. *)
Lemma round_timed agent all_agents g st g' timed' st' :
  Gamestate.gameover g = Ok false →
  Forall (fun a => is_Some a) (Gamestate.agents g) →
  Forall (fun t => t = 0) (Gamestate._timers g) →
  Game.round (agent :: all_agents) g false st = (Ok (g', timed'), st') →
  timed' = true.
Proof.
  intros Hover Ha Ht. cbn [Game.round]. rewrite Hover.
  destruct (can_move_fresh g (Game.id agent) Hover Ha Ht) as [->|[e ->]]; [|done].
  destruct (Game.move agent (Gamestate.copy g) st) as [[m|e] st1]; [|done].
  destruct (Gamestate.apply_move (Game.id agent) m g) as [[[]|e] g1]; [|done].
  apply round_keeps_timed.
Qed.

(** What is known of a game at the head of the main loop: the turn number
    and the rounds that have been registered. *)
Definition in_time (g : Gamestate.t) (stats : Game.GameStats) : Prop :=
  0 ≤ Gamestate._tick g ≤ Gamestate.MAX_TICKS
  ∧ (Gamestate._tick g = Gamestate.MAX_TICKS →
     Gamestate.agents g !! 0%nat = Some None)
  ∧ Game.num_moves stats = Gamestate._tick g
  ∧ Game.num_games stats = 0 ∧ Game.sum_score stats = 0
  ∧ Game.num_wins stats = 0 ∧ Game.timeouts stats = 0.

(** What is known of the game that the main loop returns *)
Definition ended (r : Datatypes.sum Game.error (Gamestate.t * Game.GameStats) * St)
  : Prop :=
  match r.1 with
  | inl e => e ≠ Game.UnboundLocalError
  | inr (g, stats) => Gamestate.gameover g = Ok true ∧ in_time g stats
  end.

Lemma game_loop_ends (k : nat) :
  ∀ all_agents g timed stats st,
    in_time g stats →
    (Gamestate.MAX_TICKS - Gamestate._tick g ≤ Z.of_nat k) →
    (timed = true
     ∨ all_agents ≠ []
       ∧ Forall (fun a => is_Some a) (Gamestate.agents g)
       ∧ Forall (fun t => t = 0) (Gamestate._timers g)) →
    ∃ r, ended r
         ∧ ∀ fuel, (k < fuel)%nat →
             Game.game_loop fuel all_agents g timed stats st = Some r.
Proof.
  induction k as [|k IH]; intros all_agents g timed stats st Hin Hk Htimed.
  - pose proof Hin as (Hb & Hd & Hm & Hrest).
    assert (Ht : Gamestate._tick g = Gamestate.MAX_TICKS) by lia.
    pose proof (gameover_dead g (Hd Ht)) as Hover.
    eexists. split; [|intros [|fuel] Hf; [lia|]; cbn [Game.game_loop];
                      rewrite Hover; reflexivity].
    unfold ended. simpl. done.
  - destruct (Gamestate.gameover g) as [[|]|e] eqn:Hover.
    + eexists. split; [|intros [|fuel] Hf; [lia|]; cbn [Game.game_loop];
                        rewrite Hover; reflexivity].
      unfold ended. simpl. done.
    + destruct (Game.round all_agents g timed st) as [[[g1 timed1]|e] st1] eqn:Hround.
      2:{ eexists. split; [|intros [|fuel] Hf; [lia|]; cbn [Game.game_loop];
                            rewrite Hover, Hround; reflexivity].
          unfold ended. simpl. done. }
      assert (Ht1 : timed1 = true).
      { destruct timed; [by eapply round_keeps_timed|].
        destruct Htimed as [?|(Hne & Ha & Ht)]; [done|].
        destruct all_agents as [|agent l]; [done|].
        by eapply round_timed. }
      subst timed1.
      pose proof (round_tick _ _ _ _ _ _ _ Hround) as Htick.
      pose proof Hin as (Hb & Hd & Hm & Hg & Hs & Hw & Hto).
      assert (Hlt : Gamestate._tick g < Gamestate.MAX_TICKS).
      { destruct (decide (Gamestate._tick g = Gamestate.MAX_TICKS)) as [E|]; [|lia].
        rewrite (gameover_dead g (Hd E)) in Hover. done. }
      destruct (Gamestate.tick g1) as [[[]|e] g2] eqn:Etick.
      2:{ eexists. split; [|intros [|fuel] Hf; [lia|]; cbn [Game.game_loop];
                            rewrite Hover, Hround, Etick; reflexivity].
          unfold ended. simpl. done. }
      assert (Hin2 : in_time g2 (Game.register_move stats)).
      { rewrite tick_run in Etick. unfold in_time, Game.register_move. simpl.
        destruct (decide (Gamestate._tick g1 + 1 = Gamestate.MAX_TICKS)) as [E|E].
        - rewrite destroy_pacman_run in Etick.
          destruct (decide _) as [Hpos|]; [|done]. injection Etick as <-.
          simpl. split_and!; try done; try lia.
          intros _. by apply list_lookup_insert_eq.
        - injection Etick as <-. simpl. split_and!; try done; lia. }
      destruct (IH all_agents g2 true (Game.register_move stats) st1 Hin2)
        as (r & Hr & Hloop); [|by left|].
      { rewrite tick_run in Etick.
        destruct (decide (Gamestate._tick g1 + 1 = Gamestate.MAX_TICKS)) as [E|E].
        - rewrite destroy_pacman_run in Etick.
          destruct (decide _) as [Hpos|]; [|done]. injection Etick as <-.
          simpl. lia.
        - injection Etick as <-. simpl. lia. }
      exists r. split; [done|]. intros [|fuel] Hf; [lia|]. cbn [Game.game_loop].
      rewrite Hover, Hround, Etick. apply Hloop. lia.
    + eexists. split; [|intros [|fuel] Hf; [lia|]; cbn [Game.game_loop];
                        rewrite Hover; reflexivity].
      unfold ended. simpl. done.
Qed.

Lemma init_fresh (layout : list (list LayoutObject.t)) (g : Gamestate.t) :
  Gamestate.init layout None = Ok g →
  Gamestate._tick g = 0
  ∧ Forall (fun a => is_Some a) (Gamestate.agents g)
  ∧ Forall (fun t => t = 0) (Gamestate._timers g).
Proof.
  unfold Gamestate.init.
  destruct (Array.list_ layout LayoutObject.pacman) as [ps|]; [|done].
  destruct (Array.list_ layout LayoutObject.ghost) as [gs|]; [|done].
  cbn [mbind result_bind].
  destruct (foldl _ _ _) as [a'|]; [|done]. cbn [mbind result_bind].
  intros [= <-]. simpl. split; [done|]. split.
  - apply Forall_fmap, Forall_forall. intros v _. by eexists.
  - apply Forall_forall. intros t Ht. by apply elem_of_replicate in Ht as [-> _].
Qed.

End Rounds.

(** The main loop of [run_game] comes to an end. *)
Lemma game_ends {St : Type} (layout : list (list LayoutObject.t))
    (all_agents : list (Game.Agent St)) (st : St) :
  ∃ r, (∀ fuel, (100 < fuel)%nat → Game.run_game fuel layout all_agents st = Some r)
       ∧ match r.1 with
         | inl e => e ≠ Game.UnboundLocalError
         | inr (g, stats) =>
             Gamestate.gameover g = Ok true
             ∧ 0 ≤ Gamestate._tick g ≤ Gamestate.MAX_TICKS
             ∧ Game.num_moves stats = Gamestate._tick g
             ∧ Game.num_games stats = 1
             ∧ Game.sum_score stats = Gamestate.score g
             ∧ Game.timeouts stats = 0
             ∧ Gamestate.win g = Ok (bool_decide (Game.num_wins stats = 1))
         end.
Proof.
  unfold Game.run_game.
  destruct (Gamestate.init layout None) as [g0|e] eqn:Hinit;
    [|by eexists; split; [reflexivity|]].
  destruct (Game.prepare_all 0 all_agents g0 st) as [[[]|e] st0];
    [|by eexists; split; [reflexivity|]].
  destruct all_agents as [|pacman rest]; [by eexists; split; [reflexivity|]|].
  destruct (init_fresh layout g0 Hinit) as (Ht0 & Ha0 & Htm0).
  destruct (game_loop_ends 100 (pacman :: rest) g0 false (Game.mkStats 0 0 0 0 0) st0)
    as (r & Hr & Hloop).
  { unfold in_time. simpl. rewrite Ht0. unfold Gamestate.MAX_TICKS.
    split_and!; try done; lia. }
  { rewrite Ht0. unfold Gamestate.MAX_TICKS. lia. }
  { right. by split_and!. }
  destruct r as [[e|[g stats]] st1].
  - exists (inl e, st1). split; [|exact Hr].
    intros fuel Hf. by rewrite (Hloop fuel Hf).
  - destruct Hr as (Hover & Hb & _ & Hm & Hg & Hs & Hw & Hto).
    destruct (Gamestate.win g) as [win|e] eqn:Hwin.
    + eexists. split; [intros fuel Hf; rewrite (Hloop fuel Hf), Hwin; reflexivity|].
      cbn [fst]. rewrite copy_id. rewrite Hwin. unfold Game.register_game.
      cbn [Game.num_moves Game.num_games Game.sum_score Game.timeouts Game.num_wins].
      rewrite Hg, Hs, Hw, Hto. split_and!; try done; try lia.
      f_equal. by destruct win.
    + exfalso. unfold Gamestate.gameover in Hover. by rewrite Hwin in Hover.
Qed.

(** X16: every game ends within [MAX_TICKS] rounds. Whatever the layout
    and whatever the agents do, [run_game] without timeouts comes to an end:
    it needs no more than 100 rounds of its main loop, and then it returns
    or raises. What it raises is never the [UnboundLocalError] of a move
    time that was not measured; and when it returns, the game is over in the
    state it returns, the turn number is at most 100, and the statistics
    count one game, the rounds that were played, the score of the state and
    a win exactly if the state is won. *)
Theorem run_game_ends {St : Type} (layout : list (list LayoutObject.t))
    (all_agents : list (Game.Agent St)) (st : St) :
  ∃ r, (∀ fuel, (100 < fuel)%nat → Game.run_game fuel layout all_agents st = Some r)
       ∧ match r.1 with
         | inl e => e ≠ Game.UnboundLocalError
         | inr (g, stats) =>
             Gamestate.gameover g = Ok true
             ∧ 0 ≤ Gamestate._tick g ≤ Gamestate.MAX_TICKS
             ∧ Game.num_moves stats = Gamestate._tick g
             ∧ Game.num_games stats = 1
             ∧ Game.sum_score stats = Gamestate.score g
             ∧ Game.timeouts stats = 0
             ∧ Gamestate.win g = Ok (bool_decide (Game.num_wins stats = 1))
         end.
Proof. exact (game_ends layout all_agents st). Qed.

(** *** Games that do not raise *)




Section Fair.
Context {St : Type}.





End Fair.





(** ** The agents ([pacman/agents.py]) *)

(** The legal moves of an agent of a well-formed world *)
Lemma legal_moves_well_formed (g : Gamestate.t) (i : nat) (v : Vector) :
  well_formed g → Gamestate.agents g !! i = Some (Some v) →
  let moves : gset Move.t :=
    list_to_set (filter (fun m => ¬ is_wall (Gamestate._statics g)
                                      (Vector.add v (Move.vector m))) Move.all) in
  Gamestate.legal_moves_vector g (Some v) = Ok moves
  ∧ Gamestate.legal_moves_id g i = Ok moves
  ∧ Move.stop ∈ moves.
Proof.
  intros Hg Hv moves. pose proof Hg as (Hr & _ & _ & _ & Hfloor & _).
  assert (E : Gamestate.legal_moves_vector g (Some v) = Ok moves)
    by by apply legal_moves_vector_eq.
  split; [done|]. split.
  - unfold Gamestate.legal_moves_id, nat_get. rewrite Hv. done.
  - apply elem_of_list_to_set, list_elem_of_filter. split.
    + rewrite Vector_add_stop. by eapply on_floor_lookup.
    + unfold Move.all. repeat constructor.
Qed.

Lemma choice_elem {A} (draw : nat) (seq : list A) :
  seq ≠ [] → ∃ a, Agents.choice draw seq = Ok a ∧ a ∈ seq.
Proof.
  intros Hne. unfold Agents.choice. destruct seq as [|x seq]; [done|].
  set (l := x :: seq). unfold nat_get.
  destruct (lookup_lt_is_Some_2 l (draw `mod` length l)%nat) as [a Ha].
  { apply Nat.mod_upper_bound. done. }
  rewrite Ha. exists a. split; [done|]. by eapply list_elem_of_lookup_2.
Qed.

(** X18: the agents that go one way make legal moves. In a well-formed
    world in which Pacman is there, [GoLeftAgent.move] returns [left] if
    [left] is a legal move of Pacman and [stop] otherwise, [GoRightAgent.move]
    does the same with [right], and what they return is a legal move. *)
Theorem one_way_agents_legal (g : Gamestate.t) (v : Vector) :
  well_formed g →
  Gamestate.agents g !! 0%nat = Some (Some v) →
  ∃ moves,
    Gamestate.legal_moves_id g 0 = Ok moves
    ∧ Agents.GoLeftAgent_move (Gamestate.copy g)
      = Ok (if decide (Move.left ∈ moves) then Move.left else Move.stop)
    ∧ Agents.GoRightAgent_move (Gamestate.copy g)
      = Ok (if decide (Move.right ∈ moves) then Move.right else Move.stop)
    ∧ (∀ m, Agents.GoLeftAgent_move (Gamestate.copy g) = Ok m
            ∨ Agents.GoRightAgent_move (Gamestate.copy g) = Ok m → m ∈ moves).
Proof.
  intros Hg Hv. destruct (legal_moves_well_formed g 0 v Hg Hv) as (Hvec & Hid & Hstop).
  eexists. split; [exact Hid|]. rewrite copy_id.
  unfold Agents.GoLeftAgent_move, Agents.GoRightAgent_move, nat_get.
  rewrite Hv. cbn [mbind result_bind]. rewrite Hvec. cbn [mbind result_bind].
  split; [done|]. split; [done|].
  intros m [[= <-]|[= <-]]; by destruct (decide _).
Qed.

Lemma one_way_agents_legal_witness :
  ∃ moves,
    Gamestate.legal_moves_id (corridor_world 0) 0 = Ok moves
    ∧ Agents.GoLeftAgent_move (Gamestate.copy (corridor_world 0))
      = Ok (if decide (Move.left ∈ moves) then Move.left else Move.stop)
    ∧ Agents.GoRightAgent_move (Gamestate.copy (corridor_world 0))
      = Ok (if decide (Move.right ∈ moves) then Move.right else Move.stop)
    ∧ (∀ m, Agents.GoLeftAgent_move (Gamestate.copy (corridor_world 0)) = Ok m
            ∨ Agents.GoRightAgent_move (Gamestate.copy (corridor_world 0)) = Ok m →
            m ∈ moves).
Proof.
  apply (one_way_agents_legal (corridor_world 0) (mkVector 1 1)).
  - exact (corridor_well_formed 0).
  - reflexivity.
Defined.

(** X19: the valid moves of a ghost. In a well-formed world, for a ghost
    that is there, [valid_moves] returns legal moves of the ghost, never
    [stop]; it returns every legal move but [stop] and the opposite of the
    way the ghost faces, and the opposite only when that is the one way to
    go; and it returns no move only when [stop] is the one legal move. A
    [RandomGhostAgent] then makes one of the valid moves, or [stop] when
    there is none: a legal move in both cases. *)
Theorem ghost_valid_moves (g : Gamestate.t) (i draw : nat) (v : Vector)
    (facing : Move.t) :
  well_formed g →
  Gamestate.agents g !! i = Some (Some v) →
  Gamestate.facings g !! i = Some facing →
  ∃ legal valid opposite m,
    Gamestate.legal_moves_id g i = Ok legal
    ∧ Move.opposite facing = Ok opposite
    ∧ Agents.valid_moves i (Gamestate.copy g) = Ok valid
    ∧ valid ⊆ legal ∖ {[Move.stop]}
    ∧ legal ∖ {[Move.stop; opposite]} ⊆ valid
    ∧ (opposite ∈ valid → valid = {[opposite]})
    ∧ (valid = ∅ ↔ legal = {[Move.stop]})
    ∧ Agents.RandomGhostAgent_move i draw (Gamestate.copy g) = Ok m
    ∧ m ∈ legal
    ∧ (if decide (valid = ∅) then m = Move.stop else m ∈ valid).
Proof.
  intros Hg Hv Hf. destruct (legal_moves_well_formed g i v Hg Hv) as (Hvec & Hid & Hstop).
  set (legal := list_to_set _ : gset Move.t) in *. clearbody legal.
  assert (Hopp : ∃ o, Move.opposite facing = Ok o) by (destruct facing; by eexists).
  destruct Hopp as [o Ho].
  assert (Hvalid : Agents.valid_moves i (Gamestate.copy g)
                   = Ok (if decide (size (legal ∖ {[Move.stop]}) = 1%nat)
                         then legal ∖ {[Move.stop]}
                         else legal ∖ {[Move.stop]} ∖ {[o]})).
  { rewrite copy_id. unfold Agents.valid_moves, nat_get. rewrite Hv, Hf.
    cbn [mbind result_bind]. rewrite Hvec. cbn [mbind result_bind].
    destruct (decide _); [done|]. by rewrite Ho. }
  remember (if decide (size (legal ∖ {[Move.stop]}) = 1%nat)
            then legal ∖ {[Move.stop]} else legal ∖ {[Move.stop]} ∖ {[o]})
    as valid eqn:Evalid.
  assert (Hcases : (size (legal ∖ {[Move.stop]}) = 1%nat ∧ valid = legal ∖ {[Move.stop]})
                   ∨ (size (legal ∖ {[Move.stop]}) ≠ 1%nat
                      ∧ valid = legal ∖ {[Move.stop]} ∖ {[o]})).
  { rewrite Evalid. destruct (decide _); [by left|by right]. }
  clear Evalid.
  assert (Hsub : valid ⊆ legal ∖ {[Move.stop]}).
  { destruct Hcases as [[_ ->]|[_ ->]]; set_unfold; tauto. }
  assert (Hsup : legal ∖ {[Move.stop; o]} ⊆ valid).
  { destruct Hcases as [[_ ->]|[_ ->]]; set_unfold; tauto. }
  assert (Hrev : o ∈ valid → valid = {[o]}).
  { destruct Hcases as [[H1 ->]|[_ ->]]; [|set_unfold; tauto].
    intros Hin. apply size_1_elem_of in H1 as [x Hx].
    apply leibniz_equiv in Hx. rewrite Hx in *.
    apply elem_of_singleton in Hin. by subst x. }
  assert (Hempty : valid = ∅ ↔ legal = {[Move.stop]}).
  { destruct Hcases as [[H1 ->]|[H1 ->]].
    - split.
      + intros E. rewrite E, size_empty in H1. done.
      + intros E. rewrite E in H1.
        replace ({[Move.stop]} ∖ {[Move.stop]} : gset Move.t) with (∅ : gset Move.t)
          in H1 by (apply set_eq; intros y; set_unfold; tauto).
        rewrite size_empty in H1. done.
    - split.
      + intros E. apply set_eq. intros x. split.
        * intros Hx. apply elem_of_singleton.
          destruct (decide (x = Move.stop)) as [->|Hn]; [done|]. exfalso.
          assert (Hxo : x = o).
          { destruct (decide (x = o)) as [|Hno]; [done|]. exfalso.
            assert (Hin : x ∈ legal ∖ {[Move.stop]} ∖ {[o]})
              by (set_unfold; tauto).
            rewrite E in Hin. by apply elem_of_empty in Hin. }
          subst x. apply H1.
          assert (Hall : legal ∖ {[Move.stop]} = {[o]}).
          { apply set_eq. intros y. split.
            - intros Hy. apply elem_of_singleton.
              destruct (decide (y = o)) as [|Hyo]; [done|]. exfalso.
              assert (Hin : y ∈ legal ∖ {[Move.stop]} ∖ {[o]})
                by (set_unfold; tauto).
              rewrite E in Hin. by apply elem_of_empty in Hin.
            - intros Hy. apply elem_of_singleton in Hy as ->.
              set_unfold; tauto. }
          rewrite Hall. apply size_singleton.
        * intros Hx. apply elem_of_singleton in Hx as ->. done.
      + intros E. rewrite E. apply set_eq. intros y. set_unfold. tauto. }
  assert (Hmove : ∃ m, Agents.RandomGhostAgent_move i draw (Gamestate.copy g) = Ok m
                       ∧ (if decide (valid = ∅) then m = Move.stop else m ∈ valid)).
  { unfold Agents.RandomGhostAgent_move, Agents.RandomGhostAgent_distribution.
    rewrite Hvalid. cbn [mbind result_bind fst].
    destruct (decide (elements valid = [])) as [E|E].
    - exists Move.stop. split; [done|]. rewrite decide_True; [done|].
      apply elements_empty_inv in E. by apply leibniz_equiv in E.
    - destruct (choice_elem draw (elements valid) E) as (m & -> & Hm).
      exists m. split; [done|]. rewrite decide_False; [by apply elem_of_elements|].
      intros Ev. rewrite Ev, elements_empty in E. done. }
  destruct Hmove as (m & Hmove & Hm).
  exists legal, valid, o, m. split_and!; try done.
  destruct (decide (valid = ∅)); [by subst m|].
  apply Hsub in Hm. set_unfold. tauto.
Qed.

Lemma ghost_valid_moves_witness :
  ∃ legal valid opposite m,
    Gamestate.legal_moves_id (corridor_world 0) 1 = Ok legal
    ∧ Move.opposite Move.stop = Ok opposite
    ∧ Agents.valid_moves 1 (Gamestate.copy (corridor_world 0)) = Ok valid
    ∧ valid ⊆ legal ∖ {[Move.stop]}
    ∧ legal ∖ {[Move.stop; opposite]} ⊆ valid
    ∧ (opposite ∈ valid → valid = {[opposite]})
    ∧ (valid = ∅ ↔ legal = {[Move.stop]})
    ∧ Agents.RandomGhostAgent_move 1 7 (Gamestate.copy (corridor_world 0)) = Ok m
    ∧ m ∈ legal
    ∧ (if decide (valid = ∅) then m = Move.stop else m ∈ valid).
Proof.
  apply (ghost_valid_moves (corridor_world 0) 1 7 (mkVector 2 1) Move.stop).
  - exact (corridor_well_formed 0).
  - reflexivity.
  - reflexivity.
Defined.

Lemma mapM_fmap_ok {A B} (f : A → result B) (h : A → B) (l : list A) :
  (∀ x, x ∈ l → f x = Ok (h x)) → mapM f l = Ok (h <$> l).
Proof.
  induction l as [|x l IH]; intros Hf; [done|].
  cbn. rewrite (Hf x) by left. simpl.
  rewrite IH by (intros y Hy; apply Hf; by right). done.
Qed.

Lemma foldl_max_spec (v : Z) (rest : list Z) :
  foldl Z.max v rest ∈ v :: rest ∧ ∀ y, y ∈ v :: rest → y ≤ foldl Z.max v rest.
Proof.
  revert v. induction rest as [|x rest IH]; intros v; simpl.
  - split; [left|]. intros y Hy. apply list_elem_of_singleton in Hy as ->. lia.
  - destruct (IH (Z.max v x)) as [Hin Hmax]. split.
    + apply elem_of_cons in Hin as [E|Hin]; [|by do 2 right].
      rewrite E. destruct (Z.max_spec v x) as [[_ ->]|[_ ->]]; [right; left|left].
    + intros y Hy. apply elem_of_cons in Hy as [->|Hy].
      * specialize (Hmax (Z.max v x) ltac:(left)). lia.
      * apply elem_of_cons in Hy as [->|Hy].
        -- specialize (Hmax (Z.max v x) ltac:(left)). lia.
        -- apply Hmax. by right.
Qed.

Lemma py_max_spec (values : list Z) :
  values ≠ [] →
  ∃ M, Agents.py_max values = Ok M ∧ M ∈ values ∧ ∀ y, y ∈ values → y ≤ M.
Proof.
  destruct values as [|v rest]; [done|]. intros _.
  exists (foldl Z.max v rest). split; [done|]. apply foldl_max_spec.
Qed.

(** X20: the reflex agent that goes by the score makes a best legal move.
    In a well-formed world in which Pacman is there, whatever the random
    generator draws, [ReflexAgent.move] with the [evaluate] of
    [ScoreReflexAgent] returns a legal move of Pacman, and no legal move
    leads to a successor with a higher score than the move it returns. *)
Theorem score_reflex_agent_best (g : Gamestate.t) (v : Vector) (draw : nat) :
  well_formed g →
  Gamestate.agents g !! 0%nat = Some (Some v) →
  ∃ moves m g',
    Gamestate.legal_moves_id g 0 = Ok moves
    ∧ Agents.ReflexAgent_move Agents.ScoreReflexAgent_evaluate draw
        (Gamestate.copy g) = Ok m
    ∧ m ∈ moves
    ∧ Gamestate.successor g 0 (Some m) = Ok g'
    ∧ ∀ m', m' ∈ moves →
        ∃ g'', Gamestate.successor g 0 (Some m') = Ok g''
               ∧ Gamestate.score g'' ≤ Gamestate.score g'.
Proof.
  intros Hg Hv. destruct (legal_moves_well_formed g 0 v Hg Hv) as (Hvec & Hid & Hstop).
  set (moves := list_to_set _ : gset Move.t) in *.
  assert (Hsucc : ∀ m, m ∈ moves → ∃ g', Gamestate.successor g 0 (Some m) = Ok g').
  { intros m Hm. apply elem_of_list_to_set, list_elem_of_filter in Hm as [Hfree _].
    destruct (apply_move_well_formed g 0 m v Hg Hv Hfree) as (g' & E & _).
    exists g'. unfold Gamestate.successor. by rewrite copy_id, E. }
  clearbody moves.
  set (sc := fun m => match Gamestate.successor g 0 (Some m) with
                      | Ok g' => Gamestate.score g'
                      | Raise _ => 0
                      end).
  set (l := elements moves).
  assert (Hl : ∀ m, m ∈ l ↔ m ∈ moves) by (intros m; apply elem_of_elements).
  assert (Hne : l ≠ []).
  { intros E. apply (proj2 (Hl Move.stop)) in Hstop. rewrite E in Hstop.
    by apply elem_of_nil in Hstop. }
  assert (Hscores : mapM (fun move =>
              s ← Agents.ScoreReflexAgent_evaluate (Gamestate.copy g) move;
              Ok (move, s)) l = Ok ((fun m => (m, sc m)) <$> l)).
  { apply mapM_fmap_ok. intros m Hm. apply Hl in Hm.
    destruct (Hsucc m Hm) as [g' E].
    unfold Agents.ScoreReflexAgent_evaluate, sc. rewrite copy_id, E. done. }
  destruct (py_max_spec (sc <$> l)) as (M & HM & HMin & HMmax).
  { destruct l; [done|discriminate]. }
  assert (Hlookup : ∀ m, m ∈ l →
    (list_to_map ((fun m => (m, sc m)) <$> l) : gmap Move.t Z) !! m = Some (sc m)).
  { intros m Hm. apply elem_of_list_to_map_1.
    - rewrite <- list_fmap_compose. simpl.
      replace (fst ∘ (fun m0 : Move.t => (m0, sc m0))) with (@id Move.t) by done.
      rewrite list_fmap_id. apply NoDup_elements.
    - apply list_elem_of_fmap. by exists m. }
  set (max_moves := filter (fun move =>
         (list_to_map ((fun m => (m, sc m)) <$> l) : gmap Move.t Z) !! move = Some M) l).
  assert (Hmaxne : max_moves ≠ []).
  { apply list_elem_of_fmap in HMin as (m0 & E0 & Hm0).
    intros E. assert (Hin : m0 ∈ max_moves).
    { apply list_elem_of_filter. split; [|done]. rewrite Hlookup by done. by rewrite E0. }
    rewrite E in Hin. by apply elem_of_nil in Hin. }
  destruct (choice_elem draw max_moves Hmaxne) as (m & Hchoice & Hm).
  apply list_elem_of_filter in Hm as [HmM Hml].
  rewrite Hlookup in HmM by done. injection HmM as HmM.
  destruct (Hsucc m (proj1 (Hl m) Hml)) as [g' Eg'].
  exists moves, m, g'. split; [done|]. split.
  { rewrite copy_id. unfold Agents.ReflexAgent_move, nat_get. rewrite Hv.
    cbn [mbind result_bind]. rewrite Hvec. cbn [mbind result_bind].
    fold l. rewrite Hscores. cbn [mbind result_bind].
    rewrite <- list_fmap_compose.
    replace (snd ∘ (fun m0 : Move.t => (m0, sc m0))) with sc by done.
    rewrite HM. cbn [mbind result_bind]. exact Hchoice. }
  split; [by apply Hl|]. split; [done|].
  intros m' Hm'. destruct (Hsucc m' Hm') as [g'' Eg'']. exists g''. split; [done|].
  assert (Hle : sc m' ≤ M).
  { apply HMmax, list_elem_of_fmap. exists m'. split; [done|]. by apply Hl. }
  unfold sc in Hle, HmM. rewrite Eg'' in Hle. rewrite Eg' in HmM. lia.
Qed.

Lemma score_reflex_agent_best_witness :
  ∃ moves m g',
    Gamestate.legal_moves_id (corridor_world 0) 0 = Ok moves
    ∧ Agents.ReflexAgent_move Agents.ScoreReflexAgent_evaluate 5
        (Gamestate.copy (corridor_world 0)) = Ok m
    ∧ m ∈ moves
    ∧ Gamestate.successor (corridor_world 0) 0 (Some m) = Ok g'
    ∧ ∀ m', m' ∈ moves →
        ∃ g'', Gamestate.successor (corridor_world 0) 0 (Some m') = Ok g''
               ∧ Gamestate.score g'' ≤ Gamestate.score g'.
Proof.
  apply (score_reflex_agent_best (corridor_world 0) (mkVector 1 1) 5).
  - exact (corridor_well_formed 0).
  - reflexivity.
Defined.

(** ** The moves of the adversarial agents ([ass4.py]) *)

Section AdversarialMoves.
Import Ass4.
Variable evaluate : Gamestate.t → score.

Lemma max_loop_move recurse g l bs ba alpha beta s m :
  max_loop recurse g l bs ba alpha beta = Ok (s, m) → m = ba ∨ m ∈ l.
Proof.
  revert bs ba alpha. induction l as [|move l IH]; intros bs ba alpha; cbn [max_loop].
  - intros [= _ <-]. by left.
  - destruct (Gamestate.successor g 0 (Some move)) as [g'|]; [|done].
    cbn [mbind result_bind].
    destruct (recurse g' alpha beta) as [r|]; [|done]. cbn [mbind result_bind].
    destruct (ltb bs r.1).
    + destruct (leb beta (max2 r.1 alpha)).
      * intros [= _ <-]. right. left.
      * intros Hl. apply IH in Hl as [->|Hl]; right; [left|by right].
    + destruct (leb beta (max2 bs alpha)).
      * intros [= _ <-]. by left.
      * intros Hl. apply IH in Hl as [->|Hl]; [by left|right; by right].
Qed.

Lemma alpha_beta_root_move (g : Gamestate.t) (d : nat) (s : score) (m : Move.t)
    (moves : gset Move.t) :
  Gamestate.legal_moves_id g 0 = Ok moves →
  alpha_beta evaluate g d true NegInf PosInf = Ok (s, m) →
  m = Move.stop ∨ m ∈ moves.
Proof.
  intros Hlegal. destruct d as [|d]; cbn [alpha_beta]; [intros [= _ <-]; by left|].
  unfold max_node. destruct (loss_or_win g) as [[|]|]; cbn [mbind result_bind];
    [intros [= _ <-]; by left| |done].
  rewrite Hlegal. cbn [fmap result_fmap mbind result_bind].
  intros Hl. apply max_loop_move in Hl as [->|Hl]; [by left|].
  right. by apply elem_of_elements.
Qed.

Lemma minimax_root_move (random_choice : list nat → nat) (g : Gamestate.t)
    (d : nat) (s : score) (m : Move.t) (moves : gset Move.t) :
  Gamestate.legal_moves_id g 0 = Ok moves →
  minimax evaluate random_choice g d true = Ok (s, m) →
  m = Move.stop ∨ m ∈ moves.
Proof.
  intros Hlegal. destruct d as [|d]; cbn [minimax]; [intros [= _ <-]; by left|].
  unfold minimax_node at 1.
  destruct (loss_or_win g) as [[|]|]; cbn [mbind result_bind];
    [intros [= _ <-]; by left| |done].
  rewrite Hlegal. cbn [fmap result_fmap mbind result_bind].
  destruct (mapM _ (elements moves)) as [scores|]; [|done]. cbn [mbind result_bind].
  destruct (py_max scores) as [best|]; [|done]. cbn [mbind result_bind].
  unfold nat_get.
  destruct (elements moves !! random_choice (best_actions scores best)) as [a|] eqn:Ha;
    [|done].
  cbn [mbind result_bind]. intros [= _ <-]. right.
  apply elem_of_elements. by eapply list_elem_of_lookup_2.
Qed.

End AdversarialMoves.

(** X22: the adversarial agents make legal moves. In a world with Pacman
    and a ghost in which the game goes on, with a [random.choice] that
    picks from its list, [MinimaxAgent.move] and [AlphabetaAgent.move] return,
    whatever the depth and the evaluation function, and what each returns is
    a legal move of Pacman. *)
Theorem adversarial_moves_legal (evaluate : Gamestate.t → Ass4.score)
    (random_choice : list nat → nat) (depth : nat) (g : Gamestate.t) (v : Vector) :
  playable g →
  Gamestate.agents g !! 0%nat = Some (Some v) →
  (∀ l, l ≠ [] → random_choice l ∈ l) →
  ∃ moves m m',
    Gamestate.legal_moves_id g 0 = Ok moves
    ∧ Ass4.MinimaxAgent_move evaluate random_choice depth (Gamestate.copy g) = Ok m
    ∧ Ass4.AlphabetaAgent_move evaluate depth (Gamestate.copy g) = Ok m'
    ∧ m ∈ moves ∧ m' ∈ moves.
Proof.
  intros Hg Hv Hchoice. pose proof (playable_well_formed g Hg) as Hs.
  destruct (legal_moves_well_formed g 0 v Hs Hv) as (_ & Hlegal & Hstop).
  destruct (minimax_returns evaluate random_choice Hchoice depth true g Hg)
    as [[s m] Hmm].
  destruct (alpha_beta_agrees evaluate random_choice g depth s m Hmm) as [m' Hab].
  eexists _, m, m'. split; [exact Hlegal|]. rewrite copy_id.
  unfold Ass4.MinimaxAgent_move, Ass4.AlphabetaAgent_move. rewrite Hmm, Hab.
  split; [done|]. split; [done|]. split.
  - destruct (minimax_root_move evaluate random_choice g depth s m _ Hlegal Hmm)
      as [->|]; done.
  - destruct (alpha_beta_root_move evaluate g depth s m' _ Hlegal Hab) as [->|]; done.
Qed.

Lemma adversarial_moves_legal_witness :
  ∃ moves m m',
    Gamestate.legal_moves_id arena_world 0 = Ok moves
    ∧ Ass4.MinimaxAgent_move Ass4.score_evaluate (fun l => default 0%nat (head l)) 2
        (Gamestate.copy arena_world) = Ok m
    ∧ Ass4.AlphabetaAgent_move Ass4.score_evaluate 2 (Gamestate.copy arena_world)
      = Ok m'
    ∧ m ∈ moves ∧ m' ∈ moves.
Proof.
  apply (adversarial_moves_legal Ass4.score_evaluate
           (fun l => default 0%nat (head l)) 2 arena_world (mkVector 1 1)).
  - exact arena_playable.
  - reflexivity.
  - intros [|x l] Hne; [done|]. simpl. left.
Defined.

(** ** Loading a layout ([pacman/layouts.py]) *)

(** A symbol stands for a ghost as a layout object exactly when it has a
    ghost type. *)
Lemma ghost_symbol (symbol : ascii) (o : LayoutObject.t) :
  LayoutObject.from_symbol symbol = Ok o →
  o = LayoutObject.ghost ↔ GhostType.from_symbol symbol ≠ GhostType.no_ghost.
Proof.
  destruct symbol as [[] [] [] [] [] [] [] []]; simpl; intros [= <-];
    split; (done || (intros H; by destruct H)).
Qed.

Lemma vector_leb_total (a b : Vector) :
  Layouts.vector_leb a b = true ∨ Layouts.vector_leb b a = true.
Proof.
  unfold Layouts.vector_leb.
  destruct (Z.ltb_spec (vx a) (vx b)), (Z.ltb_spec (vx b) (vx a)),
    (Z.eqb_spec (vx a) (vx b)), (Z.eqb_spec (vx b) (vx a)),
    (Z.leb_spec (vy a) (vy b)), (Z.leb_spec (vy b) (vy a)); simpl; auto; lia.
Qed.

Lemma vector_leb_trans (a b c : Vector) :
  Layouts.vector_leb a b = true → Layouts.vector_leb b c = true →
  Layouts.vector_leb a c = true.
Proof.
  unfold Layouts.vector_leb.
  destruct (Z.ltb_spec (vx a) (vx b)), (Z.ltb_spec (vx b) (vx c)),
    (Z.ltb_spec (vx a) (vx c)),
    (Z.eqb_spec (vx a) (vx b)), (Z.eqb_spec (vx b) (vx c)),
    (Z.eqb_spec (vx a) (vx c)),
    (Z.leb_spec (vy a) (vy b)), (Z.leb_spec (vy b) (vy c)),
    (Z.leb_spec (vy a) (vy c)); simpl; auto; lia.
Qed.

Lemma vector_leb_strict (a b : Vector) :
  Layouts.vector_leb a b = true → a ≠ b → column_major a b.
Proof.
  unfold Layouts.vector_leb, column_major. destruct a as [ax ay], b as [bx by'].
  simpl. intros Hle Hne.
  destruct (Z.ltb_spec ax bx); [by left|]. simpl in Hle.
  destruct (Z.eqb_spec ax bx); [|done]. simpl in Hle.
  apply Z.leb_le in Hle. right. split; [done|].
  destruct (decide (ay = by')) as [->|]; [|lia]. subst. done.
Qed.

Section Sorted.
Context {A : Type} (key : A → Vector).

Lemma sorted_insert_perm (x : A) (l : list A) :
  Layouts.sorted_insert key x l ≡ₚ x :: l.
Proof.
  induction l as [|y l IH]; [done|]. simpl.
  destruct (Layouts.vector_leb (key x) (key y)); [done|].
  rewrite IH. apply Permutation_swap.
Qed.

Lemma sorted_perm (l : list A) : Layouts.sorted key l ≡ₚ l.
Proof.
  induction l as [|x l IH]; [done|]. unfold Layouts.sorted in *. simpl.
  by rewrite sorted_insert_perm, IH.
Qed.

Lemma sorted_insert_sorted (x : A) (l : list A) :
  StronglySorted (fun a b => Layouts.vector_leb (key a) (key b) = true) l →
  StronglySorted (fun a b => Layouts.vector_leb (key a) (key b) = true)
    (Layouts.sorted_insert key x l).
Proof.
  induction 1 as [|y l Hs IH Hall]; simpl; [repeat constructor|].
  destruct (Layouts.vector_leb (key x) (key y)) eqn:Hle.
  - constructor; [by constructor|]. constructor; [done|].
    eapply Forall_impl; [exact Hall|]. intros z Hz. simpl in Hz.
    by eapply vector_leb_trans.
  - constructor; [done|].
    assert (Hyx : Layouts.vector_leb (key y) (key x) = true).
    { destruct (vector_leb_total (key x) (key y)); [congruence|done]. }
    rewrite sorted_insert_perm. by constructor.
Qed.

Lemma sorted_sorted (l : list A) :
  StronglySorted (fun a b => Layouts.vector_leb (key a) (key b) = true)
    (Layouts.sorted key l).
Proof.
  induction l as [|x l IH]; [constructor|]. unfold Layouts.sorted in *. simpl.
  by apply sorted_insert_sorted.
Qed.

End Sorted.

(** Two lists in column-major order with the same elements are equal. *)
Lemma column_major_ext (l1 l2 : list Vector) :
  StronglySorted column_major l1 → StronglySorted column_major l2 →
  (∀ v, v ∈ l1 ↔ v ∈ l2) → l1 = l2.
Proof.
  intros H1. revert l2. induction H1 as [|x l1 Hs1 IH Hall1]; intros l2 H2 Hmem.
  - destruct l2 as [|y l2]; [done|]. exfalso.
    assert (Hy : y ∈ y :: l2) by left. apply Hmem in Hy. by apply elem_of_nil in Hy.
  - destruct H2 as [|y l2 Hs2 Hall2].
    { exfalso. assert (Hx : x ∈ x :: l1) by left. apply Hmem in Hx.
      by apply elem_of_nil in Hx. }
    rewrite Forall_forall in Hall1, Hall2.
    assert (Hxy : x = y).
    { assert (Hx : x ∈ y :: l2) by (apply Hmem; left).
      assert (Hy : y ∈ x :: l1) by (apply Hmem; left).
      apply elem_of_cons in Hx as [Hx|Hx]; [done|].
      apply elem_of_cons in Hy as [Hy|Hy]; [done|].
      specialize (Hall1 y Hy). specialize (Hall2 x Hx).
      unfold column_major in *. exfalso. lia. }
    subst y. f_equal. apply IH; [done|]. intros v. split; intros Hv.
    + assert (Hv' : v ∈ x :: l2) by (apply Hmem; by right).
      apply elem_of_cons in Hv' as [->|Hv']; [|done].
      specialize (Hall1 x Hv). unfold column_major in Hall1. exfalso. lia.
    + assert (Hv' : v ∈ x :: l1) by (apply Hmem; by right).
      apply elem_of_cons in Hv' as [->|Hv']; [|done].
      specialize (Hall2 x Hv). unfold column_major in Hall2. exfalso. lia.
Qed.

Lemma mapM_result_Forall2 {A B} (f : A → result B) (l : list A) (k : list B) :
  mapM f l = Ok k → Forall2 (fun x y => f x = Ok y) l k.
Proof.
  revert k. induction l as [|x l IH]; intros k.
  - cbn. intros [= <-]. constructor.
  - cbn. destruct (f x) as [y|] eqn:Hy; [|done]. simpl.
    destruct (mapM f l) as [k'|] eqn:Hk; [|done]. simpl.
    intros [= <-]. constructor; [done|]. by apply IH.
Qed.

Section Load.
Variable symbols : list (list ascii).
Variable objects : list (list LayoutObject.t).
Variable R C : nat.
Hypothesis symbols_grid : grid symbols R C.
Hypothesis R_pos : (0 < R)%nat.
Hypothesis C_pos : (0 < C)%nat.
Hypothesis objects_ok :
  mapM (M := result) (mapM (M := result) LayoutObject.from_symbol) symbols = Ok objects.

Lemma objects_rows :
  Forall2 (Forall2 (fun ch o => LayoutObject.from_symbol ch = Ok o)) symbols objects.
Proof.
  apply mapM_result_Forall2 in objects_ok.
  eapply Forall2_impl; [exact objects_ok|]. intros row orow.
  apply mapM_result_Forall2.
Qed.

Lemma objects_grid : grid objects R C.
Proof.
  pose proof objects_rows as Hrows. destruct symbols_grid as [Hlen Hall].
  split.
  - rewrite <- Hlen. symmetry. by eapply Forall2_length.
  - apply Forall_forall. intros orow Horow.
    apply list_elem_of_lookup in Horow as [i Hi].
    destruct (Forall2_lookup_r _ _ _ _ _ Hrows Hi) as (row & Hrow & Hf).
    rewrite Forall_forall in Hall.
    rewrite <- (Hall row) by (by eapply list_elem_of_lookup_2).
    symmetry. by eapply Forall2_length.
Qed.

Lemma objects_cell (r c : nat) :
  match cell symbols r c with
  | Some ch => ∃ o, cell objects r c = Some o ∧ LayoutObject.from_symbol ch = Ok o
  | None => cell objects r c = None
  end.
Proof.
  pose proof objects_rows as Hrows. unfold cell.
  destruct (symbols !! r) as [row|] eqn:Hrow; simpl.
  - destruct (Forall2_lookup_l _ _ _ _ _ Hrows Hrow) as (orow & Horow & Hf).
    rewrite Horow. simpl.
    destruct (row !! c) as [ch|] eqn:Hch.
    + destruct (Forall2_lookup_l _ _ _ _ _ Hf Hch) as (o & Ho & Hfo).
      exists o. by rewrite Ho.
    + apply lookup_ge_None in Hch. apply lookup_ge_None.
      by rewrite <- (Forall2_length _ _ _ Hf).
  - apply lookup_ge_None in Hrow.
    rewrite (lookup_ge_None_2 objects r); [done|].
    by rewrite <- (Forall2_length _ _ _ Hrows).
Qed.

(** The ghost type at a line and a column *)
Definition ghost_type_at (xy : Z * Z) : GhostType.t :=
  default GhostType.no_ghost
    (GhostType.from_symbol <$> cell symbols (Z.to_nat xy.1) (Z.to_nat xy.2)).

Definition found (l : list (Z * Z)) : list (GhostType.t * Vector) :=
  (fun xy => (ghost_type_at xy, mkVector xy.2 (Z.of_nat R - xy.1 - 1)))
    <$> filter (fun xy => ghost_type_at xy ≠ GhostType.no_ghost) l.

Let ghost_types : list (list GhostType.t) :=
  (fun r : list ascii => GhostType.from_symbol <$> r) <$> symbols.

Lemma ghost_types_get (x y : Z) :
  0 ≤ x < Z.of_nat R → 0 ≤ y < Z.of_nat C →
  ∃ row, py_get ghost_types x = Ok row ∧ py_get row y = Ok (ghost_type_at (x, y))
         ∧ len row = Z.of_nat C.
Proof.
  intros Hx Hy. destruct symbols_grid as [Hlen Hall].
  destruct (lookup_lt_is_Some_2 symbols (Z.to_nat x)) as [row Hrow]; [lia|].
  assert (Hrl : length row = C).
  { rewrite Forall_forall in Hall. apply Hall. by eapply list_elem_of_lookup_2. }
  destruct (lookup_lt_is_Some_2 row (Z.to_nat y)) as [ch Hch]; [lia|].
  exists (GhostType.from_symbol <$> row). split; [|split].
  - apply py_get_ok; [lia|]. unfold ghost_types. rewrite list_lookup_fmap.
    by rewrite Hrow.
  - apply py_get_ok; [lia|]. rewrite list_lookup_fmap, Hch.
    unfold ghost_type_at, cell. simpl. rewrite Hrow. simpl. by rewrite Hch.
  - rewrite len_fmap. unfold len. by rewrite Hrl.
Qed.

Lemma ghost_loop (l : list (Z * Z)) (acc : list (GhostType.t * Vector)) :
  Forall (fun xy => 0 ≤ xy.1 < Z.of_nat R ∧ 0 ≤ xy.2 < Z.of_nat C) l →
  foldl (fun acc xy =>
           ghosts ← acc;
           row ← py_get ghost_types xy.1; ghost_type ← py_get row xy.2;
           Ok (if decide (ghost_type ≠ GhostType.no_ghost)
               then ghosts ++ [(ghost_type,
                                mkVector xy.2 (Z.of_nat R - xy.1 - 1))]
               else ghosts))
        (Ok acc) l
  = Ok (acc ++ found l).
Proof.
  intros Hall. revert acc. induction Hall as [|[x y] l [Hx Hy] Hall IH]; intros acc.
  - simpl. unfold found. simpl. by rewrite app_nil_r.
  - simpl in Hx, Hy. cbn [foldl].
    destruct (ghost_types_get x y Hx Hy) as (row & Hrow & Hty & _).
    cbn [mbind result_bind fst snd]. rewrite Hrow. cbn [mbind result_bind].
    rewrite Hty. cbn [mbind result_bind].
    unfold found. rewrite filter_cons.
    destruct (decide (ghost_type_at (x, y) ≠ GhostType.no_ghost)) as [Hg|Hg].
    + rewrite IH. unfold found. rewrite fmap_cons. by rewrite <- app_assoc.
    + by rewrite IH.
Qed.

Lemma load_layout_eq :
  Layouts.load_layout symbols
  = Ok (Array.mirror_ver (Array.transpose objects),
        Layouts.sorted snd (found (Array.product_range (Z.of_nat R) (Z.of_nat C)))).
Proof.
  unfold Layouts.load_layout. rewrite objects_ok. cbn [mbind result_bind].
  fold ghost_types.
  destruct symbols_grid as [Hlen Hall].
  destruct (ghost_types_get 0 0) as (row0 & Hrow0 & _ & Hl0); [lia..|].
  rewrite Hrow0. cbn [mbind result_bind fst snd].
  assert (Hl : len ghost_types = Z.of_nat R).
  { unfold ghost_types. rewrite len_fmap. unfold len. by rewrite Hlen. }
  rewrite Hl, Hl0. rewrite (ghost_loop _ []).
  - cbn [mbind result_bind]. unfold Array.copy. by rewrite list_fmap_id.
  - apply Forall_forall. intros [x y] Hxy. by apply elem_of_product_range in Hxy.
Qed.

(** The array that is returned: the lines become the rows of the grid,
    the last line at the bottom. *)
Lemma loaded_grid :
  grid (Array.mirror_ver (Array.transpose objects)) C R
  ∧ ∀ r c, (r < R)%nat →
      cell (Array.mirror_ver (Array.transpose objects)) c (R - 1 - r) = cell objects r c.
Proof.
  pose proof objects_grid as Hg.
  destruct (transpose_grid objects R C Hg R_pos) as [Hg1 Hc1].
  unfold Array.mirror_ver.
  destruct (transpose_grid _ C R Hg1 C_pos) as [Hg2 Hc2].
  pose proof (mirror_hor_grid _ _ _ Hg2) as Hg3.
  destruct (transpose_grid _ R C Hg3 R_pos) as [Hg4 Hc4].
  split; [done|]. intros r c Hr.
  rewrite Hc4. unfold Array.mirror_hor. destruct Hg2 as [Hlen2 _].
  rewrite cell_reverse by lia. rewrite Hlen2.
  replace (R - S (R - 1 - r))%nat with r by lia.
  rewrite Hc2. by rewrite Hc1.
Qed.

End Load.

Lemma product_range_NoDup (n m : Z) : NoDup (Array.product_range n m).
Proof.
  pose proof (product_range_sorted n m) as Hs.
  induction Hs as [|p l Hs IH Hall]; constructor; [|done].
  intros Hp. rewrite Forall_forall in Hall. specialize (Hall p Hp). simpl in Hall. lia.
Qed.

Lemma leb_sorted_strict (l : list Vector) :
  StronglySorted (fun a b => Layouts.vector_leb a b = true) l → NoDup l →
  StronglySorted column_major l.
Proof.
  induction 1 as [|x l Hs IH Hall]; intros Hnd; [constructor|].
  apply NoDup_cons in Hnd as [Hx Hnd]. constructor; [by apply IH|].
  rewrite Forall_forall in Hall. apply Forall_forall. intros y Hy.
  apply vector_leb_strict; [by apply Hall|]. intros ->. done.
Qed.

(** X21: the ghosts that [load_layout] finds are the ghosts of the array
    it returns, in the order in which a game state numbers them. For lines
    of one length, not empty and with known symbols only, [load_layout]
    returns; the array is rectangular, as wide as a line is long and as
    high as there are lines, and holds the object of the symbol of line [r]
    and column [c] at [(c, R - 1 - r)] when there are [R] lines. Every
    entry of the list of ghosts has a ghost type and the position of its
    symbol in the array, and the positions of the list are
    [array.list(LayoutObject.ghost)]: the same positions in the same
    order. *)
Theorem load_layout_ghosts (symbols : list (list ascii))
    (objects : list (list LayoutObject.t)) :
  symbols ≠ [] →
  Array.rectangular symbols →
  [] ∉ symbols →
  mapM (M := result) (mapM (M := result) LayoutObject.from_symbol) symbols
  = Ok objects →
  ∃ arr ghosts,
    Layouts.load_layout symbols = Ok (arr, ghosts)
    ∧ Array.rectangular arr
    ∧ Array.shape arr = Ok (mkVector (len (default [] (head symbols))) (len symbols))
    ∧ (∀ r c o, cell objects r c = Some o →
         Array.getitem arr (Z.of_nat c) (len symbols - 1 - Z.of_nat r) = Ok (Some o))
    ∧ Array.list_ arr LayoutObject.ghost = Ok (ghosts.*2)
    ∧ Forall (fun gh : GhostType.t * Vector =>
                gh.1 ≠ GhostType.no_ghost
                ∧ ∃ r c symbol,
                    cell symbols r c = Some symbol
                    ∧ gh.1 = GhostType.from_symbol symbol
                    ∧ gh.2 = mkVector (Z.of_nat c) (len symbols - 1 - Z.of_nat r))
        ghosts.
Proof.
  intros Hne Hrect Hrows Hobj.
  destruct (grid_of_rectangular symbols Hrect Hrows Hne) as (R & C & Hg & HR & HC).
  destruct (grid_dims symbols R C Hg HR) as [HlenR HlenC].
  unfold height in HlenC. rewrite HlenR, HlenC.
  pose proof (load_layout_eq symbols objects R C Hg HR HC Hobj) as Hload.
  destruct (loaded_grid symbols objects R C Hg HR HC Hobj) as [Hga Hcell].
  set (arr := Array.mirror_ver (Array.transpose objects)) in *.
  set (pr := Array.product_range (Z.of_nat R) (Z.of_nat C)) in *.
  set (fnd := found symbols R pr) in *.
  pose proof (grid_rectangular arr C R Hga) as Hra.
  pose proof (objects_grid symbols objects R C Hg Hobj) as Hgo.
  assert (Hget : ∀ r c o, cell objects r c = Some o →
            Array.getitem arr (Z.of_nat c) (Z.of_nat R - 1 - Z.of_nat r) = Ok (Some o)).
  { intros r c o Ho.
    assert (Hr : (r < R)%nat ∧ (c < C)%nat).
    { unfold cell in Ho. destruct (objects !! r) as [row|] eqn:Hrow; [|done].
      simpl in Ho. destruct Hgo as [Hl Hall]. split.
      - apply lookup_lt_Some in Hrow. lia.
      - rewrite Forall_forall in Hall.
        rewrite <- (Hall row) by (by eapply list_elem_of_lookup_2).
        by apply lookup_lt_Some in Ho. }
    rewrite (getitem_grid arr C R) by done. rewrite decide_True by lia.
    replace (Z.to_nat (Z.of_nat R - 1 - Z.of_nat r)) with (R - 1 - r)%nat by lia.
    rewrite Nat2Z.id. rewrite Hcell by lia. by rewrite Ho. }
  assert (Hfound : ∀ gh, gh ∈ fnd ↔
            ∃ r c symbol, (r < R)%nat ∧ (c < C)%nat
              ∧ cell symbols r c = Some symbol
              ∧ GhostType.from_symbol symbol ≠ GhostType.no_ghost
              ∧ gh = (GhostType.from_symbol symbol,
                      mkVector (Z.of_nat c) (Z.of_nat R - 1 - Z.of_nat r))).
  { intros gh. unfold fnd, found. rewrite list_elem_of_fmap. split.
    - intros ([x y] & -> & Hin). apply list_elem_of_filter in Hin as [Hty Hin].
      apply elem_of_product_range in Hin as [Hx Hy].
      unfold ghost_type_at in *. simpl in *.
      destruct (cell symbols (Z.to_nat x) (Z.to_nat y)) as [symbol|] eqn:Hs;
        [|done]. simpl in *.
      exists (Z.to_nat x), (Z.to_nat y), symbol. split; [lia|]. split; [lia|].
      split; [done|]. split; [done|]. do 2 f_equal; lia.
    - intros (r & c & symbol & Hr & Hc & Hs & Hty & ->).
      exists (Z.of_nat r, Z.of_nat c). unfold ghost_type_at. simpl.
      rewrite !Nat2Z.id, Hs. simpl. split; [do 2 f_equal; lia|].
      apply list_elem_of_filter. simpl. rewrite !Nat2Z.id, Hs. simpl.
      split; [done|]. apply elem_of_product_range. lia. }
  assert (Hmem : ∀ x y, mkVector x y ∈ fnd.*2
                        ↔ Array.getitem arr x y = Ok (Some LayoutObject.ghost)).
  { intros x y. rewrite list_elem_of_fmap. split.
    - intros (gh & Hv & Hin). apply Hfound in Hin
        as (r & c & symbol & Hr & Hc & Hs & Hty & ->). simpl in Hv.
      injection Hv as -> ->.
      pose proof (objects_cell symbols objects Hobj r c) as Hoc. rewrite Hs in Hoc.
      destruct Hoc as (o & Ho & Hfrom).
      rewrite (Hget r c o Ho). do 2 f_equal.
      by apply (ghost_symbol symbol o Hfrom).
    - intros Hgh. pose proof (getitem_Some_in_bounds _ _ _ _ Hgh) as [Hx Hy].
      destruct (grid_dims arr C R Hga HC) as [Hla Hha]. rewrite Hla in Hx.
      rewrite Hha in Hy.
      set (r := (R - 1 - Z.to_nat y)%nat). set (c := Z.to_nat x).
      pose proof (objects_cell symbols objects Hobj r c) as Hoc.
      destruct (cell symbols r c) as [symbol|] eqn:Hs.
      + destruct Hoc as (o & Ho & Hfrom).
        pose proof (Hget r c o Ho) as Hg'.
        replace (Z.of_nat c) with x in Hg' by (unfold c; lia).
        replace (Z.of_nat R - 1 - Z.of_nat r) with y in Hg' by (unfold r; lia).
        rewrite Hgh in Hg'. injection Hg' as <-.
        exists (GhostType.from_symbol symbol, mkVector x y). split; [done|].
        apply Hfound. exists r, c, symbol. split; [unfold r; lia|].
        split; [unfold c; lia|]. split; [done|]. split.
        * by apply (ghost_symbol symbol LayoutObject.ghost Hfrom).
        * do 2 f_equal; [unfold c|unfold r]; lia.
      + exfalso. destruct Hg as [Hl Hall].
        unfold cell in Hs.
        destruct (lookup_lt_is_Some_2 symbols r) as [row Hrow]; [unfold r; lia|].
        rewrite Hrow in Hs. simpl in Hs. apply lookup_ge_None in Hs.
        rewrite Forall_forall in Hall.
        rewrite (Hall row) in Hs by (by eapply list_elem_of_lookup_2).
        unfold c in Hs. lia. }
  set (ghosts := Layouts.sorted snd fnd) in *.
  pose proof (sorted_perm snd fnd) as Hperm. fold ghosts in Hperm.
  assert (Hnd : NoDup (fnd.*2)).
  { unfold fnd, found. rewrite <- list_fmap_compose.
    apply NoDup_fmap_2_strong; [|apply NoDup_filter, product_range_NoDup].
    intros [x y] [x' y'] _ _. simpl. intros [= -> Hx].
    f_equal. lia. }
  assert (Hsorted : StronglySorted column_major (ghosts.*2)).
  { apply leb_sorted_strict; [|by rewrite Hperm].
    eapply (StronglySorted_fmap _ _ (fun a b => Layouts.vector_leb a b = true));
      [|apply (sorted_sorted snd)].
    intros a b Hab. exact Hab. }
  destruct (list_hits_positions arr LayoutObject.ghost Hra) as (L & HL & HLmem & HLs & _).
  exists arr, ghosts. split_and!; try done.
  - rewrite shape_eq. destruct (grid_dims arr C R Hga HC) as [-> ->]. done.
  - rewrite HL. f_equal. apply column_major_ext; [done..|].
    intros [x y]. rewrite HLmem, <- Hmem. by rewrite Hperm.
  - apply Forall_forall. intros gh Hgh. rewrite Hperm in Hgh.
    apply Hfound in Hgh as (r & c & symbol & Hr & Hc & Hs & Hty & ->). simpl.
    split; [done|]. by exists r, c, symbol.
Qed.

(** Three lines of three symbols: a wall, a ghost and Pacman on a dot *)
Definition small_layout : list (list ascii) :=
  [["%"; "%"; "%"]; ["G"; "."; "P"]; ["%"; "3"; "%"]]%char.

Lemma load_layout_ghosts_witness :
  ∃ arr ghosts,
    Layouts.load_layout small_layout = Ok (arr, ghosts)
    ∧ Array.rectangular arr
    ∧ Array.shape arr
      = Ok (mkVector (len (default [] (head small_layout))) (len small_layout))
    ∧ (∀ r c o,
         cell [[LayoutObject.wall; LayoutObject.wall; LayoutObject.wall];
               [LayoutObject.ghost; LayoutObject.dot; LayoutObject.pacman];
               [LayoutObject.wall; LayoutObject.ghost; LayoutObject.wall]] r c
         = Some o →
         Array.getitem arr (Z.of_nat c) (len small_layout - 1 - Z.of_nat r)
         = Ok (Some o))
    ∧ Array.list_ arr LayoutObject.ghost = Ok (ghosts.*2)
    ∧ Forall (fun gh : GhostType.t * Vector =>
                gh.1 ≠ GhostType.no_ghost
                ∧ ∃ r c symbol,
                    cell small_layout r c = Some symbol
                    ∧ gh.1 = GhostType.from_symbol symbol
                    ∧ gh.2 = mkVector (Z.of_nat c)
                               (len small_layout - 1 - Z.of_nat r))
        ghosts.
Proof.
  apply (load_layout_ghosts small_layout).
  - discriminate.
  - unfold Array.rectangular. simpl. repeat constructor.
  - intros Hin. unfold small_layout in Hin.
    repeat (apply elem_of_cons in Hin as [Hin|Hin]; [discriminate|]).
    by apply elem_of_nil in Hin.
  - reflexivity.
Defined.
